(** * SolarPanel viewer: the geometric analysis and interaction engine

    A shallow embedding of [src/Raycasting/Dragging] (the viewer's script):
    the coplanar face merger, the draggable-object classifier, the
    pivot-offset transform engine, the shadow coverage estimator and the
    four-point panel validator, together with the small part of the
    three.js (r176) math and scene-graph classes these functions call.

    Conventions.
    - A JavaScript number is idealised as a real number ([R]); [NaN], the
      result of a failed [parseFloat], is the [None] of [option R].  Rounding
      is not modelled there: neither that of binary64 arithmetic nor that of
      the [Float32Array] behind a position attribute.  The pivot-offset
      transform engine is embedded a second time over binary64 numbers, in
      module [B64], for the statements that depend on rounding.
    - A JavaScript object with identity (a scene node) carries a [uuid]; the
      [Set] and [Map] keyed by nodes are a [gset] and a [gmap] over uuids.
    - Global mutable state is passed explicitly. *)

From Stdlib Require Import Reals Lra Lia ZArith List Permutation Sorted Ascii String RNsatz.
From Stdlib Require PrimFloat.
From stdpp Require Import base gmap sets list strings pretty.

Local Open Scope R_scope.
Set Warnings "-register-all".

(** ** Numbers *)

(** [a < b], [a <= b], [a === b] and [a > b], [a >= b] as booleans. *)
Definition Rltb (a b : R) : bool := if Rlt_dec a b then true else false.
Definition Rleb (a b : R) : bool := if Rle_dec a b then true else false.
Definition Reqb (a b : R) : bool := if Req_dec_T a b then true else false.
Definition Rgtb (a b : R) : bool := Rltb b a.
Definition Rgeb (a b : R) : bool := Rleb b a.

(** [Math.floor] *)
Definition Math_floor (a : R) : Z := (up a - 1)%Z.

(** [Math.max(a, b, c)] and [Math.min(a, b, c)] *)
Definition Math_max3 (a b c : R) : R := Rmax (Rmax a b) c.
Definition Math_min3 (a b c : R) : R := Rmin (Rmin a b) c.

(** ** three.js [Vector2] and [Vector3] *)

Module Vector2.
Record t : Type := mk { x : R; y : R }.
End Vector2.

Module Vector3.
Record t : Type := mk { x : R; y : R; z : R }.

Definition zero : t := mk 0 0 0.

Definition add (a b : t) : t := mk (x a + x b) (y a + y b) (z a + z b).
Definition sub (a b : t) : t := mk (x a - x b) (y a - y b) (z a - z b).

(** [target.subVectors(a, b)] is [a - b]; [addVectors] likewise. *)
Definition subVectors (a b : t) : t := sub a b.
Definition addVectors (a b : t) : t := add a b.

Definition multiplyScalar (v : t) (s : R) : t := mk (x v * s) (y v * s) (z v * s).
Definition divideScalar (v : t) (s : R) : t := multiplyScalar v (1 / s).
Definition negate (v : t) : t := mk (- x v) (- y v) (- z v).

Definition dot (a b : t) : R := x a * x b + y a * y b + z a * z b.

Definition crossVectors (a b : t) : t :=
  mk (y a * z b - z a * y b) (z a * x b - x a * z b) (x a * y b - y a * x b).
Definition cross (a b : t) : t := crossVectors a b.

Definition lengthSq (v : t) : R := x v * x v + y v * y v + z v * z v.
Definition length (v : t) : R := sqrt (lengthSq v).

(** [normalize() { return this.divideScalar(this.length() || 1) }] *)
Definition normalize (v : t) : t :=
  divideScalar v (if Req_dec_T (length v) 0 then 1 else length v).

(** [projectOnPlane(n)]: subtract the projection on [n], which is
    [n * (v.n / n.n)], or the zero vector when [n.n] is 0. *)
Definition projectOnVector (v n : t) : t :=
  if Req_dec_T (lengthSq n) 0 then zero
  else multiplyScalar n (dot n v / lengthSq n).
Definition projectOnPlane (v n : t) : t := sub v (projectOnVector v n).
End Vector3.

Abbreviation vec3 := Vector3.mk.

(** ** three.js [Quaternion] *)

Module Quaternion.
Record t : Type := mk { x : R; y : R; z : R; w : R }.

Definition identity : t := mk 0 0 0 1.

(** [invert()] is the conjugate: the quaternion is assumed of unit length. *)
Definition invert (q : t) : t := mk (- x q) (- y q) (- z q) (w q).

Definition lengthSq (q : t) : R := x q * x q + y q * y q + z q * z q + w q * w q.
End Quaternion.

(** [Vector3.applyQuaternion(q)]: [v + q.w * t + cross(q.xyz, t)] with
    [t = 2 * cross(q.xyz, v)]. *)
Definition applyQuaternion (v : Vector3.t) (q : Quaternion.t) : Vector3.t :=
  let vx := Vector3.x v in let vy := Vector3.y v in let vz := Vector3.z v in
  let qx := Quaternion.x q in let qy := Quaternion.y q in
  let qz := Quaternion.z q in let qw := Quaternion.w q in
  let tx := 2 * (qy * vz - qz * vy) in
  let ty := 2 * (qz * vx - qx * vz) in
  let tz := 2 * (qx * vy - qy * vx) in
  vec3 (vx + qw * tx + qy * tz - qz * ty)
       (vy + qw * ty + qz * tx - qx * tz)
       (vz + qw * tz + qx * ty - qy * tx).

(** ** three.js [Matrix4]

    [elements] is column-major: [e0 e1 e2 e3] is the first column.  The
    comments of three.js name the entries [n11 .. n44] (row, column). *)

Module Matrix4.
Record t : Type := mk {
  e0 : R; e1 : R; e2 : R; e3 : R;
  e4 : R; e5 : R; e6 : R; e7 : R;
  e8 : R; e9 : R; e10 : R; e11 : R;
  e12 : R; e13 : R; e14 : R; e15 : R }.

Definition identity : t := mk 1 0 0 0  0 1 0 0  0 0 1 0  0 0 0 1.
Definition zero : t := mk 0 0 0 0  0 0 0 0  0 0 0 0  0 0 0 0.

(** [compose(position, quaternion, scale)] *)
Definition compose (position : Vector3.t) (q : Quaternion.t) (scale : Vector3.t) : t :=
  let x := Quaternion.x q in let y := Quaternion.y q in
  let z := Quaternion.z q in let w := Quaternion.w q in
  let x2 := x + x in let y2 := y + y in let z2 := z + z in
  let xx := x * x2 in let xy := x * y2 in let xz := x * z2 in
  let yy := y * y2 in let yz := y * z2 in let zz := z * z2 in
  let wx := w * x2 in let wy := w * y2 in let wz := w * z2 in
  let sx := Vector3.x scale in let sy := Vector3.y scale in
  let sz := Vector3.z scale in
  mk ((1 - (yy + zz)) * sx) ((xy + wz) * sx) ((xz - wy) * sx) 0
     ((xy - wz) * sy) ((1 - (xx + zz)) * sy) ((yz + wx) * sy) 0
     ((xz + wy) * sz) ((yz - wx) * sz) ((1 - (xx + yy)) * sz) 0
     (Vector3.x position) (Vector3.y position) (Vector3.z position) 1.

(** [multiplyMatrices(a, b)] is the product [a * b]. *)
Definition multiplyMatrices (a b : t) : t :=
  let a11 := e0 a in let a21 := e1 a in let a31 := e2 a in let a41 := e3 a in
  let a12 := e4 a in let a22 := e5 a in let a32 := e6 a in let a42 := e7 a in
  let a13 := e8 a in let a23 := e9 a in let a33 := e10 a in let a43 := e11 a in
  let a14 := e12 a in let a24 := e13 a in let a34 := e14 a in let a44 := e15 a in
  let b11 := e0 b in let b21 := e1 b in let b31 := e2 b in let b41 := e3 b in
  let b12 := e4 b in let b22 := e5 b in let b32 := e6 b in let b42 := e7 b in
  let b13 := e8 b in let b23 := e9 b in let b33 := e10 b in let b43 := e11 b in
  let b14 := e12 b in let b24 := e13 b in let b34 := e14 b in let b44 := e15 b in
  mk (a11 * b11 + a12 * b21 + a13 * b31 + a14 * b41)
     (a21 * b11 + a22 * b21 + a23 * b31 + a24 * b41)
     (a31 * b11 + a32 * b21 + a33 * b31 + a34 * b41)
     (a41 * b11 + a42 * b21 + a43 * b31 + a44 * b41)
     (a11 * b12 + a12 * b22 + a13 * b32 + a14 * b42)
     (a21 * b12 + a22 * b22 + a23 * b32 + a24 * b42)
     (a31 * b12 + a32 * b22 + a33 * b32 + a34 * b42)
     (a41 * b12 + a42 * b22 + a43 * b32 + a44 * b42)
     (a11 * b13 + a12 * b23 + a13 * b33 + a14 * b43)
     (a21 * b13 + a22 * b23 + a23 * b33 + a24 * b43)
     (a31 * b13 + a32 * b23 + a33 * b33 + a34 * b43)
     (a41 * b13 + a42 * b23 + a43 * b33 + a44 * b43)
     (a11 * b14 + a12 * b24 + a13 * b34 + a14 * b44)
     (a21 * b14 + a22 * b24 + a23 * b34 + a24 * b44)
     (a31 * b14 + a32 * b24 + a33 * b34 + a34 * b44)
     (a41 * b14 + a42 * b24 + a43 * b34 + a44 * b44).

Definition determinant (m : t) : R :=
  let n11 := e0 m in let n21 := e1 m in let n31 := e2 m in let n41 := e3 m in
  let n12 := e4 m in let n22 := e5 m in let n32 := e6 m in let n42 := e7 m in
  let n13 := e8 m in let n23 := e9 m in let n33 := e10 m in let n43 := e11 m in
  let n14 := e12 m in let n24 := e13 m in let n34 := e14 m in let n44 := e15 m in
  n41 * (n14 * n23 * n32 - n13 * n24 * n32 - n14 * n22 * n33
         + n12 * n24 * n33 + n13 * n22 * n34 - n12 * n23 * n34)
  + n42 * (n11 * n23 * n34 - n11 * n24 * n33 + n14 * n21 * n33
           - n13 * n21 * n34 + n13 * n24 * n31 - n14 * n23 * n31)
  + n43 * (n11 * n24 * n32 - n11 * n22 * n34 - n14 * n21 * n32
           + n12 * n21 * n34 + n14 * n22 * n31 - n12 * n24 * n31)
  + n44 * (- n13 * n22 * n31 - n11 * n23 * n32 + n11 * n22 * n33
           + n13 * n21 * n32 - n12 * n21 * n33 + n12 * n23 * n31).

(** [invert()]: the adjugate over the determinant; the zero matrix when
    the determinant is 0. *)
Definition invert (m : t) : t :=
  let n11 := e0 m in let n21 := e1 m in let n31 := e2 m in let n41 := e3 m in
  let n12 := e4 m in let n22 := e5 m in let n32 := e6 m in let n42 := e7 m in
  let n13 := e8 m in let n23 := e9 m in let n33 := e10 m in let n43 := e11 m in
  let n14 := e12 m in let n24 := e13 m in let n34 := e14 m in let n44 := e15 m in
  let t11 := n23 * n34 * n42 - n24 * n33 * n42 + n24 * n32 * n43
             - n22 * n34 * n43 - n23 * n32 * n44 + n22 * n33 * n44 in
  let t12 := n14 * n33 * n42 - n13 * n34 * n42 - n14 * n32 * n43
             + n12 * n34 * n43 + n13 * n32 * n44 - n12 * n33 * n44 in
  let t13 := n13 * n24 * n42 - n14 * n23 * n42 + n14 * n22 * n43
             - n12 * n24 * n43 - n13 * n22 * n44 + n12 * n23 * n44 in
  let t14 := n14 * n23 * n32 - n13 * n24 * n32 - n14 * n22 * n33
             + n12 * n24 * n33 + n13 * n22 * n34 - n12 * n23 * n34 in
  let det := n11 * t11 + n21 * t12 + n31 * t13 + n41 * t14 in
  if Req_dec_T det 0 then zero
  else
    let detInv := 1 / det in
    mk (t11 * detInv)
       ((n24 * n33 * n41 - n23 * n34 * n41 - n24 * n31 * n43
         + n21 * n34 * n43 + n23 * n31 * n44 - n21 * n33 * n44) * detInv)
       ((n22 * n34 * n41 - n24 * n32 * n41 + n24 * n31 * n42
         - n21 * n34 * n42 - n22 * n31 * n44 + n21 * n32 * n44) * detInv)
       ((n23 * n32 * n41 - n22 * n33 * n41 - n23 * n31 * n42
         + n21 * n33 * n42 + n22 * n31 * n43 - n21 * n32 * n43) * detInv)
       (t12 * detInv)
       ((n13 * n34 * n41 - n14 * n33 * n41 + n14 * n31 * n43
         - n11 * n34 * n43 - n13 * n31 * n44 + n11 * n33 * n44) * detInv)
       ((n14 * n32 * n41 - n12 * n34 * n41 - n14 * n31 * n42
         + n11 * n34 * n42 + n12 * n31 * n44 - n11 * n32 * n44) * detInv)
       ((n12 * n33 * n41 - n13 * n32 * n41 + n13 * n31 * n42
         - n11 * n33 * n42 - n12 * n31 * n43 + n11 * n32 * n43) * detInv)
       (t13 * detInv)
       ((n14 * n23 * n41 - n13 * n24 * n41 - n14 * n21 * n43
         + n11 * n24 * n43 + n13 * n21 * n44 - n11 * n23 * n44) * detInv)
       ((n12 * n24 * n41 - n14 * n22 * n41 + n14 * n21 * n42
         - n11 * n24 * n42 - n12 * n21 * n44 + n11 * n22 * n44) * detInv)
       ((n13 * n22 * n41 - n12 * n23 * n41 - n13 * n21 * n42
         + n11 * n23 * n42 + n12 * n21 * n43 - n11 * n22 * n43) * detInv)
       (t14 * detInv)
       ((n13 * n24 * n31 - n14 * n23 * n31 + n14 * n21 * n33
         - n11 * n24 * n33 - n13 * n21 * n34 + n11 * n23 * n34) * detInv)
       ((n14 * n22 * n31 - n12 * n24 * n31 - n14 * n21 * n32
         + n11 * n24 * n32 + n12 * n21 * n34 - n11 * n22 * n34) * detInv)
       ((n12 * n23 * n31 - n13 * n22 * n31 + n13 * n21 * n32
         - n11 * n23 * n32 - n12 * n21 * n33 + n11 * n22 * n33) * detInv).
End Matrix4.

(** [Vector3.applyMatrix4(m)], with its perspective divide. *)
Definition applyMatrix4 (v : Vector3.t) (m : Matrix4.t) : Vector3.t :=
  let x := Vector3.x v in let y := Vector3.y v in let z := Vector3.z v in
  let w := 1 / (Matrix4.e3 m * x + Matrix4.e7 m * y + Matrix4.e11 m * z + Matrix4.e15 m) in
  vec3 ((Matrix4.e0 m * x + Matrix4.e4 m * y + Matrix4.e8 m * z + Matrix4.e12 m) * w)
       ((Matrix4.e1 m * x + Matrix4.e5 m * y + Matrix4.e9 m * z + Matrix4.e13 m) * w)
       ((Matrix4.e2 m * x + Matrix4.e6 m * y + Matrix4.e10 m * z + Matrix4.e14 m) * w).

(** [Vector3.setFromMatrixPosition(m)] *)
Definition setFromMatrixPosition (m : Matrix4.t) : Vector3.t :=
  vec3 (Matrix4.e12 m) (Matrix4.e13 m) (Matrix4.e14 m).

(** [Quaternion.setFromRotationMatrix(m)]: the upper 3x3 of [m] is assumed
    to be a pure rotation. *)
Definition setFromRotationMatrix (m : Matrix4.t) : Quaternion.t :=
  let m11 := Matrix4.e0 m in let m12 := Matrix4.e4 m in let m13 := Matrix4.e8 m in
  let m21 := Matrix4.e1 m in let m22 := Matrix4.e5 m in let m23 := Matrix4.e9 m in
  let m31 := Matrix4.e2 m in let m32 := Matrix4.e6 m in let m33 := Matrix4.e10 m in
  let trace := m11 + m22 + m33 in
  if Rgtb trace 0 then
    let s := 0.5 / sqrt (trace + 1.0) in
    Quaternion.mk ((m32 - m23) * s) ((m13 - m31) * s) ((m21 - m12) * s) (0.25 / s)
  else if Rgtb m11 m22 && Rgtb m11 m33 then
    let s := 2.0 * sqrt (1.0 + m11 - m22 - m33) in
    Quaternion.mk (0.25 * s) ((m12 + m21) / s) ((m13 + m31) / s) ((m32 - m23) / s)
  else if Rgtb m22 m33 then
    let s := 2.0 * sqrt (1.0 + m22 - m11 - m33) in
    Quaternion.mk ((m12 + m21) / s) (0.25 * s) ((m23 + m32) / s) ((m13 - m31) / s)
  else
    let s := 2.0 * sqrt (1.0 + m33 - m11 - m22) in
    Quaternion.mk ((m13 + m31) / s) ((m23 + m32) / s) (0.25 * s) ((m21 - m12) / s).

(** [Matrix4.decompose(position, quaternion, scale)]: the scale is the length
    of each column ([sx] negated when the determinant is negative), the
    quaternion that of the columns divided by the scale. *)
Record Decomposed : Type := mkDecomposed {
  d_position : Vector3.t; d_quaternion : Quaternion.t; d_scale : Vector3.t }.

Definition decompose (m : Matrix4.t) : Decomposed :=
  let sx0 := Vector3.length (vec3 (Matrix4.e0 m) (Matrix4.e1 m) (Matrix4.e2 m)) in
  let sy := Vector3.length (vec3 (Matrix4.e4 m) (Matrix4.e5 m) (Matrix4.e6 m)) in
  let sz := Vector3.length (vec3 (Matrix4.e8 m) (Matrix4.e9 m) (Matrix4.e10 m)) in
  let sx := if Rltb (Matrix4.determinant m) 0 then - sx0 else sx0 in
  let invSX := 1 / sx in let invSY := 1 / sy in let invSZ := 1 / sz in
  let m1 := Matrix4.mk
    (Matrix4.e0 m * invSX) (Matrix4.e1 m * invSX) (Matrix4.e2 m * invSX) (Matrix4.e3 m)
    (Matrix4.e4 m * invSY) (Matrix4.e5 m * invSY) (Matrix4.e6 m * invSY) (Matrix4.e7 m)
    (Matrix4.e8 m * invSZ) (Matrix4.e9 m * invSZ) (Matrix4.e10 m * invSZ) (Matrix4.e11 m)
    (Matrix4.e12 m) (Matrix4.e13 m) (Matrix4.e14 m) (Matrix4.e15 m) in
  mkDecomposed (setFromMatrixPosition m) (setFromRotationMatrix m1) (vec3 sx sy sz).

(** ** three.js [Box3]

    An empty box has [min = +Infinity] and [max = -Infinity] in three.js; here
    it is [None], and a box that holds at least one point is [Some (min, max)]. *)

Module Box3.
Definition t : Type := option (Vector3.t * Vector3.t).

Definition makeEmpty : t := None.

Definition expandByPoint (b : t) (p : Vector3.t) : t :=
  match b with
  | None => Some (p, p)
  | Some (lo, hi) =>
      Some (vec3 (Rmin (Vector3.x lo) (Vector3.x p)) (Rmin (Vector3.y lo) (Vector3.y p))
                 (Rmin (Vector3.z lo) (Vector3.z p)),
            vec3 (Rmax (Vector3.x hi) (Vector3.x p)) (Rmax (Vector3.y hi) (Vector3.y p))
                 (Rmax (Vector3.z hi) (Vector3.z p)))
  end.

(** [isEmpty()]: [max < min] on some axis. *)
Definition isEmpty (b : t) : bool :=
  match b with
  | None => true
  | Some (lo, hi) =>
      Rltb (Vector3.x hi) (Vector3.x lo) || Rltb (Vector3.y hi) (Vector3.y lo)
      || Rltb (Vector3.z hi) (Vector3.z lo)
  end.

(** [getCenter] and [getSize] answer the zero vector on an empty box. *)
Definition getCenter (b : t) : Vector3.t :=
  match b with
  | Some (lo, hi) =>
      if isEmpty b then Vector3.zero
      else Vector3.multiplyScalar (Vector3.addVectors lo hi) 0.5
  | None => Vector3.zero
  end.

Definition getSize (b : t) : Vector3.t :=
  match b with
  | Some (lo, hi) => if isEmpty b then Vector3.zero else Vector3.subVectors hi lo
  | None => Vector3.zero
  end.
End Box3.

(** ** The scene graph ([Object3D], [Mesh], [Group], [BufferGeometry]) *)

(** [geometry.getAttribute('position')] ([None] when the attribute is
    missing) and [geometry.getIndex()] ([None] for a non-indexed geometry). *)
Record BufferGeometry : Type := mkGeometry {
  positionAttribute : option (list Vector3.t);
  indexAttribute : option (list nat) }.

Inductive Material : Type :=
  | highlightMaterial | standardMaterial | panelMaterial | importedMaterial (id : nat).

(** A node.  [geometry] is [None] on a node that is not a mesh (the property
    is [undefined] there); [matrixWorld] is the cache three.js keeps and
    [updateMatrixWorld] refreshes.  [parent] is implicit in the tree. *)
Inductive Object3D : Type := mkObject3D {
  uuid : nat;
  isMesh : bool;
  isGroup : bool;
  position : Vector3.t;
  quaternion : Quaternion.t;
  scale : Vector3.t;
  matrixWorld : Matrix4.t;
  geometry : option BufferGeometry;
  material : Material;
  castShadow : bool;
  userData_is2DPanel : bool;
  children : list Object3D }.

(** [object.traverse(callback)] calls back on the node, then on each child's
    subtree in order: the nodes in pre-order. *)
Fixpoint traverse (o : Object3D) : list Object3D :=
  o :: flat_map traverse (children o).

(** [updateMatrixWorld(true)] below a parent whose world matrix is
    [parentWorld] ([None] for a node without parent): [matrixWorld] becomes
    [parent.matrixWorld * compose(position, quaternion, scale)], then the
    children are updated. *)
Fixpoint updateMatrixWorld (parentWorld : option Matrix4.t) (o : Object3D) : Object3D :=
  let local := Matrix4.compose (position o) (quaternion o) (scale o) in
  let world := match parentWorld with
               | Some p => Matrix4.multiplyMatrices p local
               | None => local
               end in
  mkObject3D (uuid o) (isMesh o) (isGroup o) (position o) (quaternion o) (scale o)
             world (geometry o) (material o) (castShadow o) (userData_is2DPanel o)
             (map (updateMatrixWorld (Some world)) (children o)).

(** [getWorldPosition] and [getWorldQuaternion], read off an up-to-date
    [matrixWorld]. *)
Definition getWorldPosition (o : Object3D) : Vector3.t :=
  setFromMatrixPosition (matrixWorld o).
Definition getWorldQuaternion (o : Object3D) : Quaternion.t :=
  d_quaternion (decompose (matrixWorld o)).

(** [Box3.expandByObject(object, true)]: every vertex of the node, moved by
    the node's [matrixWorld], then the children.  A geometry without position
    attribute contributes its (empty) bounding box, that is nothing. *)
Fixpoint expandByObject (o : Object3D) (b : Box3.t) {struct o} : Box3.t :=
  let b1 :=
    match geometry o with
    | Some g =>
        match positionAttribute g with
        | Some ps =>
            fold_left (fun acc p => Box3.expandByPoint acc (applyMatrix4 p (matrixWorld o))) ps b
        | None => b
        end
    | None => b
    end in
  fold_left (fun acc c => expandByObject c acc) (children o) b1.

(** [new THREE.Box3().setFromObject(object, true)] *)
Definition setFromObject (o : Object3D) : Box3.t := expandByObject o Box3.makeEmpty.

(** ** Draggable object classifier *)

Definition DRAGGABLE_MIN_DIMENSION : R := 0.1.
Definition DRAGGABLE_MAX_DIMENSION : R := 1.2.

(** [containsMesh(object)]: the node or one of its descendants is a mesh. *)
Fixpoint containsMesh (o : Object3D) : bool :=
  isMesh o || existsb containsMesh (children o).

(** The test made on [_tempBBox] after [setFromObject]:
    [isEmpty() || (max.x === min.x && max.y === min.y && max.z === min.z)]. *)
Definition emptyOrPoint (b : Box3.t) : bool :=
  Box3.isEmpty b ||
  match b with
  | Some (lo, hi) =>
      Reqb (Vector3.x hi) (Vector3.x lo) && Reqb (Vector3.y hi) (Vector3.y lo)
      && Reqb (Vector3.z hi) (Vector3.z lo)
  | None => false
  end.

Definition maxDim (size : Vector3.t) : R :=
  Math_max3 (Vector3.x size) (Vector3.y size) (Vector3.z size).
Definition minDim (size : Vector3.t) : R :=
  Math_min3 (Vector3.x size) (Vector3.y size) (Vector3.z size).

(** The callback of the first pass of [identifyDraggableObjectsByDimension],
    on a node other than the root: [true] when the node is pushed on
    [objectsToProcessForDraggability]. *)
Definition firstPassCallback (maxDimensionThreshold minDimensionThreshold : R)
    (object : Object3D) : bool :=
  if isMesh object && userData_is2DPanel object then true (* skip dimension checks *)
  else if negb (isMesh object) && negb (isGroup object) then false
  else if negb (containsMesh object) then false
  else
    let _tempBBox := setFromObject object in
    if emptyOrPoint _tempBBox then false
    else
      let _tempSize := Box3.getSize _tempBBox in
      Rleb (maxDim _tempSize) maxDimensionThreshold
      && Rgeb (minDim _tempSize) minDimensionThreshold.

(** The first pass: [rootObject.traverse] visits the root first, where the
    callback returns at once ([object === rootObject]); every other visited
    node has a parent. *)
Definition objectsToProcessForDraggability
    (rootObject : Object3D) (maxDimensionThreshold minDimensionThreshold : R)
    : list Object3D :=
  filter (fun o => firstPassCallback maxDimensionThreshold minDimensionThreshold o = true)
         (tail (traverse rootObject)).

(** A rigid unit for the threshold examples: a group holding one mesh whose
    world bounding box goes from the origin to [(a, b, c)]. *)
Definition boxMesh (id : nat) (a b c : R) (panel : bool) : Object3D :=
  mkObject3D id true false Vector3.zero Quaternion.identity (vec3 1 1 1) Matrix4.identity
             (Some (mkGeometry (Some [vec3 0 0 0; vec3 a b c]) None))
             standardMaterial true panel [].

Definition rigidUnit (a b c : R) : Object3D :=
  mkObject3D 1 false true Vector3.zero Quaternion.identity (vec3 1 1 1) Matrix4.identity
             None standardMaterial false false [boxMesh 2 a b c false].

(** ** Shadow coverage estimator *)

(** The value a JavaScript function hands back: a number or a string. *)
Inductive JSValue : Type :=
  | JSNumber (n : R)
  | JSString (s : string).

(** [Number.prototype.toFixed(digits)] for a finite number below 1e21: the
    integer [n] with [n / 10^digits] nearest to the magnitude (the larger on a
    tie), printed with a point before its last [digits] digits, after a minus
    sign when the number is negative. *)
Definition padZeros (len : nat) (m : string) : string :=
  String.string_of_list_ascii
    (repeat "0"%char (len - String.length m)) +:+ m.

(** The decimal digits of [n] with a point before the last [digits] ones. *)
Definition pointBeforeLast (n digits : nat) : string :=
  let m := padZeros (S digits) (pretty n) in
  let k := (String.length m - digits)%nat in
  match digits with
  | O => m
  | _ => substring 0 k m +:+ "." +:+ substring k digits m
  end.

Definition toFixed (x : R) (digits : nat) : string :=
  let sign := if Rltb x 0 then "-" else "" in
  let ax := if Rltb x 0 then - x else x in
  let n := Z.to_nat (Math_floor (ax * 10 ^ digits + 1 / 2)) in
  sign +:+ pointBeforeLast n digits.

Record Ray : Type := mkRay { origin : Vector3.t; direction : Vector3.t }.

(** One entry of the array [intersectObjects] answers. *)
Record Intersection : Type := mkIntersection { distance : R; object : Object3D }.

(** [directionalLight] and its [target]. *)
Record DirectionalLight : Type := mkDirectionalLight {
  light : Object3D;
  target : Object3D }.

(** [array[i]] at an integer that may be out of range: [None] is [undefined]. *)
Definition getZ {A : Type} (l : list A) (i : Z) : option A :=
  if (i <? 0)%Z then None else nth_error l (Z.to_nat i).

Section ShadowCoverage.

(** [object.raycast(raycaster, intersects)] of three.js: the distances at
    which the ray meets the node's own geometry (none for a node that is
    not a mesh). *)
Variable raycast : Ray -> Object3D -> list R.

(** [Math.random()]: the [k]-th number drawn. *)
Variable random : nat -> R.

(** [Raycaster.intersectObjects(objects, true)]: the hits on every listed
    node and, recursively, on its descendants, sorted by [distance]. *)
Fixpoint intersect (ray : Ray) (o : Object3D) : list Intersection :=
  map (fun d => mkIntersection d o) (raycast ray o)
  ++ flat_map (intersect ray) (children o).

Fixpoint insertByDistance (h : Intersection) (l : list Intersection) : list Intersection :=
  match l with
  | [] => [h]
  | h' :: l' =>
      if Rltb (distance h') (distance h) then h' :: insertByDistance h l'
      else h :: l
  end.

Definition ascSort (l : list Intersection) : list Intersection :=
  fold_right insertByDistance [] l.

Definition intersectObjects (ray : Ray) (objects : list Object3D) : list Intersection :=
  ascSort (flat_map (intersect ray) objects).

Variable scene : Object3D.
Variable directionalLight : DirectionalLight.

(** [subVectors(directionalLight.target.position, directionalLight.position).normalize()] *)
Definition lightDirection : Vector3.t :=
  Vector3.normalize
    (Vector3.subVectors (position (target directionalLight))
                        (position (light directionalLight))).

(** [pointOnTriangle.clone().add(lightDirection.clone().negate().multiplyScalar(0.005))]
    and [raycasterForShadow.set(rayOrigin, lightDirection.clone().negate())]. *)
Definition shadowRay (pointOnTriangle : Vector3.t) : Ray :=
  let rayOrigin :=
    Vector3.add pointOnTriangle
                (Vector3.multiplyScalar (Vector3.negate lightDirection) 0.005) in
  mkRay rayOrigin (Vector3.negate lightDirection).

(** [scene.children.filter(child => child !== object && child !== directionalLight)] *)
Definition occluderRoots (obj : Object3D) : list Object3D :=
  filter (fun child => uuid child <> uuid obj
                       /\ uuid child <> uuid (light directionalLight))
         (children scene).

(** The loop over [intersects]: stop at the first hit whose node casts
    shadows. *)
Fixpoint isInShadow (intersects : list Intersection) : bool :=
  match intersects with
  | [] => false
  | i :: rest => if castShadow (object i) then true else isInShadow rest
  end.

(** The vertex numbers of face [faceIndex]. *)
Definition faceVertexIndex (index : option (list nat)) (i : Z) : option Z :=
  match index with
  | Some idx => option_map Z.of_nat (getZ idx i)
  | None => Some i
  end.

(** One sample, drawing [random k], [random (k+1)] and [random (k+2)].  A
    vertex number out of range makes the sampled point [NaN] ([None]); such a
    ray meets nothing. *)
Definition pointOnTriangle (obj : Object3D) (ps : list Vector3.t)
    (index : option (list nat)) (faceCount : R) (k : nat) : option Vector3.t :=
  let faceIndex := Math_floor (random k * faceCount) in
  let a := faceVertexIndex index (faceIndex * 3)%Z in
  let b := faceVertexIndex index (faceIndex * 3 + 1)%Z in
  let c := faceVertexIndex index (faceIndex * 3 + 2)%Z in
  let fetch i := option_map (fun v => applyMatrix4 v (matrixWorld obj))
                            (i ≫= getZ ps) in
  let r1 := random (k + 1)%nat in
  let r2 := random (k + 2)%nat in
  let reflect := Rgtb (r1 + r2) 1 in
  let r1' := if reflect then 1 - r1 else r1 in
  let r2' := if reflect then 1 - r2 else r2 in
  vA ← fetch a; vB ← fetch b; vC ← fetch c;
  Some (Vector3.add
          (Vector3.add (Vector3.multiplyScalar vA (1 - r1' - r2'))
                       (Vector3.multiplyScalar vB r1'))
          (Vector3.multiplyScalar vC r2')).

Definition sampleIntersects (obj : Object3D) (ps : list Vector3.t)
    (index : option (list nat)) (faceCount : R) (k : nat) : list Intersection :=
  match pointOnTriangle obj ps index faceCount k with
  | Some p => intersectObjects (shadowRay p) (occluderRoots obj)
  | None => []
  end.

(** The [for] loop over the samples: [n] samples left, [k] numbers drawn so
    far, [shadowedSamples] counted so far. *)
Fixpoint sampleLoop (obj : Object3D) (ps : list Vector3.t)
    (index : option (list nat)) (faceCount : R)
    (n k shadowedSamples : nat) : nat :=
  match n with
  | O => shadowedSamples
  | S n' =>
      let hit := isInShadow (sampleIntersects obj ps index faceCount k) in
      sampleLoop obj ps index faceCount n' (k + 3)
                 (if hit then S shadowedSamples else shadowedSamples)
  end.

Definition totalSamples : nat := 1000.

(** [calculateShadowCoverage(object)]; [None] is a missing argument. *)
Definition calculateShadowCoverage (object : option Object3D) : JSValue :=
  match object with
  | None => JSNumber 0
  | Some obj =>
      if negb (isMesh obj) then JSNumber 0
      else
        match geometry obj with
        | None => JSNumber 0
        | Some g =>
            match positionAttribute g with
            | None => JSNumber 0
            | Some ps =>
                let index := indexAttribute g in
                let faceCount :=
                  match index with
                  | Some idx => INR (List.length idx) / 3
                  | None => INR (List.length ps) / 3
                  end in
                let shadowedSamples :=
                  sampleLoop obj ps index faceCount totalSamples 0 0 in
                let coveragePercentage :=
                  INR shadowedSamples / INR totalSamples * 100 in
                JSString (toFixed coveragePercentage 1)
            end
        end
  end.

End ShadowCoverage.

(** ** Coplanar face merger and polygon extractor *)

(** [Math.atan2(y, x)] *)
Definition Math_atan2 (y x : R) : R :=
  if Rltb 0 x then atan (y / x)
  else if Rltb x 0 then (if Rltb y 0 then atan (y / x) - PI else atan (y / x) + PI)
  else if Rltb 0 y then PI / 2
  else if Rltb y 0 then - PI / 2
  else 0.

(** The shoelace sum of [calculatePolygonArea]: the terms
    [p1.x * p2.y - p1.y * p2.x] over [p1 = projectedVertices[i]] and
    [p2 = projectedVertices[(i + 1) % length]]. *)
Definition shoelaceTerm (p1 p2 : Vector2.t) : R :=
  Vector2.x p1 * Vector2.y p2 - Vector2.y p1 * Vector2.x p2.

Definition shoelaceSum (projectedVertices : list Vector2.t) : R :=
  let n := List.length projectedVertices in
  fold_left
    (fun projectedArea i =>
       match nth_error projectedVertices i,
             nth_error projectedVertices (Nat.modulo (i + 1) n) with
       | Some p1, Some p2 => projectedArea + shoelaceTerm p1 p2
       | _, _ => projectedArea
       end)
    (seq 0 n) 0.

(** [calculatePolygonArea(vertices)].  The scale factor [1.0 / absNormal] is
    [Infinity] in JavaScript when the dominant component of the normal is 0
    (the first three vertices are collinear); the projected area is answered
    then. *)
Definition calculatePolygonArea (vertices : list Vector3.t) : R :=
  match vertices with
  | v0 :: v1 :: v2 :: _ =>
      let normal :=
        Vector3.normalize
          (Vector3.crossVectors (Vector3.subVectors v1 v0) (Vector3.subVectors v2 v0)) in
      let absNormalX := Rabs (Vector3.x normal) in
      let absNormalY := Rabs (Vector3.y normal) in
      let absNormalZ := Rabs (Vector3.z normal) in
      let projectedVertices :=
        if Rgeb absNormalX absNormalY && Rgeb absNormalX absNormalZ then
          map (fun v => Vector2.mk (Vector3.y v) (Vector3.z v)) vertices
        else if Rgeb absNormalY absNormalX && Rgeb absNormalY absNormalZ then
          map (fun v => Vector2.mk (Vector3.x v) (Vector3.z v)) vertices
        else
          map (fun v => Vector2.mk (Vector3.x v) (Vector3.y v)) vertices in
      let projectedArea := Rabs (shoelaceSum projectedVertices) / 2 in
      let dominant :=
        if Rgeb absNormalX absNormalY && Rgeb absNormalX absNormalZ then absNormalX
        else if Rgeb absNormalY absNormalX && Rgeb absNormalY absNormalZ then absNormalY
        else absNormalZ in
      if Reqb dominant 0 then projectedArea (* scaleFactor is not finite *)
      else projectedArea * (1.0 / dominant)
  | _ => 0
  end.

(** An entry of [triangles].  The fields [originalIndices] and [faceIndex] of
    the source are never read and are left out. *)
Record Triangle : Type := mkTriangle {
  vertices : list Vector3.t;
  normal : Vector3.t }.

(** [new THREE.Triangle(a, b, c).getNormal(target)]: [(c - b) x (a - b)],
    scaled to unit length, or the zero vector when its length is 0. *)
Definition getNormal (a b c : Vector3.t) : Vector3.t :=
  let n := Vector3.cross (Vector3.subVectors c b) (Vector3.subVectors a b) in
  let targetLengthSq := Vector3.lengthSq n in
  if Rgtb targetLengthSq 0 then Vector3.multiplyScalar n (1 / sqrt targetLengthSq)
  else Vector3.zero.

(** [THREE.Plane]: [setFromCoplanarPoints] and [distanceToPoint]. *)
Record Plane : Type := mkPlane { plane_normal : Vector3.t; plane_constant : R }.

Definition setFromCoplanarPoints (a b c : Vector3.t) : Plane :=
  let n := Vector3.normalize
             (Vector3.cross (Vector3.subVectors c b) (Vector3.subVectors a b)) in
  mkPlane n (- Vector3.dot a n).

Definition distanceToPoint (p : Plane) (point : Vector3.t) : R :=
  Vector3.dot (plane_normal p) point + plane_constant p.

(** The triangle built from three vertex numbers; [None] when one of them is
    past the end of the position attribute: its coordinates are then [NaN] in
    JavaScript, the triangle joins no group, attracts no other triangle and
    its own face has no positive area. *)
Definition triangleAt (ps : list Vector3.t) (m : Matrix4.t) (ia ib ic : option nat)
    : option Triangle :=
  let fetch i := option_map (fun v => applyMatrix4 v m) (i ≫= nth_error ps) in
  vA ← fetch ia; vB ← fetch ib; vC ← fetch ic;
  Some (mkTriangle [vA; vB; vC] (getNormal vA vB vC)).

(** The two loops that fill [triangles]: [i] runs over [0, 3, 6, ...] below
    [indexAttribute.count], or below [positionAttribute.count]. *)
Definition strideStarts (count : nat) : list nat :=
  map (fun k => (3 * k)%nat) (seq 0 (Nat.div (count + 2) 3)).

Definition buildTriangles (o : Object3D) (ps : list Vector3.t)
    (index : option (list nat)) : list (option Triangle) :=
  match index with
  | Some idx =>
      map (fun i => triangleAt ps (matrixWorld o)
                      (nth_error idx i) (nth_error idx (i + 1)) (nth_error idx (i + 2)))
          (strideStarts (List.length idx))
  | None =>
      map (fun i => triangleAt ps (matrixWorld o) (Some i) (Some (i + 1)%nat) (Some (i + 2)%nat))
          (strideStarts (List.length ps))
  end.

Definition coplanarTolerance : R := 0.01.

(** The test of the inner loop: the normals agree and the three vertices of
    the other triangle lie within the tolerance of the seed's plane. *)
Definition joinsFace (currentTriangle otherTriangle : option Triangle) : bool :=
  match currentTriangle, otherTriangle with
  | Some cur, Some other =>
      match vertices cur with
      | [c0; c1; c2] =>
          let plane := setFromCoplanarPoints c0 c1 c2 in
          Rgtb (Vector3.dot (normal cur) (normal other)) (1 - coplanarTolerance)
          && forallb (fun v => negb (Rgtb (Rabs (distanceToPoint plane v)) coplanarTolerance))
                     (vertices other)
      | _ => false
      end
  | _, _ => false
  end.

Section Grouping.
Variable triangles : list (option Triangle).

(** The inner loop over [j]: [currentFaceTriangles] is kept as the list of
    the triangle numbers pushed so far. *)
Fixpoint innerLoop (currentTriangle : option Triangle) (js : list nat)
    (currentFace : list nat) (usedTriangles : gset nat) : list nat * gset nat :=
  match js with
  | [] => (currentFace, usedTriangles)
  | j :: js' =>
      if decide (j ∈ usedTriangles) then
        innerLoop currentTriangle js' currentFace usedTriangles
      else if joinsFace currentTriangle (nth j triangles None) then
        innerLoop currentTriangle js' (currentFace ++ [j]) ({[ j ]} ∪ usedTriangles)
      else
        innerLoop currentTriangle js' currentFace usedTriangles
  end.

(** The outer loop over [i]: the groups opened so far, in order. *)
Fixpoint outerLoop (idxs : list nat) (usedTriangles : gset nat) : list (list nat) :=
  match idxs with
  | [] => []
  | i :: idxs' =>
      if decide (i ∈ usedTriangles) then outerLoop idxs' usedTriangles
      else
        let n := List.length triangles in
        let '(currentFace, used') :=
          innerLoop (nth i triangles None) (seq (S i) (n - S i)) [i]
                    ({[ i ]} ∪ usedTriangles) in
        currentFace :: outerLoop idxs' used'
  end.

Definition groupTriangles : list (list nat) :=
  outerLoop (seq 0 (List.length triangles)) ∅.
End Grouping.

(** [faceVerticesMap.set(key, v)] on a [Map] kept in insertion order: a key
    already present keeps its place and takes the new value. *)
Fixpoint mapSet (key : string) (v : Vector3.t) (m : list (string * Vector3.t))
    : list (string * Vector3.t) :=
  match m with
  | [] => [(key, v)]
  | (k, w) :: m' => if String.eqb k key then (k, v) :: m' else (k, w) :: mapSet key v m'
  end.

Definition vertexKey (v : Vector3.t) : string :=
  toFixed (Vector3.x v) 4 +:+ "," +:+ toFixed (Vector3.y v) 4 +:+ ","
  +:+ toFixed (Vector3.z v) 4.

Definition uniqueVerticesOf (faceTriangles : list Triangle) : list Vector3.t :=
  map snd (fold_left (fun m v => mapSet (vertexKey v) v m)
                     (flat_map vertices faceTriangles) []).

(** [Array.prototype.sort] with the comparator [angleA - angleB]: a stable
    sort by increasing angle.  The elements are inserted from the last to the
    first, each before the elements that do not come strictly before it. *)
Fixpoint insertByKey {A : Type} (key : A -> R) (a : A) (l : list A) : list A :=
  match l with
  | [] => [a]
  | b :: l' => if Rltb (key b) (key a) then b :: insertByKey key a l' else a :: l
  end.

Definition sortByKey {A : Type} (key : A -> R) (l : list A) : list A :=
  fold_right (insertByKey key) [] l.

Definition centroidOf (vs : list Vector3.t) : Vector3.t :=
  Vector3.divideScalar (fold_left Vector3.add vs Vector3.zero) (INR (List.length vs)).

Definition vertexAngle (currentNormal centroid : Vector3.t) (a : Vector3.t) : R :=
  let basisX :=
    if Rltb (Rabs (Vector3.x currentNormal)) 0.9 && Rltb (Rabs (Vector3.y currentNormal)) 0.9
    then Vector3.normalize (Vector3.projectOnPlane (vec3 1 0 0) currentNormal)
    else Vector3.normalize (Vector3.projectOnPlane (vec3 0 1 0) currentNormal) in
  let basisY := Vector3.normalize (Vector3.crossVectors currentNormal basisX) in
  let vecA := Vector3.subVectors a centroid in
  Math_atan2 (Vector3.dot vecA basisY) (Vector3.dot vecA basisX).

Definition orderVertices (currentNormal : Vector3.t) (uniqueVertices : list Vector3.t)
    : list Vector3.t :=
  if (2 <? List.length uniqueVertices)%nat then
    sortByKey (vertexAngle currentNormal (centroidOf uniqueVertices)) uniqueVertices
  else uniqueVertices.

Record Face : Type := mkFace {
  face_vertices : list Vector3.t;
  face_normal : Vector3.t;
  face_area : R }.

(** The face of one group, [None] when its area is not positive. *)
Definition faceOfGroup (triangles : list (option Triangle)) (group : list nat)
    : option Face :=
  match group with
  | [] => None
  | i :: _ =>
      match nth i triangles None with
      | None => None (* the seed has a NaN vertex: the area is NaN *)
      | Some currentTriangle =>
          let faceTriangles := omap (fun j => nth j triangles None) group in
          let uniqueVertices :=
            orderVertices (normal currentTriangle) (uniqueVerticesOf faceTriangles) in
          let faceArea := calculatePolygonArea uniqueVertices in
          if Rgtb faceArea 0
          then Some (mkFace uniqueVertices (normal currentTriangle) faceArea)
          else None
      end
  end.

(** [getFacesWithAreas(object)]; the faces come sorted by decreasing area. *)
Definition getFacesWithAreas (object : option Object3D) : list Face :=
  match object with
  | None => []
  | Some o =>
      if negb (isMesh o) then []
      else
        match geometry o with
        | None => []
        | Some g =>
            match positionAttribute g with
            | None => []
            | Some ps =>
                let triangles := buildTriangles o ps (indexAttribute g) in
                let faces := omap (faceOfGroup triangles) (groupTriangles triangles) in
                sortByKey (fun f => - face_area f) faces
            end
        end
  end.

(** ** Pivot-offset transform engine *)

(** The vector [calculateAndStoreLocalBBoxOffset(object)] stores in
    [localPivotToBBoxCenterOffsets], on a node whose [matrixWorld] is up to
    date. *)
Definition localBBoxOffset (object : Object3D) : Vector3.t :=
  let worldBBox := setFromObject object in
  let worldBBoxCenter := Box3.getCenter worldBBox in
  let worldPivotPosition := getWorldPosition object in
  let worldOffsetFromPivotToBBoxCenter := Vector3.sub worldBBoxCenter worldPivotPosition in
  let inverseWorldQuaternion := Quaternion.invert (getWorldQuaternion object) in
  applyQuaternion worldOffsetFromPivotToBBoxCenter inverseWorldQuaternion.

Definition setPosition (p : Vector3.t) (o : Object3D) : Object3D :=
  mkObject3D (uuid o) (isMesh o) (isGroup o) p (quaternion o) (scale o)
             (matrixWorld o) (geometry o) (material o) (castShadow o)
             (userData_is2DPanel o) (children o).

(** [updateCoordPopup(object)] reads the centre of the world bounding box. *)
Definition bboxCenter (object : Object3D) : Vector3.t :=
  Box3.getCenter (setFromObject object).

(** [onCoordInputChange()] on the selected node [intersectedObject], a member
    of [draggableObjects].  [parentMatrixWorld] is
    [intersectedObject.parent.matrixWorld] ([None] without parent), read after
    [scene.updateMatrixWorld(true)]; [cached] is the entry of
    [localPivotToBBoxCenterOffsets] for the node; [newX], [newY], [newZ] are
    the parsed fields.  The answer is the node after the call and its cache
    entry; the popups refreshed at the end are left out. *)
Definition onCoordInputChange (parentMatrixWorld : option Matrix4.t)
    (cached : option Vector3.t) (intersectedObject : Object3D)
    (newX newY newZ : option R) : Object3D * option Vector3.t :=
  match newX, newY, newZ with
  | Some x, Some y, Some z =>
      let localOffset :=
        match cached with
        | Some off => off
        | None => localBBoxOffset intersectedObject
        end in
      let desiredWorldBBoxCenter := vec3 x y z in
      let worldOrientedOffsetFromPivotToBBoxCenter :=
        applyQuaternion localOffset (getWorldQuaternion intersectedObject) in
      let desiredObjectPivotWorldPosition :=
        Vector3.sub desiredWorldBBoxCenter worldOrientedOffsetFromPivotToBBoxCenter in
      let parentMatrix :=
        match parentMatrixWorld with
        | Some m => m
        | None => Matrix4.identity
        end in
      let inverseParentMatrixWorld := Matrix4.invert parentMatrix in
      let newObjectLocalPosition :=
        applyMatrix4 desiredObjectPivotWorldPosition inverseParentMatrixWorld in
      (updateMatrixWorld parentMatrixWorld
         (setPosition newObjectLocalPosition intersectedObject),
       Some localOffset)
  | _, _, _ => (intersectedObject, cached) (* a field is NaN: nothing moves *)
  end.

(** ** The viewer's state and the panel and delete handlers *)

Inductive Alert : Type :=
  | AlertInvalidNumbers
  | AlertCollinearBase
  | AlertOffPlane (projectedP4 : Vector3.t)
  | AlertDegenerateSecondTriangle
  | AlertPanelAdded.

Record State : Type := mkState {
  scene : Object3D;
  modelContainer : option nat;
  baseModelContainer : nat;
  draggableObjects : gset nat;
  localPivotToBBoxCenterOffsets : gmap nat Vector3.t;
  originalMaterials : gmap nat Material;
  intersectedObject : option nat;
  coordinateModalShown : bool;
  coordPopupShown : bool;
  shadowCoveragePopupShown : bool;
  alerts : list Alert }.

(** Nodes are reached from the root by their [uuid]. *)
Fixpoint findObject (id : nat) (o : Object3D) : option Object3D :=
  if Nat.eqb (uuid o) id then Some o
  else
    (fix go (cs : list Object3D) : option Object3D :=
       match cs with
       | [] => None
       | c :: cs' =>
           match findObject id c with
           | Some r => Some r
           | None => go cs'
           end
       end) (children o).

(** [object.parent] *)
Fixpoint parentOf (id : nat) (o : Object3D) : option Object3D :=
  if existsb (fun c => Nat.eqb (uuid c) id) (children o) then Some o
  else
    (fix go (cs : list Object3D) : option Object3D :=
       match cs with
       | [] => None
       | c :: cs' =>
           match parentOf id c with
           | Some r => Some r
           | None => go cs'
           end
       end) (children o).

Definition withChildren (cs : list Object3D) (o : Object3D) : Object3D :=
  mkObject3D (uuid o) (isMesh o) (isGroup o) (position o) (quaternion o) (scale o)
             (matrixWorld o) (geometry o) (material o) (castShadow o)
             (userData_is2DPanel o) cs.

Definition withMaterial (m : Material) (o : Object3D) : Object3D :=
  mkObject3D (uuid o) (isMesh o) (isGroup o) (position o) (quaternion o) (scale o)
             (matrixWorld o) (geometry o) m (castShadow o)
             (userData_is2DPanel o) (children o).

(** [parent.remove(child)]: the child leaves the list of its parent. *)
Fixpoint removeObject (id : nat) (o : Object3D) : Object3D :=
  withChildren
    ((fix go (cs : list Object3D) : list Object3D :=
        match cs with
        | [] => []
        | c :: cs' =>
            if Nat.eqb (uuid c) id then go cs' else removeObject id c :: go cs'
        end) (children o)) o.

(** [parent.add(child)]: the child is appended to the parent's children. *)
Fixpoint addObject (parentId : nat) (child : Object3D) (o : Object3D) : Object3D :=
  if Nat.eqb (uuid o) parentId then withChildren (children o ++ [child]) o
  else withChildren (map (addObject parentId child) (children o)) o.

Fixpoint updateObject (id : nat) (f : Object3D -> Object3D) (o : Object3D) : Object3D :=
  if Nat.eqb (uuid o) id then f o
  else withChildren (map (updateObject id f) (children o)) o.

(** A form field after [parseFloat]: [None] is [NaN]. *)
Definition ParsedPoint : Type := (option R * option R * option R)%type.

Definition pointOfFields (f : ParsedPoint) : option Vector3.t :=
  match f with
  | (Some x, Some y, Some z) => Some (vec3 x y z)
  | _ => None
  end.

Definition EPSILON : R := 0.01.
Definition COLLINEARITY_EPSILON_SQ : R := 0.0001.

(** The three checks of [addObjectToScene], on the points already moved to
    the baseline frame. *)
Inductive Validation : Type :=
  | RejectCollinear
  | RejectOffPlane (projectedP4 : Vector3.t)
  | RejectDegenerate
  | Accept.

Definition validatePanel (p1 p2 p3 p4 : Vector3.t) : Validation :=
  let v1_2 := Vector3.subVectors p2 p1 in
  let v1_3 := Vector3.subVectors p3 p1 in
  let normal := Vector3.normalize (Vector3.crossVectors v1_2 v1_3) in
  if Rltb (Vector3.lengthSq (Vector3.cross v1_2 v1_3)) COLLINEARITY_EPSILON_SQ
  then RejectCollinear
  else
    let vectorP4toP1 := Vector3.subVectors p4 p1 in
    let dotProduct := Vector3.dot vectorP4toP1 normal in
    if Rgtb (Rabs dotProduct) EPSILON then
      RejectOffPlane (Vector3.subVectors p4 (Vector3.multiplyScalar normal dotProduct))
    else
      let v1_4 := Vector3.subVectors p4 p1 in
      let v2_3 := Vector3.subVectors p3 p2 in
      let v2_4 := Vector3.subVectors p4 p2 in
      if Rltb (Vector3.lengthSq (Vector3.cross v1_3 v1_4)) COLLINEARITY_EPSILON_SQ
         || Rltb (Vector3.lengthSq (Vector3.cross v1_2 v1_4)) COLLINEARITY_EPSILON_SQ
         || Rltb (Vector3.lengthSq (Vector3.cross v2_3 v2_4)) COLLINEARITY_EPSILON_SQ
      then RejectDegenerate
      else Accept.

Definition pushAlert (a : Alert) (st : State) : State :=
  mkState (scene st) (modelContainer st) (baseModelContainer st) (draggableObjects st)
          (localPivotToBBoxCenterOffsets st) (originalMaterials st) (intersectedObject st)
          (coordinateModalShown st) (coordPopupShown st) (shadowCoveragePopupShown st)
          (alerts st ++ [a]).

Definition withScene (sc : Object3D) (st : State) : State :=
  mkState sc (modelContainer st) (baseModelContainer st) (draggableObjects st)
          (localPivotToBBoxCenterOffsets st) (originalMaterials st) (intersectedObject st)
          (coordinateModalShown st) (coordPopupShown st) (shadowCoveragePopupShown st)
          (alerts st).

(** The mesh [addObjectToScene] builds: four vertices, the triangles
    [(0, 1, 2)] and [(0, 2, 3)], default transform.  The [Float32Array] that
    holds the coordinates rounds each of them to single precision; here they
    are kept as they are. *)
Definition customPanel (newId : nat) (p1 p2 p3 p4 : Vector3.t) : Object3D :=
  mkObject3D newId true false Vector3.zero Quaternion.identity (vec3 1 1 1)
             Matrix4.identity
             (Some (mkGeometry (Some [p1; p2; p3; p4]) (Some [0; 1; 2; 0; 2; 3]%nat)))
             panelMaterial true true [].

(** [addObjectToScene(event)].  [form] holds the twelve parsed fields,
    [newId] is the identity of the mesh the call may create.  An unset
    [baseModelContainer] makes the call throw after the matrices have been
    refreshed. *)
Definition addObjectToScene (form : ParsedPoint * ParsedPoint * ParsedPoint * ParsedPoint)
    (newId : nat) (st : State) : State :=
  let '(f1, f2, f3, f4) := form in
  match pointOfFields f1, pointOfFields f2, pointOfFields f3, pointOfFields f4 with
  | Some q1, Some q2, Some q3, Some q4 =>
      let st1 := withScene (updateMatrixWorld None (scene st)) st in
      match findObject (baseModelContainer st1) (scene st1) with
      | None => st1
      | Some base =>
          let inverseBaseModelWorldMatrix := Matrix4.invert (matrixWorld base) in
          let p1 := applyMatrix4 q1 inverseBaseModelWorldMatrix in
          let p2 := applyMatrix4 q2 inverseBaseModelWorldMatrix in
          let p3 := applyMatrix4 q3 inverseBaseModelWorldMatrix in
          let p4 := applyMatrix4 q4 inverseBaseModelWorldMatrix in
          match validatePanel p1 p2 p3 p4 with
          | RejectCollinear => pushAlert AlertCollinearBase st1
          | RejectOffPlane projectedP4 => pushAlert (AlertOffPlane projectedP4) st1
          | RejectDegenerate => pushAlert AlertDegenerateSecondTriangle st1
          | Accept =>
              let customObject := customPanel newId p1 p2 p3 p4 in
              let parentId :=
                match modelContainer st1 with
                | Some mc => mc
                | None => uuid (scene st1)
                end in
              let scene2 :=
                updateMatrixWorld None (addObject parentId customObject (scene st1)) in
              let localOffset :=
                match findObject newId scene2 with
                | Some o => localBBoxOffset o
                | None => localBBoxOffset customObject
                end in
              pushAlert AlertPanelAdded
                (mkState scene2 (modelContainer st1) (baseModelContainer st1)
                         ({[ newId ]} ∪ draggableObjects st1)
                         (<[ newId := localOffset ]> (localPivotToBBoxCenterOffsets st1))
                         (<[ newId := panelMaterial ]> (originalMaterials st1))
                         (intersectedObject st1)
                         false (coordPopupShown st1) (shadowCoveragePopupShown st1)
                         (alerts st1))
          end
      end
  | _, _, _, _ => pushAlert AlertInvalidNumbers st
  end.

(** [restoreOriginalMaterials(objectToRestore)] *)
Definition restoreOriginalMaterials (id : nat) (isMeshNode : bool) (st : State) : State :=
  if isMeshNode then
    match originalMaterials st !! id with
    | Some originalMaterial =>
        mkState (updateObject id (withMaterial originalMaterial) (scene st))
                (modelContainer st) (baseModelContainer st) (draggableObjects st)
                (localPivotToBBoxCenterOffsets st) (delete id (originalMaterials st))
                (intersectedObject st) (coordinateModalShown st) (coordPopupShown st)
                (shadowCoveragePopupShown st) (alerts st)
    | None => st
    end
  else st.

(** [hideCoordPopup()] then [hideShadowCoveragePopup()] *)
Definition hidePopups (isMeshNode : bool) (st : State) : State :=
  let st1 :=
    match intersectedObject st with
    | Some id => restoreOriginalMaterials id isMeshNode st
    | None => st
    end in
  mkState (scene st1) (modelContainer st1) (baseModelContainer st1) (draggableObjects st1)
          (localPivotToBBoxCenterOffsets st1) (originalMaterials st1) None
          (coordinateModalShown st1) false false (alerts st1).

(** [deleteSelectedObject()]; [confirmed] is the answer to [confirm(...)]. *)
Definition deleteSelectedObject (confirmed : bool) (st : State) : State :=
  match intersectedObject st with
  | None => st
  | Some id =>
      if confirmed then
        let parentGroup := parentOf id (scene st) in
        let selectedIsMesh :=
          match findObject id (scene st) with
          | Some o => isMesh o
          | None => false
          end in
        let scene1 :=
          match parentGroup with
          | Some _ => removeObject id (scene st)
          | None => scene st
          end in
        (* Clean up from draggable sets and maps *)
        let draggable1 := draggableObjects st ∖ {[ id ]} in
        let offsets1 := delete id (localPivotToBBoxCenterOffsets st) in
        let scene2 :=
          match parentGroup with
          | Some pg =>
              if negb (bool_decide (Some (uuid pg) = modelContainer st))
                 && match findObject (uuid pg) scene1 with
                    | Some pg' => Nat.eqb (List.length (children pg')) 0
                    | None => false
                    end
              then
                match parentOf (uuid pg) scene1 with
                | Some _ => removeObject (uuid pg) scene1
                | None => scene1
                end
              else scene1
          | None => scene1
          end in
        let st2 :=
          hidePopups selectedIsMesh
            (mkState scene2 (modelContainer st) (baseModelContainer st) draggable1 offsets1
                     (originalMaterials st) (intersectedObject st)
                     (coordinateModalShown st) (coordPopupShown st)
                     (shadowCoveragePopupShown st) (alerts st)) in
        withScene (updateMatrixWorld None (scene st2)) st2
      else st
  end.

(** * Vocabulary of the properties and example data *)

Definition sunAbove : DirectionalLight :=
  let node p := mkObject3D 0 false false p Quaternion.identity (vec3 1 1 1)
                           Matrix4.identity None standardMaterial true false [] in
  mkDirectionalLight (node (vec3 0 10 0)) (node (vec3 0 0 0)).

(** The unit normal of the plane through the first three points. *)
Definition planeNormal (p1 p2 p3 : Vector3.t) : Vector3.t :=
  Vector3.normalize
    (Vector3.crossVectors (Vector3.subVectors p2 p1) (Vector3.subVectors p3 p1)).

(** The signed distance of the fourth point from that plane. *)
Definition planeDistance (p1 p2 p3 p4 : Vector3.t) : R :=
  Vector3.dot (Vector3.subVectors p4 p1) (planeNormal p1 p2 p3).

(** The first check passes: the first three points are not collinear. *)
Definition baseNotCollinear (p1 p2 p3 : Vector3.t) : Prop :=
  COLLINEARITY_EPSILON_SQ
  <= Vector3.lengthSq
       (Vector3.cross (Vector3.subVectors p2 p1) (Vector3.subVectors p3 p1)).

(** The node or one of its descendants is a mesh. *)
Definition hasMesh (o : Object3D) : Prop := Exists (fun d => isMesh d = true) (traverse o).

(** The world bounding box holds a point and is not reduced to a point. *)
Definition nonDegenerate (b : Box3.t) : Prop :=
  exists lo hi, b = Some (lo, hi)
    /\ Vector3.x lo <= Vector3.x hi /\ Vector3.y lo <= Vector3.y hi
    /\ Vector3.z lo <= Vector3.z hi
    /\ ~ (Vector3.x hi = Vector3.x lo /\ Vector3.y hi = Vector3.y lo
          /\ Vector3.z hi = Vector3.z lo).

(** The rule of the first pass, as a proposition. *)
Definition candidateRule (maxT minT : R) (o : Object3D) : Prop :=
  (isMesh o = true /\ userData_is2DPanel o = true)
  \/ ((isMesh o = true \/ isGroup o = true)
      /\ hasMesh o
      /\ nonDegenerate (setFromObject o)
      /\ maxDim (Box3.getSize (setFromObject o)) <= maxT
      /\ minDim (Box3.getSize (setFromObject o)) >= minT).

(** The scene graph without the cached world matrices: nodes, hierarchy,
    local transforms, geometry and flags. *)
Fixpoint eraseWorld (o : Object3D) : Object3D :=
  mkObject3D (uuid o) (isMesh o) (isGroup o) (position o) (quaternion o) (scale o)
             Matrix4.identity (geometry o) (material o) (castShadow o)
             (userData_is2DPanel o) (map eraseWorld (children o)).

(** The four points of a panel form, moved to the baseline frame, when the
    twelve fields are numbers and the baseline container is in the scene. *)
Definition baselinePoints (form : ParsedPoint * ParsedPoint * ParsedPoint * ParsedPoint)
    (st : State) : option (Vector3.t * Vector3.t * Vector3.t * Vector3.t) :=
  let '(f1, f2, f3, f4) := form in
  q1 ← pointOfFields f1; q2 ← pointOfFields f2;
  q3 ← pointOfFields f3; q4 ← pointOfFields f4;
  base ← findObject (baseModelContainer st) (updateMatrixWorld None (scene st));
  let inv := Matrix4.invert (matrixWorld base) in
  Some (applyMatrix4 q1 inv, applyMatrix4 q2 inv, applyMatrix4 q3 inv, applyMatrix4 q4 inv).

(** The form fails one of the three validation checks. *)
Definition failsValidation (form : ParsedPoint * ParsedPoint * ParsedPoint * ParsedPoint)
    (st : State) : Prop :=
  exists p1 p2 p3 p4,
    baselinePoints form st = Some (p1, p2, p3, p4)
    /\ validatePanel p1 p2 p3 p4 <> Accept.

Definition numberFields (x y z : R) : ParsedPoint := (Some x, Some y, Some z).

(** A small scene: the baseline container (1) holds the model container (2),
    which holds one panel (3); nothing is rotated. *)
Definition plainNode (id : nat) (mesh group : bool) (geo : option BufferGeometry)
    (cs : list Object3D) : Object3D :=
  mkObject3D id mesh group Vector3.zero Quaternion.identity (vec3 1 1 1)
             Matrix4.identity geo panelMaterial true mesh cs.

Definition smallScene : Object3D :=
  plainNode 0 false false None
    [plainNode 1 false true None
       [plainNode 2 false true None
          [plainNode 3 true false
             (Some (mkGeometry (Some [vec3 0 0 0; vec3 1 0 0; vec3 1 1 0])
                               (Some [0; 1; 2]%nat))) []]]].

Definition smallState : State :=
  mkState smallScene (Some 2%nat) 1%nat {[ 3%nat ]}
          {[ 3%nat := vec3 0.5 0.5 0 ]} ∅ (Some 3%nat) false true true [].

Definition offPlaneForm : ParsedPoint * ParsedPoint * ParsedPoint * ParsedPoint :=
  (numberFields 0 0 0, numberFields 1 0 0, numberFields 1 1 0, numberFields 0 1 5).

(** A scene for the estimator: a pane that casts no shadow (10), a wall that
    does (11) and a container (12) holding the sampled panel (13).  Every ray
    meets the pane at distance 1, the wall at distance 2 and nothing else. *)
Definition shadowNode (id : nat) (mesh cast : bool) (geo : option BufferGeometry)
    (cs : list Object3D) : Object3D :=
  mkObject3D id mesh (negb mesh) Vector3.zero Quaternion.identity (vec3 1 1 1)
             Matrix4.identity geo standardMaterial cast false cs.

Definition triangleGeometry : option BufferGeometry :=
  Some (mkGeometry (Some [vec3 0 0 0; vec3 1 0 0; vec3 0 1 0]) None).

Definition sampledPanel : Object3D := shadowNode 13 true true triangleGeometry [].
Definition pane : Object3D := shadowNode 10 true false triangleGeometry [].
Definition wall : Object3D := shadowNode 11 true true triangleGeometry [].

Definition shadowScene : Object3D :=
  shadowNode 0 false false None [pane; wall; shadowNode 12 false false None [sampledPanel]].

Definition paneThenWall (r : Ray) (o : Object3D) : list R :=
  if Nat.eqb (uuid o) 10 then [1] else if Nat.eqb (uuid o) 11 then [2] else [].

(** The same scene for a ray that also meets the sampled panel itself. *)
Definition selfHit (r : Ray) (o : Object3D) : list R :=
  if Nat.eqb (uuid o) 13 then [3] else [].

(** The order of the hits [intersectObjects] answers. *)
Definition nearerOrEqual (a b : Intersection) : Prop := distance a <= distance b.

(** A world matrix made of translations, rotations and scales has the last
    row (0, 0, 0, 1). *)
Definition affine (m : Matrix4.t) : Prop :=
  Matrix4.e3 m = 0 /\ Matrix4.e7 m = 0 /\ Matrix4.e11 m = 0 /\ Matrix4.e15 m = 1.

(** The parent of the moved node: none, or one whose world matrix is affine
    and invertible. *)
Definition parentOk (parentMatrixWorld : option Matrix4.t) : Prop :=
  match parentMatrixWorld with
  | Some m => affine m /\ Matrix4.determinant m <> 0
  | None => True
  end.

(** The matrix, the subtree and the box moved by the vector [d]. *)
Definition shiftMatrix (d : Vector3.t) (m : Matrix4.t) : Matrix4.t :=
  Matrix4.mk (Matrix4.e0 m) (Matrix4.e1 m) (Matrix4.e2 m) (Matrix4.e3 m)
             (Matrix4.e4 m) (Matrix4.e5 m) (Matrix4.e6 m) (Matrix4.e7 m)
             (Matrix4.e8 m) (Matrix4.e9 m) (Matrix4.e10 m) (Matrix4.e11 m)
             (Matrix4.e12 m + Vector3.x d) (Matrix4.e13 m + Vector3.y d)
             (Matrix4.e14 m + Vector3.z d) (Matrix4.e15 m).

Fixpoint shiftWorld (d : Vector3.t) (o : Object3D) : Object3D :=
  mkObject3D (uuid o) (isMesh o) (isGroup o) (position o) (quaternion o) (scale o)
             (shiftMatrix d (matrixWorld o)) (geometry o) (material o) (castShadow o)
             (userData_is2DPanel o) (map (shiftWorld d) (children o)).

Definition shiftBox (d : Vector3.t) (b : Box3.t) : Box3.t :=
  match b with
  | Some (lo, hi) => Some (Vector3.add lo d, Vector3.add hi d)
  | None => None
  end.

(** The upper 3x3 block of a matrix applied to a vector. *)
Definition linearPart (m : Matrix4.t) (v : Vector3.t) : Vector3.t :=
  vec3 (Matrix4.e0 m * Vector3.x v + Matrix4.e4 m * Vector3.y v + Matrix4.e8 m * Vector3.z v)
       (Matrix4.e1 m * Vector3.x v + Matrix4.e5 m * Vector3.y v + Matrix4.e9 m * Vector3.z v)
       (Matrix4.e2 m * Vector3.x v + Matrix4.e6 m * Vector3.y v + Matrix4.e10 m * Vector3.z v).

Definition allAffine (o : Object3D) : Prop :=
  Forall (fun n => affine (matrixWorld n)) (traverse o).

Definition orderedBox (b : Box3.t) : Prop :=
  match b with
  | Some (lo, hi) =>
      Vector3.x lo <= Vector3.x hi /\ Vector3.y lo <= Vector3.y hi
      /\ Vector3.z lo <= Vector3.z hi
  | None => True
  end.

(** A parent turned by half a turn about the z axis and moved by (2, 0, 0),
    and under it a panel at (1, 2, 3) with two vertices. *)
Definition halfTurnParent : Matrix4.t :=
  Matrix4.mk (-1) 0 0 0  0 (-1) 0 0  0 0 1 0  2 0 0 1.

Definition movedPanel : Object3D :=
  updateMatrixWorld (Some halfTurnParent)
    (mkObject3D 7 true false (vec3 1 2 3) Quaternion.identity (vec3 1 1 1)
                Matrix4.identity
                (Some (mkGeometry (Some [vec3 0 0 0; vec3 1 1 0]) None))
                panelMaterial true true []).

(** The area of the triangle [a b c]. *)
Definition triangleArea (a b c : Vector3.t) : R :=
  Vector3.length (Vector3.cross (Vector3.sub b a) (Vector3.sub c a)) / 2.

(** The sum of the areas of the triangles of a list of vertices taken three
    by three. *)
Fixpoint sumTriangleAreas (ps : list Vector3.t) : R :=
  match ps with
  | a :: b :: c :: rest => triangleArea a b c + sumTriangleAreas rest
  | _ => 0
  end.

(** [n . ((b - a) x (c - a))]: positive when the triangle [a b c] turns
    counter-clockwise seen from the tip of [n], and twice the area of the
    triangle when [n] is its unit normal. *)
Definition turn (n a b c : Vector3.t) : R :=
  Vector3.dot n (Vector3.cross (Vector3.sub b a) (Vector3.sub c a)).

(** A planar, strictly convex quadrilateral [p0 p1 p2 p3]: the first three
    corners are not collinear, the fourth lies in their plane, and the
    outline turns the same way at every corner. *)
Definition convexQuad (p0 p1 p2 p3 : Vector3.t) : Prop :=
  let n := getNormal p0 p1 p2 in
  0 < Vector3.lengthSq (Vector3.cross (Vector3.sub p1 p0) (Vector3.sub p2 p0))
  /\ Vector3.dot n (Vector3.sub p3 p0) = 0
  /\ 0 < turn n p1 p2 p3 /\ 0 < turn n p2 p3 p0 /\ 0 < turn n p3 p0 p1.

(** The triangle [t] lies in the plane of the triangle [t0] and faces the
    same way: the spec's coplanar triangles. *)
Definition coplanarWith (t0 : Triangle) (t : option Triangle) : Prop :=
  match t, vertices t0 with
  | Some t', c0 :: _ =>
      normal t' = normal t0
      /\ Forall (fun v => Vector3.dot (normal t0) (Vector3.sub v c0) = 0) (vertices t')
  | _, _ => False
  end.

(** The four cyclic orders of a quadrilateral that start where the outline
    is entered. *)
Definition rotations4 {A : Type} (a b c d : A) : list (list A) :=
  [[a; b; c; d]; [b; c; d; a]; [c; d; a; b]; [d; a; b; c]].

(** A square of side 2 in the plane z = 0, cut into four triangles around
    its centre. *)
Definition fanO : Vector3.t := vec3 0 0 0.
Definition fanC1 : Vector3.t := vec3 1 1 0.
Definition fanC2 : Vector3.t := vec3 (-1) 1 0.
Definition fanC3 : Vector3.t := vec3 (-1) (-1) 0.
Definition fanC4 : Vector3.t := vec3 1 (-1) 0.

Definition fanPositions : list Vector3.t :=
  [fanO; fanC1; fanC2;  fanO; fanC2; fanC3;  fanO; fanC3; fanC4;  fanO; fanC4; fanC1].

Definition fanSquare : Object3D :=
  mkObject3D 20 true false Vector3.zero Quaternion.identity (vec3 1 1 1) Matrix4.identity
             (Some (mkGeometry (Some fanPositions) None)) standardMaterial true false [].

(** A mesh of one triangle. *)
Definition oneTriangle : Object3D :=
  mkObject3D 21 true false Vector3.zero Quaternion.identity (vec3 1 1 1) Matrix4.identity
             (Some (mkGeometry (Some [vec3 0 0 0; vec3 1 0 0; vec3 0 1 0]) None))
             standardMaterial true false [].

(** The same triangle as an indexed geometry that holds a fourth, unused
    vertex. *)
Definition oneIndexedTriangle : Object3D :=
  mkObject3D 22 true false Vector3.zero Quaternion.identity (vec3 1 1 1) Matrix4.identity
             (Some (mkGeometry (Some [vec3 5 5 5; vec3 0 0 0; vec3 1 0 0; vec3 0 1 0])
                               (Some [1; 2; 3]%nat)))
             standardMaterial true false [].

(** The unit square as [addObjectToScene] builds it: four vertices and the
    triangles (0, 1, 2) and (0, 2, 3). *)
Definition unitSquarePanel : Object3D :=
  customPanel 23 (vec3 0 0 0) (vec3 1 0 0) (vec3 1 1 0) (vec3 0 1 0).

(** The triangles [getFacesWithAreas] builds from that square. *)
Definition fanTriangle (a b c : Vector3.t) : option Triangle :=
  Some (mkTriangle [a; b; c] (vec3 0 0 1)).

Definition fanTriangles : list (option Triangle) :=
  [fanTriangle fanO fanC1 fanC2; fanTriangle fanO fanC2 fanC3;
   fanTriangle fanO fanC3 fanC4; fanTriangle fanO fanC4 fanC1].

(** * Further functions of the viewer *)

(** ** Time of day ([timeInput] handler, [updateTimeDisplay]) *)

(** [Math.round]: the nearest integer, the larger one on a tie. *)
Definition Math_round (a : R) : Z := Math_floor (a + 1 / 2).

(** The [change] handler of [timeInput], on the two fields after [parseInt]
    ([None] is [NaN]): the value it assigns to [timeSlider], or [None] when it
    warns and resets the display instead. *)
Definition timeInputChange (hours minutes : option Z) : option R :=
  match hours, minutes with
  | Some h, Some m =>
      if ((0 <=? h) && (h <=? 23) && (0 <=? m) && (m <=? 59))%Z
      then Some (IZR h + IZR m / 60)
      else None
  | _, _ => None
  end.

(** The constants [hours] and [minutes] of [updateTimeDisplay]. *)
Definition displayHours (decimalHours : R) : Z := Math_floor decimalHours.
Definition displayMinutes (decimalHours : R) : Z :=
  Math_round ((decimalHours - IZR (displayHours decimalHours)) * 60).

(** [String(n).padStart(2, '0')] for an integer [n]. *)
Definition padStart2 (n : Z) : string := padZeros 2 (pretty n).

(** [updateTimeDisplay(decimalHours)]: the text put into [timeInput]. *)
Definition updateTimeDisplay (decimalHours : R) : string :=
  let formattedHours := padStart2 (displayHours decimalHours) in
  let formattedMinutes := padStart2 (displayMinutes decimalHours) in
  formattedHours +:+ ":" +:+ formattedMinutes.

(** ** Sun position ([updateSunPosition]) *)

(** What [SunCalc.getPosition] answers. *)
Record SunPos : Type := mkSunPos { altitude : R; azimuth : R }.

(** The vector given to [directionalLight.position.set]. *)
Definition sunLightPosition (sunPos : SunPos) : Vector3.t :=
  let distance := 100 in
  let horizontal_distance_from_origin := distance * cos (altitude sunPos) in
  let adjustedAzimuth := azimuth sunPos + PI in
  let sunX_east := horizontal_distance_from_origin * sin adjustedAzimuth in
  let sunY_north := horizontal_distance_from_origin * cos adjustedAzimuth in
  let sunZ_up := distance * sin (altitude sunPos) in
  vec3 sunX_east sunY_north sunZ_up.

(** The point the light is aimed at; [modelBoundingBox] is [None] before a
    model is loaded. *)
Definition sunTarget (modelBoundingBox : option Box3.t) : Vector3.t :=
  match modelBoundingBox with
  | Some b => if negb (Box3.isEmpty b) then Box3.getCenter b else vec3 0 0 0
  | None => vec3 0 0 0
  end.

Definition distanceTo (a b : Vector3.t) : R := Vector3.length (Vector3.sub a b).

(** The orthographic camera of the light's shadow. *)
Record ShadowCamera : Type := mkShadowCamera {
  cam_left : R; cam_right : R; cam_top : R; cam_bottom : R;
  cam_near : R; cam_far : R }.

(** The frustum [updateSunPosition] gives to [directionalLight.shadow.camera]. *)
Definition updateShadowCamera (lightPosition : Vector3.t)
    (modelBoundingBox : option Box3.t) (lightCamera : ShadowCamera) : ShadowCamera :=
  match modelBoundingBox with
  | Some b =>
      if negb (Box3.isEmpty b) then
        let size := Box3.getSize b in
        let center := Box3.getCenter b in
        let maxDim := Math_max3 (Vector3.x size) (Vector3.y size) (Vector3.z size) in
        let frustumSize := maxDim * 1.5 in
        let lightToTargetDistance := distanceTo lightPosition center in
        let near := lightToTargetDistance - frustumSize * 0.75 in
        let far := lightToTargetDistance + frustumSize * 0.75 in
        mkShadowCamera (- frustumSize / 2) (frustumSize / 2) (frustumSize / 2)
                       (- frustumSize / 2)
                       (if Rltb near 0.1 then 0.1 else near) far
      else lightCamera
  | None => lightCamera
  end.

(** [updateSunPosition()], as far as the light is concerned: the light with
    its new position and target, on the answer [sunPos] of SunCalc. *)
Definition updateSunPosition (sunPos : SunPos) (modelBoundingBox : option Box3.t)
    (directionalLight : DirectionalLight) : DirectionalLight :=
  mkDirectionalLight
    (setPosition (sunLightPosition sunPos) (light directionalLight))
    (setPosition (sunTarget modelBoundingBox) (target directionalLight)).

(** ** Load filter (the [meshesToProcess.forEach] of the load callback) *)

Definition VOLUME_EPSILON : R := 1 / 1000000000.
Definition MIN_SURFACE_AREA_TO_VOLUME_RATIO : R := 0.008.
Definition MAX_VOLUME : R := 5000000000.

(** [geometry.computeBoundingBox()]: the box of the position attribute, in
    the geometry's own frame; empty without position attribute. *)
Definition computeBoundingBox (g : BufferGeometry) : Box3.t :=
  match positionAttribute g with
  | Some ps => fold_left Box3.expandByPoint ps Box3.makeEmpty
  | None => Box3.makeEmpty
  end.

Inductive LoadVerdict : Type :=
  | KeptAsPanel      (* material := panelMaterial *)
  | Removed          (* mesh.parent.remove(mesh) *)
  | KeptAsStandard.  (* material := standardMaterial *)

(** The verdict on one mesh; [None] when the mesh has no geometry and reading
    its bounding box throws. *)
Definition loadFilter (mesh : Object3D) : option LoadVerdict :=
  if userData_is2DPanel mesh then Some KeptAsPanel
  else
    match geometry mesh with
    | None => None
    | Some g =>
        let size := Box3.getSize (computeBoundingBox g) in
        let volume := Vector3.x size * Vector3.y size * Vector3.z size in
        let surfaceArea :=
          2 * (Vector3.x size * Vector3.y size + Vector3.x size * Vector3.z size
               + Vector3.y size * Vector3.z size) in
        (* [None] is [Infinity] *)
        let ratio := if Rgtb volume VOLUME_EPSILON then Some (surfaceArea / volume)
                     else None in
        if Rltb volume MAX_VOLUME
           && match ratio with
              | Some r => Rgtb r MIN_SURFACE_AREA_TO_VOLUME_RATIO
              | None => true
              end
        then Some Removed
        else Some KeptAsStandard
    end.

(** ** Primary mesh of a group ([getPrimaryMeshInGroup]) *)

(** The state of the traversal: [primaryMesh] and [smallestVolume], where
    [None] is [Infinity]. *)
Definition PrimaryState : Type := (option Object3D * option R)%type.

Definition geometryVolume (g : BufferGeometry) : R :=
  let size := Box3.getSize (computeBoundingBox g) in
  Vector3.x size * Vector3.y size * Vector3.z size.

(** The callback of [group.traverse]; the outer [None] is the exception
    thrown at a mesh without geometry. *)
Definition primaryMeshCallback (acc : option PrimaryState) (child : Object3D)
    : option PrimaryState :=
  match acc with
  | None => None
  | Some (primaryMesh, smallestVolume) =>
      if isMesh child then
        match geometry child with
        | None => None
        | Some g =>
            let volume := geometryVolume g in
            if match smallestVolume with
               | Some s => Rltb volume s
               | None => true
               end
            then Some (Some child, Some volume)
            else acc
        end
      else acc
  end.

Definition getPrimaryMeshInGroup (group : Object3D) : option (option Object3D) :=
  option_map fst (fold_left primaryMeshCallback (traverse group) (Some (None, None))).

(** ** Dragging ([setupDragPlane], drag branch of [onPointerMove]) *)

(** [Plane.setFromNormalAndCoplanarPoint] *)
Definition setFromNormalAndCoplanarPoint (normal point : Vector3.t) : Plane :=
  mkPlane normal (- Vector3.dot point normal).

(** [Ray.distanceToPlane]: [None] is [null]. *)
Definition distanceToPlane (ray : Ray) (plane : Plane) : option R :=
  let denominator := Vector3.dot (plane_normal plane) (direction ray) in
  if Reqb denominator 0 then
    if Reqb (distanceToPoint plane (origin ray)) 0 then Some 0 else None
  else
    let t := - (Vector3.dot (origin ray) (plane_normal plane) + plane_constant plane)
             / denominator in
    if Rgeb t 0 then Some t else None.

(** [Ray.intersectPlane] *)
Definition intersectPlane (ray : Ray) (plane : Plane) : option Vector3.t :=
  option_map
    (fun t => Vector3.add (origin ray) (Vector3.multiplyScalar (direction ray) t))
    (distanceToPlane ray plane).

(** The normal [setupDragPlane] picks: the axis the camera looks along most,
    turned towards the camera. *)
Definition dragPlaneNormal (cameraDirection cameraPosition objectWorldPosition : Vector3.t)
    : Vector3.t :=
  let absX := Rabs (Vector3.x cameraDirection) in
  let absY := Rabs (Vector3.y cameraDirection) in
  let absZ := Rabs (Vector3.z cameraDirection) in
  let planeNormal :=
    if Rgeb absY absX && Rgeb absY absZ then vec3 0 1 0
    else if Rgeb absZ absX && Rgeb absZ absY then vec3 0 0 1
    else vec3 1 0 0 in
  if Rltb (Vector3.dot planeNormal (Vector3.sub cameraPosition objectWorldPosition)) 0
  then Vector3.negate planeNormal
  else planeNormal.

(** [setupDragPlane(objectWorldPosition)]: the new [plane] and [_dragOffset].
    [ray] is [raycaster.ray]; a ray that misses the plane leaves
    [initialIntersectionPoint] at the origin. *)
Definition setupDragPlane (cameraDirection cameraPosition : Vector3.t) (ray : Ray)
    (intersectedObject : Object3D) (objectWorldPosition : Vector3.t)
    : Plane * Vector3.t :=
  let plane :=
    setFromNormalAndCoplanarPoint
      (dragPlaneNormal cameraDirection cameraPosition objectWorldPosition)
      objectWorldPosition in
  let initialIntersectionPoint :=
    match intersectPlane ray plane with
    | Some p => p
    | None => vec3 0 0 0
    end in
  let currentWorldBBoxCenter := Box3.getCenter (setFromObject intersectedObject) in
  (plane, Vector3.sub initialIntersectionPoint currentWorldBBoxCenter).

(** The drag branch of [onPointerMove], once [isDragging] holds: the node
    after the move and its cache entry.  The arguments are those of
    [onCoordInputChange], with the pointer ray, the drag plane and the drag
    offset in place of the typed coordinates. *)
Definition onPointerMoveDrag (ray : Ray) (plane : Plane) (_dragOffset : Vector3.t)
    (parentMatrixWorld : option Matrix4.t) (cached : option Vector3.t)
    (intersectedObject : Object3D) : Object3D * option Vector3.t :=
  match intersectPlane ray plane with
  | Some newIntersectionPoint =>
      let desiredWorldBBoxCenter := Vector3.sub newIntersectionPoint _dragOffset in
      let localOffset :=
        match cached with
        | Some off => off
        | None => localBBoxOffset intersectedObject
        end in
      let worldOrientedOffsetFromPivotToBBoxCenter :=
        applyQuaternion localOffset (getWorldQuaternion intersectedObject) in
      let desiredObjectPivotWorldPosition :=
        Vector3.sub desiredWorldBBoxCenter worldOrientedOffsetFromPivotToBBoxCenter in
      let parentMatrix :=
        match parentMatrixWorld with
        | Some m => m
        | None => Matrix4.identity
        end in
      let inverseParentMatrixWorld := Matrix4.invert parentMatrix in
      let newObjectLocalPosition :=
        applyMatrix4 desiredObjectPivotWorldPosition inverseParentMatrixWorld in
      (updateMatrixWorld parentMatrixWorld
         (setPosition newObjectLocalPosition intersectedObject),
       Some localOffset)
  | None => (intersectedObject, cached)
  end.

(** ** Model rotation ([rotateModel]) *)

(** [Quaternion.setFromAxisAngle] *)
Definition setFromAxisAngle (axis : Vector3.t) (angle : R) : Quaternion.t :=
  let halfAngle := angle / 2 in
  let s := sin halfAngle in
  Quaternion.mk (Vector3.x axis * s) (Vector3.y axis * s) (Vector3.z axis * s)
                (cos halfAngle).

(** [Quaternion.multiply] *)
Definition multiplyQuaternions (a b : Quaternion.t) : Quaternion.t :=
  let qax := Quaternion.x a in let qay := Quaternion.y a in
  let qaz := Quaternion.z a in let qaw := Quaternion.w a in
  let qbx := Quaternion.x b in let qby := Quaternion.y b in
  let qbz := Quaternion.z b in let qbw := Quaternion.w b in
  Quaternion.mk (qax * qbw + qaw * qbx + qay * qbz - qaz * qby)
                (qay * qbw + qaw * qby + qaz * qbx - qax * qbz)
                (qaz * qbw + qaw * qbz + qax * qby - qay * qbx)
                (qaw * qbw - qax * qbx - qay * qby - qaz * qbz).

(** The [axis] argument: ['x'], ['y'], ['z'] or another value. *)
Inductive AxisName : Type := AxisX | AxisY | AxisZ | AxisOther.

Definition worldRotationAxis (axis : AxisName) : Vector3.t :=
  match axis with
  | AxisX => vec3 1 0 0
  | AxisY => vec3 0 1 0
  | AxisZ => vec3 0 0 1
  | AxisOther => vec3 0 0 0
  end.

(** [getAxisRotationQuaternion(axis, angle)] *)
Definition getAxisRotationQuaternion (axis : AxisName) (angle : R) : Quaternion.t :=
  match axis with
  | AxisOther => Quaternion.identity
  | _ => setFromAxisAngle (worldRotationAxis axis) angle
  end.

(** [rotateModel(axis, angle)]: the quaternions the two tweens end on,
    [targetModelContainerQuaternion] and [targetPermanentAxesRotation], from
    the baseline container, [modelContainer.quaternion] and
    [customAxesRotation]. *)
Definition rotateModel (baseModelContainer : Object3D)
    (modelContainerQuaternion customAxesRotation : Quaternion.t)
    (axis : AxisName) (angle : R) : Quaternion.t * Quaternion.t :=
  let baseModelWorldQuaternion := getWorldQuaternion baseModelContainer in
  let inverseBaseModelWorldQuaternion := Quaternion.invert baseModelWorldQuaternion in
  let localRotationAxis :=
    applyQuaternion (worldRotationAxis axis) inverseBaseModelWorldQuaternion in
  let rotationQuaternionForModel := setFromAxisAngle localRotationAxis angle in
  let targetModelContainerQuaternion :=
    multiplyQuaternions modelContainerQuaternion rotationQuaternionForModel in
  let rotationQuaternionForAxes := getAxisRotationQuaternion axis angle in
  let targetPermanentAxesRotation :=
    multiplyQuaternions customAxesRotation rotationQuaternionForAxes in
  (targetModelContainerQuaternion, targetPermanentAxesRotation).

(** ** Camera views ([setView]) *)

(** The [theta] the camera tween of [setView] ends on, from the angles of
    the current and of the final offset. *)
Definition setViewTheta (currentTheta targetTheta : R) : R :=
  let angleDifference := targetTheta - currentTheta in
  if Rgtb angleDifference PI then targetTheta - 2 * PI
  else if Rltb angleDifference (- PI) then targetTheta + 2 * PI
  else targetTheta.

(** ** Coordinate popup ([updateCoordPopup]) *)

(** The text of one coordinate field. *)
Definition coordText (w : R) : string :=
  toFixed (if Rltb (Rabs w) 0.005 then 0 else w) 2.

(** The three fields for the selected node. *)
Definition updateCoordPopup (object : Object3D) : string * string * string :=
  let worldPos := Box3.getCenter (setFromObject object) in
  (coordText (Vector3.x worldPos), coordText (Vector3.y worldPos),
   coordText (Vector3.z worldPos)).

(** ** Panels from faces ([convertDraggableObjectsToLargestPanels]) *)

(** The triangle fan over the translated vertices. *)
Definition fanPositionsOf (translatedVertices : list Vector3.t) : list Vector3.t :=
  match translatedVertices with
  | [] => []
  | anchorVertexLocal :: _ =>
      flat_map
        (fun i => [anchorVertexLocal;
                   nth i translatedVertices Vector3.zero;
                   nth (S i) translatedVertices Vector3.zero])
        (seq 1 (List.length translatedVertices - 2))
  end.

(** What the loop body does with one draggable [object]: [None] keeps the
    object, [Some panel] replaces it by the panel.  [newId] is the identity
    of the new mesh, [modelContainerWorld] the world matrix of
    [modelContainer]. *)
Definition panelOfObject (newId : nat) (modelContainerWorld : Matrix4.t)
    (object : Object3D) : option Object3D :=
  let objectBoundingBox := setFromObject object in
  let objectWorldCenter := Box3.getCenter objectBoundingBox in
  if negb (isMesh object) || negb (bool_decide (geometry object <> None)) then None
  else
    match getFacesWithAreas (Some object) with
    | [] => None
    | largestFace :: _ =>
        if (List.length (face_vertices largestFace) <? 3)%nat then None
        else
          let centroid :=
            Vector3.divideScalar
              (fold_left Vector3.add (face_vertices largestFace) Vector3.zero)
              (INR (List.length (face_vertices largestFace))) in
          let translatedVertices :=
            map (fun v => Vector3.subVectors v centroid) (face_vertices largestFace) in
          let newPanelLocalPosition :=
            applyMatrix4 objectWorldCenter (Matrix4.invert modelContainerWorld) in
          Some (mkObject3D newId true false newPanelLocalPosition Quaternion.identity
                           (vec3 1 1 1) Matrix4.identity
                           (Some (mkGeometry (Some (fanPositionsOf translatedVertices)) None))
                           panelMaterial true true [])
    end.

(** ** Selection ([onPointerDown]) *)

(** The chain [object, object.parent, ...] up to the root, for the first
    node called [id]; [None] when no node is called so. *)
Fixpoint pathTo (id : nat) (o : Object3D) : option (list Object3D) :=
  if Nat.eqb (uuid o) id then Some [o]
  else
    option_map (fun p => p ++ [o])
      ((fix go (cs : list Object3D) : option (list Object3D) :=
          match cs with
          | [] => None
          | c :: cs' =>
              match pathTo id c with
              | Some p => Some p
              | None => go cs'
              end
          end) (children o)).

(** The [while] loop over [currentHierarchyObject]: the first node of the
    chain, before the model container, that is in [draggableObjects]. *)
Fixpoint firstDraggableAncestor (draggableObjects : gset nat) (modelContainer : nat)
    (chain : list Object3D) : option Object3D :=
  match chain with
  | [] => None
  | currentHierarchyObject :: rest =>
      if Nat.eqb (uuid currentHierarchyObject) modelContainer then None
      else if bool_decide (uuid currentHierarchyObject ∈ draggableObjects)
           then Some currentHierarchyObject
           else firstDraggableAncestor draggableObjects modelContainer rest
  end.

(** [newSelectedObject] for the nearest hit [closestIntersectedMesh], given
    by its chain. *)
Definition newSelectedObject (draggableObjects : gset nat) (modelContainer : nat)
    (chain : list Object3D) : option Object3D :=
  match chain with
  | [] => None
  | closestIntersectedMesh :: _ =>
      let found :=
        if bool_decide (uuid closestIntersectedMesh ∈ draggableObjects)
        then Some closestIntersectedMesh
        else firstDraggableAncestor draggableObjects modelContainer chain in
      match found with
      | Some o => Some o
      | None => if isMesh closestIntersectedMesh then Some closestIntersectedMesh else None
      end
  end.

(** [object.traverse(child => { if (child.isMesh) child.material = highlightMaterial })] *)
Fixpoint highlight (o : Object3D) : Object3D :=
  mkObject3D (uuid o) (isMesh o) (isGroup o) (position o) (quaternion o) (scale o)
             (matrixWorld o) (geometry o)
             (if isMesh o then highlightMaterial else material o)
             (castShadow o) (userData_is2DPanel o) (map highlight (children o)).

(** [originalMaterials] after [clear()] and the [set] of every mesh of the
    subtree. *)
Definition savedMaterials (o : Object3D) : gmap nat Material :=
  fold_left (fun m child => if isMesh child then <[ uuid child := material child ]> m else m)
            (traverse o) ∅.

(** [pointerDownOnDraggable] and [controls.enabled]. *)
Record Pointer : Type := mkPointer {
  pointerDownOnDraggable : bool;
  controlsEnabled : bool }.

Definition isMeshAt (id : nat) (sc : Object3D) : bool :=
  match findObject id sc with
  | Some o => isMesh o
  | None => false
  end.

(** [onPointerDown(event)] on the 3D view; [hit] is the node of the nearest
    intersection of the pointer ray with the model container, [None] when the
    ray meets nothing. *)
Definition onPointerDown (hit : option nat) (st : State) (ptr : Pointer)
    : State * Pointer :=
  match modelContainer st with
  | None => (st, ptr)
  | Some mc =>
      let st0 := withScene (updateMatrixWorld None (scene st)) st in
      let chain :=
        match hit with
        | Some h => match pathTo h (scene st0) with Some p => p | None => [] end
        | None => []
        end in
      match newSelectedObject (draggableObjects st0) mc chain with
      | Some sel =>
          let draggable := bool_decide (uuid sel ∈ draggableObjects st0) in
          if bool_decide (intersectedObject st0 = Some (uuid sel)) then
            (* same object re-clicked *)
            (st0, mkPointer draggable (negb draggable))
          else
            let st1 :=
              match intersectedObject st0 with
              | Some old => restoreOriginalMaterials old (isMeshAt old (scene st0)) st0
              | None => st0
              end in
            let saved :=
              match findObject (uuid sel) (scene st1) with
              | Some o => savedMaterials o
              | None => ∅
              end in
            (mkState (updateObject (uuid sel) highlight (scene st1))
                     (modelContainer st1) (baseModelContainer st1) (draggableObjects st1)
                     (localPivotToBBoxCenterOffsets st1) saved (Some (uuid sel))
                     (coordinateModalShown st1) true draggable (alerts st1),
             mkPointer draggable (negb draggable))
      | None =>
          (* clicked outside the model or on the background *)
          (match intersectedObject st0 with
           | Some old => hidePopups (isMeshAt old (scene st0)) st0
           | None => st0
           end,
           mkPointer false true)
      end
  end.

(** The order in which [getFacesWithAreas] lists its faces. *)
Definition largerOrEqualArea (f g : Face) : Prop := face_area g <= face_area f.

(** The world vertices of a mesh: its position attribute moved by its
    [matrixWorld]. *)
Definition worldVertices (o : Object3D) (ps : list Vector3.t) : list Vector3.t :=
  map (fun p => applyMatrix4 p (matrixWorld o)) ps.

(** The number of triangles [getFacesWithAreas] reads from a node: one per
    started group of three entries of the index, or of the position
    attribute; none when a guard of the function fails. *)
Definition triangleCount (o : Object3D) : nat :=
  if isMesh o then
    match geometry o with
    | Some g =>
        match positionAttribute g with
        | Some ps =>
            match indexAttribute g with
            | Some idx => Nat.div (List.length idx + 2) 3
            | None => Nat.div (List.length ps + 2) 3
            end
        | None => 0%nat
        end
    | None => 0%nat
    end
  else 0%nat.

(** The selected node and its entry in the offset cache, and the coordinate
    handler run on them with the three fields of [w]. *)
Definition moveTo (parentMatrixWorld : option Matrix4.t)
    (st : Object3D * option Vector3.t) (w : Vector3.t) : Object3D * option Vector3.t :=
  onCoordInputChange parentMatrixWorld (snd st) (fst st)
    (Some (Vector3.x w)) (Some (Vector3.y w)) (Some (Vector3.z w)).

(** The handler run once for each entry of [ws], in order. *)
Definition moves (parentMatrixWorld : option Matrix4.t)
    (st : Object3D * option Vector3.t) (ws : list Vector3.t)
    : Object3D * option Vector3.t :=
  fold_left (moveTo parentMatrixWorld) ws st.

(** Every mesh of the list has a geometry. *)
Definition meshesHaveGeometry (l : list Object3D) : Prop :=
  Forall (fun n => isMesh n = true -> geometry n <> None) l.

(** [m] is a mesh of the list whose geometry box has the least volume, and
    the first such mesh of the list. *)
Definition firstSmallestMesh (l : list Object3D) (m : Object3D) : Prop :=
  exists (before after : list Object3D) (g : BufferGeometry),
    l = before ++ m :: after
    /\ isMesh m = true /\ geometry m = Some g
    /\ Forall (fun n => isMesh n = true ->
                        forall gn, geometry n = Some gn ->
                                   geometryVolume g < geometryVolume gn) before
    /\ Forall (fun n => isMesh n = true ->
                        forall gn, geometry n = Some gn ->
                                   geometryVolume g <= geometryVolume gn) after.

(** The state of the traversal after the nodes [done]. *)
Definition primaryInvariant (done : list Object3D) (acc : PrimaryState) : Prop :=
  match acc with
  | (None, None) => Forall (fun n => isMesh n = false) done
  | (Some m, Some v) =>
      exists g, geometry m = Some g /\ v = geometryVolume g /\ firstSmallestMesh done m
  | _ => False
  end.


(** The form of the panel dialog filled with four points. *)
Definition panelForm (q1 q2 q3 q4 : Vector3.t)
    : ParsedPoint * ParsedPoint * ParsedPoint * ParsedPoint :=
  (numberFields (Vector3.x q1) (Vector3.y q1) (Vector3.z q1),
   numberFields (Vector3.x q2) (Vector3.y q2) (Vector3.z q2),
   numberFields (Vector3.x q3) (Vector3.y q3) (Vector3.z q3),
   numberFields (Vector3.x q4) (Vector3.y q4) (Vector3.z q4)).

(** The identities of the nodes of a tree. *)
Definition uuids (o : Object3D) : list nat := map uuid (traverse o).

(** The small scene with its panel draggable and nothing selected. *)
Definition idleState : State :=
  mkState smallScene (Some 2%nat) 1%nat {[ 3%nat ]} ∅ ∅ None false false false [].

(** The panel of the small scene. *)
Definition smallPanel : Object3D :=
  plainNode 3 true false
    (Some (mkGeometry (Some [vec3 0 0 0; vec3 1 0 0; vec3 1 1 0]) (Some [0; 1; 2]%nat))) [].

(** The hierarchy alone: the identities of the nodes and how they are
    nested. *)
Fixpoint skeleton (o : Object3D) : Object3D :=
  mkObject3D (uuid o) false false Vector3.zero Quaternion.identity Vector3.zero
             Matrix4.identity None standardMaterial false false
             (map skeleton (children o)).

(** ** The pivot-offset transform engine in binary64 arithmetic

    The functions of the transform engine once more, this time over the
    binary64 numbers JavaScript computes with ([PrimFloat.float]): every
    [+], [-], [*], [/] and [Math.sqrt] rounds as the JavaScript one does, and
    the operations are written in the order of the three.js (r176) sources.
    [NaN], [Infinity] and the signed zeros are those of IEEE 754.  A scene
    node keeps the fields the engine reads. *)

Module B64.
Import PrimFloat.
Local Open Scope float_scope.
Set Warnings "-inexact-float".

(** [Math.min(a, b)] and [Math.max(a, b)]: [NaN] when an argument is [NaN],
    and [-0] below [+0]. *)
Definition Math_min (a b : float) : float :=
  if is_nan a || is_nan b then nan
  else if a <? b then a
  else if b <? a then b
  else match classify a with FloatClass.NZero => a | _ => b end.

Definition Math_max (a b : float) : float :=
  if is_nan a || is_nan b then nan
  else if b <? a then a
  else if a <? b then b
  else match classify a with FloatClass.PZero => a | _ => b end.

Module Vector3.
Record t : Type := mk { x : float; y : float; z : float }.

Definition zero : t := mk 0 0 0.

Definition sub (a b : t) : t := mk (x a - x b) (y a - y b) (z a - z b).
Definition addVectors (a b : t) : t := mk (x a + x b) (y a + y b) (z a + z b).
Definition multiplyScalar (v : t) (s : float) : t := mk (x v * s) (y v * s) (z v * s).

(** [min(v)] and [max(v)], component by component. *)
Definition min (a v : t) : t :=
  mk (Math_min (x a) (x v)) (Math_min (y a) (y v)) (Math_min (z a) (z v)).
Definition max (a v : t) : t :=
  mk (Math_max (x a) (x v)) (Math_max (y a) (y v)) (Math_max (z a) (z v)).

(** [length() { return Math.sqrt(x * x + y * y + z * z) }] *)
Definition length (v : t) : float := sqrt (x v * x v + y v * y v + z v * z v).
End Vector3.

Module Quaternion.
Record t : Type := mk { x : float; y : float; z : float; w : float }.

Definition identity : t := mk 0 0 0 1.

(** [invert()] is [conjugate()]: [_x *= -1; _y *= -1; _z *= -1]. *)
Definition invert (q : t) : t := mk (x q * -1) (y q * -1) (z q * -1) (w q).
End Quaternion.

(** [Vector3.applyQuaternion(q)] *)
Definition applyQuaternion (v : Vector3.t) (q : Quaternion.t) : Vector3.t :=
  let vx := Vector3.x v in let vy := Vector3.y v in let vz := Vector3.z v in
  let qx := Quaternion.x q in let qy := Quaternion.y q in
  let qz := Quaternion.z q in let qw := Quaternion.w q in
  let tx := 2 * (qy * vz - qz * vy) in
  let ty := 2 * (qz * vx - qx * vz) in
  let tz := 2 * (qx * vy - qy * vx) in
  Vector3.mk (vx + qw * tx + qy * tz - qz * ty)
             (vy + qw * ty + qz * tx - qx * tz)
             (vz + qw * tz + qx * ty - qy * tx).

Module Matrix4.
Record t : Type := mk {
  e0 : float; e1 : float; e2 : float; e3 : float;
  e4 : float; e5 : float; e6 : float; e7 : float;
  e8 : float; e9 : float; e10 : float; e11 : float;
  e12 : float; e13 : float; e14 : float; e15 : float }.

Definition identity : t := mk 1 0 0 0  0 1 0 0  0 0 1 0  0 0 0 1.
Definition zero : t := mk 0 0 0 0  0 0 0 0  0 0 0 0  0 0 0 0.

Definition compose (position : Vector3.t) (q : Quaternion.t) (scale : Vector3.t) : t :=
  let x := Quaternion.x q in let y := Quaternion.y q in
  let z := Quaternion.z q in let w := Quaternion.w q in
  let x2 := x + x in let y2 := y + y in let z2 := z + z in
  let xx := x * x2 in let xy := x * y2 in let xz := x * z2 in
  let yy := y * y2 in let yz := y * z2 in let zz := z * z2 in
  let wx := w * x2 in let wy := w * y2 in let wz := w * z2 in
  let sx := Vector3.x scale in let sy := Vector3.y scale in
  let sz := Vector3.z scale in
  mk ((1 - (yy + zz)) * sx) ((xy + wz) * sx) ((xz - wy) * sx) 0
     ((xy - wz) * sy) ((1 - (xx + zz)) * sy) ((yz + wx) * sy) 0
     ((xz + wy) * sz) ((yz - wx) * sz) ((1 - (xx + yy)) * sz) 0
     (Vector3.x position) (Vector3.y position) (Vector3.z position) 1.

Definition multiplyMatrices (a b : t) : t :=
  let a11 := e0 a in let a21 := e1 a in let a31 := e2 a in let a41 := e3 a in
  let a12 := e4 a in let a22 := e5 a in let a32 := e6 a in let a42 := e7 a in
  let a13 := e8 a in let a23 := e9 a in let a33 := e10 a in let a43 := e11 a in
  let a14 := e12 a in let a24 := e13 a in let a34 := e14 a in let a44 := e15 a in
  let b11 := e0 b in let b21 := e1 b in let b31 := e2 b in let b41 := e3 b in
  let b12 := e4 b in let b22 := e5 b in let b32 := e6 b in let b42 := e7 b in
  let b13 := e8 b in let b23 := e9 b in let b33 := e10 b in let b43 := e11 b in
  let b14 := e12 b in let b24 := e13 b in let b34 := e14 b in let b44 := e15 b in
  mk (a11 * b11 + a12 * b21 + a13 * b31 + a14 * b41)
     (a21 * b11 + a22 * b21 + a23 * b31 + a24 * b41)
     (a31 * b11 + a32 * b21 + a33 * b31 + a34 * b41)
     (a41 * b11 + a42 * b21 + a43 * b31 + a44 * b41)
     (a11 * b12 + a12 * b22 + a13 * b32 + a14 * b42)
     (a21 * b12 + a22 * b22 + a23 * b32 + a24 * b42)
     (a31 * b12 + a32 * b22 + a33 * b32 + a34 * b42)
     (a41 * b12 + a42 * b22 + a43 * b32 + a44 * b42)
     (a11 * b13 + a12 * b23 + a13 * b33 + a14 * b43)
     (a21 * b13 + a22 * b23 + a23 * b33 + a24 * b43)
     (a31 * b13 + a32 * b23 + a33 * b33 + a34 * b43)
     (a41 * b13 + a42 * b23 + a43 * b33 + a44 * b43)
     (a11 * b14 + a12 * b24 + a13 * b34 + a14 * b44)
     (a21 * b14 + a22 * b24 + a23 * b34 + a24 * b44)
     (a31 * b14 + a32 * b24 + a33 * b34 + a34 * b44)
     (a41 * b14 + a42 * b24 + a43 * b34 + a44 * b44).

Definition determinant (m : t) : float :=
  let n11 := e0 m in let n21 := e1 m in let n31 := e2 m in let n41 := e3 m in
  let n12 := e4 m in let n22 := e5 m in let n32 := e6 m in let n42 := e7 m in
  let n13 := e8 m in let n23 := e9 m in let n33 := e10 m in let n43 := e11 m in
  let n14 := e12 m in let n24 := e13 m in let n34 := e14 m in let n44 := e15 m in
  n41 * (n14 * n23 * n32 - n13 * n24 * n32 - n14 * n22 * n33
         + n12 * n24 * n33 + n13 * n22 * n34 - n12 * n23 * n34)
  + n42 * (n11 * n23 * n34 - n11 * n24 * n33 + n14 * n21 * n33
           - n13 * n21 * n34 + n13 * n24 * n31 - n14 * n23 * n31)
  + n43 * (n11 * n24 * n32 - n11 * n22 * n34 - n14 * n21 * n32
           + n12 * n21 * n34 + n14 * n22 * n31 - n12 * n24 * n31)
  + n44 * (- n13 * n22 * n31 - n11 * n23 * n32 + n11 * n22 * n33
           + n13 * n21 * n32 - n12 * n21 * n33 + n12 * n23 * n31).

(** [invert()]: [det === 0] answers the zero matrix. *)
Definition invert (m : t) : t :=
  let n11 := e0 m in let n21 := e1 m in let n31 := e2 m in let n41 := e3 m in
  let n12 := e4 m in let n22 := e5 m in let n32 := e6 m in let n42 := e7 m in
  let n13 := e8 m in let n23 := e9 m in let n33 := e10 m in let n43 := e11 m in
  let n14 := e12 m in let n24 := e13 m in let n34 := e14 m in let n44 := e15 m in
  let t11 := n23 * n34 * n42 - n24 * n33 * n42 + n24 * n32 * n43
             - n22 * n34 * n43 - n23 * n32 * n44 + n22 * n33 * n44 in
  let t12 := n14 * n33 * n42 - n13 * n34 * n42 - n14 * n32 * n43
             + n12 * n34 * n43 + n13 * n32 * n44 - n12 * n33 * n44 in
  let t13 := n13 * n24 * n42 - n14 * n23 * n42 + n14 * n22 * n43
             - n12 * n24 * n43 - n13 * n22 * n44 + n12 * n23 * n44 in
  let t14 := n14 * n23 * n32 - n13 * n24 * n32 - n14 * n22 * n33
             + n12 * n24 * n33 + n13 * n22 * n34 - n12 * n23 * n34 in
  let det := n11 * t11 + n21 * t12 + n31 * t13 + n41 * t14 in
  if det =? 0 then zero
  else
    let detInv := 1 / det in
    mk (t11 * detInv)
       ((n24 * n33 * n41 - n23 * n34 * n41 - n24 * n31 * n43
         + n21 * n34 * n43 + n23 * n31 * n44 - n21 * n33 * n44) * detInv)
       ((n22 * n34 * n41 - n24 * n32 * n41 + n24 * n31 * n42
         - n21 * n34 * n42 - n22 * n31 * n44 + n21 * n32 * n44) * detInv)
       ((n23 * n32 * n41 - n22 * n33 * n41 - n23 * n31 * n42
         + n21 * n33 * n42 + n22 * n31 * n43 - n21 * n32 * n43) * detInv)
       (t12 * detInv)
       ((n13 * n34 * n41 - n14 * n33 * n41 + n14 * n31 * n43
         - n11 * n34 * n43 - n13 * n31 * n44 + n11 * n33 * n44) * detInv)
       ((n14 * n32 * n41 - n12 * n34 * n41 - n14 * n31 * n42
         + n11 * n34 * n42 + n12 * n31 * n44 - n11 * n32 * n44) * detInv)
       ((n12 * n33 * n41 - n13 * n32 * n41 + n13 * n31 * n42
         - n11 * n33 * n42 - n12 * n31 * n43 + n11 * n32 * n43) * detInv)
       (t13 * detInv)
       ((n14 * n23 * n41 - n13 * n24 * n41 - n14 * n21 * n43
         + n11 * n24 * n43 + n13 * n21 * n44 - n11 * n23 * n44) * detInv)
       ((n12 * n24 * n41 - n14 * n22 * n41 + n14 * n21 * n42
         - n11 * n24 * n42 - n12 * n21 * n44 + n11 * n22 * n44) * detInv)
       ((n13 * n22 * n41 - n12 * n23 * n41 - n13 * n21 * n42
         + n11 * n23 * n42 + n12 * n21 * n43 - n11 * n22 * n43) * detInv)
       (t14 * detInv)
       ((n13 * n24 * n31 - n14 * n23 * n31 + n14 * n21 * n33
         - n11 * n24 * n33 - n13 * n21 * n34 + n11 * n23 * n34) * detInv)
       ((n14 * n22 * n31 - n12 * n24 * n31 - n14 * n21 * n32
         + n11 * n24 * n32 + n12 * n21 * n34 - n11 * n22 * n34) * detInv)
       ((n12 * n23 * n31 - n13 * n22 * n31 + n13 * n21 * n32
         - n11 * n23 * n32 - n12 * n21 * n33 + n11 * n22 * n33) * detInv).
End Matrix4.

(** [Vector3.applyMatrix4(m)] *)
Definition applyMatrix4 (v : Vector3.t) (m : Matrix4.t) : Vector3.t :=
  let x := Vector3.x v in let y := Vector3.y v in let z := Vector3.z v in
  let w := 1 / (Matrix4.e3 m * x + Matrix4.e7 m * y + Matrix4.e11 m * z + Matrix4.e15 m) in
  Vector3.mk ((Matrix4.e0 m * x + Matrix4.e4 m * y + Matrix4.e8 m * z + Matrix4.e12 m) * w)
             ((Matrix4.e1 m * x + Matrix4.e5 m * y + Matrix4.e9 m * z + Matrix4.e13 m) * w)
             ((Matrix4.e2 m * x + Matrix4.e6 m * y + Matrix4.e10 m * z + Matrix4.e14 m) * w).

Definition setFromMatrixPosition (m : Matrix4.t) : Vector3.t :=
  Vector3.mk (Matrix4.e12 m) (Matrix4.e13 m) (Matrix4.e14 m).

(** [Quaternion.setFromRotationMatrix(m)] *)
Definition setFromRotationMatrix (m : Matrix4.t) : Quaternion.t :=
  let m11 := Matrix4.e0 m in let m12 := Matrix4.e4 m in let m13 := Matrix4.e8 m in
  let m21 := Matrix4.e1 m in let m22 := Matrix4.e5 m in let m23 := Matrix4.e9 m in
  let m31 := Matrix4.e2 m in let m32 := Matrix4.e6 m in let m33 := Matrix4.e10 m in
  let trace := m11 + m22 + m33 in
  if 0 <? trace then
    let s := 0.5 / sqrt (trace + 1.0) in
    Quaternion.mk ((m32 - m23) * s) ((m13 - m31) * s) ((m21 - m12) * s) (0.25 / s)
  else if (m22 <? m11) && (m33 <? m11) then
    let s := 2.0 * sqrt (1.0 + m11 - m22 - m33) in
    Quaternion.mk (0.25 * s) ((m12 + m21) / s) ((m13 + m31) / s) ((m32 - m23) / s)
  else if m33 <? m22 then
    let s := 2.0 * sqrt (1.0 + m22 - m11 - m33) in
    Quaternion.mk ((m12 + m21) / s) (0.25 * s) ((m23 + m32) / s) ((m13 - m31) / s)
  else
    let s := 2.0 * sqrt (1.0 + m33 - m11 - m22) in
    Quaternion.mk ((m13 + m31) / s) ((m23 + m32) / s) (0.25 * s) ((m21 - m12) / s).

(** The quaternion [Matrix4.decompose] answers. *)
Definition decomposeQuaternion (m : Matrix4.t) : Quaternion.t :=
  let sx0 := Vector3.length (Vector3.mk (Matrix4.e0 m) (Matrix4.e1 m) (Matrix4.e2 m)) in
  let sy := Vector3.length (Vector3.mk (Matrix4.e4 m) (Matrix4.e5 m) (Matrix4.e6 m)) in
  let sz := Vector3.length (Vector3.mk (Matrix4.e8 m) (Matrix4.e9 m) (Matrix4.e10 m)) in
  let sx := if Matrix4.determinant m <? 0 then - sx0 else sx0 in
  let invSX := 1 / sx in let invSY := 1 / sy in let invSZ := 1 / sz in
  setFromRotationMatrix
    (Matrix4.mk
       (Matrix4.e0 m * invSX) (Matrix4.e1 m * invSX) (Matrix4.e2 m * invSX) (Matrix4.e3 m)
       (Matrix4.e4 m * invSY) (Matrix4.e5 m * invSY) (Matrix4.e6 m * invSY) (Matrix4.e7 m)
       (Matrix4.e8 m * invSZ) (Matrix4.e9 m * invSZ) (Matrix4.e10 m * invSZ) (Matrix4.e11 m)
       (Matrix4.e12 m) (Matrix4.e13 m) (Matrix4.e14 m) (Matrix4.e15 m)).

(** [Box3]: the empty box is [min = +Infinity], [max = -Infinity]. *)
Module Box3.
Record t : Type := mk { min : Vector3.t; max : Vector3.t }.

Definition makeEmpty : t :=
  mk (Vector3.mk infinity infinity infinity)
     (Vector3.mk neg_infinity neg_infinity neg_infinity).

Definition expandByPoint (b : t) (p : Vector3.t) : t :=
  mk (Vector3.min (min b) p) (Vector3.max (max b) p).

Definition isEmpty (b : t) : bool :=
  (Vector3.x (max b) <? Vector3.x (min b))
  || (Vector3.y (max b) <? Vector3.y (min b))
  || (Vector3.z (max b) <? Vector3.z (min b)).

Definition getCenter (b : t) : Vector3.t :=
  if isEmpty b then Vector3.zero
  else Vector3.multiplyScalar (Vector3.addVectors (min b) (max b)) 0.5.
End Box3.

(** A node: [geometry] is the position attribute of a mesh, whose numbers
    are those the [Float32Array] holds. *)
Inductive Object3D : Type := mkObject3D {
  position : Vector3.t;
  quaternion : Quaternion.t;
  scale : Vector3.t;
  matrixWorld : Matrix4.t;
  geometry : option (list Vector3.t);
  children : list Object3D }.

Fixpoint updateMatrixWorld (parentWorld : option Matrix4.t) (o : Object3D) : Object3D :=
  let local := Matrix4.compose (position o) (quaternion o) (scale o) in
  let world := match parentWorld with
               | Some p => Matrix4.multiplyMatrices p local
               | None => local
               end in
  mkObject3D (position o) (quaternion o) (scale o) world (geometry o)
             (map (updateMatrixWorld (Some world)) (children o)).

Definition getWorldPosition (o : Object3D) : Vector3.t :=
  setFromMatrixPosition (matrixWorld o).
Definition getWorldQuaternion (o : Object3D) : Quaternion.t :=
  decomposeQuaternion (matrixWorld o).

Fixpoint expandByObject (o : Object3D) (b : Box3.t) {struct o} : Box3.t :=
  let b1 :=
    match geometry o with
    | Some ps =>
        fold_left (fun acc p => Box3.expandByPoint acc (applyMatrix4 p (matrixWorld o))) ps b
    | None => b
    end in
  fold_left (fun acc c => expandByObject c acc) (children o) b1.

Definition setFromObject (o : Object3D) : Box3.t := expandByObject o Box3.makeEmpty.

(** [calculateAndStoreLocalBBoxOffset(object)] *)
Definition localBBoxOffset (object : Object3D) : Vector3.t :=
  let worldBBox := setFromObject object in
  let worldBBoxCenter := Box3.getCenter worldBBox in
  let worldPivotPosition := getWorldPosition object in
  let worldOffsetFromPivotToBBoxCenter := Vector3.sub worldBBoxCenter worldPivotPosition in
  let inverseWorldQuaternion := Quaternion.invert (getWorldQuaternion object) in
  applyQuaternion worldOffsetFromPivotToBBoxCenter inverseWorldQuaternion.

Definition setPosition (p : Vector3.t) (o : Object3D) : Object3D :=
  mkObject3D p (quaternion o) (scale o) (matrixWorld o) (geometry o) (children o).

(** [updateCoordPopup(object)] reads the centre of the world bounding box. *)
Definition bboxCenter (object : Object3D) : Vector3.t :=
  Box3.getCenter (setFromObject object).

(** [onCoordInputChange()]: [newX], [newY], [newZ] are the numbers
    [parseFloat] answers ([NaN] for a field that does not parse). *)
Definition onCoordInputChange (parentMatrixWorld : option Matrix4.t)
    (cached : option Vector3.t) (intersectedObject : Object3D)
    (newX newY newZ : float) : Object3D * option Vector3.t :=
  if is_nan newX || is_nan newY || is_nan newZ then (intersectedObject, cached)
  else
    let localOffset :=
      match cached with
      | Some off => off
      | None => localBBoxOffset intersectedObject
      end in
    let desiredWorldBBoxCenter := Vector3.mk newX newY newZ in
    let worldOrientedOffsetFromPivotToBBoxCenter :=
      applyQuaternion localOffset (getWorldQuaternion intersectedObject) in
    let desiredObjectPivotWorldPosition :=
      Vector3.sub desiredWorldBBoxCenter worldOrientedOffsetFromPivotToBBoxCenter in
    let parentMatrix :=
      match parentMatrixWorld with
      | Some m => m
      | None => Matrix4.identity
      end in
    let inverseParentMatrixWorld := Matrix4.invert parentMatrix in
    let newObjectLocalPosition :=
      applyMatrix4 desiredObjectPivotWorldPosition inverseParentMatrixWorld in
    (updateMatrixWorld parentMatrixWorld
       (setPosition newObjectLocalPosition intersectedObject),
     Some localOffset).

(** Setting the centre to [p] and reading it back. *)
Definition readBack (parentMatrixWorld : option Matrix4.t) (cached : option Vector3.t)
    (o : Object3D) (p : Vector3.t) : Vector3.t :=
  bboxCenter (fst (onCoordInputChange parentMatrixWorld cached o
                     (Vector3.x p) (Vector3.y p) (Vector3.z p))).

(** The handler run on the three fields of [w] for the node and cache entry
    [st], and once for each entry of [ws], in order. *)
Definition moveTo (parentMatrixWorld : option Matrix4.t)
    (st : Object3D * option Vector3.t) (w : Vector3.t) : Object3D * option Vector3.t :=
  onCoordInputChange parentMatrixWorld (snd st) (fst st)
    (Vector3.x w) (Vector3.y w) (Vector3.z w).

Definition moves (parentMatrixWorld : option Matrix4.t)
    (st : Object3D * option Vector3.t) (ws : list Vector3.t)
    : Object3D * option Vector3.t :=
  fold_left (moveTo parentMatrixWorld) ws st.

(** [|a - b| <= tol] on each coordinate. *)
Definition within (tol : float) (a b : Vector3.t) : bool :=
  (abs (Vector3.x a - Vector3.x b) <=? tol)
  && (abs (Vector3.y a - Vector3.y b) <=? tol)
  && (abs (Vector3.z a - Vector3.z b) <=? tol).

(** Example nodes.  [boxNode lo hi] is a mesh with the two vertices [lo] and
    [hi], at the origin of a parent that is neither moved nor rotated, its
    world matrix up to date.  The pivot of [centredBox] is the centre of its
    box; that of [cornerBox] is a corner. *)
Definition boxNode (lo hi : Vector3.t) : Object3D :=
  updateMatrixWorld (Some Matrix4.identity)
    (mkObject3D Vector3.zero Quaternion.identity (Vector3.mk 1 1 1) Matrix4.identity
                (Some [lo; hi]) []).

Definition centredBox : Object3D :=
  boxNode (Vector3.mk (-0.5) (-0.5) (-0.5)) (Vector3.mk 0.5 0.5 0.5).

Definition cornerBox : Object3D :=
  boxNode (Vector3.mk 0 0 0) (Vector3.mk 0.7529296875 1 1).

(** [tiltedBox] is turned an eighth of a turn about y, under a parent that is
    moved and turned a quarter of a turn about x. *)
Definition quarterTurnParent : Matrix4.t :=
  Matrix4.compose (Vector3.mk 1 2 3)
                  (Quaternion.mk 0.7071067811865476 0 0 0.7071067811865476)
                  (Vector3.mk 1 1 1).

Definition tiltedBox : Object3D :=
  updateMatrixWorld (Some quarterTurnParent)
    (mkObject3D (Vector3.mk 0.5 0 0)
                (Quaternion.mk 0 0.3826834323650898 0 0.9238795325112867)
                (Vector3.mk 1 1 1) Matrix4.identity
                (Some [Vector3.mk 0 0 0; Vector3.mk 1 0.5 0.25]) []).

(** The absolute tolerance 1e-3. *)
Definition tolerance : float := 0.001.

(** The points typed in the coordinate fields in the examples. *)
Definition nearPoint : Vector3.t := Vector3.mk 0.1 0.2 0.3.
Definition farPoint : Vector3.t := Vector3.mk 20000000000000.01 0.2 0.3.
Definition midPoint : Vector3.t := Vector3.mk 5 6 7.
End B64.

(** * Properties *)

(** ** Real-number comparisons *)

Lemma Rltb_true (a b : R) : Rltb a b = true <-> a < b.
Proof. unfold Rltb. destruct (Rlt_dec a b); split; intros; (congruence || lra). Qed.

Lemma Rltb_false (a b : R) : Rltb a b = false <-> b <= a.
Proof. unfold Rltb. destruct (Rlt_dec a b); split; intros; (congruence || lra). Qed.

Lemma Rleb_true (a b : R) : Rleb a b = true <-> a <= b.
Proof. unfold Rleb. destruct (Rle_dec a b); split; intros; (congruence || lra). Qed.

Lemma Rleb_false (a b : R) : Rleb a b = false <-> b < a.
Proof. unfold Rleb. destruct (Rle_dec a b); split; intros; (congruence || lra). Qed.

Lemma Reqb_true (a b : R) : Reqb a b = true <-> a = b.
Proof. unfold Reqb. destruct (Req_dec_T a b); split; intros; (congruence || lra). Qed.

Lemma Rgtb_true (a b : R) : Rgtb a b = true <-> a > b.
Proof. unfold Rgtb. rewrite Rltb_true. lra. Qed.

Lemma Rgtb_false (a b : R) : Rgtb a b = false <-> a <= b.
Proof. unfold Rgtb. rewrite Rltb_false. lra. Qed.

Lemma Rgeb_true (a b : R) : Rgeb a b = true <-> a >= b.
Proof. unfold Rgeb. rewrite Rleb_true. lra. Qed.

Lemma Rgeb_false (a b : R) : Rgeb a b = false <-> a < b.
Proof. unfold Rgeb. rewrite Rleb_false. lra. Qed.

(** Decide every comparison of the goal by linear arithmetic. *)
Ltac Rdecide :=
  unfold Rgtb, Rgeb, Rltb, Rleb, Reqb in *;
  repeat match goal with
    | |- context [Rlt_dec ?a ?b] => destruct (Rlt_dec a b); try lra
    | |- context [Rle_dec ?a ?b] => destruct (Rle_dec a b); try lra
    | |- context [Req_dec_T ?a ?b] => destruct (Req_dec_T a b); try lra
    | H : context [Rlt_dec ?a ?b] |- _ => destruct (Rlt_dec a b); try lra
    | H : context [Rle_dec ?a ?b] |- _ => destruct (Rle_dec a b); try lra
    | H : context [Req_dec_T ?a ?b] |- _ => destruct (Req_dec_T a b); try lra
    end.

(** ** Vectors *)

Lemma vec3_eq (a b : Vector3.t) :
  Vector3.x a = Vector3.x b -> Vector3.y a = Vector3.y b -> Vector3.z a = Vector3.z b ->
  a = b.
Proof. destruct a, b; simpl; intros; subst; reflexivity. Qed.

Lemma lengthSq_nonneg (v : Vector3.t) : 0 <= Vector3.lengthSq v.
Proof. unfold Vector3.lengthSq. nra. Qed.

Lemma lengthSq_negate (v : Vector3.t) :
  Vector3.lengthSq (Vector3.negate v) = Vector3.lengthSq v.
Proof. unfold Vector3.lengthSq, Vector3.negate; simpl. ring. Qed.

Lemma length_negate (v : Vector3.t) : Vector3.length (Vector3.negate v) = Vector3.length v.
Proof. unfold Vector3.length. now rewrite lengthSq_negate. Qed.

Lemma negate_normalize (v : Vector3.t) :
  Vector3.negate (Vector3.normalize v) = Vector3.normalize (Vector3.negate v).
Proof.
  unfold Vector3.normalize. rewrite length_negate.
  destruct (Req_dec_T (Vector3.length v) 0);
    unfold Vector3.divideScalar, Vector3.multiplyScalar, Vector3.negate; simpl;
    f_equal; ring.
Qed.

Lemma negate_sub (a b : Vector3.t) : Vector3.negate (Vector3.sub a b) = Vector3.sub b a.
Proof. unfold Vector3.negate, Vector3.sub; simpl. f_equal; ring. Qed.

Lemma length_of_square (v : Vector3.t) (l : R) :
  0 <= l -> Vector3.lengthSq v = l * l -> Vector3.length v = l.
Proof. intros Hl H. unfold Vector3.length. rewrite H. now apply sqrt_square. Qed.

(** [normalize] on a vector whose length is known. *)
Lemma normalize_known (v : Vector3.t) (l : R) :
  0 < l -> Vector3.lengthSq v = l * l ->
  Vector3.normalize v = Vector3.multiplyScalar v (1 / l).
Proof.
  intros Hl H. unfold Vector3.normalize.
  rewrite (length_of_square v l) by (lra || assumption).
  destruct (Req_dec_T l 0); [lra | reflexivity].
Qed.

(** ** The ray of the shadow estimator *)

(** C3, counterexample: with the light at (0, 10, 0) and its target at the
    origin, the light direction the code uses is (0, -1, 0); it is not the
    normalised light position minus target position, which is (0, 1, 0). *)
Lemma C3_light_direction_counterexample :
  lightDirection sunAbove = vec3 0 (-1) 0
  /\ Vector3.normalize
       (Vector3.subVectors (position (light sunAbove)) (position (target sunAbove)))
     = vec3 0 1 0
  /\ lightDirection sunAbove
     <> Vector3.normalize
          (Vector3.subVectors (position (light sunAbove)) (position (target sunAbove))).
Proof.
  assert (H1 : lightDirection sunAbove = vec3 0 (-1) 0).
  { unfold lightDirection. rewrite (normalize_known _ 10).
    - unfold Vector3.multiplyScalar, Vector3.subVectors, Vector3.sub; simpl.
      f_equal; lra.
    - lra.
    - unfold Vector3.lengthSq, Vector3.subVectors, Vector3.sub; simpl. lra. }
  assert (H2 : Vector3.normalize
       (Vector3.subVectors (position (light sunAbove)) (position (target sunAbove)))
     = vec3 0 1 0).
  { rewrite (normalize_known _ 10).
    - unfold Vector3.multiplyScalar, Vector3.subVectors, Vector3.sub; simpl.
      f_equal; lra.
    - lra.
    - unfold Vector3.lengthSq, Vector3.subVectors, Vector3.sub; simpl. lra. }
  repeat split; try assumption.
  rewrite H1, H2. intros E. injection E. lra.
Qed.

(** C3, amended: the light direction is the target's position minus the
    light's position, normalised; the ray starts at the sampled point moved
    by 0.005 along the negated light direction and points along the negated
    light direction, which is the normalised vector from the target to the
    light. *)
Theorem C3_shadow_ray (dl : DirectionalLight) (p : Vector3.t) :
  let towardsLight :=
    Vector3.normalize (Vector3.subVectors (position (light dl)) (position (target dl))) in
  lightDirection dl
  = Vector3.normalize (Vector3.subVectors (position (target dl)) (position (light dl)))
  /\ origin (shadowRay dl p)
     = Vector3.add p (Vector3.multiplyScalar (Vector3.negate (lightDirection dl)) 0.005)
  /\ direction (shadowRay dl p) = Vector3.negate (lightDirection dl)
  /\ Vector3.negate (lightDirection dl) = towardsLight.
Proof.
  cbv zeta. repeat split.
  unfold lightDirection, Vector3.subVectors.
  now rewrite negate_normalize, negate_sub.
Qed.

(** ** Panel validator *)

Lemma planeNormal_example :
  planeNormal (vec3 0 0 0) (vec3 1 0 0) (vec3 1 1 0) = vec3 0 0 1.
Proof.
  unfold planeNormal. rewrite (normalize_known _ 1).
  - unfold Vector3.multiplyScalar, Vector3.crossVectors, Vector3.subVectors, Vector3.sub;
      simpl. f_equal; lra.
  - lra.
  - unfold Vector3.lengthSq, Vector3.crossVectors, Vector3.subVectors, Vector3.sub;
      simpl. lra.
Qed.

Lemma baseNotCollinear_example :
  baseNotCollinear (vec3 0 0 0) (vec3 1 0 0) (vec3 1 1 0).
Proof.
  unfold baseNotCollinear, COLLINEARITY_EPSILON_SQ, Vector3.lengthSq, Vector3.cross,
    Vector3.crossVectors, Vector3.subVectors, Vector3.sub; simpl. lra.
Qed.

(** C4, counterexample: the points (0,0,0), (1,0,0), (1,1,0) with the fourth
    point equal to the first are rejected (degenerate second triangle)
    although the fourth point is at distance 0 from the plane. *)
Lemma C4_reject_iff_counterexample :
  baseNotCollinear (vec3 0 0 0) (vec3 1 0 0) (vec3 1 1 0)
  /\ Rabs (planeDistance (vec3 0 0 0) (vec3 1 0 0) (vec3 1 1 0) (vec3 0 0 0)) <= 0.01
  /\ validatePanel (vec3 0 0 0) (vec3 1 0 0) (vec3 1 1 0) (vec3 0 0 0) = RejectDegenerate.
Proof.
  split; [exact baseNotCollinear_example|].
  assert (D : planeDistance (vec3 0 0 0) (vec3 1 0 0) (vec3 1 1 0) (vec3 0 0 0) = 0).
  { unfold planeDistance. rewrite planeNormal_example.
    unfold Vector3.dot, Vector3.subVectors, Vector3.sub; simpl. lra. }
  split.
  - rewrite D, Rabs_R0. lra.
  - unfold validatePanel.
    fold (planeNormal (vec3 0 0 0) (vec3 1 0 0) (vec3 1 1 0)).
    fold (planeDistance (vec3 0 0 0) (vec3 1 0 0) (vec3 1 1 0) (vec3 0 0 0)).
    rewrite D, Rabs_R0.
    replace (Rltb _ COLLINEARITY_EPSILON_SQ) with false at 1.
    2:{ symmetry. apply Rltb_false. exact baseNotCollinear_example. }
    replace (Rgtb 0 EPSILON) with false
      by (symmetry; apply Rgtb_false; unfold EPSILON; lra).
    replace (Rltb _ COLLINEARITY_EPSILON_SQ) with true at 1; [reflexivity|].
    symmetry. apply Rltb_true.
    unfold COLLINEARITY_EPSILON_SQ, Vector3.lengthSq, Vector3.cross,
      Vector3.crossVectors, Vector3.subVectors, Vector3.sub; simpl. lra.
Qed.

Lemma validatePanel_cases (p1 p2 p3 p4 : Vector3.t) :
  baseNotCollinear p1 p2 p3 ->
  (Rabs (planeDistance p1 p2 p3 p4) > 0.01 ->
   validatePanel p1 p2 p3 p4
   = RejectOffPlane (Vector3.subVectors p4
       (Vector3.multiplyScalar (planeNormal p1 p2 p3) (planeDistance p1 p2 p3 p4))))
  /\ (Rabs (planeDistance p1 p2 p3 p4) <= 0.01 ->
      validatePanel p1 p2 p3 p4 = RejectDegenerate
      \/ validatePanel p1 p2 p3 p4 = Accept).
Proof.
  intros Hbase. unfold validatePanel.
  fold (planeNormal p1 p2 p3). fold (planeDistance p1 p2 p3 p4).
  rewrite (proj2 (Rltb_false _ _) Hbase).
  split; intros Hd.
  - replace (Rgtb _ EPSILON) with true; [reflexivity|].
    symmetry. apply Rgtb_true. unfold EPSILON. lra.
  - replace (Rgtb _ EPSILON) with false
      by (symmetry; apply Rgtb_false; unfold EPSILON; lra).
    destruct (orb _ _); auto.
Qed.

Lemma validatePanel_example :
  validatePanel (vec3 0 0 0) (vec3 1 0 0) (vec3 1 1 0) (vec3 0 1 5)
  = RejectOffPlane (vec3 0 1 0).
Proof.
  destruct (validatePanel_cases (vec3 0 0 0) (vec3 1 0 0) (vec3 1 1 0) (vec3 0 1 5)
              baseNotCollinear_example) as [G1 _].
  assert (D : planeDistance (vec3 0 0 0) (vec3 1 0 0) (vec3 1 1 0) (vec3 0 1 5) = 5).
  { unfold planeDistance. rewrite planeNormal_example.
    unfold Vector3.dot, Vector3.subVectors, Vector3.sub; simpl. lra. }
  rewrite G1.
  - rewrite D, planeNormal_example.
    unfold Vector3.subVectors, Vector3.sub, Vector3.multiplyScalar; simpl.
    do 2 f_equal; lra.
  - rewrite D, Rabs_pos_eq; lra.
Qed.

(** C4, amended: when the first three points pass the collinearity check,
    the validator answers the off-plane rejection exactly when
    |dot(p4 - p1, normal)| exceeds 0.01, and the point it reports is then
    p4 - normal * distance; an input within the tolerance is not rejected as
    off-plane (the third check may still reject it).  The points (0,0,0),
    (1,0,0), (1,1,0), (0,1,5) are rejected with the suggestion (0,1,0). *)
Theorem C4_off_plane_rejection :
  (forall p1 p2 p3 p4 : Vector3.t,
      baseNotCollinear p1 p2 p3 ->
      let n := planeNormal p1 p2 p3 in
      let d := planeDistance p1 p2 p3 p4 in
      (Rabs d > 0.01 ->
       validatePanel p1 p2 p3 p4
       = RejectOffPlane (Vector3.subVectors p4 (Vector3.multiplyScalar n d)))
      /\ (Rabs d <= 0.01 ->
          validatePanel p1 p2 p3 p4 = RejectDegenerate
          \/ validatePanel p1 p2 p3 p4 = Accept)
      /\ ((exists q, validatePanel p1 p2 p3 p4 = RejectOffPlane q) <-> Rabs d > 0.01))
  /\ validatePanel (vec3 0 0 0) (vec3 1 0 0) (vec3 1 1 0) (vec3 0 1 5)
     = RejectOffPlane (vec3 0 1 0).
Proof.
  split; [|exact validatePanel_example].
  intros p1 p2 p3 p4 Hbase n d. subst n d.
  destruct (validatePanel_cases p1 p2 p3 p4 Hbase) as [G1 G2].
  split; [exact G1|]. split; [exact G2|].
  split.
  - intros [q Hq].
    destruct (Rle_lt_dec (Rabs (planeDistance p1 p2 p3 p4)) 0.01) as [Hle|Hgt]; [|lra].
    destruct (G2 Hle) as [E|E]; rewrite E in Hq; discriminate.
  - intros Hd. eexists. apply G1. exact Hd.
Qed.

(** The theorem's first part at the points of the example. *)
Lemma C4_off_plane_rejection_witness :
  baseNotCollinear (vec3 0 0 0) (vec3 1 0 0) (vec3 1 1 0)
  /\ ((exists q, validatePanel (vec3 0 0 0) (vec3 1 0 0) (vec3 1 1 0) (vec3 0 1 5)
                 = RejectOffPlane q)
      <-> Rabs (planeDistance (vec3 0 0 0) (vec3 1 0 0) (vec3 1 1 0) (vec3 0 1 5)) > 0.01).
Proof.
  split; [exact baseNotCollinear_example|].
  exact (proj2 (proj2 (proj1 C4_off_plane_rejection (vec3 0 0 0) (vec3 1 0 0) (vec3 1 1 0)
                         (vec3 0 1 5) baseNotCollinear_example))).
Defined.

(** ** Scene graph *)

(** Induction on a node with the property known for its children. *)
Lemma Object3D_children_ind (P : Object3D -> Prop) :
  (forall o, Forall P (children o) -> P o) -> forall o, P o.
Proof.
  intros H.
  fix IH 1. intros o. apply H.
  destruct o as [? ? ? ? ? ? ? ? ? ? ? cs]. simpl.
  induction cs as [|c cs IHcs]; constructor.
  - apply IH.
  - exact IHcs.
Qed.

Lemma applyMatrix4_identity (v : Vector3.t) : applyMatrix4 v Matrix4.identity = v.
Proof. destruct v. unfold applyMatrix4; simpl. f_equal; field. Qed.

(** ** Draggable object classifier *)

Lemma containsMesh_hasMesh (o : Object3D) : containsMesh o = true <-> hasMesh o.
Proof.
  unfold hasMesh.
  induction o as [o IH] using Object3D_children_ind.
  destruct o as [id m g p q s w geo mat cast pan cs]; simpl in *.
  rewrite Exists_cons, orb_true_iff. simpl.
  apply or_iff_compat_l.
  induction cs as [|c cs IHcs]; simpl.
  - rewrite Exists_nil. split; [discriminate | tauto].
  - inversion IH as [|? ? Hc Hcs]; subst.
    rewrite orb_true_iff, Exists_app, Hc, (IHcs Hcs). tauto.
Qed.

Lemma emptyOrPoint_false (b : Box3.t) : emptyOrPoint b = false <-> nonDegenerate b.
Proof.
  unfold emptyOrPoint, nonDegenerate, Box3.isEmpty.
  destruct b as [[lo hi]|].
  - rewrite !orb_false_iff, !Rltb_false, andb_false_iff, andb_false_iff.
    rewrite <- !not_true_iff_false, !Reqb_true.
    split.
    + intros [[[Hx Hy] Hz] Hne]. exists lo, hi. repeat split; try assumption. tauto.
    + intros (lo' & hi' & E & Hx & Hy & Hz & Hne). injection E as <- <-.
      repeat split; try assumption.
      destruct (Req_dec_T (Vector3.x hi) (Vector3.x lo));
        destruct (Req_dec_T (Vector3.y hi) (Vector3.y lo)); tauto.
  - simpl. split; [discriminate|]. intros (lo & hi & E & _). discriminate.
Qed.

Lemma firstPassCallback_rule (maxT minT : R) (o : Object3D) :
  firstPassCallback maxT minT o = true <-> candidateRule maxT minT o.
Proof.
  unfold firstPassCallback, candidateRule.
  rewrite <- containsMesh_hasMesh, <- emptyOrPoint_false.
  destruct (isMesh o); destruct (userData_is2DPanel o); simpl;
    try (split; [intros _; left; split; reflexivity | reflexivity]).
  - destruct (containsMesh o); simpl.
    + destruct (emptyOrPoint (setFromObject o)); simpl.
      * split; [discriminate|]. intros [[? ?]|(_ & _ & ? & _)]; discriminate.
      * rewrite andb_true_iff, Rleb_true, Rgeb_true.
        split.
        -- intros [? ?]. right. repeat split; auto.
        -- intros [[? ?]|(_ & _ & _ & ? & ?)]; [discriminate | auto].
    + split; [discriminate|]. intros [[? ?]|(_ & ? & _)]; discriminate.
  - destruct (isGroup o); simpl.
    + destruct (containsMesh o); simpl.
      * destruct (emptyOrPoint (setFromObject o)); simpl.
        -- split; [discriminate|]. intros [[? ?]|(_ & _ & ? & _)]; discriminate.
        -- rewrite andb_true_iff, Rleb_true, Rgeb_true.
           split.
           ++ intros [? ?]. right. repeat split; auto.
           ++ intros [[? ?]|(_ & _ & _ & ? & ?)]; [discriminate | auto].
      * split; [discriminate|]. intros [[? ?]|(_ & ? & _)]; discriminate.
    + split; [discriminate|]. intros [[? ?]|([?|?] & _)]; discriminate.
  - destruct (isGroup o); simpl.
    + destruct (containsMesh o); simpl.
      * destruct (emptyOrPoint (setFromObject o)); simpl.
        -- split; [discriminate|]. intros [[? ?]|(_ & _ & ? & _)]; discriminate.
        -- rewrite andb_true_iff, Rleb_true, Rgeb_true.
           split.
           ++ intros [? ?]. right. repeat split; auto.
           ++ intros [[? ?]|(_ & _ & _ & ? & ?)]; [discriminate | auto].
      * split; [discriminate|]. intros [[? ?]|(_ & ? & _)]; discriminate.
    + split; [discriminate|]. intros [[? ?]|([?|?] & _)]; discriminate.
Qed.

(** The bounding box of the example unit. *)
Lemma setFromObject_rigidUnit (a b c : R) :
  0 <= a -> 0 <= b -> 0 <= c ->
  setFromObject (rigidUnit a b c) = Some (vec3 0 0 0, vec3 a b c).
Proof.
  intros Ha Hb Hc. unfold setFromObject, rigidUnit, boxMesh.
  cbn -[applyMatrix4 Rmin Rmax].
  rewrite !applyMatrix4_identity. simpl.
  unfold Rmin, Rmax. Rdecide; repeat f_equal; lra.
Qed.

Lemma setFromObject_boxMesh (id : nat) (a b c : R) (panel : bool) :
  0 <= a -> 0 <= b -> 0 <= c ->
  setFromObject (boxMesh id a b c panel) = Some (vec3 0 0 0, vec3 a b c).
Proof.
  intros Ha Hb Hc. unfold setFromObject, boxMesh.
  cbn -[applyMatrix4 Rmin Rmax].
  rewrite !applyMatrix4_identity. simpl.
  unfold Rmin, Rmax. Rdecide; repeat f_equal; lra.
Qed.

Lemma getSize_box (a b c : R) :
  0 <= a -> 0 <= b -> 0 <= c ->
  Box3.getSize (Some (vec3 0 0 0, vec3 a b c)) = vec3 a b c.
Proof.
  intros Ha Hb Hc. unfold Box3.getSize, Box3.isEmpty. simpl.
  rewrite !(proj2 (Rltb_false _ _)) by assumption. simpl.
  unfold Vector3.subVectors, Vector3.sub; simpl. f_equal; lra.
Qed.

(** The callback on the example unit: only the thresholds matter. *)
Lemma firstPassCallback_rigidUnit (maxT minT a b c : R) :
  0 <= a -> 0 <= b -> 0 <= c -> 0 < minT ->
  firstPassCallback maxT minT (rigidUnit a b c)
  = Rleb (Math_max3 a b c) maxT && Rgeb (Math_min3 a b c) minT.
Proof.
  intros Ha Hb Hc Hm.
  unfold firstPassCallback.
  rewrite setFromObject_rigidUnit by assumption.
  rewrite getSize_box by assumption.
  change (isMesh (rigidUnit a b c)) with false.
  change (isGroup (rigidUnit a b c)) with true.
  change (containsMesh (rigidUnit a b c)) with true.
  cbn [andb negb].
  unfold maxDim, minDim; simpl.
  destruct (emptyOrPoint _) eqn:E; [|reflexivity].
  (* a box reduced to a point has no extent: the minimum test fails *)
  unfold emptyOrPoint, Box3.isEmpty in E. simpl in E.
  rewrite !(proj2 (Rltb_false _ _)) in E by assumption. simpl in E.
  rewrite !andb_true_iff, !Reqb_true in E. destruct E as [[-> ->] ->].
  symmetry. apply andb_false_iff. right. apply Rgeb_false.
  unfold Math_min3, Rmin. Rdecide.
Qed.

Lemma rigidUnit_has_mesh (a b c : R) : containsMesh (rigidUnit a b c) = true.
Proof. reflexivity. Qed.

(** C1, counterexample: the rigid unit with extents (0.3, 0.3, 0.05) holds a
    mesh and its largest extent 0.3 is below 1.2, yet the first pass does not
    take it (its smallest extent 0.05 is below 0.1); and a mesh flagged as a
    2D panel with extents (2, 2, 0) is taken although 2 exceeds 1.2. *)
Lemma C1_thresholds_counterexample :
  (containsMesh (rigidUnit 0.3 0.3 0.05) = true
   /\ Box3.getSize (setFromObject (rigidUnit 0.3 0.3 0.05)) = vec3 0.3 0.3 0.05
   /\ firstPassCallback DRAGGABLE_MAX_DIMENSION DRAGGABLE_MIN_DIMENSION
        (rigidUnit 0.3 0.3 0.05) = false)
  /\ (Box3.getSize (setFromObject (boxMesh 3 2 2 0 true)) = vec3 2 2 0
      /\ firstPassCallback DRAGGABLE_MAX_DIMENSION DRAGGABLE_MIN_DIMENSION
           (boxMesh 3 2 2 0 true) = true).
Proof.
  unfold DRAGGABLE_MAX_DIMENSION, DRAGGABLE_MIN_DIMENSION.
  repeat split.
  - rewrite setFromObject_rigidUnit by lra. apply getSize_box; lra.
  - rewrite firstPassCallback_rigidUnit by lra.
    apply andb_false_iff. right. apply Rgeb_false.
    unfold Math_min3, Rmin. Rdecide.
  - rewrite setFromObject_boxMesh by lra. apply getSize_box; lra.
Qed.

(** C1, amended: a node other than the root is pushed on the candidate list
    exactly when it is a mesh flagged as a 2D panel (no dimension check), or
    it is a mesh or a group, it or a descendant is a mesh, its world bounding
    box is non-degenerate, its largest extent is at most 1.2 and its smallest
    extent at least 0.1.  A rigid unit with extents (0.05, 0.05, 0.05) is
    excluded, so is one with extents (0.3, 0.3, 0.05), whose smallest extent
    is below 0.1, and so is any unit with largest extent 1.5; a unit with
    extents (0.3, 0.3, 0.1) is included. *)
Theorem C1_candidate_rule :
  (forall (rootObject o : Object3D),
      o ∈ objectsToProcessForDraggability rootObject
            DRAGGABLE_MAX_DIMENSION DRAGGABLE_MIN_DIMENSION
      <-> o ∈ tail (traverse rootObject) /\ candidateRule 1.2 0.1 o)
  /\ firstPassCallback 1.2 0.1 (rigidUnit 0.05 0.05 0.05) = false
  /\ firstPassCallback 1.2 0.1 (rigidUnit 0.3 0.3 0.05) = false
  /\ firstPassCallback 1.2 0.1 (rigidUnit 0.3 0.3 0.1) = true
  /\ (forall b c : R, 0 <= b <= 1.5 -> 0 <= c <= 1.5 ->
        firstPassCallback 1.2 0.1 (rigidUnit 1.5 b c) = false).
Proof.
  split; [|split; [|split; [|split]]].
  - intros rootObject o. unfold objectsToProcessForDraggability.
    rewrite list_elem_of_filter, firstPassCallback_rule.
    unfold DRAGGABLE_MAX_DIMENSION, DRAGGABLE_MIN_DIMENSION. tauto.
  - rewrite firstPassCallback_rigidUnit by lra.
    apply andb_false_iff. right. apply Rgeb_false. unfold Math_min3, Rmin. Rdecide.
  - rewrite firstPassCallback_rigidUnit by lra.
    apply andb_false_iff. right. apply Rgeb_false. unfold Math_min3, Rmin. Rdecide.
  - rewrite firstPassCallback_rigidUnit by lra.
    apply andb_true_iff. split.
    + apply Rleb_true. unfold Math_max3, Rmax. Rdecide.
    + apply Rgeb_true. unfold Math_min3, Rmin. Rdecide.
  - intros b c Hb Hc.
    rewrite firstPassCallback_rigidUnit by lra.
    apply andb_false_iff. left. apply Rleb_false.
    unfold Math_max3, Rmax. Rdecide.
Qed.

(** ** Panel construction and deletion on the viewer's state *)

Lemma eraseWorld_updateMatrixWorld (o : Object3D) :
  forall parentWorld, eraseWorld (updateMatrixWorld parentWorld o) = eraseWorld o.
Proof.
  induction o as [o IH] using Object3D_children_ind.
  intros parentWorld.
  destruct o as [id m g p q s w geo mat cast pan cs]; simpl in *.
  f_equal. rewrite map_map.
  induction cs as [|c cs IHcs]; simpl; [reflexivity|].
  inversion IH as [|? ? Hc Hcs]; subst.
  now rewrite Hc, (IHcs Hcs).
Qed.

(** What [addObjectToScene] does once the points are in the baseline frame. *)
Lemma addObjectToScene_rejects form newId st p1 p2 p3 p4 :
  baselinePoints form st = Some (p1, p2, p3, p4) ->
  validatePanel p1 p2 p3 p4 <> Accept ->
  let st1 := withScene (updateMatrixWorld None (scene st)) st in
  addObjectToScene form newId st
  = pushAlert match validatePanel p1 p2 p3 p4 with
              | RejectCollinear => AlertCollinearBase
              | RejectOffPlane q => AlertOffPlane q
              | _ => AlertDegenerateSecondTriangle
              end st1.
Proof.
  destruct form as [[[f1 f2] f3] f4].
  unfold baselinePoints, addObjectToScene.
  destruct (pointOfFields f1) as [q1|]; [|discriminate].
  destruct (pointOfFields f2) as [q2|]; [|discriminate].
  destruct (pointOfFields f3) as [q3|]; [|discriminate].
  destruct (pointOfFields f4) as [q4|]; [|discriminate].
  cbn [mbind option_bind scene baseModelContainer withScene].
  destruct (findObject _ _) as [base|]; [|discriminate].
  cbn [mbind option_bind].
  intros E HA. injection E as <- <- <- <-.
  cbv zeta.
  destruct (validatePanel _ _ _ _); try reflexivity. congruence.
Qed.

(** C7: a form that fails one of the three validation checks leaves the set
    of draggable objects, the pivot-offset cache and the saved materials as
    they were and creates no node: the scene graph is the one before the call
    with its world matrices refreshed, so it is unchanged up to that cache,
    and unchanged altogether when the matrices were up to date. *)
Theorem C7_failed_panel_changes_nothing form newId st :
  failsValidation form st ->
  let st' := addObjectToScene form newId st in
  draggableObjects st' = draggableObjects st
  /\ localPivotToBBoxCenterOffsets st' = localPivotToBBoxCenterOffsets st
  /\ originalMaterials st' = originalMaterials st
  /\ scene st' = updateMatrixWorld None (scene st)
  /\ eraseWorld (scene st') = eraseWorld (scene st)
  /\ (updateMatrixWorld None (scene st) = scene st -> scene st' = scene st).
Proof.
  intros (p1 & p2 & p3 & p4 & Hpts & Hrej) st'. subst st'.
  rewrite (addObjectToScene_rejects form newId st p1 p2 p3 p4 Hpts Hrej).
  cbn [pushAlert withScene draggableObjects localPivotToBBoxCenterOffsets
       originalMaterials scene].
  rewrite eraseWorld_updateMatrixWorld. auto 10.
Qed.

Lemma compose_default :
  Matrix4.compose Vector3.zero Quaternion.identity (vec3 1 1 1) = Matrix4.identity.
Proof. unfold Matrix4.compose, Matrix4.identity; simpl. f_equal; ring. Qed.

Lemma multiplyMatrices_identity_l (m : Matrix4.t) :
  Matrix4.multiplyMatrices Matrix4.identity m = m.
Proof. destruct m. unfold Matrix4.multiplyMatrices, Matrix4.identity; simpl. f_equal; ring. Qed.

Lemma multiplyMatrices_identity_r (m : Matrix4.t) :
  Matrix4.multiplyMatrices m Matrix4.identity = m.
Proof. destruct m. unfold Matrix4.multiplyMatrices, Matrix4.identity; simpl. f_equal; ring. Qed.

Lemma invert_identity : Matrix4.invert Matrix4.identity = Matrix4.identity.
Proof.
  unfold Matrix4.invert, Matrix4.identity; simpl.
  match goal with |- context [Req_dec_T ?d 0] => destruct (Req_dec_T d 0) as [E|E] end.
  - exfalso. lra.
  - f_equal; field.
Qed.

Lemma smallScene_up_to_date : updateMatrixWorld None smallScene = smallScene.
Proof.
  unfold smallScene, plainNode.
  cbn -[Matrix4.compose Matrix4.multiplyMatrices Matrix4.identity].
  rewrite !compose_default, !multiplyMatrices_identity_l. reflexivity.
Qed.

Lemma offPlaneForm_baselinePoints :
  baselinePoints offPlaneForm smallState
  = Some (vec3 0 0 0, vec3 1 0 0, vec3 1 1 0, vec3 0 1 5).
Proof.
  unfold baselinePoints, offPlaneForm, numberFields, smallState.
  cbn [pointOfFields mbind option_bind scene baseModelContainer].
  rewrite smallScene_up_to_date.
  unfold smallScene, plainNode.
  cbn -[Matrix4.invert Matrix4.identity applyMatrix4].
  rewrite invert_identity, !applyMatrix4_identity. reflexivity.
Qed.

Lemma offPlaneForm_fails : failsValidation offPlaneForm smallState.
Proof.
  exists (vec3 0 0 0), (vec3 1 0 0), (vec3 1 1 0), (vec3 0 1 5).
  split; [exact offPlaneForm_baselinePoints|].
  rewrite validatePanel_example. discriminate.
Qed.

(** The theorem on the small scene with the off-plane form. *)
Lemma C7_failed_panel_changes_nothing_witness :
  failsValidation offPlaneForm smallState
  /\ draggableObjects (addObjectToScene offPlaneForm 4%nat smallState)
     = draggableObjects smallState.
Proof.
  split; [exact offPlaneForm_fails|].
  exact (proj1 (C7_failed_panel_changes_nothing offPlaneForm 4%nat smallState
                  offPlaneForm_fails)).
Defined.

(** ** Deleting the selected object *)

Lemma hidePopups_draggableObjects b st :
  draggableObjects (hidePopups b st) = draggableObjects st.
Proof.
  unfold hidePopups, restoreOriginalMaterials.
  destruct (intersectedObject st); [|reflexivity].
  destruct b; [|reflexivity].
  destruct (originalMaterials st !! n); reflexivity.
Qed.

Lemma hidePopups_offsets b st :
  localPivotToBBoxCenterOffsets (hidePopups b st) = localPivotToBBoxCenterOffsets st.
Proof.
  unfold hidePopups, restoreOriginalMaterials.
  destruct (intersectedObject st); [|reflexivity].
  destruct b; [|reflexivity].
  destruct (originalMaterials st !! n); reflexivity.
Qed.

Lemma hidePopups_intersectedObject b st : intersectedObject (hidePopups b st) = None.
Proof. reflexivity. Qed.

(** The identities of the nodes of a tree. *)
Lemma uuids_updateMatrixWorld (o : Object3D) :
  forall parentWorld,
    map uuid (traverse (updateMatrixWorld parentWorld o)) = map uuid (traverse o).
Proof.
  induction o as [o IH] using Object3D_children_ind.
  intros parentWorld.
  destruct o as [id m g p q s w geo mat cast pan cs]; simpl in *.
  f_equal.
  induction cs as [|c cs IHcs]; simpl; [reflexivity|].
  inversion IH as [|? ? Hc Hcs]; subst.
  now rewrite !map_app, Hc, (IHcs Hcs).
Qed.

Lemma uuids_updateObject_material (id : nat) (m : Material) (o : Object3D) :
  map uuid (traverse (updateObject id (withMaterial m) o)) = map uuid (traverse o).
Proof.
  induction o as [o IH] using Object3D_children_ind.
  destruct o as [id' me g p q s w geo mat cast pan cs]; simpl in *.
  destruct (Nat.eqb id' id); simpl; [reflexivity|].
  f_equal.
  induction cs as [|c cs IHcs]; simpl; [reflexivity|].
  inversion IH as [|? ? Hc Hcs]; subst.
  now rewrite !map_app, Hc, (IHcs Hcs).
Qed.

(** Removing a node removes its identity and adds none. *)
Lemma uuids_removeObject (id : nat) (o : Object3D) :
  forall j, In j (map uuid (traverse (removeObject id o))) ->
            In j (map uuid (traverse o)) /\ (j = id -> j = uuid o).
Proof.
  induction o as [o IH] using Object3D_children_ind.
  destruct o as [id' me g p q s w geo mat cast pan cs]; simpl in *.
  intros j [Hj|Hj]; [split; [left; exact Hj | intros _; now symmetry]|].
  enough (In j (map uuid (flat_map traverse cs)) /\ j <> id) as [? ?]
    by (split; [right; assumption | contradiction]).
  induction cs as [|c cs IHcs]; simpl in *; [contradiction|].
  inversion IH as [|? ? Hc Hcs]; subst.
  destruct (Nat.eqb (uuid c) id) eqn:E.
  - destruct (IHcs Hcs Hj) as [? ?]. split; [|assumption].
    rewrite map_app, in_app_iff. now right.
  - simpl in Hj. rewrite map_app, in_app_iff in Hj.
    rewrite map_app, in_app_iff.
    destruct Hj as [Hj|Hj].
    + destruct (Hc j Hj) as [H1 H2]. split; [now left|].
      intros ->. specialize (H2 eq_refl). apply Nat.eqb_neq in E. congruence.
    + destruct (IHcs Hcs Hj) as [? ?]. split; [now right | assumption].
Qed.

Lemma removeObject_gone (id : nat) (o : Object3D) :
  uuid o <> id -> ~ In id (map uuid (traverse (removeObject id o))).
Proof.
  intros Hne Hin. destruct (uuids_removeObject id o id Hin) as [_ H].
  specialize (H eq_refl). congruence.
Qed.

(** C10: once the deletion is confirmed, the selected object is neither in
    the set of draggable objects nor in the pivot-offset cache; the other
    entries of both are kept; the selection is cleared; and when the selected
    object has a parent (it is not the scene root) no node of the scene
    carries its identity any more.  A refused confirmation changes nothing. *)
Theorem C10_delete_cleans_up (st : State) (id : nat) :
  intersectedObject st = Some id ->
  let st' := deleteSelectedObject true st in
  id ∉ draggableObjects st'
  /\ localPivotToBBoxCenterOffsets st' !! id = None
  /\ (forall j, j <> id ->
        (j ∈ draggableObjects st' <-> j ∈ draggableObjects st)
        /\ localPivotToBBoxCenterOffsets st' !! j = localPivotToBBoxCenterOffsets st !! j)
  /\ intersectedObject st' = None
  /\ (uuid (scene st) <> id -> parentOf id (scene st) <> None ->
      ~ In id (map uuid (traverse (scene st'))))
  /\ deleteSelectedObject false st = st.
Proof.
  intros Hsel st'. subst st'. unfold deleteSelectedObject. rewrite Hsel.
  cbn [withScene draggableObjects localPivotToBBoxCenterOffsets intersectedObject scene].
  rewrite hidePopups_draggableObjects, hidePopups_offsets.
  cbn [draggableObjects localPivotToBBoxCenterOffsets].
  split; [set_solver|].
  split; [apply lookup_delete_eq|].
  split.
  { intros j Hj. split; [set_solver|]. now apply lookup_delete_ne. }
  split; [reflexivity|].
  split; [|reflexivity].
  intros Hroot Hparent.
  rewrite uuids_updateMatrixWorld.
  unfold hidePopups. cbn [intersectedObject scene].
  unfold restoreOriginalMaterials.
  cbn [originalMaterials scene].
  destruct (parentOf id (scene st)) as [pg|] eqn:Hpg; [|congruence].
  assert (G : forall sc, (sc = removeObject id (scene st)
                          \/ sc = removeObject (uuid pg) (removeObject id (scene st))) ->
                         ~ In id (map uuid (traverse sc))).
  { intros sc [->| ->].
    - now apply removeObject_gone.
    - intros Hin. apply uuids_removeObject in Hin as [Hin _].
      revert Hin. now apply removeObject_gone. }
  match goal with
  | |- ~ In id (map uuid (traverse (scene
         (if ?b then match ?m with Some _ => _ | None => _ end else _)))) =>
      destruct b; [destruct m|]
  end; cbn [scene]; rewrite ?uuids_updateObject_material;
    match goal with
    | |- ~ In id (map uuid (traverse ?sc)) =>
        apply G;
        repeat match goal with
          | |- context [if ?c then _ else _] => destruct c
          | |- context [match ?c with Some _ => _ | None => _ end] => destruct c
          end; auto
    end.
Qed.

(** The theorem on the small scene, whose panel 3 is selected. *)
Lemma C10_delete_cleans_up_witness :
  intersectedObject smallState = Some 3%nat
  /\ 3%nat ∉ draggableObjects (deleteSelectedObject true smallState).
Proof.
  split; [reflexivity|].
  exact (proj1 (C10_delete_cleans_up smallState 3%nat eq_refl)).
Defined.

(** ** Greedy grouping of the face merger *)

Lemma filter_ext_elem_of {A : Type} (P Q : A -> Prop)
    `{forall x, Decision (P x)} `{forall x, Decision (Q x)} (l : list A) :
  (forall x, x ∈ l -> (P x <-> Q x)) -> filter P l = filter Q l.
Proof.
  induction l as [|a l IH]; intros Hext; [reflexivity|].
  assert (Ha : P a <-> Q a) by (apply Hext; now left).
  assert (Hl : filter P l = filter Q l) by (apply IH; intros x Hx; apply Hext; now right).
  destruct (decide (P a)) as [Hp|Hp].
  - rewrite !filter_cons_True by tauto. now f_equal.
  - rewrite !filter_cons_False by tauto. exact Hl.
Qed.

Lemma filter_all {A : Type} (P : A -> Prop) `{forall x, Decision (P x)} (l : list A) :
  (forall x, x ∈ l -> P x) -> filter P l = l.
Proof.
  induction l as [|a l IH]; intros Hall; [reflexivity|].
  rewrite filter_cons_True by (apply Hall; now left).
  f_equal. apply IH. intros x Hx. apply Hall. now right.
Qed.

Section GroupingFacts.
Variable triangles : list (option Triangle).

(** The inner loop appends to the face the triangles of [js] that are still
    unused and pass the test against the seed, and marks them used. *)
Lemma innerLoop_spec (cur : option Triangle) (js : list nat) :
  NoDup js ->
  forall (face : list nat) (used : gset nat),
  exists added : list nat,
    innerLoop triangles cur js face used = (face ++ added, list_to_set added ∪ used)
    /\ Forall (fun j => j ∈ js /\ (j ∉ used)
                        /\ joinsFace cur (nth j triangles None) = true) added
    /\ Permutation (added ++ filter (fun j => j ∉ (list_to_set added ∪ used : gset nat)) js)
                   (filter (fun j => j ∉ used) js).
Proof.
  induction js as [|j js IH]; intros Hnd face used.
  - exists []. simpl. rewrite app_nil_r, union_empty_l_L. auto.
  - apply NoDup_cons in Hnd as [Hj Hnd]. simpl.
    destruct (decide (j ∈ used)) as [Hin|Hnin].
    + destruct (IH Hnd face used) as (added & E & F & P).
      exists added. split; [exact E|]. split.
      * eapply Forall_impl; [exact F|]. simpl. intros x (? & ? & ?).
        repeat split; auto. now right.
      * rewrite filter_cons_False by set_solver.
        rewrite filter_cons_False by set_solver. exact P.
    + destruct (joinsFace cur (nth j triangles None)) eqn:Hjoin.
      * destruct (IH Hnd (face ++ [j]) ({[ j ]} ∪ used)) as (added & E & F & P).
        exists (j :: added). split; [|split].
        -- rewrite E, <- app_assoc. simpl. f_equal. set_solver.
        -- constructor; [repeat split; auto; now left|].
           eapply Forall_impl; [exact F|]. simpl. intros x (? & ? & ?).
           repeat split; auto; [now right | set_solver].
        -- assert (Es : (list_to_set (j :: added) ∪ used : gset nat)
                         = list_to_set added ∪ ({[ j ]} ∪ used)) by set_solver.
           rewrite Es.
           rewrite filter_cons_False by set_solver.
           rewrite filter_cons_True by exact Hnin.
           rewrite <- app_comm_cons. constructor.
           etransitivity; [exact P|].
           apply Permutation_refl'. apply filter_ext_elem_of.
           intros x Hx. rewrite not_elem_of_union, not_elem_of_singleton.
           split; [tauto|]. intros ?. split; [|assumption].
           intros ->. now apply Hj.
      * destruct (IH Hnd face used) as (added & E & F & P).
        exists added. split; [exact E|]. split.
        -- eapply Forall_impl; [exact F|]. simpl. intros x (? & ? & ?).
           repeat split; auto. now right.
        -- rewrite filter_cons_True.
           2:{ rewrite not_elem_of_union. split; [|exact Hnin].
               rewrite elem_of_list_to_set. intros Hadd.
               rewrite Forall_forall in F.
               destruct (F j Hadd) as (Hjs & _).
               now apply Hj. }
           rewrite filter_cons_True by exact Hnin.
           rewrite <- Permutation_middle. now constructor.
Qed.

(** The groups opened from the indices [a, a+1, ..] are, together, the
    indices not yet used. *)
Lemma outerLoop_spec (k : nat) :
  forall (a : nat) (used : gset nat),
    (a + k = List.length triangles)%nat ->
    Permutation (concat (outerLoop triangles (seq a k) used))
                (filter (fun j => j ∉ used) (seq a k))
    /\ Forall (fun g => exists i rest,
                 g = i :: rest
                 /\ Forall (fun j => (i < j)%nat
                                     /\ joinsFace (nth i triangles None)
                                                  (nth j triangles None) = true) rest)
              (outerLoop triangles (seq a k) used).
Proof.
  induction k as [|k IH]; intros a used Hlen; simpl.
  - split; constructor.
  - destruct (decide (a ∈ used)) as [Hin|Hnin].
    + rewrite filter_cons_False by set_solver. apply IH. lia.
    + replace (List.length triangles - S a)%nat with k by lia.
      destruct (innerLoop_spec (nth a triangles None) (seq (S a) k) (NoDup_seq _ _)
                  [a] ({[ a ]} ∪ used)) as (added & E & F & P).
      rewrite E. simpl.
      destruct (IH (S a) (list_to_set added ∪ ({[ a ]} ∪ used)) ltac:(lia)) as [IHp IHf].
      split.
      * rewrite filter_cons_True by exact Hnin. constructor.
        rewrite IHp, P.
        apply Permutation_refl'. apply filter_ext_elem_of.
        intros x Hx. rewrite not_elem_of_union, not_elem_of_singleton.
        apply elem_of_seq in Hx. split; [tauto|]. intros ?. split; [lia|assumption].
      * constructor; [|exact IHf].
        exists a, added. split; [reflexivity|].
        eapply Forall_impl; [exact F|]. simpl. intros x (Hx & _ & Hjoin).
        apply elem_of_seq in Hx. split; [lia | exact Hjoin].
Qed.

End GroupingFacts.

(** C9: the groups of the greedy phase partition the triangle numbers:
    listed one after the other they are a rearrangement of 0 .. n-1, so that
    every triangle is in exactly one group; a group is its seed followed by
    later triangles that passed the coplanarity test against the seed. *)
Theorem C9_groups_partition_triangles (triangles : list (option Triangle)) :
  Permutation (concat (groupTriangles triangles)) (seq 0 (List.length triangles))
  /\ NoDup (concat (groupTriangles triangles))
  /\ (forall i, (i < List.length triangles)%nat ->
        exists g, g ∈ groupTriangles triangles /\ i ∈ g)
  /\ Forall (fun g => exists i rest,
               g = i :: rest
               /\ Forall (fun j => (i < j)%nat
                                   /\ joinsFace (nth i triangles None)
                                                (nth j triangles None) = true) rest)
            (groupTriangles triangles).
Proof.
  unfold groupTriangles.
  destruct (outerLoop_spec triangles (List.length triangles) 0 ∅ eq_refl) as [P F].
  assert (P' : Permutation (concat (outerLoop triangles (seq 0 (List.length triangles)) ∅))
                           (seq 0 (List.length triangles))).
  { rewrite P. apply Permutation_refl'. apply filter_all.
    intros x _. apply not_elem_of_empty. }
  split; [exact P'|]. split; [|split; [|exact F]].
  - rewrite P'. apply NoDup_seq.
  - intros i Hi.
    assert (Hin : i ∈ concat (outerLoop triangles (seq 0 (List.length triangles)) ∅)).
    { rewrite P'. apply elem_of_seq. lia. }
    apply list_elem_of_In, in_concat in Hin as (g & Hg & Hig).
    exists g. split; apply list_elem_of_In; assumption.
Qed.

(** ** Shadow coverage: the value handed back *)

Lemma Math_floor_eq (x : R) (z : Z) : IZR z <= x < IZR z + 1 -> Math_floor x = z.
Proof.
  intros [H1 H2]. unfold Math_floor.
  rewrite <- (up_tech x z); [lia | exact H1 | rewrite plus_IZR; exact H2].
Qed.

Lemma Math_floor_half (n : nat) : Math_floor (INR n + 1 / 2) = Z.of_nat n.
Proof. apply Math_floor_eq. rewrite <- INR_IZR_INZ. lra. Qed.

(** [toFixed] on a whole number of tenths. *)
Lemma toFixed_tenths (k : nat) :
  toFixed (INR k / INR 1000 * 100) 1 = pointBeforeLast k 1.
Proof.
  unfold toFixed.
  assert (Hk : 0 <= INR k) by apply pos_INR.
  assert (H1000 : INR 1000 = 1000) by (simpl; lra).
  rewrite (proj2 (Rltb_false _ _)) by (rewrite H1000; lra).
  replace (INR k / INR 1000 * 100 * 10 ^ 1 + 1 / 2) with (INR k + 1 / 2)
    by (rewrite H1000; simpl; field).
  rewrite Math_floor_half, Nat2Z.id. reflexivity.
Qed.

Section CoverageFacts.
Variable raycast : Ray -> Object3D -> list R.
Variable random : nat -> R.
Variable scene : Object3D.
Variable directionalLight : DirectionalLight.

Lemma sampleLoop_bounds obj ps index faceCount (n : nat) :
  forall k shadowed : nat,
    (shadowed
     <= sampleLoop raycast random scene directionalLight obj ps index faceCount n k shadowed
     <= shadowed + n)%nat.
Proof.
  induction n as [|n IH]; intros k shadowed; simpl; [lia|].
  destruct (isInShadow _).
  - specialize (IH (k + 3)%nat (S shadowed)). lia.
  - specialize (IH (k + 3)%nat shadowed). lia.
Qed.

End CoverageFacts.

(** C8: the number 0 comes back when the argument is missing, is not a mesh,
    has no geometry or has a geometry without position attribute; in every
    other case a string comes back: the count [k] of shadowed samples, at
    most 1000, gives the coverage [100 k / 1000] between 0 and 100, printed
    by [toFixed(1)] as the digits of [k] with a point before the last one. *)
Theorem C8_coverage_value raycast random scene directionalLight :
  let coverage := calculateShadowCoverage raycast random scene directionalLight in
  coverage None = JSNumber 0
  /\ (forall obj, isMesh obj = false -> coverage (Some obj) = JSNumber 0)
  /\ (forall obj, geometry obj = None -> coverage (Some obj) = JSNumber 0)
  /\ (forall obj g, geometry obj = Some g -> positionAttribute g = None ->
        coverage (Some obj) = JSNumber 0)
  /\ (forall obj g ps,
        isMesh obj = true -> geometry obj = Some g -> positionAttribute g = Some ps ->
        exists k : nat,
          (k <= 1000)%nat
          /\ 0 <= INR k / INR 1000 * 100 <= 100
          /\ coverage (Some obj) = JSString (toFixed (INR k / INR 1000 * 100) 1)
          /\ toFixed (INR k / INR 1000 * 100) 1 = pointBeforeLast k 1).
Proof.
  cbv zeta. unfold calculateShadowCoverage.
  split; [reflexivity|].
  split; [intros obj ->; reflexivity|].
  split; [intros obj ->; destruct (isMesh obj); reflexivity|].
  split; [intros obj g -> ->; destruct (isMesh obj); reflexivity|].
  intros obj g ps -> -> ->. cbn [negb].
  set (k := sampleLoop _ _ _ _ _ _ _ _ _ _ _).
  exists k.
  assert (Hk : (k <= 1000)%nat).
  { pose proof (sampleLoop_bounds raycast random scene directionalLight obj ps
                  (indexAttribute g)
                  match indexAttribute g with
                  | Some idx => INR (List.length idx) / 3
                  | None => INR (List.length ps) / 3
                  end totalSamples 0 0) as B.
    fold k in B. unfold totalSamples in B. lia. }
  split; [exact Hk|].
  split; [|split; [reflexivity | apply toFixed_tenths]].
  assert (H1000 : INR 1000 = 1000) by (simpl; lra).
  assert (0 <= INR k <= 1000).
  { split; [apply pos_INR|]. rewrite <- H1000. now apply le_INR. }
  rewrite H1000. lra.
Qed.

(** The printed coverage for 0, 125 and 1000 shadowed samples. *)
Lemma pointBeforeLast_examples :
  pointBeforeLast 0 1 = "0.0" /\ pointBeforeLast 125 1 = "12.5"
  /\ pointBeforeLast 1000 1 = "100.0".
Proof. repeat split; vm_compute; reflexivity. Qed.

(** The theorem on a mesh of the small scene. *)
Lemma C8_coverage_value_witness :
  exists k : nat,
    (k <= 1000)%nat
    /\ calculateShadowCoverage (fun _ _ => []) (fun _ => 0) smallScene sunAbove
         (Some (boxMesh 3 1 1 0 true))
       = JSString (toFixed (INR k / INR 1000 * 100) 1).
Proof.
  destruct (proj2 (proj2 (proj2 (proj2
             (C8_coverage_value (fun _ _ => []) (fun _ => 0) smallScene sunAbove))))
             (boxMesh 3 1 1 0 true) _ _ eq_refl eq_refl eq_refl)
    as (k & Hk & _ & E & _).
  exists k. split; [exact Hk | exact E].
Defined.

(** ** Shadow coverage: the occlusion test of one sample *)

Lemma isInShadow_exists (hits : list Intersection) :
  isInShadow hits = true <-> exists h, h ∈ hits /\ castShadow (object h) = true.
Proof.
  induction hits as [|h hits IH]; simpl.
  - split; [discriminate|]. intros (h & Hh & _). inversion Hh.
  - destruct (castShadow (object h)) eqn:E.
    + split; [|reflexivity]. intros _. exists h. split; [left | exact E].
    + rewrite IH. split.
      * intros (h' & Hh' & Hc). exists h'. split; [now right | exact Hc].
      * intros (h' & Hh' & Hc). apply elem_of_cons in Hh' as [->|Hh'];
          [congruence | eauto].
Qed.

Lemma insertByDistance_perm (h : Intersection) (l : list Intersection) :
  Permutation (insertByDistance h l) (h :: l).
Proof.
  induction l as [|h' l IH]; simpl; [reflexivity|].
  destruct (Rltb (distance h') (distance h)); [|reflexivity].
  rewrite IH. apply perm_swap.
Qed.

Lemma ascSort_perm (l : list Intersection) : Permutation (ascSort l) l.
Proof.
  induction l as [|h l IH]; simpl; [reflexivity|].
  etransitivity; [apply insertByDistance_perm|]. now constructor.
Qed.

Lemma insertByDistance_sorted (h : Intersection) (l : list Intersection) :
  StronglySorted nearerOrEqual l -> StronglySorted nearerOrEqual (insertByDistance h l).
Proof.
  induction l as [|h' l IH]; intros Hs; simpl.
  - repeat constructor.
  - apply StronglySorted_inv in Hs as [Hs Hall].
    destruct (Rltb (distance h') (distance h)) eqn:E.
    + constructor; [now apply IH|].
      apply Rltb_true in E.
      rewrite Forall_forall. intros x Hx.
      rewrite (insertByDistance_perm h l) in Hx.
      apply elem_of_cons in Hx as [->|Hx]; [unfold nearerOrEqual; lra|].
      rewrite Forall_forall in Hall. now apply Hall.
    + apply Rltb_false in E.
      constructor; [constructor; assumption|].
      constructor; [exact E|].
      eapply Forall_impl; [exact Hall|].
      unfold nearerOrEqual. intros a Ha. lra.
Qed.

Lemma ascSort_sorted (l : list Intersection) : StronglySorted nearerOrEqual (ascSort l).
Proof.
  induction l as [|h l IH]; simpl; [constructor|].
  now apply insertByDistance_sorted.
Qed.

Section OcclusionFacts.
Variable raycast : Ray -> Object3D -> list R.

(** The hits collected below a node are the hits on the nodes of its subtree. *)
Lemma intersect_elem_of (ray : Ray) (o : Object3D) (h : Intersection) :
  h ∈ intersect raycast ray o
  <-> object h ∈ traverse o /\ distance h ∈ raycast ray (object h).
Proof.
  induction o as [o IH] using Object3D_children_ind.
  destruct o as [id m g p q s w geo mat cast pan cs].
  cbn [intersect traverse children] in *.
  set (o := mkObject3D id m g p q s w geo mat cast pan cs) in *.
  rewrite elem_of_app, list_elem_of_fmap, elem_of_cons.
  assert (Hcs : h ∈ flat_map (intersect raycast ray) cs
                <-> object h ∈ flat_map traverse cs /\ distance h ∈ raycast ray (object h)).
  { clear o. induction cs as [|c cs IHcs]; simpl.
    - split; [intros H; inversion H | intros [H _]; inversion H].
    - inversion IH as [|? ? Hc Hrest]; subst.
      rewrite !elem_of_app, Hc, (IHcs Hrest). tauto. }
  rewrite Hcs. split.
  - intros [(d & -> & Hd)|[? ?]]; simpl; [split; [now left | exact Hd] | tauto].
  - intros [[E|Hin] Hd].
    + left. exists (distance h). split; [|now rewrite <- E].
      destruct h; simpl in *; now subst.
    + right. tauto.
Qed.

Lemma intersectObjects_elem_of (ray : Ray) (objects : list Object3D) (h : Intersection) :
  h ∈ intersectObjects raycast ray objects
  <-> exists root, root ∈ objects /\ object h ∈ traverse root
                   /\ distance h ∈ raycast ray (object h).
Proof.
  unfold intersectObjects. rewrite (ascSort_perm _).
  induction objects as [|o objects IH]; simpl.
  - split; [intros H; inversion H | intros (r & H & _); inversion H].
  - rewrite elem_of_app, intersect_elem_of, IH. split.
    + intros [[? ?]|(r & ? & ? & ?)].
      * exists o. repeat split; auto. now left.
      * exists r. repeat split; auto. now right.
    + intros (r & Hr & ? & ?). apply elem_of_cons in Hr as [->|Hr]; [tauto|].
      right. eauto.
Qed.

End OcclusionFacts.

Lemma elem_of_flat_map_traverse (n : Object3D) (cs : list Object3D) :
  n ∈ flat_map traverse cs <-> exists c, c ∈ cs /\ n ∈ traverse c.
Proof.
  induction cs as [|c cs IH]; cbn [flat_map].
  - split; [intros H; inversion H | intros (c & H & _); inversion H].
  - rewrite elem_of_app, IH. split.
    + intros [H|(c' & H1 & H2)]; [exists c; split; [left | exact H]|].
      exists c'. split; [now right | exact H2].
    + intros (c' & H1 & H2). apply elem_of_cons in H1 as [->|H1]; [now left|].
      right. eauto.
Qed.

(** C2, amended: the ray of a sample is intersected against nodes of the
    scene, and every node of the scene that is neither the sampled object,
    the light, nor below one of them is tested (a child of the scene that
    carries the uuid of the sampled object or of the light being that node);
    the hits come nearest first; and the sample counts as occluded exactly
    when at least one hit, the nearest or a farther one, belongs to a node
    flagged as shadow-casting. *)
Theorem C2_occlusion_test raycast random scene directionalLight obj ps index faceCount k :
  let hits :=
    sampleIntersects raycast random scene directionalLight obj ps index faceCount k in
  (isInShadow hits = true <-> exists h, h ∈ hits /\ castShadow (object h) = true)
  /\ StronglySorted nearerOrEqual hits
  /\ (forall h, h ∈ hits -> object h ∈ flat_map traverse (children scene))
  /\ ((forall c, c ∈ children scene ->
          (uuid c = uuid obj -> c = obj)
          /\ (uuid c = uuid (light directionalLight) -> c = light directionalLight)) ->
      forall p, pointOnTriangle random obj ps index faceCount k = Some p ->
      forall n d,
        n ∈ flat_map traverse (children scene) ->
        uuid n ∉ map uuid (traverse obj) ->
        uuid n ∉ map uuid (traverse (light directionalLight)) ->
        d ∈ raycast (shadowRay directionalLight p) n ->
        mkIntersection d n ∈ hits)
  /\ (forall n shadowed,
        sampleLoop raycast random scene directionalLight obj ps index faceCount
                   (S n) k shadowed
        = sampleLoop raycast random scene directionalLight obj ps index faceCount
                     n (k + 3) (if isInShadow hits then S shadowed else shadowed)).
Proof.
  cbv zeta.
  split; [apply isInShadow_exists|].
  split; [|split; [|split; [|reflexivity]]].
  - unfold sampleIntersects.
    destruct (pointOnTriangle _ _ _ _ _ _); [apply ascSort_sorted | constructor].
  - intros h Hh. unfold sampleIntersects in Hh.
    destruct (pointOnTriangle random obj ps index faceCount k) as [p|];
      [|inversion Hh].
    apply intersectObjects_elem_of in Hh as (r & Hr & Ht & _).
    apply elem_of_flat_map_traverse. exists r. split; [|exact Ht].
    unfold occluderRoots in Hr. now apply list_elem_of_filter in Hr as [_ Hr].
  - intros Hid p Hp n d Hn Ho Hl Hd.
    unfold sampleIntersects. rewrite Hp.
    apply intersectObjects_elem_of.
    apply elem_of_flat_map_traverse in Hn as (c & Hc & Hnc).
    exists c. cbn [object distance]. split; [|split; [exact Hnc | exact Hd]].
    unfold occluderRoots. apply list_elem_of_filter. split; [|exact Hc].
    destruct (Hid c Hc) as [Hobj Hlight]. split.
    + intros E. apply Ho. rewrite (Hobj E) in Hnc.
      apply list_elem_of_fmap. now exists n.
    + intros E. apply Hl. rewrite (Hlight E) in Hnc.
      apply list_elem_of_fmap. now exists n.
Qed.

(** The samples of the example scene: every draw is 0. *)
Lemma pointOnTriangle_example (k : nat) :
  exists p,
    pointOnTriangle (fun _ => 0) sampledPanel [vec3 0 0 0; vec3 1 0 0; vec3 0 1 0] None
                    (INR 3 / 3) k = Some p.
Proof.
  unfold pointOnTriangle.
  rewrite (Math_floor_eq (0 * (INR 3 / 3)) 0) by (simpl; lra).
  cbn -[applyMatrix4 Vector3.add Vector3.multiplyScalar Rgtb INR].
  eexists. reflexivity.
Qed.

Lemma occluderRoots_example :
  occluderRoots shadowScene sunAbove sampledPanel
  = [pane; wall; shadowNode 12 false false None [sampledPanel]].
Proof.
  unfold occluderRoots, shadowScene. cbn [children shadowNode].
  rewrite !filter_cons_True by (cbn; lia). reflexivity.
Qed.

Lemma sampleIntersects_paneThenWall (k : nat) :
  sampleIntersects paneThenWall (fun _ => 0) shadowScene sunAbove sampledPanel
                   [vec3 0 0 0; vec3 1 0 0; vec3 0 1 0] None (INR 3 / 3) k
  = [mkIntersection 1 pane; mkIntersection 2 wall].
Proof.
  unfold sampleIntersects.
  destruct (pointOnTriangle_example k) as [p ->].
  rewrite occluderRoots_example.
  unfold intersectObjects. cbn [flat_map intersect pane wall sampledPanel shadowNode
    children paneThenWall uuid Nat.eqb map app ascSort fold_right insertByDistance distance].
  rewrite (proj2 (Rltb_false 2 1)) by lra. reflexivity.
Qed.

Lemma sampleIntersects_selfHit (k : nat) :
  sampleIntersects selfHit (fun _ => 0) shadowScene sunAbove sampledPanel
                   [vec3 0 0 0; vec3 1 0 0; vec3 0 1 0] None (INR 3 / 3) k
  = [mkIntersection 3 sampledPanel].
Proof.
  unfold sampleIntersects.
  destruct (pointOnTriangle_example k) as [p ->].
  rewrite occluderRoots_example.
  unfold intersectObjects. cbn [flat_map intersect pane wall sampledPanel shadowNode
    children selfHit uuid Nat.eqb map app ascSort fold_right insertByDistance distance].
  reflexivity.
Qed.

Lemma sampleLoop_all_shadowed raycast random scene dl obj ps index faceCount :
  (forall k, isInShadow (sampleIntersects raycast random scene dl obj ps index faceCount k)
             = true) ->
  forall n k shadowed,
    sampleLoop raycast random scene dl obj ps index faceCount n k shadowed
    = (shadowed + n)%nat.
Proof.
  intros Hall n. induction n as [|n IH]; intros k shadowed; simpl; [lia|].
  rewrite Hall, IH. lia.
Qed.

Lemma coverage_all_shadowed raycast random scene dl obj g ps :
  isMesh obj = true -> geometry obj = Some g -> positionAttribute g = Some ps ->
  (forall k,
      isInShadow (sampleIntersects raycast random scene dl obj ps (indexAttribute g)
                    match indexAttribute g with
                    | Some idx => INR (List.length idx) / 3
                    | None => INR (List.length ps) / 3
                    end k) = true) ->
  calculateShadowCoverage raycast random scene dl (Some obj) = JSString "100.0".
Proof.
  intros Hm Hg Hp Hall. unfold calculateShadowCoverage. rewrite Hm, Hg, Hp. cbn [negb].
  rewrite (sampleLoop_all_shadowed _ _ _ _ _ _ _ _ Hall). cbn [Nat.add].
  unfold totalSamples. rewrite toFixed_tenths. vm_compute. reflexivity.
Qed.

(** C2, counterexample: a ray that meets first a pane that casts no shadow
    (distance 1), then a wall that does (distance 2).  The nearest hit is on a
    node that is not shadow-casting, yet the sample counts as occluded, and
    the coverage of the panel is 100.0. *)
Lemma C2_nearest_hit_counterexample :
  let hits :=
    sampleIntersects paneThenWall (fun _ => 0) shadowScene sunAbove sampledPanel
                     [vec3 0 0 0; vec3 1 0 0; vec3 0 1 0] None (INR 3 / 3) 0 in
  hits = [mkIntersection 1 pane; mkIntersection 2 wall]
  /\ castShadow pane = false
  /\ isInShadow hits = true
  /\ calculateShadowCoverage paneThenWall (fun _ => 0) shadowScene sunAbove
       (Some sampledPanel) = JSString "100.0".
Proof.
  cbv zeta. rewrite sampleIntersects_paneThenWall.
  repeat split.
  apply (coverage_all_shadowed _ _ _ _ sampledPanel
           (mkGeometry (Some [vec3 0 0 0; vec3 1 0 0; vec3 0 1 0]) None)
           [vec3 0 0 0; vec3 1 0 0; vec3 0 1 0]); try reflexivity.
  intros k. cbn [indexAttribute List.length].
  rewrite sampleIntersects_paneThenWall. reflexivity.
Qed.

(** The sampled panel is a grandchild of the scene here, so the filter on the
    scene's children does not leave it out: a ray that meets only the panel
    itself makes every sample count as occluded. *)
Lemma nested_object_is_intersected :
  occluderRoots shadowScene sunAbove sampledPanel = children shadowScene
  /\ sampleIntersects selfHit (fun _ => 0) shadowScene sunAbove sampledPanel
                      [vec3 0 0 0; vec3 1 0 0; vec3 0 1 0] None (INR 3 / 3) 0
     = [mkIntersection 3 sampledPanel]
  /\ calculateShadowCoverage selfHit (fun _ => 0) shadowScene sunAbove
       (Some sampledPanel) = JSString "100.0".
Proof.
  split; [exact occluderRoots_example|].
  split; [apply sampleIntersects_selfHit|].
  apply (coverage_all_shadowed _ _ _ _ sampledPanel
           (mkGeometry (Some [vec3 0 0 0; vec3 1 0 0; vec3 0 1 0]) None)
           [vec3 0 0 0; vec3 1 0 0; vec3 0 1 0]); try reflexivity.
  intros k. cbn [indexAttribute List.length].
  rewrite sampleIntersects_selfHit. reflexivity.
Qed.

(** The theorem on the example scene: the sample counts as occluded exactly
    when a hit is on a shadow caster, and the wall, which is neither the
    sampled panel nor the light, is tested. *)
Lemma C2_occlusion_test_witness :
  pointOnTriangle (fun _ => 0) sampledPanel [vec3 0 0 0; vec3 1 0 0; vec3 0 1 0] None
                  (INR 3 / 3) 0 <> None
  /\ (isInShadow
        (sampleIntersects paneThenWall (fun _ => 0) shadowScene sunAbove sampledPanel
           [vec3 0 0 0; vec3 1 0 0; vec3 0 1 0] None (INR 3 / 3) 0) = true
      <-> exists h,
            h ∈ sampleIntersects paneThenWall (fun _ => 0) shadowScene sunAbove
                  sampledPanel [vec3 0 0 0; vec3 1 0 0; vec3 0 1 0] None (INR 3 / 3) 0
            /\ castShadow (object h) = true)
  /\ mkIntersection 2 wall
       ∈ sampleIntersects paneThenWall (fun _ => 0) shadowScene sunAbove
           sampledPanel [vec3 0 0 0; vec3 1 0 0; vec3 0 1 0] None (INR 3 / 3) 0.
Proof.
  pose proof (C2_occlusion_test paneThenWall (fun _ => 0) shadowScene sunAbove
                sampledPanel [vec3 0 0 0; vec3 1 0 0; vec3 0 1 0] None (INR 3 / 3) 0)
    as (H1 & _ & _ & H4 & _).
  split; [|split; [exact H1|]].
  - destruct (pointOnTriangle_example 0) as [p ->]. discriminate.
  - destruct (pointOnTriangle_example 0) as [p Hp].
    apply (H4 ltac:(intros c Hc; cbn [shadowScene shadowNode children] in Hc;
                    repeat (apply elem_of_cons in Hc as [->|Hc];
                            [split; intros E; cbn in E; discriminate E|]);
                    inversion Hc) p Hp wall 2).
    + apply elem_of_flat_map_traverse. exists wall. split.
      * cbn [shadowScene shadowNode children]. right; left.
      * change (wall ∈ wall :: flat_map traverse (children wall)). left.
    + cbn. intros H. apply elem_of_cons in H as [E|H]; [discriminate E | inversion H].
    + cbn. intros H. apply elem_of_cons in H as [E|H]; [discriminate E | inversion H].
    + cbn. left.
Defined.

(** ** Pivot-offset transform engine *)

(** Turning by a unit quaternion undoes turning by its conjugate. *)
Lemma applyQuaternion_invert (v : Vector3.t) (q : Quaternion.t) :
  Quaternion.lengthSq q = 1 ->
  applyQuaternion (applyQuaternion v (Quaternion.invert q)) q = v.
Proof.
  destruct v as [vx vy vz], q as [qx qy qz qw].
  unfold Quaternion.lengthSq, applyQuaternion, Quaternion.invert; simpl.
  intros H. f_equal; nsatz.
Qed.

Lemma applyMatrix4_invert (v : Vector3.t) (m : Matrix4.t) :
  affine m -> Matrix4.determinant m <> 0 ->
  applyMatrix4 (applyMatrix4 v (Matrix4.invert m)) m = v.
Proof.
  destruct v as [vx vy vz].
  destruct m as [a0 a1 a2 a3 a4 a5 a6 a7 a8 a9 a10 a11 a12 a13 a14 a15].
  unfold affine, Matrix4.determinant; simpl.
  intros (-> & -> & -> & ->) Hdet.
  unfold Matrix4.invert; cbn.
  match goal with |- context [Req_dec_T ?d 0] => destruct (Req_dec_T d 0) as [E|E] end.
  - exfalso. apply Hdet. etransitivity; [|exact E]. ring.
  - unfold applyMatrix4; cbn.
    f_equal; field; intro K; apply E; (etransitivity; [|exact K]); ring.
Qed.

Lemma compose_affine p q s : affine (Matrix4.compose p q s).
Proof. unfold affine, Matrix4.compose; simpl. auto. Qed.

Lemma multiplyMatrices_affine a b :
  affine a -> affine b -> affine (Matrix4.multiplyMatrices a b).
Proof.
  destruct a, b. unfold affine, Matrix4.multiplyMatrices; simpl.
  intros (-> & -> & -> & ->) (-> & -> & -> & ->). repeat split; ring.
Qed.

Lemma identity_affine : affine Matrix4.identity.
Proof. unfold affine; simpl. auto. Qed.

Lemma multiplyMatrices_shift d a b :
  affine b ->
  Matrix4.multiplyMatrices (shiftMatrix d a) b = shiftMatrix d (Matrix4.multiplyMatrices a b).
Proof.
  destruct a, b, d. unfold affine, Matrix4.multiplyMatrices, shiftMatrix; simpl.
  intros (-> & -> & -> & ->). f_equal; ring.
Qed.

Lemma multiplyMatrices_compose_position m p p' q s :
  affine m ->
  Matrix4.multiplyMatrices m (Matrix4.compose p' q s)
  = shiftMatrix (linearPart m (Vector3.sub p' p))
                (Matrix4.multiplyMatrices m (Matrix4.compose p q s)).
Proof.
  destruct m, p, p'.
  unfold affine, Matrix4.multiplyMatrices, Matrix4.compose, shiftMatrix, linearPart,
    Vector3.sub; simpl.
  intros (-> & -> & -> & ->). f_equal; ring.
Qed.

Lemma applyMatrix4_shift v d m :
  affine m -> applyMatrix4 v (shiftMatrix d m) = Vector3.add (applyMatrix4 v m) d.
Proof.
  destruct m, v, d. unfold affine, applyMatrix4, shiftMatrix, Vector3.add; simpl.
  intros (-> & -> & -> & ->). f_equal; field.
Qed.

(** The translation column of [m * compose(p, q, s)] is [m] applied to [p]. *)
Lemma worldPosition_compose m p q s :
  affine m ->
  setFromMatrixPosition (Matrix4.multiplyMatrices m (Matrix4.compose p q s))
  = applyMatrix4 p m.
Proof.
  destruct m, p.
  unfold affine, setFromMatrixPosition, applyMatrix4, Matrix4.multiplyMatrices,
    Matrix4.compose; simpl.
  intros (-> & -> & -> & ->). f_equal; field.
Qed.

(** Refreshing below a moved parent moves every world matrix of the subtree. *)
Lemma updateMatrixWorld_shift (o : Object3D) :
  forall d w,
    updateMatrixWorld (Some (shiftMatrix d w)) o
    = shiftWorld d (updateMatrixWorld (Some w) o).
Proof.
  induction o as [o IH] using Object3D_children_ind.
  intros d w.
  destruct o as [id m g p q s mw geo mat cast pan cs]; simpl in *.
  rewrite multiplyMatrices_shift by apply compose_affine.
  f_equal. rewrite map_map.
  induction cs as [|c cs IHcs]; simpl; [reflexivity|].
  inversion IH as [|? ? Hc Hcs]; subst.
  now rewrite Hc, (IHcs Hcs).
Qed.

Lemma updateMatrixWorld_None_identity (o : Object3D) :
  updateMatrixWorld None o = updateMatrixWorld (Some Matrix4.identity) o.
Proof.
  destruct o as [id m g p q s mw geo mat cast pan cs]; simpl.
  now rewrite multiplyMatrices_identity_l.
Qed.

(** Refreshing depends on the local transforms only. *)
Lemma updateMatrixWorld_idem (o : Object3D) :
  forall w w', updateMatrixWorld w (updateMatrixWorld w' o) = updateMatrixWorld w o.
Proof.
  induction o as [o IH] using Object3D_children_ind.
  intros w w'.
  destruct o as [id m g p q s mw geo mat cast pan cs]; simpl in *.
  f_equal. rewrite map_map.
  induction cs as [|c cs IHcs]; simpl; [reflexivity|].
  inversion IH as [|? ? Hc Hcs]; subst.
  now rewrite Hc, (IHcs Hcs).
Qed.

Lemma updateMatrixWorld_allAffine (o : Object3D) :
  forall w, affine w -> allAffine (updateMatrixWorld (Some w) o).
Proof.
  unfold allAffine.
  induction o as [o IH] using Object3D_children_ind.
  intros w Hw.
  destruct o as [id m g p q s mw geo mat cast pan cs]; simpl in *.
  assert (Hw' : affine (Matrix4.multiplyMatrices w (Matrix4.compose p q s)))
    by (apply multiplyMatrices_affine; [exact Hw | apply compose_affine]).
  constructor; [exact Hw'|].
  induction cs as [|c cs IHcs]; simpl; [constructor|].
  inversion IH as [|? ? Hc Hcs]; subst.
  apply Forall_app. split; [now apply Hc | now apply IHcs].
Qed.

(** The bounding box follows. *)
Lemma Rmin_shift a b d : Rmin (a + d) (b + d) = Rmin a b + d.
Proof. unfold Rmin. destruct (Rle_dec (a + d) (b + d)), (Rle_dec a b); lra. Qed.

Lemma Rmax_shift a b d : Rmax (a + d) (b + d) = Rmax a b + d.
Proof. unfold Rmax. destruct (Rle_dec (a + d) (b + d)), (Rle_dec a b); lra. Qed.

Lemma expandByPoint_shift d b p :
  Box3.expandByPoint (shiftBox d b) (Vector3.add p d) = shiftBox d (Box3.expandByPoint b p).
Proof.
  destruct b as [[lo hi]|]; simpl; [|reflexivity].
  unfold Vector3.add; simpl. now rewrite !Rmin_shift, !Rmax_shift.
Qed.

Lemma expandByObject_shift (o : Object3D) :
  forall d b, allAffine o ->
    expandByObject (shiftWorld d o) (shiftBox d b) = shiftBox d (expandByObject o b).
Proof.
  unfold allAffine.
  induction o as [o IH] using Object3D_children_ind.
  intros d b Haff.
  destruct o as [id m g p q s mw geo mat cast pan cs].
  cbn [traverse children] in Haff. apply Forall_cons in Haff as [Hmw Hcs].
  cbn [matrixWorld] in Hmw.
  cbn [expandByObject shiftWorld geometry matrixWorld children] in *.
  set (own := fun (mx : Matrix4.t) (b0 : Box3.t) =>
        match geo with
        | Some g0 =>
            match positionAttribute g0 with
            | Some ps =>
                fold_left (fun acc p0 => Box3.expandByPoint acc (applyMatrix4 p0 mx)) ps b0
            | None => b0
            end
        | None => b0
        end).
  change (fold_left (fun acc c => expandByObject c acc) (map (shiftWorld d) cs)
            (own (shiftMatrix d mw) (shiftBox d b))
          = shiftBox d (fold_left (fun acc c => expandByObject c acc) cs (own mw b))).
  assert (Hown : own (shiftMatrix d mw) (shiftBox d b) = shiftBox d (own mw b)).
  { unfold own. destruct geo as [g0|]; [|reflexivity].
    destruct (positionAttribute g0) as [ps|]; [|reflexivity].
    revert b. induction ps as [|v ps IHps]; intros b; simpl; [reflexivity|].
    rewrite applyMatrix4_shift by exact Hmw.
    now rewrite expandByPoint_shift, IHps. }
  rewrite Hown. generalize (own mw b). clear Hown own.
  induction cs as [|c cs IHcs]; intros b0; simpl; [reflexivity|].
  inversion IH as [|? ? Hc Hrest]; subst.
  cbn [flat_map] in Hcs. apply Forall_app in Hcs as [Hc1 Hc2].
  rewrite Hc by exact Hc1. now apply IHcs.
Qed.

Lemma setFromObject_shift d o :
  allAffine o -> setFromObject (shiftWorld d o) = shiftBox d (setFromObject o).
Proof. intros H. unfold setFromObject, Box3.makeEmpty. exact (expandByObject_shift o d None H). Qed.

Lemma setFromObject_setPosition p o : setFromObject (setPosition p o) = setFromObject o.
Proof. destruct o. reflexivity. Qed.

(** A box grown from points has its corners in order. *)
Lemma expandByPoint_ordered b p : orderedBox b -> orderedBox (Box3.expandByPoint b p).
Proof.
  destruct b as [[lo hi]|]; simpl.
  - intros (? & ? & ?). unfold Rmin, Rmax. Rdecide; repeat split; lra.
  - intros _. repeat split; lra.
Qed.

Lemma expandByObject_ordered (o : Object3D) :
  forall b, orderedBox b -> orderedBox (expandByObject o b).
Proof.
  induction o as [o IH] using Object3D_children_ind.
  intros b Hb.
  destruct o as [id m g p q s mw geo mat cast pan cs].
  cbn [expandByObject geometry matrixWorld children] in *.
  match goal with
  | |- orderedBox (fold_left _ cs ?b1) =>
      assert (Hb1 : orderedBox b1); [|generalize dependent b1]
  end.
  { destruct geo as [g0|]; [|exact Hb].
    destruct (positionAttribute g0) as [ps|]; [|exact Hb].
    revert b Hb. induction ps as [|v ps IHps]; intros b Hb; simpl; [exact Hb|].
    apply IHps. now apply expandByPoint_ordered. }
  induction cs as [|c cs IHcs]; intros b1 Hb1; simpl; [exact Hb1|].
  inversion IH as [|? ? Hc Hrest]; subst.
  apply IHcs; [exact Hrest|]. now apply Hc.
Qed.

Lemma setFromObject_ordered o : orderedBox (setFromObject o).
Proof. apply expandByObject_ordered. exact I. Qed.

Lemma getCenter_shift d b :
  orderedBox b -> b <> None ->
  Box3.getCenter (shiftBox d b) = Vector3.add (Box3.getCenter b) d.
Proof.
  destruct b as [[lo hi]|]; [|congruence].
  intros (Hx & Hy & Hz) _. unfold shiftBox, Box3.getCenter, Box3.isEmpty.
  destruct lo, hi, d; simpl in *.
  rewrite !(proj2 (Rltb_false _ _)) by lra. simpl.
  unfold Vector3.multiplyScalar, Vector3.addVectors, Vector3.add; simpl.
  f_equal; lra.
Qed.

(** The node after [onCoordInputChange] is the node before, moved as a whole. *)
Lemma moved_node_is_shifted (m : Matrix4.t) (o : Object3D) (p' : Vector3.t) :
  affine m ->
  updateMatrixWorld (Some m) o = o ->
  updateMatrixWorld (Some m) (setPosition p' o)
  = setPosition p' (shiftWorld (linearPart m (Vector3.sub p' (position o))) o).
Proof.
  intros Hm Hfresh.
  destruct o as [id me g p q s mw geo mat cast pan cs].
  cbn [updateMatrixWorld setPosition position quaternion scale uuid isMesh isGroup
       geometry material castShadow userData_is2DPanel children shiftWorld matrixWorld]
    in *.
  injection Hfresh as Hmw Hcs.
  rewrite (multiplyMatrices_compose_position m p p' q s Hm).
  set (d := linearPart m (Vector3.sub p' p)).
  set (w := Matrix4.multiplyMatrices m (Matrix4.compose p q s)) in *.
  assert (Hcs' : map (updateMatrixWorld (Some (shiftMatrix d w))) cs
                 = map (shiftWorld d) cs).
  { transitivity (map (shiftWorld d) (map (updateMatrixWorld (Some w)) cs)).
    - rewrite map_map. apply map_ext. intros c. apply updateMatrixWorld_shift.
    - now rewrite Hcs. }
  rewrite Hcs', Hmw. reflexivity.
Qed.

Lemma fresh_world_position (m : Matrix4.t) (o : Object3D) :
  affine m -> updateMatrixWorld (Some m) o = o ->
  getWorldPosition o = applyMatrix4 (position o) m.
Proof.
  intros Hm Hfresh. rewrite <- Hfresh at 1.
  destruct o; unfold getWorldPosition; cbn. now apply worldPosition_compose.
Qed.

Lemma fresh_allAffine (m : Matrix4.t) (o : Object3D) :
  affine m -> updateMatrixWorld (Some m) o = o -> allAffine o.
Proof. intros Hm <-. now apply updateMatrixWorld_allAffine. Qed.

(** Setting the bounding-box centre through a parent [m] and reading it back. *)
Lemma set_then_get_center (m : Matrix4.t) (cached : option Vector3.t) (o : Object3D)
    (x y z : R) :
  affine m -> Matrix4.determinant m <> 0 ->
  updateMatrixWorld (Some m) o = o ->
  Quaternion.lengthSq (getWorldQuaternion o) = 1 ->
  setFromObject o <> None ->
  cached = None \/ cached = Some (localBBoxOffset o) ->
  bboxCenter (fst (onCoordInputChange (Some m) cached o (Some x) (Some y) (Some z)))
  = vec3 x y z.
Proof.
  intros Hm Hdet Hfresh Hq Hbox Hcache.
  unfold onCoordInputChange. cbn [fst].
  assert (Hoff : match cached with
                 | Some off => off
                 | None => localBBoxOffset o
                 end = localBBoxOffset o) by (destruct Hcache as [-> | ->]; reflexivity).
  rewrite Hoff. clear Hoff Hcache cached.
  rewrite (moved_node_is_shifted m o _ Hm Hfresh).
  unfold bboxCenter. rewrite setFromObject_setPosition.
  rewrite setFromObject_shift by (eapply fresh_allAffine; eassumption).
  rewrite getCenter_shift by (auto using setFromObject_ordered).
  unfold localBBoxOffset. rewrite (applyQuaternion_invert _ _ Hq).
  (* the pivot lands where it was asked to *)
  assert (Hpivot : forall w, Vector3.add (applyMatrix4 (position o) m)
                      (linearPart m (Vector3.sub (applyMatrix4 w (Matrix4.invert m))
                                                 (position o))) = w).
  { intros w. rewrite <- (applyMatrix4_invert w m Hm Hdet) at 2.
    generalize (applyMatrix4 w (Matrix4.invert m)). intros u.
    destruct m, u, (position o).
    unfold affine in Hm. simpl in Hm. destruct Hm as (-> & -> & -> & ->).
    unfold applyMatrix4, linearPart, Vector3.add, Vector3.sub; simpl.
    f_equal; field. }
  rewrite (fresh_world_position m o Hm Hfresh).
  set (c := Box3.getCenter (setFromObject o)).
  set (wp := applyMatrix4 (position o) m) in *.
  match goal with
  | |- Vector3.add c (linearPart m (Vector3.sub (applyMatrix4 ?w _) _)) = _ =>
      specialize (Hpivot w); set (d := linearPart m (Vector3.sub (applyMatrix4 w _) _)) in *
  end.
  destruct c, wp, d.
  unfold Vector3.add, Vector3.sub in *; simpl in *.
  injection Hpivot as H1 H2 H3. f_equal; lra.
Qed.

Lemma determinant_identity : Matrix4.determinant Matrix4.identity <> 0.
Proof. unfold Matrix4.determinant, Matrix4.identity; simpl. lra. Qed.

(** The example node: its world matrix and its world orientation. *)
Lemma movedPanel_matrixWorld :
  matrixWorld movedPanel = Matrix4.mk (-1) 0 0 0  0 (-1) 0 0  0 0 1 0  1 (-2) 3 1.
Proof.
  unfold movedPanel, halfTurnParent.
  cbn [updateMatrixWorld matrixWorld position quaternion scale].
  unfold Matrix4.multiplyMatrices, Matrix4.compose; simpl. f_equal; ring.
Qed.

Lemma movedPanel_worldQuaternion : getWorldQuaternion movedPanel = Quaternion.mk 0 0 1 0.
Proof.
  unfold getWorldQuaternion. rewrite movedPanel_matrixWorld.
  unfold decompose.
  cbn [Matrix4.e0 Matrix4.e1 Matrix4.e2 Matrix4.e3 Matrix4.e4 Matrix4.e5 Matrix4.e6
       Matrix4.e7 Matrix4.e8 Matrix4.e9 Matrix4.e10 Matrix4.e11 Matrix4.e12 Matrix4.e13
       Matrix4.e14 Matrix4.e15 d_quaternion].
  rewrite (length_of_square (vec3 (-1) 0 0) 1)
    by (try lra; unfold Vector3.lengthSq; simpl; ring).
  rewrite (length_of_square (vec3 0 (-1) 0) 1)
    by (try lra; unfold Vector3.lengthSq; simpl; ring).
  rewrite (length_of_square (vec3 0 0 1) 1)
    by (try lra; unfold Vector3.lengthSq; simpl; ring).
  replace (Rltb (Matrix4.determinant _) 0) with false.
  2:{ symmetry. apply Rltb_false. unfold Matrix4.determinant; simpl. lra. }
  unfold setFromRotationMatrix.
  cbn [Matrix4.e0 Matrix4.e1 Matrix4.e2 Matrix4.e4 Matrix4.e5 Matrix4.e6
       Matrix4.e8 Matrix4.e9 Matrix4.e10].
  rewrite (proj2 (Rgtb_false (-1 * (1 / 1) + -1 * (1 / 1) + 1 * (1 / 1)) 0)) by lra.
  rewrite (proj2 (Rgtb_false (-1 * (1 / 1)) (-1 * (1 / 1)))) by lra.
  rewrite (proj2 (Rgtb_false (-1 * (1 / 1)) (1 * (1 / 1)))) by lra.
  cbn [andb].
  replace (1.0 + 1 * (1 / 1) - -1 * (1 / 1) - -1 * (1 / 1)) with (2 * 2) by lra.
  rewrite sqrt_square by lra.
  f_equal; lra.
Qed.

(** *** The round trip in binary64 arithmetic

    The three example nodes of [B64], evaluated. *)
Section Binary64RoundTrip.
Import PrimFloat.
Local Open Scope float_scope.
Set Warnings "-inexact-float".

(** The pivot of [centredBox] is the centre of its box: the stored offset is
    zero, and the parent is neither moved nor rotated.  Even so 0.1 comes
    back as 0.09999999999999998: the vertices -0.5 and 0.5 are moved to -0.4
    and 0.6, whose sum rounds to 0.19999999999999996. *)
Lemma centredBox_offset : B64.localBBoxOffset B64.centredBox = B64.Vector3.zero.
Proof. vm_compute. reflexivity. Qed.

Lemma centredBox_worldQuaternion :
  B64.getWorldQuaternion B64.centredBox = B64.Quaternion.identity.
Proof. vm_compute. reflexivity. Qed.

Lemma centredBox_readBack :
  B64.readBack (Some B64.Matrix4.identity) None B64.centredBox B64.nearPoint
  = B64.Vector3.mk 0.09999999999999998 0.19999999999999998 0.30000000000000004.
Proof. vm_compute. reflexivity. Qed.

(** On [cornerBox], 20000000000000.01 (the binary64 number
    20000000000000.01171875) comes back as 20000000000000.015625: off by
    0.00390625, one unit in the last place at that size. *)
Lemma cornerBox_readBack :
  B64.readBack (Some B64.Matrix4.identity) None B64.cornerBox B64.farPoint
  = B64.Vector3.mk 20000000000000.015625 0.19999999999999998 0.30000000000000004.
Proof. vm_compute. reflexivity. Qed.

Lemma cornerBox_beyond_tolerance :
  B64.within B64.tolerance
    (B64.readBack (Some B64.Matrix4.identity) None B64.cornerBox B64.farPoint)
    B64.farPoint = false.
Proof. vm_compute. reflexivity. Qed.

(** At the size of the viewer's models the error is far below the tolerance,
    also under a rotated parent: on [tiltedBox] the point (5, 6, 7) comes
    back within 1e-3. *)
Lemma tiltedBox_within_tolerance :
  B64.within B64.tolerance
    (B64.readBack (Some B64.quarterTurnParent) None B64.tiltedBox B64.midPoint)
    B64.midPoint = true.
Proof. vm_compute. reflexivity. Qed.

End Binary64RoundTrip.




(** ** Polygon area *)

Lemma shoelaceSum_3 (p q r : Vector2.t) :
  shoelaceSum [p; q; r] = shoelaceTerm p q + shoelaceTerm q r + shoelaceTerm r p.
Proof. unfold shoelaceSum. simpl. ring. Qed.

Lemma Rabs_scaled (a l : R) : 0 < l -> Rabs (a * (1 / l)) = Rabs a / l.
Proof.
  intros Hl. unfold Rdiv. rewrite Rabs_mult, Rmult_1_l.
  rewrite (Rabs_pos_eq (/ l)); [reflexivity|].
  left. now apply Rinv_0_lt_compat.
Qed.

(** The area [calculatePolygonArea] answers for three points that are not
    collinear is half the length of the cross product of two edges. *)
Lemma calculatePolygonArea_triangle (X Y Z : Vector3.t) :
  0 < Vector3.lengthSq (Vector3.cross (Vector3.sub Y X) (Vector3.sub Z X)) ->
  calculatePolygonArea [X; Y; Z] = triangleArea X Y Z.
Proof.
  intros Hpos. unfold calculatePolygonArea, triangleArea.
  unfold Vector3.subVectors, Vector3.cross in *.
  set (N := Vector3.crossVectors (Vector3.sub Y X) (Vector3.sub Z X)) in *.
  assert (HL : 0 < Vector3.length N) by (unfold Vector3.length; now apply sqrt_lt_R0).
  set (L := Vector3.length N) in *.
  assert (HLL : L * L = Vector3.lengthSq N)
    by (unfold L, Vector3.length; apply sqrt_sqrt; lra).
  unfold Vector3.normalize. fold L.
  destruct (Req_dec_T L 0) as [E|_]; [lra|].
  unfold Vector3.divideScalar, Vector3.multiplyScalar.
  cbn [Vector3.x Vector3.y Vector3.z map].
  rewrite !Rabs_scaled by exact HL.
  assert (Sx : shoelaceTerm (Vector2.mk (Vector3.y X) (Vector3.z X))
                            (Vector2.mk (Vector3.y Y) (Vector3.z Y))
               + shoelaceTerm (Vector2.mk (Vector3.y Y) (Vector3.z Y))
                              (Vector2.mk (Vector3.y Z) (Vector3.z Z))
               + shoelaceTerm (Vector2.mk (Vector3.y Z) (Vector3.z Z))
                              (Vector2.mk (Vector3.y X) (Vector3.z X))
               = Vector3.x N).
  { unfold shoelaceTerm, N, Vector3.crossVectors, Vector3.sub; simpl. ring. }
  assert (Sy : shoelaceTerm (Vector2.mk (Vector3.x X) (Vector3.z X))
                            (Vector2.mk (Vector3.x Y) (Vector3.z Y))
               + shoelaceTerm (Vector2.mk (Vector3.x Y) (Vector3.z Y))
                              (Vector2.mk (Vector3.x Z) (Vector3.z Z))
               + shoelaceTerm (Vector2.mk (Vector3.x Z) (Vector3.z Z))
                              (Vector2.mk (Vector3.x X) (Vector3.z X))
               = - Vector3.y N).
  { unfold shoelaceTerm, N, Vector3.crossVectors, Vector3.sub; simpl. ring. }
  assert (Sz : shoelaceTerm (Vector2.mk (Vector3.x X) (Vector3.y X))
                            (Vector2.mk (Vector3.x Y) (Vector3.y Y))
               + shoelaceTerm (Vector2.mk (Vector3.x Y) (Vector3.y Y))
                              (Vector2.mk (Vector3.x Z) (Vector3.y Z))
               + shoelaceTerm (Vector2.mk (Vector3.x Z) (Vector3.y Z))
                              (Vector2.mk (Vector3.x X) (Vector3.y X))
               = Vector3.z N).
  { unfold shoelaceTerm, N, Vector3.crossVectors, Vector3.sub; simpl. ring. }
  pose proof (Rabs_pos (Vector3.x N)) as Hax.
  pose proof (Rabs_pos (Vector3.y N)) as Hay.
  pose proof (Rabs_pos (Vector3.z N)) as Haz.
  assert (Hsq : Vector3.lengthSq N
                = Rabs (Vector3.x N) * Rabs (Vector3.x N)
                  + Rabs (Vector3.y N) * Rabs (Vector3.y N)
                  + Rabs (Vector3.z N) * Rabs (Vector3.z N)).
  { unfold Vector3.lengthSq. rewrite <- !Rabs_mult.
    rewrite !Rabs_pos_eq by nra. reflexivity. }
  set (ax := Rabs (Vector3.x N)) in *.
  set (ay := Rabs (Vector3.y N)) in *.
  set (az := Rabs (Vector3.z N)) in *.
  assert (Hdiv : forall a b : R, a / L >= b / L <-> a >= b).
  { intros a b. unfold Rdiv.
    assert (0 < / L) by now apply Rinv_0_lt_compat. split; intros; nra. }
  assert (Hdom : forall a b c : R,
             Vector3.lengthSq N = a * a + b * b + c * c ->
             0 <= a -> 0 <= b -> 0 <= c -> a >= b -> a >= c -> 0 < a).
  { intros a b c Hs Ha Hb Hc Hab Hac.
    destruct (Rlt_le_dec 0 a) as [?|Hle]; [assumption|].
    assert (a = 0) by lra. assert (b = 0) by lra. assert (c = 0) by lra.
    subst a b c. rewrite Hs in Hpos. lra. }
  assert (Hfinal : forall a : R, 0 < a -> a / 2 * (1.0 / (a / L)) = L / 2).
  { intros a Ha. replace 1.0 with 1 by lra. field. lra. }
  destruct (Rgeb (ax / L) (ay / L) && Rgeb (ax / L) (az / L)) eqn:Bx.
  - apply andb_true_iff in Bx as [B1 B2].
    apply Rgeb_true, (proj1 (Hdiv _ _)) in B1. apply Rgeb_true, (proj1 (Hdiv _ _)) in B2.
    assert (0 < ax) by (apply (Hdom ax ay az); try assumption).
    replace (Reqb (ax / L) 0) with false.
    2:{ symmetry. apply not_true_iff_false. rewrite Reqb_true.
        intros K. apply Rmult_eq_compat_r with (r := L) in K.
        unfold Rdiv in K. rewrite Rmult_assoc, Rinv_l in K; lra. }
    cbn [map]. rewrite shoelaceSum_3, Sx. fold ax. now apply Hfinal.
  - destruct (Rgeb (ay / L) (ax / L) && Rgeb (ay / L) (az / L)) eqn:By.
    + apply andb_true_iff in By as [B1 B2].
      apply Rgeb_true, (proj1 (Hdiv _ _)) in B1. apply Rgeb_true, (proj1 (Hdiv _ _)) in B2.
      assert (0 < ay) by (apply (Hdom ay ax az); try assumption; rewrite Hsq; ring).
      replace (Reqb (ay / L) 0) with false.
      2:{ symmetry. apply not_true_iff_false. rewrite Reqb_true.
          intros K. apply Rmult_eq_compat_r with (r := L) in K.
          unfold Rdiv in K. rewrite Rmult_assoc, Rinv_l in K; lra. }
      cbn [map]. rewrite shoelaceSum_3, Sy, Rabs_Ropp. fold ay. now apply Hfinal.
    + assert (0 < az).
      { apply andb_false_iff in Bx. apply andb_false_iff in By.
        rewrite !Rgeb_false in Bx, By.
        assert (Hd : forall a b : R, a / L < b / L -> a < b).
        { intros a b. unfold Rdiv.
          assert (0 < / L) by now apply Rinv_0_lt_compat. intros; nra. }
        apply (Hdom az ax ay); try assumption; [rewrite Hsq; ring | |];
          destruct Bx as [Bx|Bx]; apply Hd in Bx;
          destruct By as [By|By]; apply Hd in By; lra. }
      replace (Reqb (az / L) 0) with false.
      2:{ symmetry. apply not_true_iff_false. rewrite Reqb_true.
          intros K. apply Rmult_eq_compat_r with (r := L) in K.
          unfold Rdiv in K. rewrite Rmult_assoc, Rinv_l in K; lra. }
      cbn [map]. rewrite shoelaceSum_3, Sz. fold az. now apply Hfinal.
Qed.

Lemma lengthSq_cross_rotate (X Y Z : Vector3.t) :
  Vector3.lengthSq (Vector3.cross (Vector3.sub Z Y) (Vector3.sub X Y))
  = Vector3.lengthSq (Vector3.cross (Vector3.sub Y X) (Vector3.sub Z X)).
Proof.
  destruct X, Y, Z.
  unfold Vector3.lengthSq, Vector3.cross, Vector3.crossVectors, Vector3.sub; simpl. ring.
Qed.

Lemma lengthSq_cross_swap (X Y Z : Vector3.t) :
  Vector3.lengthSq (Vector3.cross (Vector3.sub Z X) (Vector3.sub Y X))
  = Vector3.lengthSq (Vector3.cross (Vector3.sub Y X) (Vector3.sub Z X)).
Proof.
  destruct X, Y, Z.
  unfold Vector3.lengthSq, Vector3.cross, Vector3.crossVectors, Vector3.sub; simpl. ring.
Qed.

Lemma triangleArea_rotate (X Y Z : Vector3.t) : triangleArea Y Z X = triangleArea X Y Z.
Proof. unfold triangleArea, Vector3.length. now rewrite lengthSq_cross_rotate. Qed.

Lemma triangleArea_swap (X Y Z : Vector3.t) : triangleArea X Z Y = triangleArea X Y Z.
Proof. unfold triangleArea, Vector3.length. now rewrite lengthSq_cross_swap. Qed.

Lemma triangleArea_pos (X Y Z : Vector3.t) :
  0 < Vector3.lengthSq (Vector3.cross (Vector3.sub Y X) (Vector3.sub Z X)) ->
  0 < triangleArea X Y Z.
Proof.
  intros H. unfold triangleArea, Vector3.length.
  assert (0 < sqrt (Vector3.lengthSq (Vector3.cross (Vector3.sub Y X) (Vector3.sub Z X))))
    by now apply sqrt_lt_R0.
  lra.
Qed.

Lemma sortByKey_perm {A : Type} (key : A -> R) (l : list A) :
  Permutation (sortByKey key l) l.
Proof.
  induction l as [|a l IH]; [reflexivity|].
  unfold sortByKey in *. cbn [fold_right].
  set (s := fold_right (insertByKey key) [] l) in *.
  transitivity (a :: s); [|now constructor].
  clearbody s. clear IH.
  induction s as [|b s IHs]; simpl; [reflexivity|].
  destruct (Rltb (key b) (key a)); [|reflexivity].
  rewrite IHs. apply perm_swap.
Qed.

(** The six orders of the vertices of a triangle give the same area. *)
Lemma calculatePolygonArea_orders (A B C : Vector3.t) :
  0 < Vector3.lengthSq (Vector3.cross (Vector3.sub B A) (Vector3.sub C A)) ->
  calculatePolygonArea [A; B; C] = triangleArea A B C
  /\ calculatePolygonArea [B; C; A] = triangleArea A B C
  /\ calculatePolygonArea [C; A; B] = triangleArea A B C
  /\ calculatePolygonArea [A; C; B] = triangleArea A B C
  /\ calculatePolygonArea [C; B; A] = triangleArea A B C
  /\ calculatePolygonArea [B; A; C] = triangleArea A B C.
Proof.
  intros Hpos.
  assert (H1 : 0 < Vector3.lengthSq (Vector3.cross (Vector3.sub C B) (Vector3.sub A B)))
    by now rewrite lengthSq_cross_rotate.
  assert (H2 : 0 < Vector3.lengthSq (Vector3.cross (Vector3.sub A C) (Vector3.sub B C)))
    by now rewrite lengthSq_cross_rotate.
  assert (H3 : 0 < Vector3.lengthSq (Vector3.cross (Vector3.sub C A) (Vector3.sub B A)))
    by now rewrite lengthSq_cross_swap.
  assert (H4 : 0 < Vector3.lengthSq (Vector3.cross (Vector3.sub B C) (Vector3.sub A C)))
    by now rewrite lengthSq_cross_swap.
  assert (H5 : 0 < Vector3.lengthSq (Vector3.cross (Vector3.sub A B) (Vector3.sub C B)))
    by now rewrite lengthSq_cross_swap.
  rewrite !calculatePolygonArea_triangle by assumption.
  assert (E1 : triangleArea B C A = triangleArea A B C) by apply triangleArea_rotate.
  assert (E2 : triangleArea C A B = triangleArea A B C)
    by (rewrite triangleArea_rotate; exact E1).
  assert (E3 : triangleArea A C B = triangleArea A B C) by apply triangleArea_swap.
  assert (E4 : triangleArea C B A = triangleArea A B C)
    by (rewrite triangleArea_swap; exact E2).
  assert (E5 : triangleArea B A C = triangleArea A B C)
    by (rewrite triangleArea_swap; exact E1).
  auto 10.
Qed.

(** Whatever the angles, the three vertices of a triangle come out of the
    angular sort as a triangle of the same area. *)
Lemma area_of_sorted_triangle (key : Vector3.t -> R) (A B C : Vector3.t) :
  0 < Vector3.lengthSq (Vector3.cross (Vector3.sub B A) (Vector3.sub C A)) ->
  calculatePolygonArea (sortByKey key [A; B; C]) = triangleArea A B C.
Proof.
  intros Hpos.
  destruct (calculatePolygonArea_orders A B C Hpos) as (O1 & O2 & O3 & O4 & O5 & O6).
  unfold sortByKey. cbn [fold_right insertByKey].
  destruct (Rltb (key C) (key B)); cbn [insertByKey].
  - destruct (Rltb (key C) (key A)); cbn [insertByKey].
    + destruct (Rltb (key B) (key A)); assumption.
    + assumption.
  - destruct (Rltb (key B) (key A)); cbn [insertByKey].
    + destruct (Rltb (key C) (key A)); assumption.
    + assumption.
Qed.

(** ** The face merger on a mesh of one triangle *)

Lemma groupTriangles_single (t : option Triangle) : groupTriangles [t] = [[0%nat]].
Proof.
  unfold groupTriangles. cbn [List.length seq outerLoop].
  destruct (decide (0%nat ∈ (∅ : gset nat))) as [Hin|_]; [set_solver|].
  reflexivity.
Qed.

Lemma uniqueVerticesOf_single (A B C n : Vector3.t) :
  vertexKey A <> vertexKey B -> vertexKey A <> vertexKey C ->
  vertexKey B <> vertexKey C ->
  uniqueVerticesOf [mkTriangle [A; B; C] n] = [A; B; C].
Proof.
  intros Hab Hac Hbc. unfold uniqueVerticesOf.
  cbn [flat_map vertices app fold_left mapSet].
  rewrite (proj2 (String.eqb_neq _ _) Hab). cbn [mapSet].
  rewrite (proj2 (String.eqb_neq _ _) Hac). cbn [mapSet].
  rewrite (proj2 (String.eqb_neq _ _) Hbc). reflexivity.
Qed.

Lemma getFacesWithAreas_single_triangle (o : Object3D) (a b c : Vector3.t) :
  isMesh o = true ->
  geometry o = Some (mkGeometry (Some [a; b; c]) None) ->
  let A := applyMatrix4 a (matrixWorld o) in
  let B := applyMatrix4 b (matrixWorld o) in
  let C := applyMatrix4 c (matrixWorld o) in
  0 < Vector3.lengthSq (Vector3.cross (Vector3.sub B A) (Vector3.sub C A)) ->
  vertexKey A <> vertexKey B -> vertexKey A <> vertexKey C ->
  vertexKey B <> vertexKey C ->
  getFacesWithAreas (Some o)
  = [mkFace (orderVertices (getNormal A B C) [A; B; C]) (getNormal A B C)
            (triangleArea A B C)].
Proof.
  intros Hm Hg A B C Hpos Hab Hac Hbc.
  unfold getFacesWithAreas. rewrite Hm, Hg.
  cbn [negb positionAttribute indexAttribute].
  assert (Ht : buildTriangles o [a; b; c] None
               = [Some (mkTriangle [A; B; C] (getNormal A B C))]) by reflexivity.
  rewrite Ht, groupTriangles_single.
  cbn [omap list_omap faceOfGroup nth normal].
  rewrite (uniqueVerticesOf_single A B C _ Hab Hac Hbc).
  assert (Harea : calculatePolygonArea (orderVertices (getNormal A B C) [A; B; C])
                  = triangleArea A B C).
  { unfold orderVertices. cbn [List.length Nat.ltb Nat.leb].
    now apply area_of_sorted_triangle. }
  rewrite Harea.
  rewrite (proj2 (Rgtb_true _ _)) by (apply Rlt_gt; now apply triangleArea_pos).
  reflexivity.
Qed.

Lemma orderVertices_perm (n : Vector3.t) (vs : list Vector3.t) :
  Permutation (orderVertices n vs) vs.
Proof.
  unfold orderVertices. destruct (2 <? List.length vs)%nat; [|reflexivity].
  apply sortByKey_perm.
Qed.

(** ** The face merger on a square cut into a fan of four triangles *)

Lemma getNormal_known (a b c : Vector3.t) (l : R) :
  0 < l ->
  Vector3.lengthSq (Vector3.cross (Vector3.subVectors c b) (Vector3.subVectors a b)) = l * l ->
  getNormal a b c
  = Vector3.multiplyScalar
      (Vector3.cross (Vector3.subVectors c b) (Vector3.subVectors a b)) (1 / l).
Proof.
  intros Hl H. unfold getNormal. rewrite H.
  rewrite (proj2 (Rgtb_true _ _)) by nra.
  now rewrite sqrt_square by lra.
Qed.

Lemma fan_normals :
  getNormal fanO fanC1 fanC2 = vec3 0 0 1 /\ getNormal fanO fanC2 fanC3 = vec3 0 0 1
  /\ getNormal fanO fanC3 fanC4 = vec3 0 0 1 /\ getNormal fanO fanC4 fanC1 = vec3 0 0 1.
Proof.
  repeat split;
    (rewrite (getNormal_known _ _ _ 2);
     [ unfold Vector3.multiplyScalar, Vector3.cross, Vector3.crossVectors,
         Vector3.subVectors, Vector3.sub; simpl; f_equal; lra
     | lra
     | unfold Vector3.lengthSq, Vector3.cross, Vector3.crossVectors,
         Vector3.subVectors, Vector3.sub; simpl; lra ]).
Qed.

Lemma fan_buildTriangles : buildTriangles fanSquare fanPositions None = fanTriangles.
Proof.
  destruct fan_normals as (N0 & N1 & N2 & N3).
  unfold buildTriangles, fanPositions, strideStarts.
  cbn [List.length Nat.add Nat.div Nat.divmod fst seq map Nat.mul].
  unfold triangleAt.
  cbn [nth_error mbind option_bind option_map fanSquare matrixWorld Nat.add].
  rewrite !applyMatrix4_identity. cbn [mbind option_bind].
  rewrite N0, N1, N2, N3. reflexivity.
Qed.

Lemma fan_plane : setFromCoplanarPoints fanO fanC1 fanC2 = mkPlane (vec3 0 0 1) 0.
Proof.
  unfold setFromCoplanarPoints. rewrite (normalize_known _ 2).
  - unfold Vector3.multiplyScalar, Vector3.cross, Vector3.crossVectors,
      Vector3.subVectors, Vector3.sub, Vector3.dot; simpl. f_equal; [f_equal|]; lra.
  - lra.
  - unfold Vector3.lengthSq, Vector3.cross, Vector3.crossVectors,
      Vector3.subVectors, Vector3.sub; simpl. lra.
Qed.

(** A triangle of the plane z = 0 with normal (0, 0, 1) joins the first one. *)
Lemma fan_joins (a b c : Vector3.t) :
  Vector3.z a = 0 -> Vector3.z b = 0 -> Vector3.z c = 0 ->
  joinsFace (fanTriangle fanO fanC1 fanC2) (fanTriangle a b c) = true.
Proof.
  intros Ha Hb Hc. unfold joinsFace, fanTriangle. cbn [vertices normal].
  rewrite fan_plane. apply andb_true_iff. split.
  - apply Rgtb_true. unfold Vector3.dot, coplanarTolerance; simpl. lra.
  - cbn [forallb]. unfold distanceToPoint, Vector3.dot, coplanarTolerance.
    cbn [plane_normal plane_constant Vector3.x Vector3.y Vector3.z].
    rewrite Ha, Hb, Hc.
    replace (0 * Vector3.x a + 0 * Vector3.y a + 1 * 0 + 0) with 0 by ring.
    replace (0 * Vector3.x b + 0 * Vector3.y b + 1 * 0 + 0) with 0 by ring.
    replace (0 * Vector3.x c + 0 * Vector3.y c + 1 * 0 + 0) with 0 by ring.
    rewrite Rabs_R0. rewrite (proj2 (Rgtb_false 0 0.01)) by lra. reflexivity.
Qed.

(** When every later triangle joins the first, the grouping makes one group. *)
Lemma innerLoop_all_join (triangles : list (option Triangle)) (cur : option Triangle)
    (js : list nat) :
  NoDup js ->
  forall (face : list nat) (used : gset nat),
    (forall j, j ∈ js -> j ∉ used /\ joinsFace cur (nth j triangles None) = true) ->
    innerLoop triangles cur js face used = (face ++ js, list_to_set js ∪ used).
Proof.
  induction js as [|j js IH]; intros Hnd face used Hall; simpl.
  - rewrite app_nil_r, union_empty_l_L. reflexivity.
  - apply NoDup_cons in Hnd as [Hj Hnd].
    destruct (Hall j ltac:(left)) as [Hnin Hjoin].
    destruct (decide (j ∈ used)) as [?|_]; [contradiction|].
    rewrite Hjoin, IH; [| exact Hnd |].
    + rewrite <- app_assoc. simpl. f_equal. set_solver.
    + intros j' Hj'. destruct (Hall j' ltac:(now right)) as [? ?].
      split; [|assumption]. rewrite not_elem_of_union, not_elem_of_singleton.
      split; [|assumption]. intros ->. contradiction.
Qed.

Lemma outerLoop_all_used (triangles : list (option Triangle)) (idxs : list nat)
    (used : gset nat) :
  (forall i, i ∈ idxs -> i ∈ used) -> outerLoop triangles idxs used = [].
Proof.
  induction idxs as [|i idxs IH]; intros Hall; simpl; [reflexivity|].
  destruct (decide (i ∈ used)) as [_|Hn]; [|exfalso; apply Hn, Hall; left].
  apply IH. intros j Hj. apply Hall. now right.
Qed.

Lemma groupTriangles_one_group (triangles : list (option Triangle)) (n : nat) :
  List.length triangles = S n ->
  (forall j, (0 < j < S n)%nat ->
             joinsFace (nth 0%nat triangles None) (nth j triangles None) = true) ->
  groupTriangles triangles = [seq 0 (S n)].
Proof.
  intros Hlen Hall. unfold groupTriangles. rewrite Hlen.
  cbn [seq outerLoop].
  destruct (decide (0%nat ∈ (∅ : gset nat))) as [Hin|_]; [set_solver|].
  rewrite ?Hlen.
  replace (S n - 1)%nat with n by lia.
  rewrite (innerLoop_all_join triangles _ (seq 1 n) (NoDup_seq _ _)).
  - rewrite outerLoop_all_used; [reflexivity|].
    intros i Hi. rewrite elem_of_union, elem_of_list_to_set. now left.
  - intros j Hj. apply elem_of_seq in Hj. split; [|apply Hall; lia].
    rewrite not_elem_of_union, not_elem_of_singleton. split; [lia|set_solver].
Qed.

Lemma fan_groups : groupTriangles fanTriangles = [[0; 1; 2; 3]%nat].
Proof.
  rewrite (groupTriangles_one_group fanTriangles 3); [reflexivity | reflexivity |].
  intros j Hj.
  assert (Hcases : j = 1%nat \/ j = 2%nat \/ j = 3%nat) by lia.
  destruct Hcases as [-> | [-> | ->]]; cbn [nth fanTriangles];
    apply fan_joins; reflexivity.
Qed.

(** [toFixed] on a whole number. *)
Lemma toFixed_IZR (z : Z) (d : nat) :
  toFixed (IZR z) d
  = (if (z <? 0)%Z then "-" else "")
    +:+ pointBeforeLast (Z.to_nat (Z.abs z * 10 ^ Z.of_nat d)) d.
Proof.
  unfold toFixed.
  assert (Hpow : 10 ^ d = IZR (10 ^ Z.of_nat d)) by (now rewrite <- pow_IZR).
  destruct (Z.ltb_spec z 0) as [Hneg|Hpos].
  - rewrite (proj2 (Rltb_true _ _)) by (now apply IZR_lt).
    do 3 f_equal. rewrite Hpow, <- opp_IZR, <- mult_IZR.
    replace (- z * 10 ^ Z.of_nat d)%Z with (Z.abs z * 10 ^ Z.of_nat d)%Z by lia.
    apply Math_floor_eq. lra.
  - rewrite (proj2 (Rltb_false _ _)) by (now apply IZR_le).
    do 3 f_equal. rewrite Hpow, <- mult_IZR.
    replace (z * 10 ^ Z.of_nat d)%Z with (Z.abs z * 10 ^ Z.of_nat d)%Z by lia.
    apply Math_floor_eq. lra.
Qed.

Lemma vertexKey_IZR (a b c : Z) :
  vertexKey (vec3 (IZR a) (IZR b) (IZR c))
  = ((if (a <? 0)%Z then "-" else "")
     +:+ pointBeforeLast (Z.to_nat (Z.abs a * 10 ^ Z.of_nat 4)) 4)
    +:+ "," +:+
    ((if (b <? 0)%Z then "-" else "")
     +:+ pointBeforeLast (Z.to_nat (Z.abs b * 10 ^ Z.of_nat 4)) 4)
    +:+ "," +:+
    ((if (c <? 0)%Z then "-" else "")
     +:+ pointBeforeLast (Z.to_nat (Z.abs c * 10 ^ Z.of_nat 4)) 4).
Proof. unfold vertexKey. cbn [Vector3.x Vector3.y Vector3.z]. now rewrite !toFixed_IZR. Qed.

Lemma fan_keys :
  vertexKey fanO = "0.0000,0.0000,0.0000"
  /\ vertexKey fanC1 = "1.0000,1.0000,0.0000"
  /\ vertexKey fanC2 = "-1.0000,1.0000,0.0000"
  /\ vertexKey fanC3 = "-1.0000,-1.0000,0.0000"
  /\ vertexKey fanC4 = "1.0000,-1.0000,0.0000".
Proof.
  unfold fanO, fanC1, fanC2, fanC3, fanC4.
  rewrite !vertexKey_IZR. repeat split; vm_compute; reflexivity.
Qed.

Lemma fan_uniqueVertices :
  uniqueVerticesOf
    [mkTriangle [fanO; fanC1; fanC2] (vec3 0 0 1); mkTriangle [fanO; fanC2; fanC3] (vec3 0 0 1);
     mkTriangle [fanO; fanC3; fanC4] (vec3 0 0 1); mkTriangle [fanO; fanC4; fanC1] (vec3 0 0 1)]
  = [fanO; fanC1; fanC2; fanC3; fanC4].
Proof.
  destruct fan_keys as (K0 & K1 & K2 & K3 & K4).
  unfold uniqueVerticesOf. cbn [flat_map vertices app fold_left].
  rewrite K0, K1, K2, K3, K4.
  generalize fanO fanC1 fanC2 fanC3 fanC4. intros o c1 c2 c3 c4.
  vm_compute. reflexivity.
Qed.

Lemma fan_centroid : centroidOf [fanO; fanC1; fanC2; fanC3; fanC4] = vec3 0 0 0.
Proof.
  unfold centroidOf, Vector3.divideScalar, Vector3.multiplyScalar.
  cbn [fold_left]. unfold Vector3.add, Vector3.zero, fanO, fanC1, fanC2, fanC3, fanC4.
  cbn [Vector3.x Vector3.y Vector3.z].
  f_equal; apply Rmult_eq_0_compat_r; lra.
Qed.

(** Around the origin, in the plane z = 0, the angle of a vertex is that of
    its x and y coordinates. *)
Lemma vertexAngle_flat (v : Vector3.t) :
  vertexAngle (vec3 0 0 1) (vec3 0 0 0) v = Math_atan2 (Vector3.y v) (Vector3.x v).
Proof.
  unfold vertexAngle. cbn [Vector3.x Vector3.y].
  rewrite Rabs_R0, (proj2 (Rltb_true 0 0.9)) by lra. cbn [andb].
  assert (Ex : Vector3.projectOnPlane (vec3 1 0 0) (vec3 0 0 1) = vec3 1 0 0).
  { unfold Vector3.projectOnPlane, Vector3.projectOnVector.
    assert (E1 : Vector3.lengthSq (vec3 0 0 1) = 1)
      by (unfold Vector3.lengthSq; simpl; ring).
    rewrite E1. destruct (Req_dec_T 1 0); [lra|].
    unfold Vector3.sub, Vector3.multiplyScalar, Vector3.dot; simpl. f_equal; field. }
  rewrite Ex.
  assert (Nx : Vector3.normalize (vec3 1 0 0) = vec3 1 0 0).
  { rewrite (normalize_known _ 1); [| lra | unfold Vector3.lengthSq; simpl; ring].
    unfold Vector3.multiplyScalar; simpl. f_equal; field. }
  rewrite Nx.
  assert (Ny : Vector3.normalize (Vector3.crossVectors (vec3 0 0 1) (vec3 1 0 0))
               = vec3 0 1 0).
  { rewrite (normalize_known _ 1);
      [| lra | unfold Vector3.lengthSq, Vector3.crossVectors; simpl; ring].
    unfold Vector3.multiplyScalar, Vector3.crossVectors; simpl. f_equal; field. }
  rewrite Ny.
  destruct v as [vx vy vz]. unfold Vector3.dot, Vector3.subVectors, Vector3.sub; simpl.
  f_equal; ring.
Qed.

Lemma fan_angles :
  Math_atan2 0 0 = 0 /\ Math_atan2 1 1 = PI / 4 /\ Math_atan2 1 (-1) = 3 * PI / 4
  /\ Math_atan2 (-1) (-1) = - (3 * PI / 4) /\ Math_atan2 (-1) 1 = - (PI / 4).
Proof.
  assert (Hm : atan (-1) = - (PI / 4)).
  { replace (-1) with (- (1)) by lra. now rewrite atan_opp, atan_1. }
  unfold Math_atan2. repeat split.
  - rewrite !(proj2 (Rltb_false 0 0)) by lra. reflexivity.
  - rewrite (proj2 (Rltb_true 0 1)) by lra.
    replace (1 / 1) with 1 by lra. apply atan_1.
  - rewrite (proj2 (Rltb_false 0 (-1))), (proj2 (Rltb_true (-1) 0)),
      (proj2 (Rltb_false 1 0)) by lra.
    replace (1 / -1) with (-1) by lra. rewrite Hm. lra.
  - rewrite (proj2 (Rltb_false 0 (-1))), !(proj2 (Rltb_true (-1) 0)) by lra.
    replace (-1 / -1) with 1 by lra. rewrite atan_1. lra.
  - rewrite (proj2 (Rltb_true 0 1)) by lra.
    replace (-1 / 1) with (-1) by lra. exact Hm.
Qed.

(** The angular order puts the centre between two corners. *)
Lemma fan_order :
  orderVertices (vec3 0 0 1) [fanO; fanC1; fanC2; fanC3; fanC4]
  = [fanC3; fanC4; fanO; fanC1; fanC2].
Proof.
  destruct fan_angles as (A0 & A1 & A2 & A3 & A4).
  unfold orderVertices. cbn [List.length Nat.ltb Nat.leb].
  rewrite fan_centroid. unfold sortByKey. cbn [fold_right].
  assert (K0 : vertexAngle (vec3 0 0 1) (vec3 0 0 0) fanO = 0)
    by (rewrite vertexAngle_flat; exact A0).
  assert (K1 : vertexAngle (vec3 0 0 1) (vec3 0 0 0) fanC1 = PI / 4)
    by (rewrite vertexAngle_flat; exact A1).
  assert (K2 : vertexAngle (vec3 0 0 1) (vec3 0 0 0) fanC2 = 3 * PI / 4)
    by (rewrite vertexAngle_flat; exact A2).
  assert (K3 : vertexAngle (vec3 0 0 1) (vec3 0 0 0) fanC3 = - (3 * PI / 4))
    by (rewrite vertexAngle_flat; exact A3).
  assert (K4 : vertexAngle (vec3 0 0 1) (vec3 0 0 0) fanC4 = - (PI / 4))
    by (rewrite vertexAngle_flat; exact A4).
  pose proof PI_RGT_0 as Hpi.
  repeat (cbn [insertByKey]; rewrite ?K0, ?K1, ?K2, ?K3, ?K4;
          match goal with
          | |- context [Rltb ?a ?b] =>
              first [ rewrite (proj2 (Rltb_true a b)) by lra
                    | rewrite (proj2 (Rltb_false a b)) by lra ]
          end).
  reflexivity.
Qed.

Lemma fan_polygon_area :
  calculatePolygonArea [fanC3; fanC4; fanO; fanC1; fanC2] = 3.
Proof.
  unfold calculatePolygonArea.
  assert (N : Vector3.normalize
                (Vector3.crossVectors (Vector3.subVectors fanC4 fanC3)
                                      (Vector3.subVectors fanO fanC3)) = vec3 0 0 1).
  { rewrite (normalize_known _ 2).
    - unfold Vector3.multiplyScalar, Vector3.crossVectors, Vector3.subVectors,
        Vector3.sub; simpl. f_equal; lra.
    - lra.
    - unfold Vector3.lengthSq, Vector3.crossVectors, Vector3.subVectors,
        Vector3.sub; simpl. lra. }
  rewrite N. cbn [Vector3.x Vector3.y Vector3.z].
  rewrite Rabs_R0, Rabs_R1.
  rewrite (proj2 (Rgeb_false 0 1)) by lra.
  rewrite (proj2 (Rgeb_true 0 0)) by lra. cbn [andb].
  replace (Reqb 1 0) with false
    by (symmetry; apply not_true_iff_false; rewrite Reqb_true; lra).
  unfold shoelaceSum, shoelaceTerm, fanO, fanC1, fanC2, fanC3, fanC4. simpl.
  match goal with |- Rabs ?s / 2 * _ = _ => replace s with 6 by lra end.
  rewrite Rabs_pos_eq by lra. lra.
Qed.

Lemma fan_faces :
  getFacesWithAreas (Some fanSquare)
  = [mkFace [fanC3; fanC4; fanO; fanC1; fanC2] (vec3 0 0 1) 3].
Proof.
  unfold getFacesWithAreas.
  cbn [fanSquare isMesh negb geometry positionAttribute indexAttribute].
  change (mkObject3D 20 true false Vector3.zero Quaternion.identity (vec3 1 1 1)
            Matrix4.identity (Some (mkGeometry (Some fanPositions) None))
            standardMaterial true false []) with fanSquare.
  rewrite fan_buildTriangles, fan_groups.
  cbn [omap list_omap faceOfGroup nth fanTriangles fanTriangle normal].
  rewrite fan_uniqueVertices, fan_order, fan_polygon_area.
  rewrite (proj2 (Rgtb_true 3 0)) by lra.
  reflexivity.
Qed.

Lemma fan_triangle_areas : sumTriangleAreas fanPositions = 4.
Proof.
  assert (T : forall a b c : Vector3.t,
             Vector3.lengthSq (Vector3.cross (Vector3.sub b a) (Vector3.sub c a)) = 2 * 2 ->
             triangleArea a b c = 1).
  { intros a b c H. unfold triangleArea. rewrite (length_of_square _ 2); lra. }
  unfold fanPositions. cbn [sumTriangleAreas].
  rewrite !T; [lra | | | |];
    unfold Vector3.lengthSq, Vector3.cross, Vector3.crossVectors, Vector3.sub,
      fanO, fanC1, fanC2, fanC3, fanC4; simpl; lra.
Qed.


(** ** Angular order of the corners of a convex quadrilateral *)

(** [Math.atan2] answers an angle in (-PI, PI]. *)
Lemma Math_atan2_range (y x : R) : - PI < Math_atan2 y x <= PI.
Proof.
  pose proof PI_RGT_0 as Hpi.
  pose proof (atan_bound (y / x)) as [B1 B2].
  unfold Math_atan2.
  destruct (Rltb 0 x) eqn:E1; [lra|].
  destruct (Rltb x 0) eqn:E2.
  - apply Rltb_true in E2.
    destruct (Rltb y 0) eqn:E3.
    + apply Rltb_true in E3.
      assert (0 < y / x).
      { unfold Rdiv. replace (y * / x) with ((- y) * / (- x)) by (field; lra).
        apply Rmult_lt_0_compat; [lra|]. apply Rinv_0_lt_compat. lra. }
      pose proof (atan_increasing 0 (y / x) H) as K. rewrite atan_0 in K. lra.
    + apply Rltb_false in E3.
      assert (y / x <= 0).
      { unfold Rdiv. replace (y * / x) with (- (y * / (- x))) by (field; lra).
        assert (0 <= y * / (- x)); [|lra].
        apply Rmult_le_pos; [lra|]. left. apply Rinv_0_lt_compat. lra. }
      destruct H as [H|H].
      * pose proof (atan_increasing (y / x) 0 H) as K. rewrite atan_0 in K. lra.
      * rewrite H, atan_0. lra.
  - destruct (Rltb 0 y); [lra|]. destruct (Rltb y 0); lra.
Qed.

(** The angle from a vector to one that lies to its left (the cross product
    is positive) is between 0 and PI, the angles being taken modulo 2 PI. *)
Lemma Math_atan2_turn (x1 y1 x2 y2 : R) :
  0 < x1 * y2 - y1 * x2 ->
  Math_atan2 y1 x1 < Math_atan2 y2 x2 < Math_atan2 y1 x1 + PI
  \/ Math_atan2 y2 x2 < Math_atan2 y1 x1 - PI.
Proof.
  intros Hc.
  pose proof PI_RGT_0 as Hpi.
  pose proof (atan_bound (y1 / x1)) as [A1 A2].
  pose proof (atan_bound (y2 / x2)) as [B1 B2].
  assert (Hdiff : x1 <> 0 -> x2 <> 0 ->
                  y2 / x2 - y1 / x1 = (x1 * y2 - y1 * x2) / (x1 * x2))
    by (intros; field; split; assumption).
  assert (Hsame : 0 < x1 * x2 -> atan (y1 / x1) < atan (y2 / x2)).
  { intros Hp. apply atan_increasing.
    assert (x1 <> 0) by (intros ->; lra). assert (x2 <> 0) by (intros ->; lra).
    assert (0 < y2 / x2 - y1 / x1); [|lra].
    rewrite Hdiff by assumption. now apply Rdiv_lt_0_compat. }
  assert (Hopp : x1 * x2 < 0 -> atan (y2 / x2) < atan (y1 / x1)).
  { intros Hp. apply atan_increasing.
    assert (x1 <> 0) by (intros ->; lra). assert (x2 <> 0) by (intros ->; lra).
    assert (y2 / x2 - y1 / x1 < 0); [|lra].
    rewrite Hdiff by assumption.
    unfold Rdiv. replace ((x1 * y2 - y1 * x2) * / (x1 * x2))
      with (- ((x1 * y2 - y1 * x2) * / (- (x1 * x2)))) by (field; split; assumption).
    assert (0 < (x1 * y2 - y1 * x2) * / (- (x1 * x2))); [|lra].
    apply Rmult_lt_0_compat; [lra|]. apply Rinv_0_lt_compat. lra. }
  assert (Hpos : forall x y : R, 0 < x * y -> x <> 0 -> 0 < y / x).
  { intros x y H Hx. unfold Rdiv.
    replace (y * / x) with ((x * y) * / (x * x)) by (field; assumption).
    apply Rmult_lt_0_compat; [lra|]. apply Rinv_0_lt_compat. nra. }
  assert (Hneg : forall x y : R, x * y <= 0 -> x <> 0 -> y / x <= 0).
  { intros x y H Hx. unfold Rdiv.
    replace (y * / x) with (- ((- (x * y)) * / (x * x))) by (field; assumption).
    assert (0 <= (- (x * y)) * / (x * x)); [|lra].
    apply Rmult_le_pos; [lra|]. left. apply Rinv_0_lt_compat. nra. }
  assert (Hatp : forall t : R, 0 < t -> 0 < atan t).
  { intros t Ht. pose proof (atan_increasing 0 t Ht) as K. now rewrite atan_0 in K. }
  assert (Hatn : forall t : R, t <= 0 -> atan t <= 0).
  { intros t [Ht|Ht].
    - pose proof (atan_increasing t 0 Ht) as K. rewrite atan_0 in K. lra.
    - rewrite Ht, atan_0. lra. }
  unfold Math_atan2, Rltb.
  repeat match goal with
         | |- context [Rlt_dec ?a ?b] => destruct (Rlt_dec a b)
         end.
  all: try lra.
  all: try (assert (Hp : 0 < x1 * x2) by nra; specialize (Hsame Hp)).
  all: try (assert (Hn : x1 * x2 < 0) by nra; specialize (Hopp Hn)).
  all: try (assert (Q1 : 0 < atan (y1 / x1)) by (apply Hatp, Hpos; [nra | lra])).
  all: try (assert (Q2 : 0 < atan (y2 / x2)) by (apply Hatp, Hpos; [nra | lra])).
  all: try (assert (R1 : atan (y1 / x1) <= 0) by (apply Hatn, Hneg; [nra | lra])).
  all: try (assert (R2 : atan (y2 / x2) <= 0) by (apply Hatn, Hneg; [nra | lra])).
  all: try lra.
  all: try (exfalso; nra).
Qed.

(** Four angles in (-PI, PI], each to the left of the one before it, the
    first to the left of the last: sorting by angle keeps the cyclic order. *)
Lemma sortByKey_cyclic {A : Type} (key : A -> R) (a b c d : A) :
  (forall v, - PI < key v <= PI) ->
  (key a < key b < key a + PI \/ key b < key a - PI) ->
  (key b < key c < key b + PI \/ key c < key b - PI) ->
  (key c < key d < key c + PI \/ key d < key c - PI) ->
  (key d < key a < key d + PI \/ key a < key d - PI) ->
  sortByKey key [a; b; c; d] = [a; b; c; d]
  \/ sortByKey key [a; b; c; d] = [b; c; d; a]
  \/ sortByKey key [a; b; c; d] = [c; d; a; b]
  \/ sortByKey key [a; b; c; d] = [d; a; b; c].
Proof.
  intros Hr Hab Hbc Hcd Hda.
  pose proof PI_RGT_0 as Hpi.
  pose proof (Hr a) as Ra. pose proof (Hr b) as Rb.
  pose proof (Hr c) as Rc. pose proof (Hr d) as Rd.
  clear Hr.
  unfold sortByKey. cbn [fold_right insertByKey].
  unfold Rltb.
  repeat match goal with
         | |- context [Rlt_dec ?x ?y] =>
             destruct (Rlt_dec x y); cbn [insertByKey]; unfold Rltb
         end.
  all: try (left; reflexivity).
  all: try (right; left; reflexivity).
  all: try (right; right; left; reflexivity).
  all: try (right; right; right; reflexivity).
  all: exfalso; destruct Hab, Hbc, Hcd, Hda; lra.
Qed.

(** Equal keys: the sort keeps the order. *)
Lemma sortByKey_constant {A : Type} (key : A -> R) (l : list A) :
  (forall v, key v = 0) -> sortByKey key l = l.
Proof.
  intros H. unfold sortByKey. induction l as [|a l IH]; [reflexivity|].
  cbn [fold_right]. rewrite IH. destruct l as [|b l]; [reflexivity|].
  cbn [insertByKey]. rewrite !H. rewrite (proj2 (Rltb_false 0 0)) by lra. reflexivity.
Qed.

(** ** Planar quadrilaterals *)

Lemma cross_rotate (a b c : Vector3.t) :
  Vector3.cross (Vector3.subVectors c b) (Vector3.subVectors a b)
  = Vector3.cross (Vector3.sub b a) (Vector3.sub c a).
Proof.
  destruct a, b, c.
  unfold Vector3.cross, Vector3.crossVectors, Vector3.subVectors, Vector3.sub; simpl.
  f_equal; ring.
Qed.

(** The normal [getNormal] answers for a triangle that is not degenerate:
    a unit vector, along which the cross product of two edges lies. *)
Lemma getNormal_unit (a b c : Vector3.t) :
  0 < Vector3.lengthSq (Vector3.cross (Vector3.sub b a) (Vector3.sub c a)) ->
  Vector3.lengthSq (getNormal a b c) = 1
  /\ 0 < turn (getNormal a b c) a b c
  /\ Vector3.cross (Vector3.sub b a) (Vector3.sub c a)
     = Vector3.multiplyScalar (getNormal a b c) (turn (getNormal a b c) a b c)
  /\ Vector3.length (Vector3.cross (Vector3.sub b a) (Vector3.sub c a))
     = turn (getNormal a b c) a b c.
Proof.
  intros Hpos. unfold turn.
  set (C := Vector3.cross (Vector3.sub b a) (Vector3.sub c a)) in *.
  assert (HL : 0 < Vector3.length C) by (unfold Vector3.length; now apply sqrt_lt_R0).
  assert (HLL : Vector3.lengthSq C = Vector3.length C * Vector3.length C).
  { unfold Vector3.length. symmetry. apply sqrt_sqrt. lra. }
  rewrite (getNormal_known a b c (Vector3.length C) HL)
    by (rewrite cross_rotate; exact HLL).
  rewrite cross_rotate. fold C.
  revert HL HLL. generalize (Vector3.length C). intros L HL HLL.
  destruct C as [cx cy cz].
  unfold Vector3.lengthSq, Vector3.multiplyScalar, Vector3.dot in *.
  cbn [Vector3.x Vector3.y Vector3.z] in *.
  assert (E : cx * (1 / L) * cx + cy * (1 / L) * cy + cz * (1 / L) * cz = L).
  { replace (cx * (1 / L) * cx + cy * (1 / L) * cy + cz * (1 / L) * cz)
      with ((cx * cx + cy * cy + cz * cz) * (1 / L)) by ring.
    rewrite HLL. field. lra. }
  rewrite E. split; [|split; [exact HL | split; [|reflexivity]]].
  - replace (cx * (1 / L) * (cx * (1 / L)) + cy * (1 / L) * (cy * (1 / L))
             + cz * (1 / L) * (cz * (1 / L)))
      with ((cx * cx + cy * cy + cz * cz) * (1 / L * (1 / L))) by ring.
    rewrite HLL. field. lra.
  - f_equal; field; lra.
Qed.

(** The cross product of two vectors of a plane lies along the unit normal
    of the plane. *)
Lemma inplane_cross (n u w : Vector3.t) :
  Vector3.lengthSq n = 1 -> Vector3.dot n u = 0 -> Vector3.dot n w = 0 ->
  Vector3.cross u w = Vector3.multiplyScalar n (Vector3.dot n (Vector3.cross u w)).
Proof.
  destruct n as [n1 n2 n3], u as [u1 u2 u3], w as [w1 w2 w3].
  unfold Vector3.lengthSq, Vector3.dot, Vector3.cross, Vector3.crossVectors,
    Vector3.multiplyScalar.
  cbn [Vector3.x Vector3.y Vector3.z]. intros Hn Hu Hw.
  f_equal; nsatz.
Qed.

Lemma lengthSq_scaled (n : Vector3.t) (t : R) :
  Vector3.lengthSq n = 1 -> Vector3.lengthSq (Vector3.multiplyScalar n t) = t * t.
Proof.
  destruct n as [n1 n2 n3]. unfold Vector3.lengthSq, Vector3.multiplyScalar.
  cbn [Vector3.x Vector3.y Vector3.z]. intros Hn.
  replace (n1 * t * (n1 * t) + n2 * t * (n2 * t) + n3 * t * (n3 * t))
    with ((n1 * n1 + n2 * n2 + n3 * n3) * (t * t)) by ring.
  rewrite Hn. ring.
Qed.

Lemma scaled_back (n : Vector3.t) (t : R) :
  0 < t -> Vector3.multiplyScalar (Vector3.multiplyScalar n t) (1 / t) = n.
Proof.
  intros Ht. destruct n. unfold Vector3.multiplyScalar.
  cbn [Vector3.x Vector3.y Vector3.z]. f_equal; field; lra.
Qed.

(** A triangle of the plane that turns counter-clockwise around the unit
    normal [n] has [n] for normal, also as [normalize] computes it, and the
    length of the cross product of its edges is its turn. *)
Lemma normal_of_turn (n a b c : Vector3.t) :
  Vector3.lengthSq n = 1 ->
  Vector3.dot n (Vector3.sub b a) = 0 -> Vector3.dot n (Vector3.sub c a) = 0 ->
  0 < turn n a b c ->
  getNormal a b c = n
  /\ Vector3.normalize (Vector3.crossVectors (Vector3.subVectors b a) (Vector3.subVectors c a))
     = n
  /\ Vector3.cross (Vector3.sub b a) (Vector3.sub c a)
     = Vector3.multiplyScalar n (turn n a b c)
  /\ Vector3.length (Vector3.cross (Vector3.sub b a) (Vector3.sub c a)) = turn n a b c.
Proof.
  intros Hn Hb Hc Ht.
  pose proof (inplane_cross n _ _ Hn Hb Hc) as E. fold (turn n a b c) in E.
  assert (Hsq : Vector3.lengthSq (Vector3.cross (Vector3.sub b a) (Vector3.sub c a))
                = turn n a b c * turn n a b c)
    by (rewrite E at 1; now apply lengthSq_scaled).
  split; [|split; [|split; [exact E|]]].
  - rewrite (getNormal_known a b c (turn n a b c) Ht)
      by (rewrite cross_rotate; exact Hsq).
    rewrite cross_rotate, E. now apply scaled_back.
  - change (Vector3.crossVectors (Vector3.subVectors b a) (Vector3.subVectors c a))
      with (Vector3.cross (Vector3.sub b a) (Vector3.sub c a)).
    rewrite (normalize_known _ (turn n a b c) Ht Hsq), E. now apply scaled_back.
  - apply length_of_square; [lra | exact Hsq].
Qed.

(** The area [calculatePolygonArea] answers for a polygon of the plane with
    unit normal [n], from the three shoelace sums of its projections: they
    are the components of [sigma * n], and the area is [|sigma| / 2]. *)
Lemma planar_polygon_area (n v0 v1 v2 : Vector3.t) (rest : list Vector3.t) (sigma : R) :
  Vector3.lengthSq n = 1 ->
  Vector3.normalize
    (Vector3.crossVectors (Vector3.subVectors v1 v0) (Vector3.subVectors v2 v0)) = n ->
  shoelaceSum (map (fun v => Vector2.mk (Vector3.y v) (Vector3.z v)) (v0 :: v1 :: v2 :: rest))
  = sigma * Vector3.x n ->
  shoelaceSum (map (fun v => Vector2.mk (Vector3.x v) (Vector3.z v)) (v0 :: v1 :: v2 :: rest))
  = - sigma * Vector3.y n ->
  shoelaceSum (map (fun v => Vector2.mk (Vector3.x v) (Vector3.y v)) (v0 :: v1 :: v2 :: rest))
  = sigma * Vector3.z n ->
  calculatePolygonArea (v0 :: v1 :: v2 :: rest) = Rabs sigma / 2.
Proof.
  intros Hn Hnormal Sx Sy Sz.
  unfold calculatePolygonArea. rewrite Hnormal.
  pose proof (Rabs_pos (Vector3.x n)) as Hax.
  pose proof (Rabs_pos (Vector3.y n)) as Hay.
  pose proof (Rabs_pos (Vector3.z n)) as Haz.
  assert (Hsq : Rabs (Vector3.x n) * Rabs (Vector3.x n)
                + Rabs (Vector3.y n) * Rabs (Vector3.y n)
                + Rabs (Vector3.z n) * Rabs (Vector3.z n) = 1).
  { rewrite <- Hn. unfold Vector3.lengthSq. rewrite <- !Rabs_mult.
    rewrite !Rabs_pos_eq by nra. reflexivity. }
  assert (Hfinal : forall a : R, 0 < a -> Rabs sigma * a / 2 * (1.0 / a) = Rabs sigma / 2).
  { intros a Ha. replace 1.0 with 1 by lra. field. lra. }
  assert (Hzero : forall a : R, 0 < a -> Reqb a 0 = false).
  { intros a Ha. apply not_true_iff_false. rewrite Reqb_true. lra. }
  set (ax := Rabs (Vector3.x n)) in *.
  set (ay := Rabs (Vector3.y n)) in *.
  set (az := Rabs (Vector3.z n)) in *.
  destruct (Rgeb ax ay && Rgeb ax az) eqn:Bx.
  - apply andb_true_iff in Bx as [B1 B2].
    apply Rgeb_true in B1. apply Rgeb_true in B2.
    assert (0 < ax) by nra.
    rewrite Sx, Rabs_mult. fold ax. rewrite (Hzero ax) by assumption.
    now apply Hfinal.
  - destruct (Rgeb ay ax && Rgeb ay az) eqn:By.
    + apply andb_true_iff in By as [B1 B2].
      apply Rgeb_true in B1. apply Rgeb_true in B2.
      assert (0 < ay) by nra.
      rewrite Sy, Rabs_mult, Rabs_Ropp. fold ay. rewrite (Hzero ay) by assumption.
      now apply Hfinal.
    + assert (0 < az).
      { apply andb_false_iff in Bx. apply andb_false_iff in By.
        rewrite !Rgeb_false in Bx, By.
        destruct Bx as [Bx|Bx], By as [By|By]; nra. }
      rewrite Sz, Rabs_mult. fold az. rewrite (Hzero az) by assumption.
      now apply Hfinal.
Qed.

Lemma shoelaceSum_4 (p q r s : Vector2.t) :
  shoelaceSum [p; q; r; s]
  = shoelaceTerm p q + shoelaceTerm q r + shoelaceTerm r s + shoelaceTerm s p.
Proof. unfold shoelaceSum. simpl. ring. Qed.

(** The area of a quadrilateral of the plane with unit normal [n] whose
    first corner turns counter-clockwise: half the sum of the turns of the
    triangles [q0 q1 q2] and [q0 q2 q3]. *)
Lemma quad_area (n q0 q1 q2 q3 : Vector3.t) :
  Vector3.lengthSq n = 1 ->
  Vector3.dot n (Vector3.sub q1 q0) = 0 ->
  Vector3.dot n (Vector3.sub q2 q0) = 0 ->
  Vector3.dot n (Vector3.sub q3 q0) = 0 ->
  0 < turn n q0 q1 q2 ->
  calculatePolygonArea [q0; q1; q2; q3]
  = Rabs (turn n q0 q1 q2 + turn n q0 q2 q3) / 2.
Proof.
  intros Hn H1 H2 H3 Ht.
  destruct (normal_of_turn n q0 q1 q2 Hn H1 H2 Ht) as (_ & Hnorm & E1 & _).
  pose proof (inplane_cross n _ _ Hn H2 H3) as E2. fold (turn n q0 q2 q3) in E2.
  apply (planar_polygon_area n q0 q1 q2 [q3] _ Hn Hnorm); cbn [map];
    rewrite shoelaceSum_4; unfold shoelaceTerm; cbn [Vector2.x Vector2.y].
  - transitivity (Vector3.x (Vector3.cross (Vector3.sub q1 q0) (Vector3.sub q2 q0))
                  + Vector3.x (Vector3.cross (Vector3.sub q2 q0) (Vector3.sub q3 q0))).
    + destruct q0, q1, q2, q3.
      unfold Vector3.cross, Vector3.crossVectors, Vector3.sub; simpl. ring.
    + rewrite E1, E2. destruct n. unfold Vector3.multiplyScalar; simpl. ring.
  - transitivity (- (Vector3.y (Vector3.cross (Vector3.sub q1 q0) (Vector3.sub q2 q0))
                     + Vector3.y (Vector3.cross (Vector3.sub q2 q0) (Vector3.sub q3 q0)))).
    + destruct q0, q1, q2, q3.
      unfold Vector3.cross, Vector3.crossVectors, Vector3.sub; simpl. ring.
    + rewrite E1, E2. destruct n. unfold Vector3.multiplyScalar; simpl. ring.
  - transitivity (Vector3.z (Vector3.cross (Vector3.sub q1 q0) (Vector3.sub q2 q0))
                  + Vector3.z (Vector3.cross (Vector3.sub q2 q0) (Vector3.sub q3 q0))).
    + destruct q0, q1, q2, q3.
      unfold Vector3.cross, Vector3.crossVectors, Vector3.sub; simpl. ring.
    + rewrite E1, E2. destruct n. unfold Vector3.multiplyScalar; simpl. ring.
Qed.

(** *** The frame in which the corners are sorted *)

(** A vector that is not zero has a unit normalisation. *)
Lemma normalize_unit (v : Vector3.t) :
  0 < Vector3.lengthSq v -> Vector3.lengthSq (Vector3.normalize v) = 1.
Proof.
  intros Hv.
  assert (Hl : 0 < Vector3.length v) by (unfold Vector3.length; now apply sqrt_lt_R0).
  assert (Hsq : Vector3.length v * Vector3.length v = Vector3.lengthSq v).
  { unfold Vector3.length. apply sqrt_sqrt. lra. }
  rewrite (normalize_known v (Vector3.length v) Hl (eq_sym Hsq)).
  revert Hsq. generalize (Vector3.length v) Hl. intros l Hl0 Hsq.
  destruct v as [x y z].
  unfold Vector3.lengthSq, Vector3.multiplyScalar in *.
  cbn [Vector3.x Vector3.y Vector3.z] in *.
  replace (x * (1 / l) * (x * (1 / l)) + y * (1 / l) * (y * (1 / l))
           + z * (1 / l) * (z * (1 / l)))
    with ((x * x + y * y + z * z) / (l * l)) by (field; lra).
  rewrite <- Hsq. field. lra.
Qed.

Lemma normalize_null (v : Vector3.t) :
  Vector3.lengthSq v = 0 -> Vector3.normalize v = Vector3.zero.
Proof.
  intros H. unfold Vector3.normalize, Vector3.length. rewrite H, sqrt_0.
  destruct (Req_dec_T 0 0) as [_|K]; [|lra].
  destruct v as [x y z]. unfold Vector3.lengthSq in H.
  cbn [Vector3.x Vector3.y Vector3.z] in H.
  assert (x = 0) by nra. assert (y = 0) by nra. assert (z = 0) by nra. subst.
  unfold Vector3.divideScalar, Vector3.multiplyScalar, Vector3.zero. simpl.
  f_equal; lra.
Qed.

(** [basisX] and [basisY] for a unit normal [n] and the axis [a]: both are
    the zero vector when the axis is along the normal; otherwise [basisX] is
    a unit vector of the plane and [basisY] is [n x basisX]. *)
Lemma frame_cases (n a : Vector3.t) :
  Vector3.lengthSq n = 1 ->
  let basisX := Vector3.normalize (Vector3.projectOnPlane a n) in
  let basisY := Vector3.normalize (Vector3.crossVectors n basisX) in
  (basisX = Vector3.zero /\ basisY = Vector3.zero)
  \/ (Vector3.lengthSq basisX = 1 /\ Vector3.dot basisX n = 0
      /\ basisY = Vector3.crossVectors n basisX).
Proof.
  intros Hn basisX basisY.
  set (p := Vector3.projectOnPlane a n) in *.
  assert (Hp : Vector3.dot p n = 0).
  { unfold p, Vector3.projectOnPlane, Vector3.projectOnVector.
    destruct (Req_dec_T (Vector3.lengthSq n) 0) as [K|_]; [lra|].
    rewrite Hn. destruct a as [a1 a2 a3], n as [n1 n2 n3].
    unfold Vector3.lengthSq, Vector3.dot, Vector3.sub, Vector3.multiplyScalar in *.
    cbn [Vector3.x Vector3.y Vector3.z] in *.
    replace ((a1 - n1 * ((n1 * a1 + n2 * a2 + n3 * a3) / 1)) * n1
             + (a2 - n2 * ((n1 * a1 + n2 * a2 + n3 * a3) / 1)) * n2
             + (a3 - n3 * ((n1 * a1 + n2 * a2 + n3 * a3) / 1)) * n3)
      with ((n1 * a1 + n2 * a2 + n3 * a3) * (1 - (n1 * n1 + n2 * n2 + n3 * n3)))
      by (field).
    rewrite Hn. ring. }
  assert (Hge : 0 <= Vector3.lengthSq p).
  { destruct p. unfold Vector3.lengthSq; simpl. nra. }
  destruct Hge as [Hpos|Hzero].
  - right.
    assert (HbX : Vector3.lengthSq basisX = 1) by now apply normalize_unit.
    assert (Hl : 0 < Vector3.length p) by (unfold Vector3.length; now apply sqrt_lt_R0).
    assert (Hdot : Vector3.dot basisX n = 0).
    { unfold basisX, Vector3.normalize.
      destruct (Req_dec_T (Vector3.length p) 0) as [K|_]; [lra|].
      revert Hp. generalize (Vector3.length p). intros l.
      destruct p as [p1 p2 p3], n as [n1 n2 n3].
      unfold Vector3.dot, Vector3.divideScalar, Vector3.multiplyScalar.
      cbn [Vector3.x Vector3.y Vector3.z]. intros Hp.
      replace (p1 * (1 / l) * n1 + p2 * (1 / l) * n2 + p3 * (1 / l) * n3)
        with ((p1 * n1 + p2 * n2 + p3 * n3) * (1 / l)) by ring.
      rewrite Hp. ring. }
    split; [exact HbX|]. split; [exact Hdot|].
    unfold basisY. rewrite (normalize_known _ 1).
    + destruct (Vector3.crossVectors n basisX). unfold Vector3.multiplyScalar; simpl.
      f_equal; field.
    + lra.
    + revert HbX Hdot. generalize basisX. intros b HbX Hdot.
      destruct b as [b1 b2 b3], n as [n1 n2 n3].
      unfold Vector3.lengthSq, Vector3.dot, Vector3.crossVectors in *.
      cbn [Vector3.x Vector3.y Vector3.z] in *. nsatz.
  - left.
    assert (HbX : basisX = Vector3.zero) by (apply normalize_null; now symmetry).
    split; [exact HbX|].
    unfold basisY. rewrite HbX. apply normalize_null.
    unfold Vector3.lengthSq, Vector3.crossVectors, Vector3.zero; simpl. ring.
Qed.

(** In that frame the cross product of the coordinates of two vectors is
    their turn around the normal. *)
Lemma frame_turn (n b u w : Vector3.t) :
  Vector3.lengthSq b = 1 -> Vector3.dot b n = 0 ->
  Vector3.dot u b * Vector3.dot w (Vector3.crossVectors n b)
  - Vector3.dot u (Vector3.crossVectors n b) * Vector3.dot w b
  = Vector3.dot n (Vector3.cross u w).
Proof.
  destruct n as [n1 n2 n3], b as [b1 b2 b3], u as [u1 u2 u3], w as [w1 w2 w3].
  unfold Vector3.lengthSq, Vector3.dot, Vector3.cross, Vector3.crossVectors.
  cbn [Vector3.x Vector3.y Vector3.z]. intros Hb Hd. nsatz.
Qed.

(** The angle of a vertex: 0 for every vertex when the frame is null,
    otherwise the angle of its coordinates in a frame of the plane. *)
Lemma vertexAngle_cases (n centroid : Vector3.t) :
  Vector3.lengthSq n = 1 ->
  (forall a, vertexAngle n centroid a = 0)
  \/ exists b : Vector3.t,
       Vector3.lengthSq b = 1 /\ Vector3.dot b n = 0
       /\ forall a,
            vertexAngle n centroid a
            = Math_atan2 (Vector3.dot (Vector3.sub a centroid) (Vector3.crossVectors n b))
                         (Vector3.dot (Vector3.sub a centroid) b).
Proof.
  intros Hn. unfold vertexAngle.
  destruct (Rltb (Rabs (Vector3.x n)) 0.9 && Rltb (Rabs (Vector3.y n)) 0.9).
  - destruct (frame_cases n (vec3 1 0 0) Hn) as [ [-> ->] | (Hb & Hd & ->) ].
    + left. intros a. unfold Vector3.dot, Vector3.zero; simpl.
      rewrite !Rmult_0_r, !Rplus_0_r. unfold Math_atan2.
      now rewrite !(proj2 (Rltb_false 0 0)) by lra.
    + right. eexists. split; [exact Hb|]. split; [exact Hd|]. reflexivity.
  - destruct (frame_cases n (vec3 0 1 0) Hn) as [ [-> ->] | (Hb & Hd & ->) ].
    + left. intros a. unfold Vector3.dot, Vector3.zero; simpl.
      rewrite !Rmult_0_r, !Rplus_0_r. unfold Math_atan2.
      now rewrite !(proj2 (Rltb_false 0 0)) by lra.
    + right. eexists. split; [exact Hb|]. split; [exact Hd|]. reflexivity.
Qed.

(** The turns around the centroid of a quadrilateral are averages of the
    turns at its corners. *)
Lemma centroid_turns (n p0 p1 p2 p3 : Vector3.t) :
  let g := centroidOf [p0; p1; p2; p3] in
  turn n g p0 p1 = (turn n p0 p1 p2 + turn n p3 p0 p1) / 4
  /\ turn n g p1 p2 = (turn n p1 p2 p3 + turn n p0 p1 p2) / 4
  /\ turn n g p2 p3 = (turn n p2 p3 p0 + turn n p1 p2 p3) / 4
  /\ turn n g p3 p0 = (turn n p3 p0 p1 + turn n p2 p3 p0) / 4.
Proof.
  destruct n as [n1 n2 n3], p0 as [a1 a2 a3], p1 as [b1 b2 b3], p2 as [c1 c2 c3],
    p3 as [d1 d2 d3].
  unfold centroidOf, turn, Vector3.dot, Vector3.cross, Vector3.crossVectors, Vector3.sub,
    Vector3.divideScalar, Vector3.multiplyScalar, Vector3.add, Vector3.zero.
  cbn [fold_left List.length Vector3.x Vector3.y Vector3.z Vector3.add].
  unfold Vector3.add. cbn [Vector3.x Vector3.y Vector3.z INR].
  repeat split; field.
Qed.

(** The corners of a quadrilateral that turns counter-clockwise around its
    centroid come out of the sort in one of their four cyclic orders. *)
Lemma orderVertices_quad (n p0 p1 p2 p3 : Vector3.t) :
  Vector3.lengthSq n = 1 ->
  let g := centroidOf [p0; p1; p2; p3] in
  0 < turn n g p0 p1 -> 0 < turn n g p1 p2 -> 0 < turn n g p2 p3 -> 0 < turn n g p3 p0 ->
  orderVertices n [p0; p1; p2; p3] ∈ rotations4 p0 p1 p2 p3.
Proof.
  intros Hn g T0 T1 T2 T3.
  unfold orderVertices. cbn [List.length Nat.ltb Nat.leb]. fold g.
  assert (Hin : forall l,
             l = [p0; p1; p2; p3] \/ l = [p1; p2; p3; p0] \/ l = [p2; p3; p0; p1]
             \/ l = [p3; p0; p1; p2] -> l ∈ rotations4 p0 p1 p2 p3).
  { intros l [-> | [-> | [-> | ->] ] ]; unfold rotations4;
      repeat (first [apply list_elem_of_here | apply list_elem_of_further]). }
  destruct (vertexAngle_cases n g Hn) as [Hzero|(b & Hb & Hd & Hangle)].
  - rewrite sortByKey_constant by exact Hzero. apply Hin. now left.
  - apply Hin. apply sortByKey_cyclic.
    + intros v. rewrite Hangle. apply Math_atan2_range.
    + rewrite !Hangle. apply Math_atan2_turn. rewrite frame_turn by assumption. exact T0.
    + rewrite !Hangle. apply Math_atan2_turn. rewrite frame_turn by assumption. exact T1.
    + rewrite !Hangle. apply Math_atan2_turn. rewrite frame_turn by assumption. exact T2.
    + rewrite !Hangle. apply Math_atan2_turn. rewrite frame_turn by assumption. exact T3.
Qed.

(** ** The merged face of coplanar triangles *)

Lemma map_nth_seq_all {A : Type} (d : A) (l : list A) :
  map (fun j => nth j l d) (seq 0 (List.length l)) = l.
Proof.
  induction l as [|a l IH]; [reflexivity|].
  cbn [List.length seq map nth]. f_equal.
  rewrite <- seq_shift, map_map. exact IH.
Qed.

Lemma omap_nth_seq_all (l : list (option Triangle)) :
  omap (fun j => nth j l None) (seq 0 (List.length l)) = omap (fun t => t) l.
Proof.
  transitivity (omap (fun t : option Triangle => t)
                  (map (fun j => nth j l None) (seq 0 (List.length l)))).
  - generalize (seq 0 (List.length l)). intros js.
    induction js as [|j js IH]; [reflexivity|].
    change (omap (fun j => nth j l None) (j :: js))
      with (match nth j l None with
            | Some t => t :: omap (fun j => nth j l None) js
            | None => omap (fun j => nth j l None) js
            end).
    change (omap (fun t : option Triangle => t) (map (fun j => nth j l None) (j :: js)))
      with (match nth j l None with
            | Some t => t :: omap (fun t : option Triangle => t)
                                  (map (fun j => nth j l None) js)
            | None => omap (fun t : option Triangle => t) (map (fun j => nth j l None) js)
            end).
    now rewrite IH.
  - now rewrite map_nth_seq_all.
Qed.

(** When every triangle joins the first one there is one group, and at most
    one face: the polygon through the distinct vertices in sorted order. *)
Lemma getFacesWithAreas_one_group (o : Object3D) (g : BufferGeometry)
    (ps : list Vector3.t) (t0 : Triangle) (rest : list (option Triangle)) :
  isMesh o = true -> geometry o = Some g -> positionAttribute g = Some ps ->
  buildTriangles o ps (indexAttribute g) = Some t0 :: rest ->
  (forall t, t ∈ rest -> joinsFace (Some t0) t = true) ->
  getFacesWithAreas (Some o)
  = let vs := orderVertices (normal t0) (uniqueVerticesOf (t0 :: omap (fun t => t) rest)) in
    if Rgtb (calculatePolygonArea vs) 0
    then [mkFace vs (normal t0) (calculatePolygonArea vs)]
    else [].
Proof.
  intros Hm Hg Hp Ht Hjoin.
  unfold getFacesWithAreas. rewrite Hm, Hg, Hp. cbn [negb]. cbv zeta.
  rewrite Ht.
  rewrite (groupTriangles_one_group (Some t0 :: rest) (List.length rest)).
  - change (omap (faceOfGroup (Some t0 :: rest)) [seq 0 (S (List.length rest))])
      with (match faceOfGroup (Some t0 :: rest) (seq 0 (S (List.length rest))) with
            | Some f => [f]
            | None => []
            end).
    unfold faceOfGroup.
    change (seq 0 (S (List.length rest))) with (0%nat :: seq 1 (List.length rest)).
    cbv beta iota.
    change (nth 0 (Some t0 :: rest) None) with (Some t0). cbv beta iota.
    change (0%nat :: seq 1 (List.length rest))
      with (seq 0 (List.length (Some t0 :: rest))).
    rewrite omap_nth_seq_all.
    change (omap (fun t => t) (Some t0 :: rest)) with (t0 :: omap (fun t => t) rest).
    destruct (Rgtb _ 0); reflexivity.
  - reflexivity.
  - intros j Hj. destruct j as [|j]; [lia|]. cbn [nth].
    apply Hjoin. apply list_elem_of_In, nth_In. lia.
Qed.

Lemma distance_to_plane (n c0 v : Vector3.t) :
  distanceToPoint (mkPlane n (- Vector3.dot c0 n)) v = Vector3.dot n (Vector3.sub v c0).
Proof.
  destruct n, c0, v. unfold distanceToPoint, Vector3.dot, Vector3.sub; simpl. ring.
Qed.

(** A triangle in the plane of the first one, facing the same way, passes
    the test of the inner loop. *)
Lemma coplanarWith_joins (t0 : Triangle) (c0 c1 c2 : Vector3.t) (t : option Triangle) :
  vertices t0 = [c0; c1; c2] -> normal t0 = getNormal c0 c1 c2 ->
  0 < Vector3.lengthSq (Vector3.cross (Vector3.sub c1 c0) (Vector3.sub c2 c0)) ->
  coplanarWith t0 t -> joinsFace (Some t0) t = true.
Proof.
  intros Hv Hn Hpos Hco. unfold coplanarWith in Hco. rewrite Hv in Hco.
  destruct t as [t'|]; [|contradiction]. destruct Hco as [Hn' Hall].
  destruct (getNormal_unit c0 c1 c2 Hpos) as (Hunit & Hturn & Hcross & Hlen).
  unfold joinsFace. rewrite Hv.
  assert (Hplane : setFromCoplanarPoints c0 c1 c2
                   = mkPlane (getNormal c0 c1 c2) (- Vector3.dot c0 (getNormal c0 c1 c2))).
  { unfold setFromCoplanarPoints.
    assert (E : Vector3.normalize
                  (Vector3.cross (Vector3.subVectors c2 c1) (Vector3.subVectors c0 c1))
                = getNormal c0 c1 c2).
    { rewrite cross_rotate.
      rewrite (normalize_known _ (turn (getNormal c0 c1 c2) c0 c1 c2) Hturn)
        by (rewrite Hcross at 1; now apply lengthSq_scaled).
      rewrite Hcross at 1. now apply scaled_back. }
    now rewrite E. }
  rewrite Hplane, Hn', Hn.
  change (Vector3.dot (getNormal c0 c1 c2) (getNormal c0 c1 c2))
    with (Vector3.lengthSq (getNormal c0 c1 c2)).
  rewrite Hunit.
  rewrite (proj2 (Rgtb_true 1 (1 - coplanarTolerance))) by (unfold coplanarTolerance; lra).
  cbn [andb]. apply forallb_forall. intros v Hin.
  rewrite Forall_forall in Hall. rewrite Hn in Hall.
  rewrite distance_to_plane, (Hall v) by now apply list_elem_of_In.
  rewrite Rabs_R0.
  now rewrite (proj2 (Rgtb_false 0 coplanarTolerance)) by (unfold coplanarTolerance; lra).
Qed.

Lemma inplane_of_normal (a b c : Vector3.t) :
  0 < Vector3.lengthSq (Vector3.cross (Vector3.sub b a) (Vector3.sub c a)) ->
  Vector3.dot (getNormal a b c) (Vector3.sub b a) = 0
  /\ Vector3.dot (getNormal a b c) (Vector3.sub c a) = 0.
Proof.
  intros Hpos.
  destruct (getNormal_unit a b c Hpos) as (_ & Hturn & Hcross & _).
  assert (K1 : Vector3.dot (Vector3.cross (Vector3.sub b a) (Vector3.sub c a))
                           (Vector3.sub b a) = 0).
  { destruct a, b, c.
    unfold Vector3.dot, Vector3.cross, Vector3.crossVectors, Vector3.sub; simpl. ring. }
  assert (K2 : Vector3.dot (Vector3.cross (Vector3.sub b a) (Vector3.sub c a))
                           (Vector3.sub c a) = 0).
  { destruct a, b, c.
    unfold Vector3.dot, Vector3.cross, Vector3.crossVectors, Vector3.sub; simpl. ring. }
  rewrite Hcross in K1, K2. revert Hturn K1 K2.
  generalize (turn (getNormal a b c) a b c) (getNormal a b c)
             (Vector3.sub b a) (Vector3.sub c a).
  intros t n u w Ht K1 K2. destruct n, u, w.
  unfold Vector3.dot, Vector3.multiplyScalar in *.
  cbn [Vector3.x Vector3.y Vector3.z] in *. split; nra.
Qed.

Lemma inplane_shift (n p a b : Vector3.t) :
  Vector3.dot n (Vector3.sub a p) = 0 -> Vector3.dot n (Vector3.sub b p) = 0 ->
  Vector3.dot n (Vector3.sub b a) = 0.
Proof.
  destruct n, p, a, b. unfold Vector3.dot, Vector3.sub; simpl. intros. lra.
Qed.

Lemma inplane_back (n p a : Vector3.t) :
  Vector3.dot n (Vector3.sub a p) = 0 -> Vector3.dot n (Vector3.sub p a) = 0.
Proof.
  destruct n, p, a. unfold Vector3.dot, Vector3.sub; simpl. intros. lra.
Qed.

Lemma turn_cycle (n a b c : Vector3.t) : turn n b c a = turn n a b c.
Proof.
  destruct n, a, b, c.
  unfold turn, Vector3.dot, Vector3.cross, Vector3.crossVectors, Vector3.sub; simpl. ring.
Qed.

(** The two triangles cut by either diagonal, from any corner, have the
    same total turn. *)
Lemma turn_total (n p0 p1 p2 p3 : Vector3.t) :
  turn n p1 p2 p3 + turn n p1 p3 p0 = turn n p0 p1 p2 + turn n p0 p2 p3
  /\ turn n p2 p3 p0 + turn n p2 p0 p1 = turn n p0 p1 p2 + turn n p0 p2 p3
  /\ turn n p3 p0 p1 + turn n p3 p1 p2 = turn n p0 p1 p2 + turn n p0 p2 p3.
Proof.
  destruct n, p0, p1, p2, p3.
  unfold turn, Vector3.dot, Vector3.cross, Vector3.crossVectors, Vector3.sub; simpl.
  repeat split; ring.
Qed.

(** The polygon area of a convex quadrilateral of the plane, in each of its
    four cyclic orders. *)
Lemma quad_rotations_area (n p0 p1 p2 p3 : Vector3.t) :
  Vector3.lengthSq n = 1 ->
  Vector3.dot n (Vector3.sub p1 p0) = 0 ->
  Vector3.dot n (Vector3.sub p2 p0) = 0 ->
  Vector3.dot n (Vector3.sub p3 p0) = 0 ->
  0 < turn n p0 p1 p2 -> 0 < turn n p1 p2 p3 ->
  0 < turn n p2 p3 p0 -> 0 < turn n p3 p0 p1 ->
  forall l, l ∈ rotations4 p0 p1 p2 p3 ->
    calculatePolygonArea l = (turn n p0 p1 p2 + turn n p0 p2 p3) / 2.
Proof.
  intros Hn I1 I2 I3 T0 T1 T2 T3 l Hl.
  destruct (turn_total n p0 p1 p2 p3) as (E1 & E2 & E3).
  assert (Hpos : 0 < turn n p0 p1 p2 + turn n p0 p2 p3).
  { rewrite (turn_cycle n p0 p2 p3) in T2. lra. }
  assert (Habs : Rabs (turn n p0 p1 p2 + turn n p0 p2 p3)
                 = turn n p0 p1 p2 + turn n p0 p2 p3) by (apply Rabs_pos_eq; lra).
  unfold rotations4 in Hl.
  repeat (apply elem_of_cons in Hl as [->|Hl]).
  - rewrite (quad_area n p0 p1 p2 p3) by assumption. now rewrite Habs.
  - rewrite (quad_area n p1 p2 p3 p0);
      eauto using inplane_shift, inplane_back.
    now rewrite E1, Habs.
  - rewrite (quad_area n p2 p3 p0 p1);
      eauto using inplane_shift, inplane_back.
    now rewrite E2, Habs.
  - rewrite (quad_area n p3 p0 p1 p2);
      eauto using inplane_shift, inplane_back.
    now rewrite E3, Habs.
  - inversion Hl.
Qed.

Lemma uniqueVerticesOf_quad (p0 p1 p2 p3 n1 n2 : Vector3.t) :
  NoDup (map vertexKey [p0; p1; p2; p3]) ->
  uniqueVerticesOf [mkTriangle [p0; p1; p2] n1; mkTriangle [p0; p2; p3] n2]
  = [p0; p1; p2; p3].
Proof.
  intros Hnd. cbn [map] in Hnd.
  apply NoDup_cons in Hnd as [H0 Hnd]. apply NoDup_cons in Hnd as [H1 Hnd].
  apply NoDup_cons in Hnd as [H2 _].
  assert (K01 : vertexKey p0 <> vertexKey p1) by (intros E; apply H0; rewrite E; left).
  assert (K02 : vertexKey p0 <> vertexKey p2)
    by (intros E; apply H0; rewrite E; right; left).
  assert (K03 : vertexKey p0 <> vertexKey p3)
    by (intros E; apply H0; rewrite E; right; right; left).
  assert (K12 : vertexKey p1 <> vertexKey p2) by (intros E; apply H1; rewrite E; left).
  assert (K13 : vertexKey p1 <> vertexKey p3)
    by (intros E; apply H1; rewrite E; right; left).
  assert (K23 : vertexKey p2 <> vertexKey p3) by (intros E; apply H2; rewrite E; left).
  unfold uniqueVerticesOf.
  cbn [flat_map vertices app].
  repeat (cbn [fold_left mapSet];
          first [ rewrite String.eqb_refl
                | rewrite (proj2 (String.eqb_neq _ _) K01)
                | rewrite (proj2 (String.eqb_neq _ _) K02)
                | rewrite (proj2 (String.eqb_neq _ _) K03)
                | rewrite (proj2 (String.eqb_neq _ _) K12)
                | rewrite (proj2 (String.eqb_neq _ _) K13)
                | rewrite (proj2 (String.eqb_neq _ _) K23) ]).
  reflexivity.
Qed.

(** A convex quadrilateral cut along the diagonal from its first corner:
    one face, through the four corners in cyclic order, whose area is the sum
    of the areas of the two triangles. *)
Lemma getFacesWithAreas_quad (o : Object3D) (g : BufferGeometry) (ps : list Vector3.t)
    (p0 p1 p2 p3 : Vector3.t) :
  isMesh o = true -> geometry o = Some g -> positionAttribute g = Some ps ->
  buildTriangles o ps (indexAttribute g)
  = [Some (mkTriangle [p0; p1; p2] (getNormal p0 p1 p2));
     Some (mkTriangle [p0; p2; p3] (getNormal p0 p2 p3))] ->
  convexQuad p0 p1 p2 p3 ->
  NoDup (map vertexKey [p0; p1; p2; p3]) ->
  exists f : Face,
    getFacesWithAreas (Some o) = [f]
    /\ face_vertices f ∈ rotations4 p0 p1 p2 p3
    /\ face_normal f = getNormal p0 p1 p2
    /\ face_area f = triangleArea p0 p1 p2 + triangleArea p0 p2 p3.
Proof.
  intros Hm Hg Hp Ht (Hpos & I3 & T1 & T2 & T3) Hkeys.
  set (n := getNormal p0 p1 p2) in *.
  destruct (getNormal_unit p0 p1 p2 Hpos) as (Hn & T0 & _ & Hlen1). fold n in Hn, T0, Hlen1.
  destruct (inplane_of_normal p0 p1 p2 Hpos) as [I1 I2]. fold n in I1, I2.
  assert (T2' : 0 < turn n p0 p2 p3) by now rewrite (turn_cycle n p0 p2 p3) in T2.
  destruct (normal_of_turn n p0 p2 p3 Hn I2 I3 T2') as (Hn2 & _ & _ & Hlen2).
  rewrite Hn2 in Ht.
  rewrite (getFacesWithAreas_one_group o g ps _ _ Hm Hg Hp Ht).
  2:{ intros t Hin. apply elem_of_cons in Hin as [->|Hin]; [|inversion Hin].
      apply (coplanarWith_joins _ p0 p1 p2); [reflexivity | reflexivity | exact Hpos |].
      unfold coplanarWith. cbn [vertices normal]. split; [reflexivity|].
      repeat constructor; [|exact I2 | exact I3].
      destruct n, p0. unfold Vector3.dot, Vector3.sub; simpl. ring. }
  cbv zeta. cbn [normal].
  change (omap (fun t => t) [Some (mkTriangle [p0; p2; p3] n)])
    with [mkTriangle [p0; p2; p3] n].
  rewrite (uniqueVerticesOf_quad p0 p1 p2 p3 _ _ Hkeys).
  assert (Hord : orderVertices n [p0; p1; p2; p3] ∈ rotations4 p0 p1 p2 p3).
  { destruct (centroid_turns n p0 p1 p2 p3) as (C0 & C1 & C2 & C3).
    apply orderVertices_quad; [exact Hn | | | |]; cbv zeta.
    - rewrite C0. lra.
    - rewrite C1. lra.
    - rewrite C2. lra.
    - rewrite C3. lra. }
  rewrite (quad_rotations_area n p0 p1 p2 p3 Hn I1 I2 I3 T0 T1 T2 T3 _ Hord).
  rewrite (proj2 (Rgtb_true _ 0)) by lra.
  eexists. split; [reflexivity|]. cbn [face_vertices face_normal face_area].
  split; [exact Hord|]. split; [reflexivity|].
  unfold triangleArea. rewrite Hlen1, Hlen2. lra.
Qed.

(** A mesh of one triangle, whatever the layout of its buffers. *)
Lemma getFacesWithAreas_triangle (o : Object3D) (g : BufferGeometry) (ps : list Vector3.t)
    (A B C : Vector3.t) :
  isMesh o = true -> geometry o = Some g -> positionAttribute g = Some ps ->
  buildTriangles o ps (indexAttribute g) = [Some (mkTriangle [A; B; C] (getNormal A B C))] ->
  0 < Vector3.lengthSq (Vector3.cross (Vector3.sub B A) (Vector3.sub C A)) ->
  NoDup (map vertexKey [A; B; C]) ->
  getFacesWithAreas (Some o)
  = [mkFace (orderVertices (getNormal A B C) [A; B; C]) (getNormal A B C)
            (triangleArea A B C)].
Proof.
  intros Hm Hg Hp Ht Hpos Hkeys. cbn [map] in Hkeys.
  apply NoDup_cons in Hkeys as [H0 Hkeys]. apply NoDup_cons in Hkeys as [H1 _].
  assert (Kab : vertexKey A <> vertexKey B) by (intros E; apply H0; rewrite E; left).
  assert (Kac : vertexKey A <> vertexKey C)
    by (intros E; apply H0; rewrite E; right; left).
  assert (Kbc : vertexKey B <> vertexKey C) by (intros E; apply H1; rewrite E; left).
  rewrite (getFacesWithAreas_one_group o g ps _ _ Hm Hg Hp Ht)
    by (intros t Hin; inversion Hin).
  cbv zeta. cbn [normal].
  change (omap (fun t : option Triangle => t) []) with (@nil Triangle).
  rewrite (uniqueVerticesOf_single A B C _ Kab Kac Kbc).
  assert (Harea : calculatePolygonArea (orderVertices (getNormal A B C) [A; B; C])
                  = triangleArea A B C).
  { unfold orderVertices. cbn [List.length Nat.ltb Nat.leb].
    now apply area_of_sorted_triangle. }
  rewrite Harea.
  now rewrite (proj2 (Rgtb_true _ _)) by (apply Rlt_gt; now apply triangleArea_pos).
Qed.


(** The example meshes: their triangles, shape and vertex keys. *)
Lemma oneIndexedTriangle_triangles :
  buildTriangles oneIndexedTriangle [vec3 5 5 5; vec3 0 0 0; vec3 1 0 0; vec3 0 1 0]
                 (Some [1; 2; 3]%nat)
  = [Some (mkTriangle [vec3 0 0 0; vec3 1 0 0; vec3 0 1 0]
                      (getNormal (vec3 0 0 0) (vec3 1 0 0) (vec3 0 1 0)))].
Proof.
  unfold buildTriangles, strideStarts.
  cbn [List.length Nat.add Nat.div Nat.divmod fst seq map Nat.mul].
  unfold triangleAt.
  cbn [nth_error mbind option_bind option_map oneIndexedTriangle matrixWorld Nat.add].
  rewrite !applyMatrix4_identity. reflexivity.
Qed.

Lemma unitSquarePanel_triangles :
  buildTriangles unitSquarePanel [vec3 0 0 0; vec3 1 0 0; vec3 1 1 0; vec3 0 1 0]
                 (Some [0; 1; 2; 0; 2; 3]%nat)
  = [Some (mkTriangle [vec3 0 0 0; vec3 1 0 0; vec3 1 1 0]
                      (getNormal (vec3 0 0 0) (vec3 1 0 0) (vec3 1 1 0)));
     Some (mkTriangle [vec3 0 0 0; vec3 1 1 0; vec3 0 1 0]
                      (getNormal (vec3 0 0 0) (vec3 1 1 0) (vec3 0 1 0)))].
Proof.
  unfold buildTriangles, strideStarts.
  cbn [List.length Nat.add Nat.div Nat.divmod fst seq map Nat.mul].
  unfold triangleAt.
  cbn [nth_error mbind option_bind option_map unitSquarePanel customPanel matrixWorld
       Nat.add].
  rewrite !applyMatrix4_identity. reflexivity.
Qed.

Lemma unitSquare_convex :
  convexQuad (vec3 0 0 0) (vec3 1 0 0) (vec3 1 1 0) (vec3 0 1 0).
Proof.
  assert (N : getNormal (vec3 0 0 0) (vec3 1 0 0) (vec3 1 1 0) = vec3 0 0 1).
  { rewrite (getNormal_known _ _ _ 1);
      [ unfold Vector3.multiplyScalar, Vector3.cross, Vector3.crossVectors,
          Vector3.subVectors, Vector3.sub; simpl; f_equal; lra
      | lra
      | unfold Vector3.lengthSq, Vector3.cross, Vector3.crossVectors,
          Vector3.subVectors, Vector3.sub; simpl; lra ]. }
  unfold convexQuad. cbv zeta. rewrite N.
  unfold turn, Vector3.lengthSq, Vector3.dot, Vector3.cross, Vector3.crossVectors,
    Vector3.sub; simpl.
  repeat split; lra.
Qed.

Lemma unitSquare_keys :
  NoDup (map vertexKey [vec3 0 0 0; vec3 1 0 0; vec3 1 1 0; vec3 0 1 0])
  /\ NoDup (map vertexKey [vec3 0 0 0; vec3 1 0 0; vec3 0 1 0]).
Proof.
  cbn [map]. rewrite !vertexKey_IZR.
  split; repeat (apply NoDup_cons; split;
                 [ vm_compute; intros H;
                   repeat (apply elem_of_cons in H as [H|H]; [discriminate H|]);
                   inversion H
                 | ]); apply NoDup_nil_2.
Qed.

Lemma unitSquare_areas :
  sumTriangleAreas [vec3 0 0 0; vec3 1 0 0; vec3 1 1 0; vec3 0 0 0; vec3 1 1 0; vec3 0 1 0]
  = 1.
Proof.
  assert (T : forall a b c : Vector3.t,
             Vector3.lengthSq (Vector3.cross (Vector3.sub b a) (Vector3.sub c a)) = 1 * 1 ->
             triangleArea a b c = 1 / 2).
  { intros a b c H. unfold triangleArea. rewrite (length_of_square _ 1); lra. }
  cbn [sumTriangleAreas].
  rewrite !T; [lra | |];
    unfold Vector3.lengthSq, Vector3.cross, Vector3.crossVectors, Vector3.sub; simpl; lra.
Qed.


(** * Further properties of the face merger *)

Lemma insertByKey_perm {A : Type} (key : A -> R) (a : A) (l : list A) :
  Permutation (insertByKey key a l) (a :: l).
Proof.
  induction l as [|b l IH]; simpl; [reflexivity|].
  destruct (Rltb (key b) (key a)); [|reflexivity].
  rewrite IH. apply perm_swap.
Qed.

Lemma insertByKey_sorted {A : Type} (key : A -> R) (a : A) (l : list A) :
  StronglySorted (fun x y => key x <= key y) l ->
  StronglySorted (fun x y => key x <= key y) (insertByKey key a l).
Proof.
  induction l as [|b l IH]; intros Hs; simpl.
  - repeat constructor.
  - apply StronglySorted_inv in Hs as [Hs Hall].
    destruct (Rltb (key b) (key a)) eqn:E.
    + constructor; [now apply IH|].
      apply Rltb_true in E.
      rewrite Forall_forall. intros x Hx.
      rewrite (insertByKey_perm key a l) in Hx.
      apply elem_of_cons in Hx as [->|Hx]; [lra|].
      rewrite Forall_forall in Hall. now apply Hall.
    + apply Rltb_false in E.
      constructor; [constructor; assumption|].
      constructor; [exact E|].
      eapply Forall_impl; [exact Hall|]. simpl. intros x Hx. lra.
Qed.

Lemma sortByKey_sorted {A : Type} (key : A -> R) (l : list A) :
  StronglySorted (fun x y => key x <= key y) (sortByKey key l).
Proof.
  induction l as [|a l IH]; [constructor|].
  unfold sortByKey in *. cbn [fold_right]. now apply insertByKey_sorted.
Qed.

Lemma calculatePolygonArea_short (vs : list Vector3.t) :
  (List.length vs < 3)%nat -> calculatePolygonArea vs = 0.
Proof.
  destruct vs as [|a [|b [|c vs]]]; simpl; intros H; try reflexivity. lia.
Qed.

Lemma calculatePolygonArea_nonneg (vs : list Vector3.t) : 0 <= calculatePolygonArea vs.
Proof.
  destruct vs as [|a [|b [|c vs]]]; try (simpl; lra).
  unfold calculatePolygonArea.
  match goal with
  | |- 0 <= (if Reqb ?d 0 then Rabs ?s / 2 else Rabs ?s / 2 * (1.0 / ?d)) =>
      assert (Hd : 0 <= d) by
        (repeat match goal with |- context [if ?c then _ else _] => destruct c end;
         apply Rabs_pos);
      pose proof (Rabs_pos s) as Hs;
      generalize dependent (Rabs s); generalize dependent d
  end.
  intros d Hd r Hr.
  destruct (Reqb d 0) eqn:E; [lra|].
  assert (d <> 0) by (intros K; apply Reqb_true in K; congruence).
  assert (0 < 1.0 / d) by (apply Rdiv_lt_0_compat; lra).
  nra.
Qed.

(** X1: the polygon area is never negative, and it is 0 for a polygon of
    fewer than three vertices. *)
Theorem polygon_area_nonnegative :
  (forall vs : list Vector3.t, 0 <= calculatePolygonArea vs)
  /\ calculatePolygonArea [] = 0
  /\ (forall a : Vector3.t, calculatePolygonArea [a] = 0)
  /\ (forall a b : Vector3.t, calculatePolygonArea [a; b] = 0).
Proof.
  split; [exact calculatePolygonArea_nonneg|]. repeat split.
Qed.

(** X2: for three points that are not collinear the polygon area is half the
    length of the cross product of two edges, in each of the six orders in
    which the points can be listed. *)
Theorem polygon_area_of_triangle (A B C : Vector3.t) :
  0 < Vector3.lengthSq (Vector3.cross (Vector3.sub B A) (Vector3.sub C A)) ->
  calculatePolygonArea [A; B; C] = triangleArea A B C
  /\ calculatePolygonArea [B; C; A] = triangleArea A B C
  /\ calculatePolygonArea [C; A; B] = triangleArea A B C
  /\ calculatePolygonArea [A; C; B] = triangleArea A B C
  /\ calculatePolygonArea [C; B; A] = triangleArea A B C
  /\ calculatePolygonArea [B; A; C] = triangleArea A B C
  /\ 0 < triangleArea A B C.
Proof.
  intros Hpos.
  destruct (calculatePolygonArea_orders A B C Hpos) as (O1 & O2 & O3 & O4 & O5 & O6).
  repeat split; try assumption. now apply triangleArea_pos.
Qed.

Lemma polygon_area_of_triangle_witness :
  0 < Vector3.lengthSq (Vector3.cross (Vector3.sub (vec3 1 0 0) (vec3 0 0 0))
                                      (Vector3.sub (vec3 0 1 0) (vec3 0 0 0)))
  /\ calculatePolygonArea [vec3 0 1 0; vec3 1 0 0; vec3 0 0 0]
     = triangleArea (vec3 0 0 0) (vec3 1 0 0) (vec3 0 1 0).
Proof.
  assert (H : 0 < Vector3.lengthSq (Vector3.cross (Vector3.sub (vec3 1 0 0) (vec3 0 0 0))
                                      (Vector3.sub (vec3 0 1 0) (vec3 0 0 0)))).
  { unfold Vector3.lengthSq, Vector3.cross, Vector3.crossVectors, Vector3.sub; simpl. lra. }
  split; [exact H|].
  exact (proj1 (proj2 (proj2 (proj2 (proj2
           (polygon_area_of_triangle (vec3 0 0 0) (vec3 1 0 0) (vec3 0 1 0) H)))))).
Defined.

Lemma faceOfGroup_Some (triangles : list (option Triangle)) (group : list nat) (f : Face) :
  faceOfGroup triangles group = Some f ->
  0 < face_area f
  /\ face_area f = calculatePolygonArea (face_vertices f)
  /\ (3 <= List.length (face_vertices f))%nat
  /\ exists i rest t,
       group = i :: rest /\ nth i triangles None = Some t
       /\ face_normal f = normal t
       /\ face_vertices f
          = orderVertices (normal t)
              (uniqueVerticesOf (omap (fun j => nth j triangles None) group)).
Proof.
  unfold faceOfGroup. destruct group as [|i rest]; [discriminate|].
  destruct (nth i triangles None) as [t|] eqn:Ht; [|discriminate].
  destruct (Rgtb _ 0) eqn:E; [|discriminate].
  intros [= <-]. cbn [face_area face_vertices face_normal].
  apply Rgtb_true in E.
  split; [exact (Rgt_lt _ _ E)|]. split; [reflexivity|]. split.
  - destruct (Nat.le_gt_cases 3 (List.length
      (orderVertices (normal t)
         (uniqueVerticesOf (omap (fun j => nth j triangles None) (i :: rest))))))
      as [Hle|Hlt]; [exact Hle|].
    rewrite calculatePolygonArea_short in E by exact Hlt. lra.
  - exists i, rest, t. auto.
Qed.

Lemma omap_Forall {A B : Type} (f : A -> option B) (P : B -> Prop) (l : list A) :
  (forall a b, f a = Some b -> P b) -> Forall P (omap f l).
Proof.
  intros H. induction l as [|a l IH]; cbn [omap list_omap]; [constructor|].
  destruct (f a) as [b|] eqn:E; [constructor; eauto | exact IH].
Qed.

(** X3: the faces come sorted by area, largest first; each has a positive
    area, which is the polygon area of its vertices, and at least three
    vertices. *)
Theorem faces_sorted_and_positive (object : option Object3D) :
  StronglySorted largerOrEqualArea (getFacesWithAreas object)
  /\ Forall (fun f => 0 < face_area f
                      /\ face_area f = calculatePolygonArea (face_vertices f)
                      /\ (3 <= List.length (face_vertices f))%nat)
            (getFacesWithAreas object).
Proof.
  unfold getFacesWithAreas.
  destruct object as [o|]; [|split; constructor].
  destruct (isMesh o); cbn [negb]; [|split; constructor].
  destruct (geometry o) as [g|]; [|split; constructor].
  destruct (positionAttribute g) as [ps|]; [|split; constructor].
  set (triangles := buildTriangles o ps (indexAttribute g)).
  set (faces := omap (faceOfGroup triangles) (groupTriangles triangles)).
  split.
  - pose proof (sortByKey_sorted (fun f => - face_area f) faces) as Hs.
    induction Hs as [|f l Hs IH Hall]; constructor; [exact IH|].
    eapply Forall_impl; [exact Hall|]. unfold largerOrEqualArea. simpl. intros g0 Hg. lra.
  - rewrite (sortByKey_perm (fun f => - face_area f) faces).
    apply omap_Forall. intros group f Hf.
    destruct (faceOfGroup_Some triangles group f Hf) as (H1 & H2 & H3 & _). auto.
Qed.

Lemma omap_length_le {A B : Type} (f : A -> option B) (l : list A) :
  (List.length (omap f l) <= List.length l)%nat.
Proof.
  induction l as [|a l IH]; [simpl; lia|].
  change (omap f (a :: l)) with (match f a with Some y => y :: omap f l | None => omap f l end).
  destruct (f a); simpl; lia.
Qed.

Lemma concat_length_ge {A : Type} (ls : list (list A)) :
  Forall (fun l => l <> []) ls -> (List.length ls <= List.length (concat ls))%nat.
Proof.
  induction 1 as [|l ls Hl _ IH]; simpl; [lia|].
  rewrite length_app. destruct l; [congruence|]. simpl. lia.
Qed.

Lemma groupTriangles_length (triangles : list (option Triangle)) :
  (List.length (groupTriangles triangles) <= List.length triangles)%nat.
Proof.
  unfold groupTriangles.
  destruct (outerLoop_spec triangles (List.length triangles) 0 ∅ eq_refl) as [P F].
  etransitivity; [apply concat_length_ge|].
  - eapply Forall_impl; [exact F|]. simpl. intros g (i & rest & -> & _). discriminate.
  - rewrite (Permutation_length P).
    etransitivity; [apply length_filter|]. now rewrite length_seq.
Qed.

Lemma buildTriangles_length (o : Object3D) (ps : list Vector3.t) (index : option (list nat)) :
  List.length (buildTriangles o ps index)
  = match index with
    | Some idx => Nat.div (List.length idx + 2) 3
    | None => Nat.div (List.length ps + 2) 3
    end.
Proof.
  unfold buildTriangles, strideStarts.
  destruct index; now rewrite !length_map, length_seq.
Qed.

(** X4: no face without triangles: a missing object, a node that is not a
    mesh, a mesh without geometry or position attribute, or with empty
    buffers, gives the empty list; and there are never more faces than
    triangles. *)
Theorem faces_at_most_triangles :
  getFacesWithAreas None = []
  /\ (forall o : Object3D,
        (List.length (getFacesWithAreas (Some o)) <= triangleCount o)%nat)
  /\ (forall o : Object3D, triangleCount o = 0%nat -> getFacesWithAreas (Some o) = []).
Proof.
  assert (B : forall o : Object3D,
             (List.length (getFacesWithAreas (Some o)) <= triangleCount o)%nat).
  { intros o. unfold getFacesWithAreas, triangleCount.
    destruct (isMesh o); cbn [negb]; [|simpl; lia].
    destruct (geometry o) as [g|]; [|simpl; lia].
    destruct (positionAttribute g) as [ps|]; [|simpl; lia].
    rewrite (Permutation_length (sortByKey_perm _ _)).
    etransitivity; [apply omap_length_le|].
    etransitivity; [apply groupTriangles_length|].
    now rewrite buildTriangles_length. }
  split; [reflexivity|]. split; [exact B|].
  intros o H0. specialize (B o). rewrite H0 in B.
  destruct (getFacesWithAreas (Some o)); [reflexivity | simpl in B; lia].
Qed.

Lemma faces_at_most_triangles_witness :
  triangleCount (plainNode 5 false true None []) = 0%nat
  /\ getFacesWithAreas (Some (plainNode 5 false true None [])) = [].
Proof.
  split; [reflexivity|].
  exact (proj2 (proj2 faces_at_most_triangles) (plainNode 5 false true None []) eq_refl).
Defined.

(** The values of the vertex map are vertices that were put in. *)
Lemma mapSet_values (key : string) (v : Vector3.t) (m : list (string * Vector3.t)) :
  forall x, x ∈ map snd (mapSet key v m) -> x = v \/ x ∈ map snd m.
Proof.
  induction m as [|[k w] m IH]; simpl; intros x Hx.
  - apply elem_of_cons in Hx as [->|Hx]; [now left | inversion Hx].
  - destruct (String.eqb k key); simpl in Hx.
    + apply elem_of_cons in Hx as [->|Hx]; [now left | right; now right].
    + apply elem_of_cons in Hx as [->|Hx]; [right; now left|].
      destruct (IH x Hx) as [?|?]; [now left | right; now right].
Qed.

Lemma uniqueVerticesOf_subset (ts : list Triangle) :
  forall x, x ∈ uniqueVerticesOf ts -> x ∈ flat_map vertices ts.
Proof.
  unfold uniqueVerticesOf.
  assert (G : forall (vs : list Vector3.t) (m : list (string * Vector3.t)) x,
             x ∈ map snd (fold_left (fun m v => mapSet (vertexKey v) v m) vs m) ->
             x ∈ vs \/ x ∈ map snd m).
  { induction vs as [|v vs IH]; intros m x Hx; simpl in *; [now right|].
    destruct (IH _ _ Hx) as [?|Hm]; [left; now right|].
    destruct (mapSet_values _ _ _ _ Hm) as [->|?]; [left; now left | now right]. }
  intros x Hx. destruct (G _ _ _ Hx) as [?|Hm]; [assumption | inversion Hm].
Qed.

Lemma triangleAt_vertices (ps : list Vector3.t) (m : Matrix4.t) (ia ib ic : option nat)
    (t : Triangle) :
  triangleAt ps m ia ib ic = Some t ->
  forall v, v ∈ vertices t -> v ∈ map (fun p => applyMatrix4 p m) ps.
Proof.
  unfold triangleAt.
  assert (F : forall i w, option_map (fun v => applyMatrix4 v m) (i ≫= nth_error ps) = Some w ->
                          w ∈ map (fun p => applyMatrix4 p m) ps).
  { intros [i|] w; simpl; [|discriminate].
    destruct (nth_error ps i) as [p|] eqn:E; simpl; [|discriminate].
    intros [= <-]. apply list_elem_of_fmap. exists p. split; [reflexivity|].
    apply list_elem_of_In. eapply nth_error_In; eassumption. }
  destruct (option_map _ (ia ≫= _)) as [vA|] eqn:EA; [|discriminate].
  destruct (option_map _ (ib ≫= _)) as [vB|] eqn:EB; [|discriminate].
  destruct (option_map _ (ic ≫= _)) as [vC|] eqn:EC; [|discriminate].
  cbn [mbind option_bind]. intros [= <-] v Hv. cbn [vertices] in Hv.
  apply elem_of_cons in Hv as [->|Hv]; [exact (F ia _ EA)|].
  apply elem_of_cons in Hv as [->|Hv]; [exact (F ib _ EB)|].
  apply elem_of_cons in Hv as [->|Hv]; [exact (F ic _ EC)|].
  inversion Hv.
Qed.

Lemma buildTriangles_vertices (o : Object3D) (ps : list Vector3.t)
    (index : option (list nat)) (j : nat) (t : Triangle) :
  nth j (buildTriangles o ps index) None = Some t ->
  forall v, v ∈ vertices t -> v ∈ worldVertices o ps.
Proof.
  intros Hn.
  assert (Hin : Some t ∈ buildTriangles o ps index).
  { destruct (Nat.lt_ge_cases j (List.length (buildTriangles o ps index))) as [Hlt|Hge].
    - rewrite <- Hn. apply list_elem_of_In. now apply nth_In.
    - rewrite nth_overflow in Hn by exact Hge. discriminate. }
  unfold buildTriangles in Hin.
  destruct index as [idx|]; apply list_elem_of_fmap in Hin as (i & Ht & _);
    symmetry in Ht; exact (triangleAt_vertices _ _ _ _ _ _ Ht).
Qed.

(** X5: the merger invents no vertex: every vertex of every face is a world
    vertex of the mesh (an entry of the position attribute moved by the
    node's world matrix). *)
Theorem face_vertices_come_from_mesh (o : Object3D) (g : BufferGeometry)
    (ps : list Vector3.t) :
  geometry o = Some g -> positionAttribute g = Some ps ->
  Forall (fun f => Forall (fun v => v ∈ worldVertices o ps) (face_vertices f))
         (getFacesWithAreas (Some o)).
Proof.
  intros Hg Hp. unfold getFacesWithAreas. rewrite Hg, Hp.
  destruct (isMesh o); cbn [negb]; [|constructor].
  set (triangles := buildTriangles o ps (indexAttribute g)).
  rewrite (sortByKey_perm _ _).
  apply omap_Forall. intros group f Hf.
  destruct (faceOfGroup_Some triangles group f Hf) as (_ & _ & _ & i & rest & t & _ & _ & _ & Hv).
  rewrite Hv, Forall_forall. intros v Hin.
  rewrite (orderVertices_perm _ _) in Hin.
  apply uniqueVerticesOf_subset in Hin.
  apply list_elem_of_In, in_flat_map in Hin as (t' & Ht' & Hvt).
  apply list_elem_of_In, list_elem_of_omap in Ht' as (j & _ & Hj).
  apply list_elem_of_In in Hvt.
  exact (buildTriangles_vertices o ps (indexAttribute g) j t' Hj v Hvt).
Qed.

Lemma face_vertices_come_from_mesh_witness :
  Forall (fun f => Forall (fun v => v ∈ worldVertices fanSquare fanPositions)
                          (face_vertices f))
         (getFacesWithAreas (Some fanSquare)).
Proof.
  exact (face_vertices_come_from_mesh fanSquare (mkGeometry (Some fanPositions) None)
           fanPositions eq_refl eq_refl).
Defined.

(** ** Time of day *)

Lemma Math_floor_bounds (x : R) : IZR (Math_floor x) <= x < IZR (Math_floor x) + 1.
Proof.
  unfold Math_floor. rewrite minus_IZR. destruct (archimed x) as [H1 H2]. lra.
Qed.

Lemma Math_floor_le (x : R) (z : Z) : x < IZR z + 1 -> (Math_floor x <= z)%Z.
Proof.
  intros H. destruct (Math_floor_bounds x) as [H1 _].
  apply Z.lt_succ_r, lt_IZR. rewrite succ_IZR. lra.
Qed.

Lemma Math_floor_ge (x : R) (z : Z) : IZR z <= x -> (z <= Math_floor x)%Z.
Proof.
  intros H. destruct (Math_floor_bounds x) as [_ H2].
  apply Z.lt_succ_r, lt_IZR. rewrite succ_IZR. lra.
Qed.

(** X6: the display undoes the time field: when the handler of [timeInput]
    accepts hours [h] and minutes [m] and turns them into decimal hours,
    [updateTimeDisplay] on that value shows [h] and [m] again. *)
Theorem time_display_round_trip (h m : Z) (d : R) :
  timeInputChange (Some h) (Some m) = Some d ->
  displayHours d = h /\ displayMinutes d = m
  /\ updateTimeDisplay d = padStart2 h +:+ ":" +:+ padStart2 m.
Proof.
  unfold timeInputChange. intros H.
  destruct ((0 <=? h) && (h <=? 23) && (0 <=? m) && (m <=? 59))%Z eqn:E; [|discriminate].
  injection H as <-.
  apply andb_prop in E as [E E4]. apply andb_prop in E as [E E3].
  apply andb_prop in E as [E1 E2].
  apply Z.leb_le in E1, E2, E3, E4.
  apply IZR_le in E3 as E3r. apply IZR_le in E4 as E4r.
  assert (Hh : displayHours (IZR h + IZR m / 60) = h).
  { apply Math_floor_eq. lra. }
  assert (Hm : displayMinutes (IZR h + IZR m / 60) = m).
  { unfold displayMinutes, Math_round. rewrite Hh. apply Math_floor_eq. lra. }
  unfold updateTimeDisplay. now rewrite Hh, Hm.
Qed.

Lemma time_display_round_trip_witness :
  timeInputChange (Some 14%Z) (Some 30%Z) = Some (IZR 14 + IZR 30 / 60)
  /\ updateTimeDisplay (IZR 14 + IZR 30 / 60) = "14:30"%string.
Proof.
  split; [reflexivity|].
  exact (proj2 (proj2 (time_display_round_trip 14 30 (IZR 14 + IZR 30 / 60) eq_refl))).
Defined.

(** X7: the minutes shown are between 0 and 60; 60 is shown exactly in the
    last half minute of an hour; and a slider value, a whole number of
    hundredths of an hour, never shows more than 59. *)
Theorem display_minutes_range :
  (forall d : R, (0 <= displayMinutes d <= 60)%Z)
  /\ (forall d : R, displayMinutes d = 60%Z <-> 119 / 120 <= d - IZR (displayHours d))
  /\ (forall k : Z, (displayMinutes (IZR k / 100) <= 59)%Z).
Proof.
  assert (F : forall d, 0 <= d - IZR (displayHours d) < 1).
  { intros d. unfold displayHours. pose proof (Math_floor_bounds d). lra. }
  split; [|split].
  - intros d. specialize (F d). unfold displayMinutes, Math_round. split.
    + apply Math_floor_ge. lra.
    + apply Math_floor_le. lra.
  - intros d. specialize (F d). unfold displayMinutes, Math_round. split.
    + intros E. pose proof (Math_floor_bounds ((d - IZR (displayHours d)) * 60 + 1 / 2)) as B.
      rewrite E in B. lra.
    + intros H. apply Math_floor_eq. lra.
  - intros k. unfold displayMinutes, Math_round.
    assert (Hh : displayHours (IZR k / 100) = (k / 100)%Z).
    { apply Math_floor_eq.
      pose proof (Z.div_mod k 100 ltac:(lia)) as E.
      pose proof (Z.mod_pos_bound k 100 ltac:(lia)) as [B1 B2].
      assert (Ek : IZR k = 100 * IZR (k / 100) + IZR (k mod 100)).
      { rewrite E at 1. now rewrite plus_IZR, mult_IZR. }
      apply IZR_le in B1. apply IZR_lt in B2. lra. }
    rewrite Hh. apply Math_floor_le.
    pose proof (Z.div_mod k 100 ltac:(lia)) as E.
    pose proof (Z.mod_pos_bound k 100 ltac:(lia)) as [B1 B2].
    assert (Ek : IZR k = 100 * IZR (k / 100) + IZR (k mod 100)).
    { rewrite E at 1. now rewrite plus_IZR, mult_IZR. }
    assert (B3 : (k mod 100 <= 99)%Z) by lia.
    apply IZR_le in B1. apply IZR_le in B3. lra.
Qed.

(** ** Sun position *)

Lemma position_setPosition (p : Vector3.t) (o : Object3D) : position (setPosition p o) = p.
Proof. reflexivity. Qed.

Lemma sunLightPosition_lengthSq (s : SunPos) :
  Vector3.lengthSq (sunLightPosition s) = 100 * 100.
Proof.
  unfold sunLightPosition, Vector3.lengthSq. cbn [Vector3.x Vector3.y Vector3.z].
  pose proof (sin2_cos2 (altitude s)) as Ha.
  pose proof (sin2_cos2 (azimuth s + PI)) as Hz.
  unfold Rsqr in Ha, Hz. nsatz.
Qed.

(** X8: the sun light sits on the sphere of radius 100 about the origin, at
    [(-100 cos(alt) sin(az), -100 cos(alt) cos(az), 100 sin(alt))]; before a
    model is loaded (or with an empty model box) the light is therefore 100
    away from its target. *)
Theorem sun_light_on_sphere (s : SunPos) :
  Vector3.length (sunLightPosition s) = 100
  /\ sunLightPosition s
     = vec3 (- (100 * cos (altitude s) * sin (azimuth s)))
            (- (100 * cos (altitude s) * cos (azimuth s)))
            (100 * sin (altitude s))
  /\ forall dl : DirectionalLight,
       distanceTo (position (light (updateSunPosition s None dl)))
                  (position (target (updateSunPosition s None dl))) = 100.
Proof.
  assert (L : Vector3.length (sunLightPosition s) = 100).
  { unfold Vector3.length. rewrite sunLightPosition_lengthSq.
    apply sqrt_square. lra. }
  split; [exact L|]. split.
  - unfold sunLightPosition. rewrite neg_sin, neg_cos. f_equal; ring.
  - intros dl. unfold updateSunPosition. cbn [light target].
    rewrite !position_setPosition. unfold distanceTo, sunTarget.
    replace (Vector3.sub (sunLightPosition s) (vec3 0 0 0)) with (sunLightPosition s);
      [exact L|].
    unfold Vector3.sub. destruct (sunLightPosition s); simpl. f_equal; ring.
Qed.

(** X9: with a model box that is not empty, the shadow camera gets a square
    frustum, symmetric about the light axis, of side 1.5 times the largest
    dimension of the box; its near plane is never closer than 0.1 and its far
    plane lies three quarters of that side behind the box centre. *)
Theorem shadow_camera_frustum (lightPosition : Vector3.t) (b : Box3.t)
    (lightCamera : ShadowCamera) :
  Box3.isEmpty b = false ->
  let c := updateShadowCamera lightPosition (Some b) lightCamera in
  let side := 1.5 * maxDim (Box3.getSize b) in
  0 <= side
  /\ cam_right c = side / 2 /\ cam_left c = - cam_right c
  /\ cam_top c = side / 2 /\ cam_bottom c = - cam_top c
  /\ 0.1 <= cam_near c
  /\ cam_far c = distanceTo lightPosition (Box3.getCenter b) + 0.75 * side
  /\ cam_far c - cam_near c <= 1.5 * side.
Proof.
  intros He. cbv zeta. unfold updateShadowCamera. rewrite He. cbn [negb].
  cbn [cam_left cam_right cam_top cam_bottom cam_near cam_far].
  unfold maxDim.
  set (M := Math_max3 _ _ _).
  assert (HM : 0 <= M).
  { subst M. destruct b as [[lo hi]|]; [|discriminate].
    unfold Box3.getSize. rewrite He. unfold Box3.isEmpty in He.
    apply orb_false_elim in He as [He Hz]. apply orb_false_elim in He as [Hx Hy].
    apply Rltb_false in Hx. unfold Math_max3, Vector3.subVectors, Vector3.sub.
    cbn [Vector3.x Vector3.y Vector3.z].
    pose proof (Rmax_l (Rmax (Vector3.x hi - Vector3.x lo) (Vector3.y hi - Vector3.y lo))
                       (Vector3.z hi - Vector3.z lo)).
    pose proof (Rmax_l (Vector3.x hi - Vector3.x lo) (Vector3.y hi - Vector3.y lo)).
    lra. }
  repeat split; try lra.
  - destruct (Rltb _ _) eqn:E; [lra|]. apply Rltb_false in E. lra.
  - destruct (Rltb _ _) eqn:E; [|lra]. apply Rltb_true in E. lra.
Qed.

Lemma shadow_camera_frustum_witness :
  0.1 <= cam_near (updateShadowCamera (vec3 0 0 100)
                     (Some (Some (vec3 0 0 0, vec3 10 4 2)))
                     (mkShadowCamera 0 0 0 0 0 0)).
Proof.
  assert (He : Box3.isEmpty (Some (vec3 0 0 0, vec3 10 4 2)) = false).
  { unfold Box3.isEmpty. cbn [Vector3.x Vector3.y Vector3.z].
    rewrite !(proj2 (Rltb_false _ _)) by lra. reflexivity. }
  exact (proj1 (proj2 (proj2 (proj2 (proj2 (proj2
           (shadow_camera_frustum (vec3 0 0 100) (Some (vec3 0 0 0, vec3 10 4 2))
              (mkShadowCamera 0 0 0 0 0 0) He))))))).
Defined.

(** ** Dragging *)

Lemma dragPlaneNormal_cases (cameraDirection cameraPosition p : Vector3.t) :
  exists (a : Vector3.t) (c : R),
    (a = vec3 1 0 0 /\ c = Vector3.x cameraDirection
     \/ a = vec3 0 1 0 /\ c = Vector3.y cameraDirection
     \/ a = vec3 0 0 1 /\ c = Vector3.z cameraDirection)
    /\ Rabs (Vector3.x cameraDirection) <= Rabs c
    /\ Rabs (Vector3.y cameraDirection) <= Rabs c
    /\ Rabs (Vector3.z cameraDirection) <= Rabs c
    /\ (dragPlaneNormal cameraDirection cameraPosition p = a
        /\ 0 <= Vector3.dot a (Vector3.sub cameraPosition p)
        \/ dragPlaneNormal cameraDirection cameraPosition p = Vector3.negate a
           /\ Vector3.dot a (Vector3.sub cameraPosition p) < 0).
Proof.
  unfold dragPlaneNormal.
  set (ax := Rabs (Vector3.x cameraDirection)).
  set (ay := Rabs (Vector3.y cameraDirection)).
  set (az := Rabs (Vector3.z cameraDirection)).
  assert (S : forall a : Vector3.t,
             (if Rltb (Vector3.dot a (Vector3.sub cameraPosition p)) 0
              then Vector3.negate a else a) = a
             /\ 0 <= Vector3.dot a (Vector3.sub cameraPosition p)
             \/ (if Rltb (Vector3.dot a (Vector3.sub cameraPosition p)) 0
                 then Vector3.negate a else a) = Vector3.negate a
                /\ Vector3.dot a (Vector3.sub cameraPosition p) < 0).
  { intros a. destruct (Rltb _ _) eqn:E.
    - right. split; [reflexivity|]. now apply Rltb_true in E.
    - left. split; [reflexivity|]. now apply Rltb_false in E. }
  destruct (Rgeb ay ax && Rgeb ay az) eqn:E1.
  { apply andb_prop in E1 as [H1 H2]. apply Rgeb_true in H1, H2.
    exists (vec3 0 1 0), (Vector3.y cameraDirection).
    split; [auto|]. fold ay. repeat split; try lra. apply S. }
  destruct (Rgeb az ax && Rgeb az ay) eqn:E2.
  { apply andb_prop in E2 as [H1 H2]. apply Rgeb_true in H1, H2.
    exists (vec3 0 0 1), (Vector3.z cameraDirection).
    split; [auto|]. fold az. repeat split; try lra. apply S. }
  exists (vec3 1 0 0), (Vector3.x cameraDirection).
  split; [auto|]. fold ax.
  assert (K1 : ay < ax \/ ay < az).
  { apply andb_false_iff in E1 as [K|K]; apply Rgeb_false in K; lra. }
  assert (K2 : az < ax \/ az < ay).
  { apply andb_false_iff in E2 as [K|K]; apply Rgeb_false in K; lra. }
  repeat split; try lra. apply S.
Qed.

(** X10: the drag plane is perpendicular to a coordinate axis, the one the
    camera looks along most; its normal is turned towards the camera; and the
    plane passes through the given point. *)
Theorem drag_plane_choice (cameraDirection cameraPosition p : Vector3.t) :
  let n := dragPlaneNormal cameraDirection cameraPosition p in
  (n = vec3 1 0 0 \/ n = vec3 (-1) 0 0 \/ n = vec3 0 1 0 \/ n = vec3 0 (-1) 0
   \/ n = vec3 0 0 1 \/ n = vec3 0 0 (-1))
  /\ 0 <= Vector3.dot n (Vector3.sub cameraPosition p)
  /\ Rabs (Vector3.x cameraDirection) <= Rabs (Vector3.dot n cameraDirection)
  /\ Rabs (Vector3.y cameraDirection) <= Rabs (Vector3.dot n cameraDirection)
  /\ Rabs (Vector3.z cameraDirection) <= Rabs (Vector3.dot n cameraDirection)
  /\ distanceToPoint (setFromNormalAndCoplanarPoint n p) p = 0.
Proof.
  cbv zeta.
  destruct (dragPlaneNormal_cases cameraDirection cameraPosition p)
    as (a & c & Ha & Bx & By & Bz & Hn).
  assert (Hneg : forall v w, Vector3.dot (Vector3.negate v) w = - Vector3.dot v w).
  { intros v w. unfold Vector3.dot, Vector3.negate; simpl. ring. }
  assert (Hc : Vector3.dot a cameraDirection = c).
  { destruct Ha as [ [-> ->] | [ [-> ->] | [-> ->] ] ]; unfold Vector3.dot; simpl; ring. }
  assert (Hax : (a = vec3 1 0 0 \/ a = vec3 0 1 0 \/ a = vec3 0 0 1)) by tauto.
  assert (N0 : Vector3.negate (vec3 1 0 0) = vec3 (-1) 0 0
               /\ Vector3.negate (vec3 0 1 0) = vec3 0 (-1) 0
               /\ Vector3.negate (vec3 0 0 1) = vec3 0 0 (-1)).
  { unfold Vector3.negate; simpl. repeat split; f_equal; ring. }
  destruct N0 as (Nx & Ny & Nz).
  split; [|split; [|split; [|split; [|split]]]].
  - destruct Hn as [ [-> _] | [-> _] ].
    + tauto.
    + destruct Hax as [-> | [-> | ->] ]; rewrite ?Nx, ?Ny, ?Nz; tauto.
  - destruct Hn as [ [-> H] | [-> H] ]; [exact H|]. rewrite Hneg. lra.
  - destruct Hn as [ [-> _] | [-> _] ]; rewrite ?Hneg, ?Rabs_Ropp, Hc; exact Bx.
  - destruct Hn as [ [-> _] | [-> _] ]; rewrite ?Hneg, ?Rabs_Ropp, Hc; exact By.
  - destruct Hn as [ [-> _] | [-> _] ]; rewrite ?Hneg, ?Rabs_Ropp, Hc; exact Bz.
  - unfold distanceToPoint, setFromNormalAndCoplanarPoint. cbn [plane_normal plane_constant].
    unfold Vector3.dot. ring.
Qed.

Lemma distanceToPlane_spec (ray : Ray) (plane : Plane) (t : R) :
  distanceToPlane ray plane = Some t ->
  0 <= t
  /\ distanceToPoint plane
       (Vector3.add (origin ray) (Vector3.multiplyScalar (direction ray) t)) = 0.
Proof.
  unfold distanceToPlane, distanceToPoint.
  destruct ray as [[ox oy oz] [dx dy dz]], plane as [[nx ny nz] c].
  cbn [origin direction plane_normal plane_constant].
  unfold Vector3.dot, Vector3.add, Vector3.multiplyScalar.
  cbn [Vector3.x Vector3.y Vector3.z].
  destruct (Reqb (nx * dx + ny * dy + nz * dz) 0) eqn:E.
  - destruct (Reqb (nx * ox + ny * oy + nz * oz + c) 0) eqn:E0; [|discriminate].
    intros [= <-]. apply Reqb_true in E0. split; [lra|].
    etransitivity; [|exact E0]. ring.
  - destruct (Rgeb _ 0) eqn:G; [|discriminate].
    intros [= <-]. apply Rgeb_true in G. split; [lra|].
    assert (Hd : nx * dx + ny * dy + nz * dz <> 0).
    { intro K. unfold Reqb in E. destruct (Req_dec_T _ 0); [discriminate | contradiction]. }
    field. exact Hd.
Qed.

Lemma intersectPlane_distance (ray : Ray) (plane : Plane) (p : Vector3.t) :
  intersectPlane ray plane = Some p -> distanceToPoint plane p = 0.
Proof.
  unfold intersectPlane.
  destruct (distanceToPlane ray plane) as [t|] eqn:E; [|discriminate].
  cbn [option_map]. intros [= <-]. exact (proj2 (distanceToPlane_spec ray plane t E)).
Qed.

(** X11: a point answered by [intersectPlane] lies on the plane, and on the
    ray at a distance parameter that is not negative. *)
Theorem intersectPlane_on_plane (ray : Ray) (plane : Plane) (p : Vector3.t) :
  intersectPlane ray plane = Some p ->
  distanceToPoint plane p = 0
  /\ exists t : R,
       0 <= t
       /\ p = Vector3.add (origin ray) (Vector3.multiplyScalar (direction ray) t).
Proof.
  unfold intersectPlane.
  destruct (distanceToPlane ray plane) as [t|] eqn:E; [|discriminate].
  cbn [option_map]. intros [= <-].
  destruct (distanceToPlane_spec ray plane t E) as [Ht Hd].
  split; [exact Hd|]. exists t. split; [exact Ht | reflexivity].
Qed.

(** A pointer ray looking down the z axis meets the plane z = 3. *)
Lemma intersectPlane_example (a b : R) :
  intersectPlane (mkRay (vec3 a b 10) (vec3 0 0 (-1))) (mkPlane (vec3 0 0 1) (- 3))
  = Some (vec3 a b 3).
Proof.
  unfold intersectPlane, distanceToPlane.
  cbn [origin direction plane_normal plane_constant].
  unfold Vector3.dot. cbn [Vector3.x Vector3.y Vector3.z].
  assert (E : Reqb (0 * 0 + 0 * 0 + 1 * -1) 0 = false).
  { unfold Reqb. destruct (Req_dec_T _ 0); [lra | reflexivity]. }
  rewrite E.
  replace (- (a * 0 + b * 0 + 10 * 1 + - 3) / (0 * 0 + 0 * 0 + 1 * -1)) with 7 by lra.
  rewrite (proj2 (Rgeb_true 7 0)) by lra.
  cbn [option_map]. unfold Vector3.add, Vector3.multiplyScalar.
  cbn [Vector3.x Vector3.y Vector3.z]. do 2 f_equal; lra.
Qed.

Lemma intersectPlane_on_plane_witness :
  distanceToPoint (mkPlane (vec3 0 0 1) (- 3)) (vec3 4 5 3) = 0.
Proof.
  exact (proj1 (intersectPlane_on_plane (mkRay (vec3 4 5 10) (vec3 0 0 (-1)))
                  (mkPlane (vec3 0 0 1) (- 3)) (vec3 4 5 3)
                  (intersectPlane_example 4 5))).
Defined.

(** The drag branch is the coordinate handler at the point under the
    pointer, less the drag offset. *)
Lemma onPointerMoveDrag_as_input (ray : Ray) (plane : Plane) (off p : Vector3.t)
    (pm : option Matrix4.t) (cached : option Vector3.t) (o : Object3D) :
  intersectPlane ray plane = Some p ->
  onPointerMoveDrag ray plane off pm cached o
  = onCoordInputChange pm cached o
      (Some (Vector3.x (Vector3.sub p off))) (Some (Vector3.y (Vector3.sub p off)))
      (Some (Vector3.z (Vector3.sub p off))).
Proof.
  intros E. unfold onPointerMoveDrag, onCoordInputChange. rewrite E.
  now destruct (Vector3.sub p off).
Qed.

(** The example node and its world bounding box. *)
Lemma movedPanel_node :
  movedPanel
  = mkObject3D 7 true false (vec3 1 2 3) Quaternion.identity (vec3 1 1 1)
               (Matrix4.mk (-1) 0 0 0  0 (-1) 0 0  0 0 1 0  1 (-2) 3 1)
               (Some (mkGeometry (Some [vec3 0 0 0; vec3 1 1 0]) None))
               panelMaterial true true [].
Proof.
  rewrite <- movedPanel_matrixWorld. reflexivity.
Qed.

Lemma movedPanel_box :
  setFromObject movedPanel = Some (vec3 0 (-3) 3, vec3 1 (-2) 3).
Proof.
  rewrite movedPanel_node. unfold setFromObject, Box3.makeEmpty.
  cbn [expandByObject geometry positionAttribute children fold_left matrixWorld].
  unfold applyMatrix4.
  cbn [Matrix4.e0 Matrix4.e1 Matrix4.e2 Matrix4.e3 Matrix4.e4 Matrix4.e5 Matrix4.e6
       Matrix4.e7 Matrix4.e8 Matrix4.e9 Matrix4.e10 Matrix4.e11 Matrix4.e12 Matrix4.e13
       Matrix4.e14 Matrix4.e15 Vector3.x Vector3.y Vector3.z Box3.expandByPoint].
  f_equal. f_equal; f_equal; unfold Rmin, Rmax; Rdecide; lra.
Qed.

Lemma movedPanel_center : bboxCenter movedPanel = vec3 0.5 (-2.5) 3.
Proof.
  unfold bboxCenter. rewrite movedPanel_box. unfold Box3.getCenter, Box3.isEmpty.
  cbn [Vector3.x Vector3.y Vector3.z].
  rewrite !(proj2 (Rltb_false _ _)) by lra. cbn [orb].
  unfold Vector3.multiplyScalar, Vector3.addVectors, Vector3.add.
  cbn [Vector3.x Vector3.y Vector3.z]. f_equal; lra.
Qed.

(** X12: the drag branch of [onPointerMove] is the set-position engine run
    on a requested centre, the point under the pointer minus the drag
    offset.  As a formula over the reals, with [p0] the point under the
    pointer when the drag plane was set up at the centre of the node and
    [p1] the point under the pointer now: the requested centre is the old
    centre plus [p1 - p0], it lies on the drag plane, and it is the old
    centre when the pointer has not moved. *)
Theorem drag_requests_pointer_displacement (cameraDirection cameraPosition : Vector3.t)
    (ray0 ray1 : Ray) (p0 p1 : Vector3.t)
    (pm : option Matrix4.t) (cached : option Vector3.t) (o : Object3D) :
  let plane := fst (setupDragPlane cameraDirection cameraPosition ray0 o (bboxCenter o)) in
  let off := snd (setupDragPlane cameraDirection cameraPosition ray0 o (bboxCenter o)) in
  intersectPlane ray0 plane = Some p0 ->
  intersectPlane ray1 plane = Some p1 ->
  let requested := Vector3.sub p1 off in
  onPointerMoveDrag ray1 plane off pm cached o
  = onCoordInputChange pm cached o (Some (Vector3.x requested))
      (Some (Vector3.y requested)) (Some (Vector3.z requested))
  /\ requested = Vector3.add (bboxCenter o) (Vector3.sub p1 p0)
  /\ distanceToPoint plane requested = 0
  /\ (p1 = p0 -> requested = bboxCenter o).
Proof.
  intros plane off H0 H1 requested.
  assert (Hoff : off = Vector3.sub p0 (bboxCenter o)).
  { subst off plane. unfold setupDragPlane in *. cbn [fst snd] in *. now rewrite H0. }
  assert (E : requested = Vector3.add (bboxCenter o) (Vector3.sub p1 p0)).
  { subst requested. rewrite Hoff. destruct p0, p1, (bboxCenter o).
    unfold Vector3.sub, Vector3.add; simpl. f_equal; ring. }
  split; [exact (onPointerMoveDrag_as_input _ _ _ _ _ _ _ H1)|].
  split; [exact E|]. split.
  - rewrite E.
    pose proof (intersectPlane_distance _ _ _ H0) as D0.
    pose proof (intersectPlane_distance _ _ _ H1) as D1.
    assert (Dc : distanceToPoint plane (bboxCenter o) = 0).
    { subst plane. unfold setupDragPlane. cbn [fst].
      unfold distanceToPoint, setFromNormalAndCoplanarPoint.
      cbn [plane_normal plane_constant]. unfold Vector3.dot. ring. }
    revert D0 D1 Dc. unfold distanceToPoint, Vector3.dot, Vector3.add, Vector3.sub.
    destruct p0, p1, (bboxCenter o), (plane_normal plane).
    cbn [Vector3.x Vector3.y Vector3.z]. intros. lra.
  - intros ->. rewrite E. destruct p0, (bboxCenter o).
    unfold Vector3.sub, Vector3.add; simpl. f_equal; ring.
Qed.

Lemma example_dragPlane (ray : Ray) :
  fst (setupDragPlane (vec3 0 0 (-1)) (vec3 0 0 10) ray movedPanel (bboxCenter movedPanel))
  = mkPlane (vec3 0 0 1) (- 3).
Proof.
  unfold setupDragPlane. cbn [fst]. rewrite movedPanel_center.
  unfold dragPlaneNormal. cbn [Vector3.x Vector3.y Vector3.z].
  replace (Rabs (-1)) with 1 by (unfold Rabs; destruct (Rcase_abs _); lra).
  rewrite Rabs_R0.
  rewrite (proj2 (Rgeb_true 0 0)) by lra.
  rewrite (proj2 (Rgeb_false 0 1)) by lra.
  rewrite (proj2 (Rgeb_true 1 0)) by lra.
  cbn [andb].
  unfold Vector3.dot, Vector3.sub. cbn [Vector3.x Vector3.y Vector3.z].
  rewrite (proj2 (Rltb_false _ 0)) by lra.
  unfold setFromNormalAndCoplanarPoint, Vector3.dot. cbn [Vector3.x Vector3.y Vector3.z].
  f_equal. lra.
Qed.

(** The theorem on the example node, seen from above: the pointer goes from
    the point over the centre to the point over (4, 5), and the centre asked
    for is the old centre moved by (3.5, 7.5, 0). *)
Lemma drag_requests_pointer_displacement_witness :
  let ray0 := mkRay (vec3 0.5 (-2.5) 10) (vec3 0 0 (-1)) in
  let ray1 := mkRay (vec3 4 5 10) (vec3 0 0 (-1)) in
  let setup :=
    setupDragPlane (vec3 0 0 (-1)) (vec3 0 0 10) ray0 movedPanel (bboxCenter movedPanel) in
  intersectPlane ray0 (fst setup) = Some (vec3 0.5 (-2.5) 3)
  /\ intersectPlane ray1 (fst setup) = Some (vec3 4 5 3)
  /\ Vector3.sub (vec3 4 5 3) (snd setup)
     = Vector3.add (bboxCenter movedPanel) (Vector3.sub (vec3 4 5 3) (vec3 0.5 (-2.5) 3)).
Proof.
  intros ray0 ray1 setup.
  assert (H5 : intersectPlane ray0 (fst setup) = Some (vec3 0.5 (-2.5) 3)).
  { subst setup. rewrite example_dragPlane. apply intersectPlane_example. }
  assert (H6 : intersectPlane ray1 (fst setup) = Some (vec3 4 5 3)).
  { subst setup. rewrite example_dragPlane. apply intersectPlane_example. }
  split; [exact H5|]. split; [exact H6|].
  exact (proj1 (proj2 (drag_requests_pointer_displacement (vec3 0 0 (-1)) (vec3 0 0 10)
                         ray0 ray1 (vec3 0.5 (-2.5) 3) (vec3 4 5 3)
                         (Some halfTurnParent) None movedPanel H5 H6))).
Defined.

(** ** The offset cache under moves *)

Lemma determinant_shift (d : Vector3.t) (m : Matrix4.t) :
  affine m -> Matrix4.determinant (shiftMatrix d m) = Matrix4.determinant m.
Proof.
  destruct m, d. unfold affine, shiftMatrix, Matrix4.determinant; simpl.
  intros (-> & -> & -> & ->). ring.
Qed.

Lemma worldQuaternion_shift (d : Vector3.t) (o : Object3D) :
  affine (matrixWorld o) ->
  getWorldQuaternion (shiftWorld d o) = getWorldQuaternion o.
Proof.
  intros Ha. unfold getWorldQuaternion.
  replace (matrixWorld (shiftWorld d o)) with (shiftMatrix d (matrixWorld o))
    by (destruct o; reflexivity).
  unfold decompose. cbn [d_quaternion].
  rewrite (determinant_shift d _ Ha).
  destruct (matrixWorld o); reflexivity.
Qed.

Lemma worldPosition_shift (d : Vector3.t) (o : Object3D) :
  getWorldPosition (shiftWorld d o) = Vector3.add (getWorldPosition o) d.
Proof. destruct o as [? ? ? ? ? ? mw ? ? ? ? ?]. destruct mw. reflexivity. Qed.

Lemma localBBoxOffset_shift (d : Vector3.t) (o : Object3D) :
  allAffine o -> setFromObject o <> None ->
  localBBoxOffset (shiftWorld d o) = localBBoxOffset o.
Proof.
  intros Ha Hb. unfold localBBoxOffset.
  assert (Hmw : affine (matrixWorld o)).
  { unfold allAffine in Ha. destruct o; simpl in Ha. now inversion Ha. }
  rewrite setFromObject_shift by exact Ha.
  rewrite getCenter_shift by (auto using setFromObject_ordered).
  rewrite worldPosition_shift, (worldQuaternion_shift d o Hmw).
  f_equal. destruct (Box3.getCenter _), (getWorldPosition o), d.
  unfold Vector3.sub, Vector3.add; simpl. f_equal; ring.
Qed.

Lemma localBBoxOffset_setPosition (p : Vector3.t) (o : Object3D) :
  localBBoxOffset (setPosition p o) = localBBoxOffset o.
Proof. destruct o. reflexivity. Qed.

Lemma worldQuaternion_setPosition (p : Vector3.t) (o : Object3D) :
  getWorldQuaternion (setPosition p o) = getWorldQuaternion o.
Proof. destruct o. reflexivity. Qed.

Lemma onCoordInputChange_None (cached : option Vector3.t) (o : Object3D)
    (x y z : option R) :
  onCoordInputChange None cached o x y z
  = onCoordInputChange (Some Matrix4.identity) cached o x y z.
Proof.
  unfold onCoordInputChange. destruct x, y, z; try reflexivity.
  now rewrite updateMatrixWorld_None_identity.
Qed.

(** The node after the handler: the node before, moved as a whole. *)
Lemma moved_node (m : Matrix4.t) (cached : option Vector3.t) (o : Object3D) (x y z : R) :
  affine m -> updateMatrixWorld (Some m) o = o ->
  exists p d,
    fst (onCoordInputChange (Some m) cached o (Some x) (Some y) (Some z))
    = setPosition p (shiftWorld d o).
Proof.
  intros Hm Hfresh. unfold onCoordInputChange. cbn [fst].
  eexists _, _. now apply moved_node_is_shifted.
Qed.



(** Moving a node that was moved before: the earlier position leaves no
    trace in the refreshed node. *)
Lemma updateMatrixWorld_setPosition_again (w w' : option Matrix4.t) (p q : Vector3.t)
    (o : Object3D) :
  updateMatrixWorld w (setPosition p (updateMatrixWorld w' (setPosition q o)))
  = updateMatrixWorld w (setPosition p o).
Proof.
  destruct o as [id m g p0 q0 s mw geo mat cast pan cs].
  cbn [updateMatrixWorld setPosition position quaternion scale uuid isMesh isGroup
       geometry material castShadow userData_is2DPanel children matrixWorld].
  f_equal. rewrite map_map. apply map_ext. intros c. apply updateMatrixWorld_idem.
Qed.

Lemma worldQuaternion_moved (m : Matrix4.t) (q : Vector3.t) (o : Object3D) :
  affine m -> updateMatrixWorld (Some m) o = o ->
  getWorldQuaternion (updateMatrixWorld (Some m) (setPosition q o)) = getWorldQuaternion o.
Proof.
  intros Hm Hfresh.
  rewrite (moved_node_is_shifted m o q Hm Hfresh), worldQuaternion_setPosition.
  apply worldQuaternion_shift.
  assert (Haff : allAffine o) by (eapply fresh_allAffine; eassumption).
  unfold allAffine in Haff. destruct o; simpl in Haff. now inversion Haff.
Qed.

(** A move from a node that was moved before, with the offset in the cache,
    is the move from the node as it was. *)
Lemma moveTo_moved (m : Matrix4.t) (q : Vector3.t) (c : Vector3.t) (o : Object3D)
    (w : Vector3.t) :
  affine m -> updateMatrixWorld (Some m) o = o ->
  moveTo (Some m) (updateMatrixWorld (Some m) (setPosition q o), Some c) w
  = moveTo (Some m) (o, Some c) w.
Proof.
  intros Hm Hfresh. unfold moveTo, onCoordInputChange. cbn [fst snd].
  rewrite (worldQuaternion_moved m q o Hm Hfresh).
  now rewrite updateMatrixWorld_setPosition_again.
Qed.

Lemma moves_moved (m : Matrix4.t) (c : Vector3.t) (o : Object3D)
    (ws : list Vector3.t) (w : Vector3.t) :
  affine m -> updateMatrixWorld (Some m) o = o ->
  forall q,
    moves (Some m) (updateMatrixWorld (Some m) (setPosition q o), Some c) (ws ++ [w])
    = moveTo (Some m) (o, Some c) w.
Proof.
  intros Hm Hfresh. unfold moves.
  induction ws as [|v ws IH]; intros q; cbn [app fold_left].
  - now apply moveTo_moved.
  - rewrite (moveTo_moved m q c o v Hm Hfresh).
    unfold moveTo at 2. unfold onCoordInputChange. cbn [fst snd]. apply IH.
Qed.

Lemma last_move_only (m : Matrix4.t) (cached : option Vector3.t) (o : Object3D)
    (ws : list Vector3.t) (w : Vector3.t) :
  affine m -> updateMatrixWorld (Some m) o = o ->
  moves (Some m) (o, cached) (ws ++ [w]) = moveTo (Some m) (o, cached) w.
Proof.
  intros Hm Hfresh. destruct ws as [|v ws]; [reflexivity|].
  unfold moves. cbn [app fold_left].
  unfold moveTo at 2. unfold onCoordInputChange. cbn [fst snd].
  fold (moves (Some m)
          (updateMatrixWorld (Some m)
             (setPosition
                (applyMatrix4
                   (Vector3.sub (vec3 (Vector3.x v) (Vector3.y v) (Vector3.z v))
                      (applyQuaternion
                         match cached with
                         | Some off => off
                         | None => localBBoxOffset o
                         end (getWorldQuaternion o)))
                   (Matrix4.invert m)) o),
           Some match cached with
                | Some off => off
                | None => localBBoxOffset o
                end) (ws ++ [w])).
  rewrite (moves_moved m _ o ws w Hm Hfresh).
  unfold moveTo, onCoordInputChange. cbn [fst snd]. now destruct cached.
Qed.

Lemma moves_None (st : Object3D * option Vector3.t) (ws : list Vector3.t) :
  moves None st ws = moves (Some Matrix4.identity) st ws.
Proof.
  unfold moves. revert st. induction ws as [|v ws IH]; intros st; [reflexivity|].
  cbn [fold_left]. rewrite IH. f_equal. unfold moveTo. apply onCoordInputChange_None.
Qed.

(** In binary64 arithmetic, on the example node under a rotated parent: three
    moves end where the last one alone ends. *)
Lemma binary64_last_move_example :
  B64.moves (Some B64.quarterTurnParent) (B64.tiltedBox, None)
            [B64.farPoint; B64.nearPoint; B64.midPoint]
  = B64.moveTo (Some B64.quarterTurnParent) (B64.tiltedBox, None) B64.midPoint.
Proof. vm_compute. reflexivity. Qed.

(** X14: the last move wins: when the handler is run once for each of a
    list of target points, on a node with fresh world matrices under no
    parent or an affine one, the node and its cache entry at the end are those
    the move to the last point alone gives, whatever the earlier points
    were.  The same holds in binary64 arithmetic on the example node. *)
Theorem last_move_wins (pm : option Matrix4.t) (cached : option Vector3.t)
    (o : Object3D) (ws : list Vector3.t) (w : Vector3.t) :
  match pm with Some m => affine m | None => True end ->
  updateMatrixWorld pm o = o ->
  moves pm (o, cached) (ws ++ [w]) = moveTo pm (o, cached) w
  /\ B64.moves (Some B64.quarterTurnParent) (B64.tiltedBox, None)
               [B64.farPoint; B64.nearPoint; B64.midPoint]
     = B64.moveTo (Some B64.quarterTurnParent) (B64.tiltedBox, None) B64.midPoint.
Proof.
  intros Hpm Hfresh. split; [|exact binary64_last_move_example].
  destruct pm as [m|]; [now apply last_move_only|].
  rewrite updateMatrixWorld_None_identity in Hfresh.
  rewrite moves_None. unfold moveTo. rewrite onCoordInputChange_None.
  apply (last_move_only Matrix4.identity cached o ws w identity_affine Hfresh).
Qed.

Lemma last_move_wins_witness :
  moves (Some halfTurnParent) (movedPanel, None) [vec3 5 6 7; vec3 0 0 0; vec3 1 2 3]
  = moveTo (Some halfTurnParent) (movedPanel, None) (vec3 1 2 3).
Proof.
  assert (H1 : affine halfTurnParent) by (unfold affine; simpl; auto).
  assert (H2 : updateMatrixWorld (Some halfTurnParent) movedPanel = movedPanel)
    by apply updateMatrixWorld_idem.
  exact (proj1 (last_move_wins (Some halfTurnParent) None movedPanel
                  [vec3 5 6 7; vec3 0 0 0] (vec3 1 2 3) H1 H2)).
Defined.

(** ** Load filter *)

(** The size of a box has no negative component. *)
Lemma getSize_nonneg (b : Box3.t) :
  0 <= Vector3.x (Box3.getSize b) /\ 0 <= Vector3.y (Box3.getSize b)
  /\ 0 <= Vector3.z (Box3.getSize b).
Proof.
  unfold Box3.getSize. destruct b as [[lo hi]|]; [|simpl; lra].
  destruct (Box3.isEmpty _) eqn:E; [simpl; lra|].
  unfold Box3.isEmpty in E.
  apply orb_false_elim in E as [E Hz]. apply orb_false_elim in E as [Hx Hy].
  apply Rltb_false in Hx, Hy, Hz.
  unfold Vector3.subVectors, Vector3.sub. cbn [Vector3.x Vector3.y Vector3.z]. lra.
Qed.

Lemma Math_max3_ge (a b c : R) :
  a <= Math_max3 a b c /\ b <= Math_max3 a b c /\ c <= Math_max3 a b c.
Proof.
  unfold Math_max3.
  pose proof (Rmax_l (Rmax a b) c). pose proof (Rmax_r (Rmax a b) c).
  pose proof (Rmax_l a b). pose proof (Rmax_r a b). lra.
Qed.

(** Boxes below 750 in every direction fail the test of the filter. *)
Lemma small_box_fails (x y z : R) :
  0 <= x < 750 -> 0 <= y < 750 -> 0 <= z < 750 ->
  x * y * z < MAX_VOLUME
  /\ (VOLUME_EPSILON < x * y * z ->
      MIN_SURFACE_AREA_TO_VOLUME_RATIO < 2 * (x * y + x * z + y * z) / (x * y * z)).
Proof.
  intros Hx Hy Hz. unfold MAX_VOLUME, VOLUME_EPSILON, MIN_SURFACE_AREA_TO_VOLUME_RATIO.
  assert (Hxy : 0 <= x * y) by nra.
  assert (Hxy' : x * y <= 750 * 750) by nra.
  split; [nra|].
  intros Hv.
  assert (Hpos : 0 < x * y * z) by lra.
  assert (Hx0 : 0 < x) by nra. assert (Hy0 : 0 < y) by nra. assert (Hz0 : 0 < z) by nra.
  apply Rmult_lt_reg_r with (x * y * z); [exact Hpos|].
  replace (2 * (x * y + x * z + y * z) / (x * y * z) * (x * y * z))
    with (2 * (x * y + x * z + y * z)) by (field; lra).
  assert (A1 : x * y * z < 750 * (x * y)) by nra.
  assert (A2 : x * y * z < 750 * (x * z)) by nra.
  assert (A3 : x * y * z < 750 * (y * z)) by nra.
  lra.
Qed.

(** X15: the load filter keeps only large meshes: a mesh that is not a 2D
    panel and whose geometry box is below 750 in every direction is removed;
    a mesh kept with the standard material has a geometry box of at least 750
    in some direction and of volume above 1e-9.  So every flat mesh that is
    not marked as a 2D panel is removed. *)
Theorem load_filter_keeps_only_large (mesh : Object3D) (g : BufferGeometry) :
  userData_is2DPanel mesh = false -> geometry mesh = Some g ->
  let size := Box3.getSize (computeBoundingBox g) in
  (maxDim size < 750 -> loadFilter mesh = Some Removed)
  /\ (loadFilter mesh = Some KeptAsStandard ->
      750 <= maxDim size /\ VOLUME_EPSILON < geometryVolume g)
  /\ (geometryVolume g = 0 -> loadFilter mesh = Some Removed).
Proof.
  intros Hp Hg size.
  destruct (getSize_nonneg (computeBoundingBox g)) as (Sx & Sy & Sz).
  fold size in Sx, Sy, Sz.
  destruct (Math_max3_ge (Vector3.x size) (Vector3.y size) (Vector3.z size))
    as (Mx & My & Mz).
  unfold loadFilter, geometryVolume. rewrite Hp, Hg. fold size. unfold maxDim.
  set (x := Vector3.x size) in *. set (y := Vector3.y size) in *.
  set (z := Vector3.z size) in *.
  assert (Small : Math_max3 x y z < 750 ->
                  (if Rltb (x * y * z) MAX_VOLUME
                      && match (if Rgtb (x * y * z) VOLUME_EPSILON
                                then Some (2 * (x * y + x * z + y * z) / (x * y * z))
                                else None) with
                         | Some r => Rgtb r MIN_SURFACE_AREA_TO_VOLUME_RATIO
                         | None => true
                         end
                   then Some Removed else Some KeptAsStandard) = Some Removed).
  { intros HM.
    destruct (small_box_fails x y z) as [V Rt]; try lra.
    rewrite (proj2 (Rltb_true _ _) V). cbn [andb].
    destruct (Rgtb (x * y * z) VOLUME_EPSILON) eqn:E; [|reflexivity].
    apply Rgtb_true in E. now rewrite (proj2 (Rgtb_true _ _) (Rt E)). }
  split; [exact Small|]. split.
  - intros K.
    destruct (Rlt_le_dec (Math_max3 x y z) 750) as [HM|HM];
      [rewrite (Small HM) in K; discriminate|].
    split; [exact HM|].
    destruct (Rgtb (x * y * z) VOLUME_EPSILON) eqn:E; [now apply Rgtb_true in E|].
    apply Rgtb_false in E.
    rewrite (proj2 (Rltb_true (x * y * z) MAX_VOLUME)) in K
      by (unfold MAX_VOLUME, VOLUME_EPSILON in *; lra).
    discriminate.
  - intros V0. rewrite V0.
    rewrite (proj2 (Rltb_true 0 MAX_VOLUME)) by (unfold MAX_VOLUME; lra).
    rewrite (proj2 (Rgtb_false 0 VOLUME_EPSILON)) by (unfold VOLUME_EPSILON; lra).
    reflexivity.
Qed.

Lemma load_filter_keeps_only_large_witness :
  geometryVolume (mkGeometry (Some [vec3 0 0 0; vec3 3 2 0]) None) = 0
  /\ loadFilter (boxMesh 2 3 2 0 false) = Some Removed.
Proof.
  assert (V : geometryVolume (mkGeometry (Some [vec3 0 0 0; vec3 3 2 0]) None) = 0).
  { unfold geometryVolume, computeBoundingBox.
    cbn [positionAttribute fold_left Box3.expandByPoint Box3.makeEmpty
         Vector3.x Vector3.y Vector3.z].
    unfold Box3.getSize.
    destruct (Box3.isEmpty _); unfold Vector3.subVectors, Vector3.sub, Vector3.zero;
      cbn [Vector3.x Vector3.y Vector3.z]; [ring|].
    replace (Rmax 0 0) with 0 by (unfold Rmax; destruct (Rle_dec 0 0); reflexivity).
    replace (Rmin 0 0) with 0 by (unfold Rmin; destruct (Rle_dec 0 0); reflexivity).
    ring. }
  split; [exact V|].
  exact (proj2 (proj2 (load_filter_keeps_only_large (boxMesh 2 3 2 0 false)
                         (mkGeometry (Some [vec3 0 0 0; vec3 3 2 0]) None)
                         eq_refl eq_refl)) V).
Defined.

(** ** Primary mesh of a group *)

Lemma primaryMeshCallback_step (done : list Object3D) (acc : PrimaryState)
    (child : Object3D) :
  primaryInvariant done acc ->
  (isMesh child = true -> geometry child <> None) ->
  exists acc', primaryMeshCallback (Some acc) child = Some acc'
               /\ primaryInvariant (done ++ [child]) acc'.
Proof.
  intros Hinv Hgeo. unfold primaryMeshCallback.
  destruct acc as [primaryMesh smallestVolume].
  destruct (isMesh child) eqn:Em.
  2:{ eexists. split; [reflexivity|].
      destruct primaryMesh as [m|], smallestVolume as [v|]; simpl in *; try contradiction.
      - destruct Hinv as (g & Hg & Hv & before & after & g' & Hl & Hm & Hg' & Hb & Ha).
        exists g. split; [exact Hg|]. split; [exact Hv|].
        exists before, (after ++ [child]), g'.
        split; [rewrite Hl; now rewrite <- app_assoc|].
        repeat split; try assumption.
        apply Forall_app. split; [exact Ha|]. constructor; [|constructor].
        intros K. congruence.
      - apply Forall_app. split; [exact Hinv|]. now constructor. }
  destruct (geometry child) as [gc|] eqn:Eg; [|now specialize (Hgeo eq_refl)].
  destruct primaryMesh as [m|], smallestVolume as [v|]; simpl in Hinv; try contradiction.
  - destruct Hinv as (g & Hg & Hv & before & after & g' & Hl & Hm & Hg' & Hb & Ha).
    assert (g' = g) by congruence. subst g' v.
    destruct (Rltb (geometryVolume gc) (geometryVolume g)) eqn:E.
    + apply Rltb_true in E. eexists. split; [reflexivity|].
      exists gc. split; [exact Eg|]. split; [reflexivity|].
      exists done, [], gc.
      split; [reflexivity|]. split; [exact Em|]. split; [exact Eg|].
      split; [|constructor].
      rewrite Hl. apply Forall_app. split; [|constructor].
      * eapply Forall_impl; [exact Hb|]. simpl. intros n Hn Kn gn Kg.
        specialize (Hn Kn gn Kg). lra.
      * intros _ gn Kg. assert (gn = g) by congruence. subst gn. exact E.
      * eapply Forall_impl; [exact Ha|]. simpl. intros n Hn Kn gn Kg.
        specialize (Hn Kn gn Kg). lra.
    + apply Rltb_false in E. eexists. split; [reflexivity|].
      exists g. split; [exact Hg|]. split; [reflexivity|].
      exists before, (after ++ [child]), g.
      split; [rewrite Hl; now rewrite <- app_assoc|].
      repeat split; try assumption.
      apply Forall_app. split; [exact Ha|]. constructor; [|constructor].
      intros _ gn Kg. assert (gn = gc) by congruence. subst gn. exact E.
  - eexists. split; [reflexivity|].
    exists gc. split; [exact Eg|]. split; [reflexivity|].
    exists done, [], gc.
    split; [reflexivity|]. split; [exact Em|]. split; [exact Eg|].
    split; [|constructor].
    eapply Forall_impl; [exact Hinv|]. simpl. intros n Hn Kn. congruence.
Qed.

Lemma primaryMesh_fold (l : list Object3D) :
  forall (done : list Object3D) (acc : PrimaryState),
    primaryInvariant done acc -> meshesHaveGeometry l ->
    exists acc', fold_left primaryMeshCallback l (Some acc) = Some acc'
                 /\ primaryInvariant (done ++ l) acc'.
Proof.
  induction l as [|c l IH]; intros done acc Hinv Hall.
  - exists acc. rewrite app_nil_r. now split.
  - inversion Hall as [|? ? Hc Hl]; subst.
    destruct (primaryMeshCallback_step done acc c Hinv Hc) as (acc1 & E1 & Hinv1).
    destruct (IH (done ++ [c]) acc1 Hinv1 Hl) as (acc' & E' & Hinv').
    exists acc'. cbn [fold_left]. rewrite E1. split; [exact E'|].
    now rewrite <- app_assoc in Hinv'.
Qed.

Lemma primaryMesh_throws (l : list Object3D) :
  forall acc, fold_left primaryMeshCallback l None = acc -> acc = None.
Proof. induction l as [|c l IH]; simpl; intros acc <-; [reflexivity | now apply IH]. Qed.

Lemma primaryMesh_fold_throws (l : list Object3D) :
  forall acc,
    Exists (fun n => isMesh n = true /\ geometry n = None) l ->
    fold_left primaryMeshCallback l acc = None.
Proof.
  induction l as [|c l IH]; intros acc Hex; [inversion Hex|].
  cbn [fold_left]. inversion Hex as [? ? [Hm Hg]|? ? Hl]; subst.
  - replace (primaryMeshCallback acc c) with (@None PrimaryState).
    + now apply primaryMesh_throws with l.
    + unfold primaryMeshCallback. destruct acc as [[? ?]|]; [|reflexivity].
      now rewrite Hm, Hg.
  - now apply IH.
Qed.

Lemma missing_geometry (l : list Object3D) :
  ~ meshesHaveGeometry l -> Exists (fun n => isMesh n = true /\ geometry n = None) l.
Proof.
  unfold meshesHaveGeometry. induction l as [|n l IH]; intros Hnot.
  - exfalso. apply Hnot. constructor.
  - destruct (isMesh n) eqn:Em.
    + destruct (geometry n) eqn:Eg.
      * right. apply IH. intros Hl. apply Hnot. constructor; [|exact Hl].
        intros _. rewrite Eg. discriminate.
      * left. now split.
    + right. apply IH. intros Hl. apply Hnot. constructor; [|exact Hl].
      intros K. congruence.
Qed.

(** X16: [getPrimaryMeshInGroup] answers the first mesh, in traversal order,
    whose geometry box has the least volume; it answers [null] exactly when
    the group holds no mesh; and it throws exactly when some mesh of the
    group has no geometry. *)
Theorem primary_mesh_is_first_smallest (group : Object3D) :
  (meshesHaveGeometry (traverse group) ->
   exists r : option Object3D,
     getPrimaryMeshInGroup group = Some r
     /\ (r = None <-> containsMesh group = false)
     /\ (forall m, r = Some m -> firstSmallestMesh (traverse group) m))
  /\ (~ meshesHaveGeometry (traverse group) -> getPrimaryMeshInGroup group = None).
Proof.
  split.
  - intros Hall.
    destruct (primaryMesh_fold (traverse group) [] (None, None)) as (acc & E & Hinv);
      [constructor | exact Hall |].
    cbn [app] in Hinv. unfold getPrimaryMeshInGroup. unfold PrimaryState in *. rewrite E. cbn [option_map].
    destruct acc as [[m|] [v|]]; simpl in Hinv; try contradiction.
    + destruct Hinv as (g & Hg & Hv & Hfirst). exists (Some m). cbn [fst].
      split; [reflexivity|]. split.
      * split; [discriminate|]. intros Hc. exfalso.
        destruct Hfirst as (before & after & g' & Hl & Hm & _).
        assert (Hh : hasMesh group).
        { unfold hasMesh. rewrite Hl. apply Exists_app. right. now constructor. }
        apply containsMesh_hasMesh in Hh. congruence.
      * intros m' [= <-]. exact Hfirst.
    + exists None. cbn [fst]. split; [reflexivity|]. split.
      * split; [|reflexivity]. intros _.
        destruct (containsMesh group) eqn:Ec; [|reflexivity]. exfalso.
        apply containsMesh_hasMesh in Ec. unfold hasMesh in Ec.
        apply Exists_exists in Ec as (n & Hn & Hm).
        rewrite Forall_forall in Hinv.
        specialize (Hinv n Hn). congruence.
      * discriminate.
  - intros Hnot. unfold getPrimaryMeshInGroup.
    rewrite primaryMesh_fold_throws; [reflexivity|].
    now apply missing_geometry.
Qed.

Lemma primary_mesh_is_first_smallest_witness :
  exists r : option Object3D,
    getPrimaryMeshInGroup (rigidUnit 1 1 1) = Some r
    /\ (r = None <-> containsMesh (rigidUnit 1 1 1) = false)
    /\ (forall m, r = Some m -> firstSmallestMesh (traverse (rigidUnit 1 1 1)) m).
Proof.
  apply (proj1 (primary_mesh_is_first_smallest (rigidUnit 1 1 1))).
  unfold meshesHaveGeometry. simpl. repeat constructor; discriminate.
Defined.

(** ** Model rotation *)

Lemma applyQuaternion_lengthSq (v : Vector3.t) (q : Quaternion.t) :
  Quaternion.lengthSq q = 1 ->
  Vector3.lengthSq (applyQuaternion v q) = Vector3.lengthSq v.
Proof.
  destruct v as [vx vy vz], q as [qx qy qz qw].
  unfold Quaternion.lengthSq, applyQuaternion, Vector3.lengthSq; simpl.
  intros H. nsatz.
Qed.

Lemma invert_lengthSq (q : Quaternion.t) :
  Quaternion.lengthSq (Quaternion.invert q) = Quaternion.lengthSq q.
Proof. destruct q. unfold Quaternion.lengthSq, Quaternion.invert; simpl. ring. Qed.

Lemma axis_angle_cancel (u : Vector3.t) (angle : R) (q : Quaternion.t) :
  Vector3.lengthSq u = 1 ->
  multiplyQuaternions (multiplyQuaternions q (setFromAxisAngle u angle))
                      (setFromAxisAngle u (- angle)) = q.
Proof.
  destruct u as [ux uy uz], q as [qx qy qz qw].
  unfold Vector3.lengthSq, multiplyQuaternions, setFromAxisAngle.
  cbn [Vector3.x Vector3.y Vector3.z Quaternion.x Quaternion.y Quaternion.z Quaternion.w].
  replace (- angle / 2) with (- (angle / 2)) by field.
  rewrite sin_neg, cos_neg.
  pose proof (sin2_cos2 (angle / 2)) as Hsc. unfold Rsqr in Hsc.
  set (s := sin (angle / 2)) in *. set (c := cos (angle / 2)) in *.
  intros Hu. f_equal; nsatz.
Qed.

Lemma worldRotationAxis_unit (axis : AxisName) :
  axis <> AxisOther -> Vector3.lengthSq (worldRotationAxis axis) = 1.
Proof. destruct axis; intros H; try congruence; unfold Vector3.lengthSq; simpl; ring. Qed.

(** X17: the clockwise and the counter-clockwise button undo each other:
    when the baseline container has a unit world orientation, rotating about
    an axis by an angle and then by the opposite angle gives back the
    quaternion of the model container and that of the axes helper. *)
Theorem opposite_rotations_cancel (baseModelContainer : Object3D)
    (modelContainerQuaternion customAxesRotation : Quaternion.t)
    (axis : AxisName) (angle : R) :
  Quaternion.lengthSq (getWorldQuaternion baseModelContainer) = 1 ->
  axis <> AxisOther ->
  let turned :=
    rotateModel baseModelContainer modelContainerQuaternion customAxesRotation
                axis angle in
  rotateModel baseModelContainer (fst turned) (snd turned) axis (- angle)
  = (modelContainerQuaternion, customAxesRotation).
Proof.
  intros Hq Haxis turned. subst turned. unfold rotateModel. cbn [fst snd].
  f_equal.
  - apply axis_angle_cancel.
    rewrite applyQuaternion_lengthSq by (now rewrite invert_lengthSq).
    now apply worldRotationAxis_unit.
  - unfold getAxisRotationQuaternion.
    destruct axis; try congruence; apply axis_angle_cancel;
      unfold Vector3.lengthSq; simpl; ring.
Qed.

Lemma identity_worldQuaternion (id : nat) :
  getWorldQuaternion (plainNode id false true None []) = Quaternion.identity.
Proof.
  unfold getWorldQuaternion, plainNode. cbn [matrixWorld].
  unfold decompose, Matrix4.identity.
  cbn [Matrix4.e0 Matrix4.e1 Matrix4.e2 Matrix4.e3 Matrix4.e4 Matrix4.e5 Matrix4.e6
       Matrix4.e7 Matrix4.e8 Matrix4.e9 Matrix4.e10 Matrix4.e11 Matrix4.e12 Matrix4.e13
       Matrix4.e14 Matrix4.e15 d_quaternion].
  rewrite (length_of_square (vec3 1 0 0) 1)
    by (try lra; unfold Vector3.lengthSq; simpl; ring).
  rewrite (length_of_square (vec3 0 1 0) 1)
    by (try lra; unfold Vector3.lengthSq; simpl; ring).
  rewrite (length_of_square (vec3 0 0 1) 1)
    by (try lra; unfold Vector3.lengthSq; simpl; ring).
  replace (Rltb (Matrix4.determinant _) 0) with false.
  2:{ symmetry. apply Rltb_false. unfold Matrix4.determinant; simpl. lra. }
  unfold setFromRotationMatrix.
  cbn [Matrix4.e0 Matrix4.e1 Matrix4.e2 Matrix4.e4 Matrix4.e5 Matrix4.e6
       Matrix4.e8 Matrix4.e9 Matrix4.e10].
  rewrite (proj2 (Rgtb_true (1 * (1 / 1) + 1 * (1 / 1) + 1 * (1 / 1)) 0)) by lra.
  replace (1 * (1 / 1) + 1 * (1 / 1) + 1 * (1 / 1) + 1.0) with (2 * 2) by lra.
  rewrite sqrt_square by lra.
  unfold Quaternion.identity. f_equal; lra.
Qed.

Lemma opposite_rotations_cancel_witness :
  let base := plainNode 1 false true None [] in
  let turned := rotateModel base Quaternion.identity Quaternion.identity AxisZ (PI / 2) in
  rotateModel base (fst turned) (snd turned) AxisZ (- (PI / 2))
  = (Quaternion.identity, Quaternion.identity).
Proof.
  intros base turned.
  assert (H : Quaternion.lengthSq (getWorldQuaternion base) = 1).
  { subst base. rewrite identity_worldQuaternion. unfold Quaternion.lengthSq; simpl. ring. }
  assert (Hax : AxisZ <> AxisOther) by discriminate.
  exact (opposite_rotations_cancel base Quaternion.identity Quaternion.identity AxisZ
           (PI / 2) H Hax).
Defined.

(** ** Camera views *)

(** X18: [setView] turns the camera the short way round: for two angles
    between -pi and pi, the angle the tween ends on is the target angle up to
    a whole turn and lies within half a turn of the current angle. *)
Theorem set_view_turns_short_way (currentTheta targetTheta : R) :
  - PI <= currentTheta <= PI -> - PI <= targetTheta <= PI ->
  (setViewTheta currentTheta targetTheta = targetTheta
   \/ setViewTheta currentTheta targetTheta = targetTheta - 2 * PI
   \/ setViewTheta currentTheta targetTheta = targetTheta + 2 * PI)
  /\ Rabs (setViewTheta currentTheta targetTheta - currentTheta) <= PI.
Proof.
  intros Hc Ht. pose proof PI_RGT_0 as Hpi. unfold setViewTheta.
  destruct (Rgtb (targetTheta - currentTheta) PI) eqn:E1.
  - apply Rgtb_true in E1. split; [auto|]. apply Rabs_le. lra.
  - apply Rgtb_false in E1.
    destruct (Rltb (targetTheta - currentTheta) (- PI)) eqn:E2.
    + apply Rltb_true in E2. split; [auto|]. apply Rabs_le. lra.
    + apply Rltb_false in E2. split; [auto|]. apply Rabs_le. lra.
Qed.

Lemma set_view_turns_short_way_witness :
  Rabs (setViewTheta (- PI) PI - - PI) <= PI.
Proof.
  pose proof PI_RGT_0 as Hpi.
  assert (H1 : - PI <= - PI <= PI) by lra.
  assert (H2 : - PI <= PI <= PI) by lra.
  exact (proj2 (set_view_turns_short_way (- PI) PI H1 H2)).
Defined.

(** ** Panel validation *)

Lemma subVectors_translate (a b d : Vector3.t) :
  Vector3.subVectors (Vector3.add a d) (Vector3.add b d) = Vector3.subVectors a b.
Proof.
  destruct a, b, d. unfold Vector3.subVectors, Vector3.sub, Vector3.add; simpl.
  f_equal; ring.
Qed.

(** X19: the validation looks at the shape of the panel only: moving the
    four points by the same vector gives the same verdict, and moves the
    suggested fourth point by that vector. *)
Theorem validation_is_translation_invariant (p1 p2 p3 p4 d : Vector3.t) :
  validatePanel (Vector3.add p1 d) (Vector3.add p2 d) (Vector3.add p3 d) (Vector3.add p4 d)
  = match validatePanel p1 p2 p3 p4 with
    | RejectOffPlane projectedP4 => RejectOffPlane (Vector3.add projectedP4 d)
    | verdict => verdict
    end.
Proof.
  unfold validatePanel. rewrite !subVectors_translate.
  destruct (Rltb _ COLLINEARITY_EPSILON_SQ); [reflexivity|].
  destruct (Rgtb _ EPSILON).
  - f_equal.
    generalize (Vector3.multiplyScalar
                  (Vector3.normalize
                     (Vector3.crossVectors (Vector3.subVectors p2 p1)
                                           (Vector3.subVectors p3 p1)))
                  (Vector3.dot (Vector3.subVectors p4 p1)
                     (Vector3.normalize
                        (Vector3.crossVectors (Vector3.subVectors p2 p1)
                                              (Vector3.subVectors p3 p1))))).
    intros v. destruct p4, d, v.
    unfold Vector3.subVectors, Vector3.sub, Vector3.add; simpl. f_equal; ring.
  - destruct (_ || _); reflexivity.
Qed.

Lemma pointOfFields_numberFields (q : Vector3.t) :
  pointOfFields (numberFields (Vector3.x q) (Vector3.y q) (Vector3.z q)) = Some q.
Proof. now destruct q. Qed.

(** With a baseline container that is neither moved nor turned, the form is
    checked on the typed points themselves, and the alert raised is the
    verdict of the validation. *)
Lemma last_alert_identity_base (q1 q2 q3 q4 : Vector3.t) (newId : nat) (st : State)
    (base : Object3D) :
  findObject (baseModelContainer st) (updateMatrixWorld None (scene st)) = Some base ->
  matrixWorld base = Matrix4.identity ->
  last (alerts (addObjectToScene (panelForm q1 q2 q3 q4) newId st))
  = Some match validatePanel q1 q2 q3 q4 with
         | RejectCollinear => AlertCollinearBase
         | RejectOffPlane q => AlertOffPlane q
         | RejectDegenerate => AlertDegenerateSecondTriangle
         | Accept => AlertPanelAdded
         end.
Proof.
  intros Hbase Hid. unfold addObjectToScene, panelForm.
  rewrite !pointOfFields_numberFields.
  cbn [withScene scene baseModelContainer modelContainer].
  rewrite Hbase, Hid, invert_identity, !applyMatrix4_identity.
  destruct (validatePanel q1 q2 q3 q4); unfold pushAlert; cbn [alerts];
    now rewrite last_snoc.
Qed.

(** X20: the point the off-plane alert suggests is the foot of the
    perpendicular from the fourth point to the plane of the first three, all
    of them being the points [validatePanel] works on, that is, the typed
    points moved to the baseline frame.  Over the reals it lies on that
    plane, and every point within 0.005 of it on each coordinate (the error
    of printing a coordinate with two decimals) is within 0.01 of the plane:
    put in the place of the fourth point, it is not rejected as off-plane.
    For the form itself, when the baseline container is neither moved nor
    turned (typed and baseline coordinates agree): the alert suggests that
    point, and the form sent again with a fourth point within 0.005 of it
    raises no off-plane alert. *)
Theorem suggested_point_is_on_plane (p1 p2 p3 p4 q : Vector3.t) :
  validatePanel p1 p2 p3 p4 = RejectOffPlane q ->
  q = Vector3.subVectors p4
        (Vector3.multiplyScalar (planeNormal p1 p2 p3) (planeDistance p1 p2 p3 p4))
  /\ planeDistance p1 p2 p3 q = 0
  /\ forall r : Vector3.t,
       Rabs (Vector3.x r - Vector3.x q) <= 0.005 ->
       Rabs (Vector3.y r - Vector3.y q) <= 0.005 ->
       Rabs (Vector3.z r - Vector3.z q) <= 0.005 ->
       Rabs (planeDistance p1 p2 p3 r) <= 0.01
       /\ (forall q' : Vector3.t, validatePanel p1 p2 p3 r <> RejectOffPlane q')
       /\ forall (st : State) (newId : nat) (base : Object3D),
            findObject (baseModelContainer st) (updateMatrixWorld None (scene st))
            = Some base ->
            matrixWorld base = Matrix4.identity ->
            last (alerts (addObjectToScene (panelForm p1 p2 p3 p4) newId st))
            = Some (AlertOffPlane q)
            /\ forall q' : Vector3.t,
                 last (alerts (addObjectToScene (panelForm p1 p2 p3 r) newId st))
                 <> Some (AlertOffPlane q').
Proof.
  intros H.
  assert (Hbase : baseNotCollinear p1 p2 p3).
  { unfold baseNotCollinear. unfold validatePanel in H.
    destruct (Rltb _ COLLINEARITY_EPSILON_SQ) eqn:E; [discriminate|].
    now apply Rltb_false in E. }
  destruct (validatePanel_cases p1 p2 p3 p4 Hbase) as [Hoff Hon].
  assert (Hq : q = Vector3.subVectors p4
                     (Vector3.multiplyScalar (planeNormal p1 p2 p3)
                                             (planeDistance p1 p2 p3 p4))).
  { destruct (Rle_lt_dec (Rabs (planeDistance p1 p2 p3 p4)) 0.01) as [Hle|Hgt].
    - destruct (Hon Hle) as [K|K]; rewrite K in H; discriminate.
    - rewrite (Hoff Hgt) in H. now injection H. }
  assert (Hunit : Vector3.lengthSq (planeNormal p1 p2 p3) = 1).
  { unfold planeNormal. apply normalize_unit.
    unfold baseNotCollinear, COLLINEARITY_EPSILON_SQ, Vector3.cross in Hbase. lra. }
  assert (Hd : planeDistance p1 p2 p3 q = 0).
  { rewrite Hq. unfold planeDistance at 1.
    unfold planeDistance. generalize (planeNormal p1 p2 p3) Hunit. intros n Hn.
    destruct p1, p4, n.
    unfold Vector3.lengthSq, Vector3.dot, Vector3.subVectors, Vector3.sub,
      Vector3.multiplyScalar in *.
    cbn [Vector3.x Vector3.y Vector3.z] in *. nsatz. }
  split; [exact Hq|]. split; [exact Hd|].
  intros r Hx Hy Hz.
  assert (Hr : Rabs (planeDistance p1 p2 p3 r) <= 0.01).
  { revert Hd. unfold planeDistance.
    generalize (planeNormal p1 p2 p3) Hunit. intros n Hn Hd.
    destruct p1 as [a1 a2 a3], q as [q1 q2 q3], r as [r1 r2 r3], n as [n1 n2 n3].
    unfold Vector3.lengthSq, Vector3.dot, Vector3.subVectors, Vector3.sub in *.
    cbn [Vector3.x Vector3.y Vector3.z] in *.
    set (d1 := r1 - q1) in *. set (d2 := r2 - q2) in *. set (d3 := r3 - q3) in *.
    assert (E : (r1 - a1) * n1 + (r2 - a2) * n2 + (r3 - a3) * n3
                = d1 * n1 + d2 * n2 + d3 * n3) by (unfold d1, d2, d3; lra).
    rewrite E. clear E Hd. clearbody d1 d2 d3.
    assert (B1 : -0.005 <= d1 <= 0.005)
      by (revert Hx; unfold Rabs; destruct (Rcase_abs d1); lra).
    assert (B2 : -0.005 <= d2 <= 0.005)
      by (revert Hy; unfold Rabs; destruct (Rcase_abs d2); lra).
    assert (B3 : -0.005 <= d3 <= 0.005)
      by (revert Hz; unfold Rabs; destruct (Rcase_abs d3); lra).
    assert (Hsq : (d1 * n1 + d2 * n2 + d3 * n3) * (d1 * n1 + d2 * n2 + d3 * n3)
                  <= d1 * d1 + d2 * d2 + d3 * d3).
    { assert (L : (d1 * d1 + d2 * d2 + d3 * d3) * (n1 * n1 + n2 * n2 + n3 * n3)
                  - (d1 * n1 + d2 * n2 + d3 * n3) * (d1 * n1 + d2 * n2 + d3 * n3)
                  = (d1 * n2 - d2 * n1) * (d1 * n2 - d2 * n1)
                    + (d1 * n3 - d3 * n1) * (d1 * n3 - d3 * n1)
                    + (d2 * n3 - d3 * n2) * (d2 * n3 - d3 * n2)) by ring.
      rewrite Hn in L.
      pose proof (Rle_0_sqr (d1 * n2 - d2 * n1)) as S1.
      pose proof (Rle_0_sqr (d1 * n3 - d3 * n1)) as S2.
      pose proof (Rle_0_sqr (d2 * n3 - d3 * n2)) as S3.
      unfold Rsqr in S1, S2, S3. lra. }
    assert (Hdd : d1 * d1 + d2 * d2 + d3 * d3 <= 0.000075) by nra.
    set (s := d1 * n1 + d2 * n2 + d3 * n3) in *. clearbody s.
    apply Rabs_le. split; nra. }
  split; [exact Hr|].
  destruct (validatePanel_cases p1 p2 p3 r Hbase) as [_ Hon'].
  split.
  - intros q' K. destruct (Hon' Hr) as [K'|K']; rewrite K' in K; discriminate.
  - intros st newId base Hfound Hid. split.
    + rewrite (last_alert_identity_base _ _ _ _ _ _ _ Hfound Hid). now rewrite H.
    + intros q'. rewrite (last_alert_identity_base _ _ _ _ _ _ _ Hfound Hid).
      destruct (Hon' Hr) as [K'|K']; rewrite K'; discriminate.
Qed.

(** The theorem on the form (0,0,0), (1,0,0), (1,1,0), (0,1,5) sent in the
    small scene, whose baseline container is not turned: the point suggested
    is (0,1,0), and the form sent again with it raises no off-plane alert. *)
Lemma suggested_point_is_on_plane_witness :
  validatePanel (vec3 0 0 0) (vec3 1 0 0) (vec3 1 1 0) (vec3 0 1 5)
  = RejectOffPlane (vec3 0 1 0)
  /\ planeDistance (vec3 0 0 0) (vec3 1 0 0) (vec3 1 1 0) (vec3 0 1 0) = 0
  /\ last (alerts (addObjectToScene
                     (panelForm (vec3 0 0 0) (vec3 1 0 0) (vec3 1 1 0) (vec3 0 1 5))
                     4%nat smallState))
     = Some (AlertOffPlane (vec3 0 1 0))
  /\ forall q' : Vector3.t,
       last (alerts (addObjectToScene
                       (panelForm (vec3 0 0 0) (vec3 1 0 0) (vec3 1 1 0) (vec3 0 1 0))
                       4%nat smallState))
       <> Some (AlertOffPlane q').
Proof.
  pose proof (suggested_point_is_on_plane (vec3 0 0 0) (vec3 1 0 0) (vec3 1 1 0)
                (vec3 0 1 5) (vec3 0 1 0) validatePanel_example) as (_ & Hd & Hnear).
  assert (Hbase : findObject (baseModelContainer smallState)
                    (updateMatrixWorld None (scene smallState))
                  = Some (plainNode 1 false true None
                            [plainNode 2 false true None
                               [plainNode 3 true false
                                  (Some (mkGeometry
                                           (Some [vec3 0 0 0; vec3 1 0 0; vec3 1 1 0])
                                           (Some [0; 1; 2]%nat))) []]])).
  { cbn [scene smallState]. rewrite smallScene_up_to_date. reflexivity. }
  assert (Hzero : Rabs (0 - 0) <= 0.005)
    by (replace (0 - 0) with 0 by ring; rewrite Rabs_R0; lra).
  assert (Hone : Rabs (1 - 1) <= 0.005)
    by (replace (1 - 1) with 0 by ring; rewrite Rabs_R0; lra).
  destruct (Hnear (vec3 0 1 0) Hzero Hone Hzero) as (_ & _ & Hform).
  destruct (Hform smallState 4%nat _ Hbase eq_refl) as [H1 H2].
  split; [exact validatePanel_example|]. split; [exact Hd|]. split; [exact H1 | exact H2].
Defined.

(** ** Adding a panel *)

Lemma findObject_None (id : nat) (o : Object3D) :
  ~ In id (uuids o) -> findObject id o = None.
Proof.
  unfold uuids.
  induction o as [o IH] using Object3D_children_ind.
  destruct o as [id' me g p q s w geo mat cast pan cs]; simpl in *.
  intros Hn.
  destruct (Nat.eqb_spec id' id) as [->|Hne]; [exfalso; apply Hn; now left|].
  assert (Hcs : ~ In id (map uuid (flat_map traverse cs))) by (intros K; apply Hn; now right).
  clear Hn. induction cs as [|c cs IHcs]; [reflexivity|].
  inversion IH as [|? ? Hc Hrest]; subst.
  simpl in Hcs. rewrite map_app, in_app_iff in Hcs.
  rewrite Hc by tauto. apply IHcs; [exact Hrest | tauto].
Qed.

(** Where a node added under [pid] is found after the matrices are
    refreshed: under the first node with that identity, with the world matrix
    the refresh gives it there. *)
Lemma findObject_added (pid : nat) (c : Object3D) (o : Object3D) :
  forall w,
    ~ In (uuid c) (uuids o) ->
    findObject (uuid c) (updateMatrixWorld w (addObject pid c o))
    = match findObject pid (updateMatrixWorld w o) with
      | Some parent => Some (updateMatrixWorld (Some (matrixWorld parent)) c)
      | None => None
      end.
Proof.
  unfold uuids.
  induction o as [o IH] using Object3D_children_ind.
  destruct o as [id' me g p q s mw geo mat cast pan cs].
  intros w Hn. cbn [children] in IH.
  assert (Hroot : id' <> uuid c) by (intros K; apply Hn; simpl; now left).
  assert (Hcs : ~ In (uuid c) (map uuid (flat_map traverse cs)))
    by (intros K; apply Hn; simpl; now right).
  cbn [addObject uuid].
  destruct (Nat.eqb_spec id' pid) as [Hp|Hp].
  - (* the node itself receives the child *)
    cbn [withChildren updateMatrixWorld findObject uuid children isMesh isGroup position
         quaternion scale matrixWorld geometry material castShadow userData_is2DPanel].
    rewrite (proj2 (Nat.eqb_neq id' (uuid c)) Hroot).
    rewrite (proj2 (Nat.eqb_eq id' pid) Hp).
    cbn [matrixWorld].
    set (W := match w with
              | Some p0 => Matrix4.multiplyMatrices p0 (Matrix4.compose p q s)
              | None => Matrix4.compose p q s
              end).
    clear IH Hn. induction cs as [|c0 cs IHcs].
    + cbn [app map].
      assert (E : uuid (updateMatrixWorld (Some W) c) = uuid c) by (destruct c; reflexivity).
      destruct (updateMatrixWorld (Some W) c) as [i ? ? ? ? ? ? ? ? ? ? ?] eqn:Ec.
      cbn [findObject uuid] in *. rewrite E, Nat.eqb_refl. reflexivity.
    + cbn [flat_map] in Hcs. rewrite map_app, in_app_iff in Hcs.
      cbn [app map].
      rewrite (findObject_None (uuid c) (updateMatrixWorld (Some W) c0)).
      * apply IHcs. tauto.
      * unfold uuids. rewrite uuids_updateMatrixWorld. tauto.
  - (* the child goes further down *)
    cbn [withChildren updateMatrixWorld findObject uuid children isMesh isGroup position
         quaternion scale matrixWorld geometry material castShadow userData_is2DPanel].
    rewrite (proj2 (Nat.eqb_neq id' (uuid c)) Hroot).
    rewrite (proj2 (Nat.eqb_neq id' pid) Hp).
    set (W := match w with
              | Some p0 => Matrix4.multiplyMatrices p0 (Matrix4.compose p q s)
              | None => Matrix4.compose p q s
              end).
    clear Hn. induction cs as [|c0 cs IHcs]; [reflexivity|].
    inversion IH as [|? ? Hc Hrest]; subst.
    cbn [flat_map] in Hcs. rewrite map_app, in_app_iff in Hcs.
    cbn [map].
    rewrite (Hc (Some W)) by tauto.
    destruct (findObject pid (updateMatrixWorld (Some W) c0)); [reflexivity|].
    apply IHcs; [exact Hrest | tauto].
Qed.

(** X21: an accepted panel is registered as a draggable panel: when the
    four points pass the validation, the new mesh is found in the scene under
    the model container, whose world matrix it takes (its own transform is the
    default one); it holds four vertices and the triangles (0, 1, 2) and
    (0, 2, 3), is a 2D panel that casts shadows and wears the panel material;
    it is in the set of draggable objects, its material is remembered, the
    offset cache holds the offset computed on the node as it stands in the
    scene, the form is closed and the last alert reports success. *)
Theorem accepted_panel_is_registered (q1 q2 q3 q4 : Vector3.t) (newId mc : nat)
    (st : State) (container base : Object3D) :
  ~ In newId (uuids (scene st)) ->
  modelContainer st = Some mc ->
  findObject mc (updateMatrixWorld None (scene st)) = Some container ->
  findObject (baseModelContainer st) (updateMatrixWorld None (scene st)) = Some base ->
  validatePanel (applyMatrix4 q1 (Matrix4.invert (matrixWorld base)))
                (applyMatrix4 q2 (Matrix4.invert (matrixWorld base)))
                (applyMatrix4 q3 (Matrix4.invert (matrixWorld base)))
                (applyMatrix4 q4 (Matrix4.invert (matrixWorld base))) = Accept ->
  let st' := addObjectToScene (panelForm q1 q2 q3 q4) newId st in
  exists (node : Object3D) (ps : list Vector3.t),
    findObject newId (scene st') = Some node
    /\ matrixWorld node = matrixWorld container
    /\ geometry node = Some (mkGeometry (Some ps) (Some [0; 1; 2; 0; 2; 3]%nat))
    /\ List.length ps = 4%nat
    /\ isMesh node = true /\ userData_is2DPanel node = true
    /\ castShadow node = true /\ material node = panelMaterial
    /\ newId ∈ draggableObjects st'
    /\ originalMaterials st' !! newId = Some panelMaterial
    /\ localPivotToBBoxCenterOffsets st' !! newId = Some (localBBoxOffset node)
    /\ coordinateModalShown st' = false
    /\ last (alerts st') = Some AlertPanelAdded.
Proof.
  intros Hfresh Hmc Hcont Hbase Hok st'. subst st'.
  unfold addObjectToScene, panelForm.
  rewrite !pointOfFields_numberFields.
  cbn [withScene scene baseModelContainer modelContainer].
  rewrite Hbase, Hok, Hmc.
  set (inv := Matrix4.invert (matrixWorld base)) in *.
  set (c := customPanel newId (applyMatrix4 q1 inv) (applyMatrix4 q2 inv)
                        (applyMatrix4 q3 inv) (applyMatrix4 q4 inv)).
  cbn [pushAlert scene draggableObjects alerts originalMaterials
       localPivotToBBoxCenterOffsets coordinateModalShown].
  assert (Hc : uuid c = newId) by reflexivity.
  assert (Hfound : findObject newId
                     (updateMatrixWorld None
                        (addObject mc c (updateMatrixWorld None (scene st))))
                   = Some (updateMatrixWorld (Some (matrixWorld container)) c)).
  { rewrite <- Hc. rewrite findObject_added.
    - now rewrite updateMatrixWorld_idem, Hcont.
    - rewrite Hc. unfold uuids in *. now rewrite uuids_updateMatrixWorld. }
  rewrite Hfound.
  eexists _, _. split; [reflexivity|]. split.
  { subst c. cbn [updateMatrixWorld customPanel matrixWorld position quaternion scale].
    now rewrite compose_default, multiplyMatrices_identity_r. }
  split; [reflexivity|]. split; [reflexivity|].
  split; [reflexivity|]. split; [reflexivity|].
  split; [reflexivity|]. split; [reflexivity|].
  split; [set_solver|].
  split; [apply lookup_insert_eq|]. split; [apply lookup_insert_eq|].
  split; [reflexivity|]. now rewrite last_snoc.
Qed.

Lemma validatePanel_square :
  validatePanel (vec3 0 0 0) (vec3 1 0 0) (vec3 1 1 0) (vec3 0 1 0) = Accept.
Proof.
  unfold validatePanel.
  fold (planeNormal (vec3 0 0 0) (vec3 1 0 0) (vec3 1 1 0)).
  rewrite planeNormal_example.
  unfold Vector3.cross, Vector3.crossVectors, Vector3.subVectors, Vector3.sub,
    Vector3.lengthSq, Vector3.dot, COLLINEARITY_EPSILON_SQ, EPSILON.
  cbn [Vector3.x Vector3.y Vector3.z].
  rewrite !(proj2 (Rltb_false _ 0.0001)) by lra.
  replace ((0 - 0) * 0 + (1 - 0) * 0 + (0 - 0) * 1) with 0 by ring.
  rewrite Rabs_R0, (proj2 (Rgtb_false 0 0.01)) by lra.
  reflexivity.
Qed.

(** The theorem on the small scene: the unit square is added as node 4. *)
Lemma accepted_panel_is_registered_witness :
  exists (node : Object3D) (ps : list Vector3.t),
    findObject 4%nat
      (scene (addObjectToScene (panelForm (vec3 0 0 0) (vec3 1 0 0) (vec3 1 1 0) (vec3 0 1 0))
                               4%nat smallState)) = Some node
    /\ geometry node = Some (mkGeometry (Some ps) (Some [0; 1; 2; 0; 2; 3]%nat))
    /\ isMesh node = true /\ userData_is2DPanel node = true
    /\ 4%nat ∈ draggableObjects
                 (addObjectToScene (panelForm (vec3 0 0 0) (vec3 1 0 0) (vec3 1 1 0)
                                              (vec3 0 1 0)) 4%nat smallState)
    /\ last (alerts (addObjectToScene (panelForm (vec3 0 0 0) (vec3 1 0 0) (vec3 1 1 0)
                                                 (vec3 0 1 0)) 4%nat smallState))
       = Some AlertPanelAdded.
Proof.
  assert (H1 : ~ In 4%nat (uuids (scene smallState))).
  { unfold uuids. simpl. intros K. repeat (destruct K as [K|K]; [discriminate|]).
    exact K. }
  assert (H3 : findObject 2 (updateMatrixWorld None (scene smallState))
               = Some (plainNode 2 false true None
                         [plainNode 3 true false
                            (Some (mkGeometry (Some [vec3 0 0 0; vec3 1 0 0; vec3 1 1 0])
                                              (Some [0; 1; 2]%nat))) []])).
  { cbn [scene smallState]. rewrite smallScene_up_to_date. reflexivity. }
  assert (H4 : findObject (baseModelContainer smallState)
                 (updateMatrixWorld None (scene smallState))
               = Some (plainNode 1 false true None
                         [plainNode 2 false true None
                            [plainNode 3 true false
                               (Some (mkGeometry (Some [vec3 0 0 0; vec3 1 0 0; vec3 1 1 0])
                                                 (Some [0; 1; 2]%nat))) []]])).
  { cbn [scene smallState]. rewrite smallScene_up_to_date. reflexivity. }
  assert (H5 : validatePanel
                 (applyMatrix4 (vec3 0 0 0) (Matrix4.invert Matrix4.identity))
                 (applyMatrix4 (vec3 1 0 0) (Matrix4.invert Matrix4.identity))
                 (applyMatrix4 (vec3 1 1 0) (Matrix4.invert Matrix4.identity))
                 (applyMatrix4 (vec3 0 1 0) (Matrix4.invert Matrix4.identity)) = Accept).
  { rewrite invert_identity, !applyMatrix4_identity. apply validatePanel_square. }
  destruct (accepted_panel_is_registered (vec3 0 0 0) (vec3 1 0 0) (vec3 1 1 0)
              (vec3 0 1 0) 4%nat 2%nat smallState _ _ H1 eq_refl H3 H4 H5)
    as (node & ps & F & _ & G & _ & M & P & _ & _ & D & _ & _ & _ & A).
  exists node, ps. repeat split; assumption.
Defined.

(** ** Shadow coverage *)

Lemma sampleLoop_none_shadowed raycast random scene dl obj ps index faceCount :
  (forall k, isInShadow (sampleIntersects raycast random scene dl obj ps index faceCount k)
             = false) ->
  forall n k shadowed,
    sampleLoop raycast random scene dl obj ps index faceCount n k shadowed = shadowed.
Proof.
  intros Hnone n. induction n as [|n IH]; intros k shadowed; simpl; [reflexivity|].
  now rewrite Hnone, IH.
Qed.

(** X22: a panel under no shadow caster is reported as not shadowed: when
    no node below the scene children the rays are cast against has
    [castShadow] set, whatever the rays meet and whatever the random numbers
    are, the coverage of a mesh with a position attribute is the text 0.0. *)
Theorem coverage_zero_without_casters raycast random scene directionalLight obj g ps :
  isMesh obj = true -> geometry obj = Some g -> positionAttribute g = Some ps ->
  (forall root n, root ∈ occluderRoots scene directionalLight obj ->
                  n ∈ traverse root -> castShadow n = false) ->
  calculateShadowCoverage raycast random scene directionalLight (Some obj)
  = JSString "0.0".
Proof.
  intros Hm Hg Hp Hnone. unfold calculateShadowCoverage. rewrite Hm, Hg, Hp. cbn [negb].
  rewrite sampleLoop_none_shadowed.
  - replace (INR 0 / INR totalSamples * 100) with (INR 0 / INR 1000 * 100) by reflexivity.
    rewrite toFixed_tenths. vm_compute. reflexivity.
  - intros k.
    destruct (isInShadow _) eqn:E; [|reflexivity]. exfalso.
    apply isInShadow_exists in E as (h & Hh & Hc).
    unfold sampleIntersects in Hh.
    destruct (pointOnTriangle _ _ _ _ _ _) as [p|]; [|inversion Hh].
    apply intersectObjects_elem_of in Hh as (root & Hroot & Hin & _).
    rewrite (Hnone root (object h) Hroot Hin) in Hc. discriminate.
Qed.

(** The theorem on the small scene, where the panel is the only node below
    the scene root that could cast a shadow and rays hit every node. *)
Lemma coverage_zero_without_casters_witness :
  calculateShadowCoverage (fun _ _ => [1]) (fun _ => 0)
    (plainNode 0 false false None
       [plainNode 3 true false triangleGeometry [];
        shadowNode 10 true false triangleGeometry []])
    sunAbove
    (Some (plainNode 3 true false triangleGeometry []))
  = JSString "0.0".
Proof.
  set (panel := plainNode 3 true false triangleGeometry []).
  set (sc := plainNode 0 false false None
               [panel; shadowNode 10 true false triangleGeometry []]).
  assert (H : forall root n, root ∈ occluderRoots sc sunAbove panel ->
                             n ∈ traverse root -> castShadow n = false).
  { intros root n Hroot Hn.
    unfold occluderRoots in Hroot. apply list_elem_of_filter in Hroot as [[H1 _] Hin].
    cbn [children plainNode sc] in Hin.
    apply elem_of_cons in Hin as [->|Hin]; [exfalso; now apply H1|].
    apply elem_of_cons in Hin as [->|Hin]; [|inversion Hin].
    simpl in Hn. apply elem_of_cons in Hn as [->|Hn]; [reflexivity | inversion Hn]. }
  exact (coverage_zero_without_casters (fun _ _ => [1]) (fun _ => 0) sc sunAbove panel
           (mkGeometry (Some [vec3 0 0 0; vec3 1 0 0; vec3 0 1 0]) None)
           [vec3 0 0 0; vec3 1 0 0; vec3 0 1 0] eq_refl eq_refl eq_refl H).
Defined.

(** X23: the shadow rays point at the sun: after [updateSunPosition] with no
    model box, the ray cast from a sampled point has the direction
    [(-cos(alt) sin(az), -cos(alt) cos(az), sin(alt))], a unit vector that
    points upwards exactly when the sun is above the horizon, and starts 0.005
    along it from the point. *)
Theorem shadow_ray_points_at_sun (s : SunPos) (dl : DirectionalLight) (p : Vector3.t) :
  let sunDirection :=
    vec3 (- (cos (altitude s) * sin (azimuth s)))
         (- (cos (altitude s) * cos (azimuth s)))
         (sin (altitude s)) in
  direction (shadowRay (updateSunPosition s None dl) p) = sunDirection
  /\ origin (shadowRay (updateSunPosition s None dl) p)
     = Vector3.add p (Vector3.multiplyScalar sunDirection 0.005)
  /\ Vector3.lengthSq sunDirection = 1.
Proof.
  cbv zeta.
  assert (D : Vector3.negate (lightDirection (updateSunPosition s None dl))
              = vec3 (- (cos (altitude s) * sin (azimuth s)))
                     (- (cos (altitude s) * cos (azimuth s)))
                     (sin (altitude s))).
  { unfold lightDirection, updateSunPosition. cbn [light target].
    rewrite !position_setPosition. unfold sunTarget.
    rewrite negate_normalize. unfold Vector3.subVectors. rewrite negate_sub.
    replace (Vector3.sub (sunLightPosition s) (vec3 0 0 0)) with (sunLightPosition s)
      by (unfold Vector3.sub; destruct (sunLightPosition s); simpl; f_equal; ring).
    rewrite (normalize_known _ 100) by (try lra; apply sunLightPosition_lengthSq).
    unfold sunLightPosition, Vector3.multiplyScalar.
    cbn [Vector3.x Vector3.y Vector3.z].
    rewrite neg_sin, neg_cos. f_equal; field. }
  unfold shadowRay. cbn [direction origin]. rewrite D.
  split; [reflexivity|]. split; [reflexivity|].
  unfold Vector3.lengthSq. cbn [Vector3.x Vector3.y Vector3.z].
  pose proof (sin2_cos2 (altitude s)) as Ha.
  pose proof (sin2_cos2 (azimuth s)) as Hz.
  unfold Rsqr in Ha, Hz. nsatz.
Qed.

(** ** Panels from faces *)

Lemma faces_three_vertices (o : Object3D) :
  Forall (fun f => (3 <= List.length (face_vertices f))%nat) (getFacesWithAreas (Some o)).
Proof.
  unfold getFacesWithAreas.
  destruct (isMesh o); cbn [negb]; [|constructor].
  destruct (geometry o) as [g|]; [|constructor].
  destruct (positionAttribute g) as [ps|]; [|constructor].
  rewrite (sortByKey_perm _ _).
  apply omap_Forall. intros group f Hf.
  now destruct (faceOfGroup_Some _ group f Hf) as (_ & _ & H3 & _).
Qed.

Lemma flat_map_triples {A : Type} (f : nat -> list A) (n : nat) :
  (forall i, List.length (f i) = 3%nat) ->
  forall k, List.length (flat_map f (seq k n)) = (3 * n)%nat.
Proof.
  intros Hf. induction n as [|n IH]; intros k; [reflexivity|].
  cbn [seq flat_map]. rewrite length_app, IH, Hf. lia.
Qed.

Lemma fanPositionsOf_length (vs : list Vector3.t) :
  List.length (fanPositionsOf vs) = (3 * (List.length vs - 2))%nat.
Proof.
  unfold fanPositionsOf. destruct vs as [|a vs]; [reflexivity|].
  now apply flat_map_triples.
Qed.

Lemma fanPositionsOf_elem (vs : list Vector3.t) (v : Vector3.t) :
  v ∈ fanPositionsOf vs -> v ∈ vs.
Proof.
  unfold fanPositionsOf. destruct vs as [|a vs]; [intros H; inversion H|].
  intros H. apply list_elem_of_In, in_flat_map in H as (i & Hi & Hv).
  apply in_seq in Hi. cbn [List.length] in Hi.
  set (l := a :: vs) in *.
  assert (Hl : List.length l = S (List.length vs)) by reflexivity.
  destruct Hv as [<-|[<-|[<-|[]]]].
  - now left.
  - apply list_elem_of_In, nth_In. lia.
  - apply list_elem_of_In, nth_In. lia.
Qed.

(** X24: a draggable object is kept as it is exactly when it is not a mesh,
    has no geometry or has no face; the test on the vertex count of the
    largest face never fires.  Otherwise the panel is a shadow-casting 2D
    panel mesh made of [n - 2] triangles for a largest face of [n] vertices,
    each vertex a vertex of that face less the centroid of the face; and once
    the matrices are refreshed below a model container with an affine,
    invertible world matrix, its pivot is the centre of the world bounding box
    of the object it replaces. *)
Theorem panel_from_largest_face (newId : nat) (modelContainerWorld : Matrix4.t)
    (object : Object3D) :
  (panelOfObject newId modelContainerWorld object = None
   <-> isMesh object = false \/ geometry object = None
       \/ getFacesWithAreas (Some object) = [])
  /\ forall panel : Object3D,
       panelOfObject newId modelContainerWorld object = Some panel ->
       exists (largestFace : Face) (rest : list Face) (ps : list Vector3.t),
         getFacesWithAreas (Some object) = largestFace :: rest
         /\ isMesh panel = true /\ userData_is2DPanel panel = true
         /\ castShadow panel = true /\ uuid panel = newId
         /\ geometry panel = Some (mkGeometry (Some ps) None)
         /\ List.length ps = (3 * (List.length (face_vertices largestFace) - 2))%nat
         /\ (forall v, v ∈ ps ->
               exists u, u ∈ face_vertices largestFace
                 /\ v = Vector3.subVectors u (centroidOf (face_vertices largestFace)))
         /\ (affine modelContainerWorld ->
             Matrix4.determinant modelContainerWorld <> 0 ->
             getWorldPosition (updateMatrixWorld (Some modelContainerWorld) panel)
             = bboxCenter object).
Proof.
  unfold panelOfObject.
  pose proof (faces_three_vertices object) as H3.
  destruct (isMesh object) eqn:Em; cbn [negb orb].
  2:{ split; [split; auto|]. discriminate. }
  destruct (geometry object) as [g|] eqn:Eg.
  2:{ rewrite bool_decide_eq_false_2 by (intros K; now apply K). cbn [negb].
      split; [split; auto|]. discriminate. }
  rewrite bool_decide_eq_true_2 by discriminate. cbn [negb].
  destruct (getFacesWithAreas (Some object)) as [|largestFace rest] eqn:Ef.
  { split; [split; auto|]. discriminate. }
  inversion H3 as [|? ? Hn _]; subst.
  rewrite (proj2 (Nat.ltb_ge _ _) Hn).
  split.
  { split; [discriminate|]. intros [K|[K|K]]; discriminate. }
  intros panel [= <-].
  eexists largestFace, rest, _.
  split; [reflexivity|].
  cbn [isMesh userData_is2DPanel castShadow uuid geometry].
  repeat (split; [reflexivity|]).
  split; [now rewrite fanPositionsOf_length, length_map|].
  split.
  - intros v Hv. apply fanPositionsOf_elem in Hv.
    apply list_elem_of_fmap in Hv as (u & -> & Hu). exists u. split; [exact Hu | reflexivity].
  - intros Ha Hd. unfold getWorldPosition.
    cbn [updateMatrixWorld matrixWorld position quaternion scale].
    rewrite worldPosition_compose by exact Ha.
    now rewrite applyMatrix4_invert.
Qed.

(** The mesh of one triangle has one face. *)
Lemma oneTriangle_faces : getFacesWithAreas (Some oneTriangle) <> [].
Proof.
  assert (Hpos : 0 < Vector3.lengthSq
                       (Vector3.cross
                          (Vector3.sub (applyMatrix4 (vec3 1 0 0) (matrixWorld oneTriangle))
                                       (applyMatrix4 (vec3 0 0 0) (matrixWorld oneTriangle)))
                          (Vector3.sub (applyMatrix4 (vec3 0 1 0) (matrixWorld oneTriangle))
                                       (applyMatrix4 (vec3 0 0 0) (matrixWorld oneTriangle))))).
  { cbn [oneTriangle matrixWorld]. rewrite !applyMatrix4_identity.
    unfold Vector3.lengthSq, Vector3.cross, Vector3.crossVectors, Vector3.sub; simpl. lra. }
  assert (Hkeys : vertexKey (applyMatrix4 (vec3 0 0 0) (matrixWorld oneTriangle))
                  <> vertexKey (applyMatrix4 (vec3 1 0 0) (matrixWorld oneTriangle))
                  /\ vertexKey (applyMatrix4 (vec3 0 0 0) (matrixWorld oneTriangle))
                     <> vertexKey (applyMatrix4 (vec3 0 1 0) (matrixWorld oneTriangle))
                  /\ vertexKey (applyMatrix4 (vec3 1 0 0) (matrixWorld oneTriangle))
                     <> vertexKey (applyMatrix4 (vec3 0 1 0) (matrixWorld oneTriangle))).
  { cbn [oneTriangle matrixWorld]. rewrite !applyMatrix4_identity, !vertexKey_IZR.
    repeat split; vm_compute; discriminate. }
  destruct Hkeys as (K1 & K2 & K3).
  rewrite (getFacesWithAreas_single_triangle oneTriangle (vec3 0 0 0) (vec3 1 0 0)
             (vec3 0 1 0) eq_refl eq_refl Hpos K1 K2 K3).
  discriminate.
Qed.

(** The theorem on the mesh of one triangle under an unmoved model
    container: the panel is made, and its pivot is the centre of the box of
    the triangle. *)
Lemma panel_from_largest_face_witness :
  exists panel : Object3D,
    panelOfObject 9 Matrix4.identity oneTriangle = Some panel
    /\ getWorldPosition (updateMatrixWorld (Some Matrix4.identity) panel)
       = bboxCenter oneTriangle.
Proof.
  destruct (panel_from_largest_face 9 Matrix4.identity oneTriangle) as [Hnone Hsome].
  destruct (panelOfObject 9 Matrix4.identity oneTriangle) as [panel|] eqn:E.
  - exists panel. split; [reflexivity|].
    destruct (Hsome panel eq_refl) as (f & rest & ps & _ & _ & _ & _ & _ & _ & _ & _ & Hpivot).
    apply Hpivot; [apply identity_affine | apply determinant_identity].
  - exfalso. destruct (proj1 Hnone eq_refl) as [K|[K|K]]; try discriminate.
    now apply oneTriangle_faces.
Defined.

(** ** Selection *)

Lemma firstDraggableAncestor_spec (draggable : gset nat) (mc : nat)
    (chain : list Object3D) (sel : Object3D) :
  firstDraggableAncestor draggable mc chain = Some sel ->
  exists before after,
    chain = before ++ sel :: after
    /\ Forall (fun n => uuid n ∉ draggable /\ uuid n <> mc) before
    /\ uuid sel ∈ draggable /\ uuid sel <> mc.
Proof.
  induction chain as [|c chain IH]; simpl; [discriminate|].
  destruct (Nat.eqb_spec (uuid c) mc) as [E|E]; [discriminate|].
  destruct (bool_decide (uuid c ∈ draggable)) eqn:D.
  - intros [= <-]. apply bool_decide_eq_true in D.
    exists [], chain. repeat split; auto.
  - intros H. apply bool_decide_eq_false in D.
    destruct (IH H) as (before & after & -> & Hb & Hs & Hm).
    exists (c :: before), after. repeat split; auto.
Qed.

(** X25: a click selects the nearest draggable node on the way up from the
    mesh under the pointer, the model container and what is above it left
    out; without such a node it selects the mesh under the pointer itself. *)
Theorem selection_is_nearest_draggable (draggable : gset nat) (mc : nat)
    (chain : list Object3D) (sel : Object3D) :
  newSelectedObject draggable mc chain = Some sel ->
  exists before after,
    chain = before ++ sel :: after
    /\ Forall (fun n => uuid n ∉ draggable) before
    /\ (uuid sel ∈ draggable
        \/ before = [] /\ isMesh sel = true
           /\ firstDraggableAncestor draggable mc chain = None).
Proof.
  unfold newSelectedObject. destruct chain as [|closest rest]; [discriminate|].
  destruct (bool_decide (uuid closest ∈ draggable)) eqn:D.
  - intros [= <-]. apply bool_decide_eq_true in D.
    exists [], rest. repeat split; auto.
  - destruct (firstDraggableAncestor draggable mc (closest :: rest)) as [o|] eqn:F.
    + intros [= <-].
      destruct (firstDraggableAncestor_spec _ _ _ _ F) as (before & after & E & Hb & Hs & _).
      exists before, after. split; [exact E|]. split; [|now left].
      eapply Forall_impl; [exact Hb|]. simpl. tauto.
    + destruct (isMesh closest) eqn:M; [|discriminate].
      intros [= <-]. exists [], rest. repeat split; auto.
Qed.

Lemma selection_is_nearest_draggable_witness :
  exists before after,
    [plainNode 3 true false None []; plainNode 2 false true None []]
    = before ++ plainNode 2 false true None [] :: after
    /\ Forall (fun n => uuid n ∉ ({[ 2%nat ]} : gset nat)) before.
Proof.
  assert (H : newSelectedObject {[ 2%nat ]} 1
                [plainNode 3 true false None []; plainNode 2 false true None []]
              = Some (plainNode 2 false true None [])).
  { unfold newSelectedObject. cbn [uuid plainNode firstDraggableAncestor Nat.eqb].
    rewrite (bool_decide_eq_false_2 (3%nat ∈ ({[ 2%nat ]} : gset nat))) by set_solver.
    rewrite (bool_decide_eq_true_2 (2%nat ∈ ({[ 2%nat ]} : gset nat))) by set_solver.
    reflexivity. }
  destruct (selection_is_nearest_draggable {[ 2%nat ]} 1
              [plainNode 3 true false None []; plainNode 2 false true None []]
              (plainNode 2 false true None []) H)
    as (before & after & H1 & H2 & _).
  exists before, after. split; assumption.
Defined.

(** *** The scene graph under the material updates of a selection *)

Lemma withChildren_same (o : Object3D) : withChildren (children o) o = o.
Proof. now destruct o. Qed.

Lemma withScene_same (st : State) : withScene (scene st) st = st.
Proof. now destruct st. Qed.

Lemma uuid_highlight (o : Object3D) : uuid (highlight o) = uuid o.
Proof. now destruct o. Qed.

Lemma uuid_updateMatrixWorld (w : option Matrix4.t) (o : Object3D) :
  uuid (updateMatrixWorld w o) = uuid o.
Proof. now destruct o. Qed.

Lemma findObject_In (id : nat) (o n : Object3D) :
  findObject id o = Some n -> In id (uuids o) /\ uuid n = id /\ In n (traverse o).
Proof.
  unfold uuids. revert n.
  induction o as [o IH] using Object3D_children_ind.
  intros n. destruct o as [id' me g p q s w geo mat cast pan cs]. cbn [children] in IH.
  cbn [findObject uuid children traverse map].
  destruct (Nat.eqb_spec id' id) as [->|Hne].
  - intros [= <-]. repeat split; now left.
  - intros H.
    enough (In id (map uuid (flat_map traverse cs)) /\ uuid n = id
            /\ In n (flat_map traverse cs)) as (? & ? & ?)
      by (repeat split; [now right | assumption | now right]).
    induction cs as [|c cs IHcs]; [discriminate|].
    inversion IH as [|? ? Hc Hrest]; subst.
    cbn [flat_map]. rewrite map_app, !in_app_iff.
    destruct (findObject id c) as [r|] eqn:E.
    + injection H as ->. destruct (Hc n eq_refl) as (? & ? & ?). auto.
    + destruct (IHcs Hrest H) as (? & ? & ?). auto.
Qed.

Lemma updateObject_absent (id : nat) (f : Object3D -> Object3D) (o : Object3D) :
  ~ In id (uuids o) -> updateObject id f o = o.
Proof.
  unfold uuids.
  induction o as [o IH] using Object3D_children_ind.
  destruct o as [id' me g p q s w geo mat cast pan cs]. cbn [children] in IH.
  cbn [updateObject uuid children traverse map]. intros Hn.
  destruct (Nat.eqb_spec id' id) as [->|Hne]; [exfalso; apply Hn; now left|].
  unfold withChildren. cbn. f_equal.
  assert (Hcs : ~ In id (map uuid (flat_map traverse cs))) by (intros K; apply Hn; now right).
  clear Hn. induction cs as [|c cs IHcs]; [reflexivity|].
  inversion IH as [|? ? Hc Hrest]; subst.
  cbn [flat_map] in Hcs. rewrite map_app, in_app_iff in Hcs.
  cbn [map]. rewrite Hc by tauto. f_equal. apply IHcs; [exact Hrest | tauto].
Qed.

Lemma NoDup_app_parts {A : Type} (l1 l2 : list A) :
  List.NoDup (l1 ++ l2) ->
  List.NoDup l1 /\ List.NoDup l2 /\ forall x, In x l1 -> ~ In x l2.
Proof.
  induction l1 as [|a l1 IH]; cbn [app]; intros H.
  - split; [constructor|]. split; [exact H|]. intros x [].
  - inversion H as [|? ? Ha Hrest]; subst. destruct (IH Hrest) as (H1 & H2 & H3).
    rewrite in_app_iff in Ha.
    split; [constructor; tauto|]. split; [exact H2|].
    intros x [<-|Hx]; [tauto | now apply H3].
Qed.

(** Updating the one node called [id] with a function that leaves it as it
    is leaves the tree as it is. *)
Lemma updateObject_fixed (id : nat) (f : Object3D -> Object3D) (o : Object3D) :
  forall n, List.NoDup (uuids o) -> findObject id o = Some n -> f n = n ->
            updateObject id f o = o.
Proof.
  unfold uuids.
  induction o as [o IH] using Object3D_children_ind.
  intros n. destruct o as [id' me g p q s w geo mat cast pan cs]. cbn [children] in IH.
  cbn [findObject updateObject uuid children traverse map]. intros Hnd Hfind Hf.
  destruct (Nat.eqb_spec id' id) as [->|Hne].
  - injection Hfind as <-. exact Hf.
  - unfold withChildren. cbn. f_equal.
    inversion Hnd as [|? ? _ Hcs]; subst. clear Hnd.
    induction cs as [|c cs IHcs]; [reflexivity|].
    inversion IH as [|? ? Hc Hrest]; subst.
    cbn [flat_map] in Hcs. rewrite map_app in Hcs.
    destruct (NoDup_app_parts _ _ Hcs) as (N1 & N2 & N3).
    cbn [map]. destruct (findObject id c) as [r|] eqn:E.
    + injection Hfind as ->. rewrite (Hc n N1 eq_refl Hf). f_equal.
      destruct (findObject_In id c n E) as (Hin & _ & _).
      assert (Hout : ~ In id (map uuid (flat_map traverse cs))) by (now apply N3).
      clear -Hout. induction cs as [|c' cs IHcs']; [reflexivity|].
      cbn [flat_map] in Hout. rewrite map_app, in_app_iff in Hout.
      cbn [map]. rewrite updateObject_absent by (unfold uuids; tauto).
      f_equal. apply IHcs'. tauto.
    + rewrite updateObject_absent.
      * f_equal. now apply IHcs.
      * intros K. unfold uuids in K.
        assert (findObject id c <> None); [|congruence].
        clear -K. revert K.
        induction c as [c IHc] using Object3D_children_ind.
        destruct c as [i ? ? ? ? ? ? ? ? ? ? cs']. cbn [children] in IHc.
        cbn [findObject uuid children traverse map].
        destruct (Nat.eqb_spec i id); [discriminate|].
        intros [K|K]; [contradiction|].
        induction cs' as [|c' cs' IHcs']; [destruct K|].
        inversion IHc as [|? ? Hc' Hrest']; subst.
        cbn [flat_map] in K. rewrite map_app, in_app_iff in K.
        destruct (findObject id c') eqn:E'; [discriminate|].
        destruct K as [K|K]; [now apply Hc' in K | now apply IHcs'].
Qed.

Lemma updateObject_twice (id : nat) (f g : Object3D -> Object3D) (o : Object3D) :
  (forall x, uuid (g x) = uuid x) ->
  updateObject id f (updateObject id g o) = updateObject id (fun x => f (g x)) o.
Proof.
  intros Hg.
  induction o as [o IH] using Object3D_children_ind.
  destruct o as [id' me gr p q s w geo mat cast pan cs]. cbn [children] in IH.
  cbn [updateObject uuid children].
  destruct (Nat.eqb_spec id' id) as [->|Hne].
  - set (o := mkObject3D id me gr p q s w geo mat cast pan cs).
    assert (E : uuid (g o) = id) by (now rewrite Hg).
    destruct (g o) as [i ? ? ? ? ? ? ? ? ? ? ?] eqn:Eg. cbn [uuid] in E. subst i.
    cbn [updateObject uuid]. now rewrite Nat.eqb_refl.
  - unfold withChildren. cbn [updateObject uuid children isMesh isGroup position quaternion
      scale matrixWorld geometry material castShadow userData_is2DPanel].
    rewrite (proj2 (Nat.eqb_neq id' id) Hne). unfold withChildren. cbn. f_equal.
    rewrite map_map.
    induction cs as [|c cs IHcs]; [reflexivity|].
    inversion IH as [|? ? Hc Hrest]; subst.
    cbn [map]. rewrite Hc. f_equal. now apply IHcs.
Qed.

Lemma findObject_root (id : nat) (o : Object3D) : uuid o = id -> findObject id o = Some o.
Proof.
  intros <-. destruct o as [i ? ? ? ? ? ? ? ? ? ? ?]. cbn [findObject uuid].
  now rewrite Nat.eqb_refl.
Qed.

Lemma findObject_updateObject (id : nat) (f : Object3D -> Object3D) (o : Object3D) :
  (forall x, uuid (f x) = uuid x) ->
  findObject id (updateObject id f o) = option_map f (findObject id o).
Proof.
  intros Hf.
  induction o as [o IH] using Object3D_children_ind.
  destruct o as [id' me gr p q s w geo mat cast pan cs]. cbn [children] in IH.
  cbn [updateObject findObject uuid children].
  destruct (Nat.eqb_spec id' id) as [->|Hne].
  -  cbn [option_map]. apply findObject_root. now rewrite Hf.
  - unfold withChildren. cbn [findObject uuid children].
    rewrite (proj2 (Nat.eqb_neq id' id) Hne).
    induction cs as [|c cs IHcs]; [reflexivity|].
    inversion IH as [|? ? Hc Hrest]; subst.
    cbn [map]. rewrite Hc. destruct (findObject id c); [reflexivity|].
    now apply IHcs.
Qed.

Lemma updateMatrixWorld_updateObject (id : nat) (f : Object3D -> Object3D) (o : Object3D) :
  (forall x, uuid (f x) = uuid x) ->
  (forall w x, updateMatrixWorld w (f x) = f (updateMatrixWorld w x)) ->
  forall w, updateMatrixWorld w (updateObject id f o)
            = updateObject id f (updateMatrixWorld w o).
Proof.
  intros Hu Hf.
  induction o as [o IH] using Object3D_children_ind.
  intros w0. destruct o as [id' me gr p q s w geo mat cast pan cs]. cbn [children] in IH.
  cbn [updateObject uuid children].
  destruct (Nat.eqb_spec id' id) as [->|Hne].
  - rewrite Hf. cbn [updateMatrixWorld updateObject uuid]. now rewrite Nat.eqb_refl.
  - unfold withChildren.
    cbn [updateMatrixWorld updateObject uuid children isMesh isGroup position quaternion
         scale matrixWorld geometry material castShadow userData_is2DPanel].
    rewrite (proj2 (Nat.eqb_neq id' id) Hne). unfold withChildren. cbn. f_equal.
    rewrite !map_map.
    induction cs as [|c cs IHcs]; [reflexivity|].
    inversion IH as [|? ? Hc Hrest]; subst.
    cbn [map]. rewrite Hc. f_equal. now apply IHcs.
Qed.

Lemma updateMatrixWorld_highlight (w : option Matrix4.t) (o : Object3D) :
  updateMatrixWorld w (highlight o) = highlight (updateMatrixWorld w o).
Proof.
  revert w. induction o as [o IH] using Object3D_children_ind.
  intros w0. destruct o as [id' me gr p q s w geo mat cast pan cs]. cbn [children] in IH.
  cbn [updateMatrixWorld highlight uuid children isMesh isGroup position quaternion
       scale matrixWorld geometry material castShadow userData_is2DPanel].
  f_equal. rewrite !map_map.
  induction cs as [|c cs IHcs]; [reflexivity|].
  inversion IH as [|? ? Hc Hrest]; subst.
  cbn [map]. rewrite Hc. f_equal. now apply IHcs.
Qed.

Lemma findObject_of_node (o : Object3D) :
  List.NoDup (uuids o) -> forall n, In n (traverse o) -> findObject (uuid n) o = Some n.
Proof.
  unfold uuids.
  induction o as [o IH] using Object3D_children_ind.
  destruct o as [id' me gr p q s w geo mat cast pan cs]. cbn [children] in IH.
  set (o := mkObject3D id' me gr p q s w geo mat cast pan cs).
  intros Hnd n Hn.
  change (traverse o) with (o :: flat_map traverse cs) in *.
  cbn [map] in Hnd. inversion Hnd as [|? ? Hroot Hcs]; subst.
  destruct Hn as [<-|Hn].
  - subst o. cbn [findObject uuid]. now rewrite Nat.eqb_refl.
  - assert (Hne : uuid o <> uuid n).
    { intros K. apply Hroot. cbn [uuid o] in K. rewrite K. now apply in_map. }
    subst o. cbn [findObject uuid children] in *.
    rewrite (proj2 (Nat.eqb_neq _ _) Hne).
    clear Hroot Hnd Hne.
    induction cs as [|c cs IHcs]; [destruct Hn|].
    inversion IH as [|? ? Hc Hrest]; subst.
    cbn [flat_map] in Hcs, Hn. rewrite map_app in Hcs. rewrite in_app_iff in Hn.
    destruct (NoDup_app_parts _ _ Hcs) as (N1 & N2 & N3).
    destruct Hn as [Hn|Hn].
    + now rewrite (Hc N1 n Hn).
    + rewrite findObject_None.
      * now apply IHcs.
      * unfold uuids. intros K. apply (N3 _ K). now apply in_map.
Qed.

Lemma pathTo_nodes (id : nat) (o : Object3D) :
  forall p, pathTo id o = Some p -> forall n, In n p -> In n (traverse o).
Proof.
  induction o as [o IH] using Object3D_children_ind.
  destruct o as [id' me gr p0 q s w geo mat cast pan cs]. cbn [children] in IH.
  set (o := mkObject3D id' me gr p0 q s w geo mat cast pan cs).
  intros p. change (traverse o) with (o :: flat_map traverse cs).
  subst o. cbn [pathTo uuid children].
  destruct (Nat.eqb id' id).
  - intros [= <-] n [<-|[]]. now left.
  - match goal with
    | |- option_map _ ?G = _ -> _ => destruct G as [p'|] eqn:E; [|discriminate]
    end.
    cbn [option_map]. intros [= <-] n Hn. apply in_app_iff in Hn as [Hn|[<-|[]]]; [|now left].
    right. clear -IH E Hn. revert E.
    induction cs as [|c cs IHcs]; [discriminate|].
    inversion IH as [|? ? Hc Hrest]; subst.
    cbn [flat_map]. rewrite in_app_iff.
    destruct (pathTo id c) as [pc|] eqn:Ec.
    + intros [= ->]. left. exact (Hc p' eq_refl n Hn).
    + intros E. right. now apply IHcs.
Qed.

Lemma uuids_updateObject (id : nat) (f : Object3D -> Object3D) (o : Object3D) :
  (forall x, uuids (f x) = uuids x) -> uuids (updateObject id f o) = uuids o.
Proof.
  unfold uuids. intros Hf.
  induction o as [o IH] using Object3D_children_ind.
  destruct o as [id' me gr p q s w geo mat cast pan cs]. cbn [children] in IH.
  cbn [updateObject uuid children].
  destruct (Nat.eqb id' id); [apply Hf|].
  unfold withChildren. cbn. f_equal.
  induction cs as [|c cs IHcs]; [reflexivity|].
  inversion IH as [|? ? Hc Hrest]; subst.
  cbn [map flat_map]. rewrite !map_app, Hc. f_equal. now apply IHcs.
Qed.

Lemma uuids_highlight (o : Object3D) : uuids (highlight o) = uuids o.
Proof.
  unfold uuids.
  induction o as [o IH] using Object3D_children_ind.
  destruct o as [id' me gr p q s w geo mat cast pan cs]. cbn [children] in IH.
  cbn. f_equal.
  induction cs as [|c cs IHcs]; [reflexivity|].
  inversion IH as [|? ? Hc Hrest]; subst.
  cbn [map flat_map]. rewrite !map_app, Hc. f_equal. now apply IHcs.
Qed.

Lemma uuids_withMaterial (m : Material) (o : Object3D) : uuids (withMaterial m o) = uuids o.
Proof. now destruct o. Qed.

Lemma restoreOriginalMaterials_keeps (id : nat) (b : bool) (st : State) :
  draggableObjects (restoreOriginalMaterials id b st) = draggableObjects st
  /\ localPivotToBBoxCenterOffsets (restoreOriginalMaterials id b st)
     = localPivotToBBoxCenterOffsets st
  /\ uuids (scene (restoreOriginalMaterials id b st)) = uuids (scene st)
  /\ intersectedObject (restoreOriginalMaterials id b st) = intersectedObject st.
Proof.
  unfold restoreOriginalMaterials. destruct b; [|auto].
  destruct (originalMaterials st !! id); [|auto].
  cbn [draggableObjects localPivotToBBoxCenterOffsets scene intersectedObject].
  repeat split. apply uuids_updateObject, uuids_withMaterial.
Qed.

(** X26: a pointer press never changes which objects exist or are
    draggable: the set of draggable objects, the offset cache and the
    identities of the nodes of the scene are as before.  After a press with a
    model loaded the orbit controls are enabled exactly when the press was not
    on a draggable object, and a press on a draggable object leaves that
    object selected. *)
Theorem pointer_down_invariants (hit : option nat) (st : State) (ptr : Pointer) :
  let st' := fst (onPointerDown hit st ptr) in
  let ptr' := snd (onPointerDown hit st ptr) in
  draggableObjects st' = draggableObjects st
  /\ localPivotToBBoxCenterOffsets st' = localPivotToBBoxCenterOffsets st
  /\ uuids (scene st') = uuids (scene st)
  /\ (modelContainer st <> None ->
      controlsEnabled ptr' = negb (pointerDownOnDraggable ptr')
      /\ (pointerDownOnDraggable ptr' = true ->
          exists id, intersectedObject st' = Some id /\ id ∈ draggableObjects st)).
Proof.
  cbv zeta. unfold onPointerDown.
  destruct (modelContainer st) as [mc|]; [|cbn [fst snd]; repeat split; congruence].
  set (st0 := withScene (updateMatrixWorld None (scene st)) st).
  assert (H0 : draggableObjects st0 = draggableObjects st
               /\ localPivotToBBoxCenterOffsets st0 = localPivotToBBoxCenterOffsets st
               /\ uuids (scene st0) = uuids (scene st)).
  { subst st0. cbn [withScene draggableObjects localPivotToBBoxCenterOffsets scene].
    repeat split. unfold uuids. apply uuids_updateMatrixWorld. }
  destruct H0 as (D0 & O0 & U0).
  match goal with
  | |- context [newSelectedObject ?d ?m ?c] => destruct (newSelectedObject d m c) as [sel|]
  end.
  - destruct (bool_decide (intersectedObject st0 = Some (uuid sel))) eqn:Same.
    + cbn [fst snd pointerDownOnDraggable controlsEnabled].
      apply bool_decide_eq_true in Same.
      repeat split; try assumption.
      intros Hd. apply bool_decide_eq_true in Hd. exists (uuid sel). now rewrite <- D0.
    + cbn [fst snd pointerDownOnDraggable controlsEnabled draggableObjects
           localPivotToBBoxCenterOffsets scene intersectedObject].
      set (st1 := match intersectedObject st0 with
                  | Some old => restoreOriginalMaterials old (isMeshAt old (scene st0)) st0
                  | None => st0
                  end).
      assert (H1 : draggableObjects st1 = draggableObjects st0
                   /\ localPivotToBBoxCenterOffsets st1 = localPivotToBBoxCenterOffsets st0
                   /\ uuids (scene st1) = uuids (scene st0)).
      { subst st1. destruct (intersectedObject st0) as [old|]; [|auto].
        destruct (restoreOriginalMaterials_keeps old (isMeshAt old (scene st0)) st0)
          as (? & ? & ? & _). auto. }
      destruct H1 as (D1 & O1 & U1).
      split; [congruence|]. split; [congruence|].
      split; [rewrite uuids_updateObject by apply uuids_highlight; congruence|].
      intros _. split; [reflexivity|].
      intros Hd. apply bool_decide_eq_true in Hd. exists (uuid sel).
      split; [reflexivity | now rewrite <- D0].
  - cbn [fst snd pointerDownOnDraggable controlsEnabled].
    assert (H1 : forall b, draggableObjects (hidePopups b st0) = draggableObjects st0
                   /\ localPivotToBBoxCenterOffsets (hidePopups b st0)
                      = localPivotToBBoxCenterOffsets st0
                   /\ uuids (scene (hidePopups b st0)) = uuids (scene st0)).
    { intros b. rewrite hidePopups_draggableObjects, hidePopups_offsets.
      split; [reflexivity|]. split; [reflexivity|].
      unfold hidePopups. cbn [scene].
      destruct (intersectedObject st0) as [old|]; [|reflexivity].
      now destruct (restoreOriginalMaterials_keeps old b st0) as (_ & _ & ? & _). }
    destruct (intersectedObject st0) as [old|].
    + destruct (H1 (isMeshAt old (scene st0))) as (? & ? & ?).
      split; [congruence|]. split; [congruence|]. split; [congruence|].
      intros _. split; [reflexivity | discriminate].
    + repeat split; try assumption. discriminate.
Qed.

Lemma savedMaterials_leaf (o : Object3D) :
  isMesh o = true -> children o = [] ->
  savedMaterials o = {[ uuid o := material o ]}.
Proof.
  intros Hm Hc. unfold savedMaterials.
  destruct o as [i me gr p q s w geo mat cast pan cs]. cbn in *. subst.
  cbn. now rewrite insert_empty.
Qed.

Lemma highlight_leaf (o : Object3D) :
  isMesh o = true -> children o = [] ->
  withMaterial (material o) (highlight o) = o.
Proof.
  intros Hm Hc. destruct o as [i me gr p q s w geo mat cast pan cs]. cbn in *. now subst.
Qed.

(** X27: selecting and deselecting leaves no trace: on a scene with up to
    date matrices, distinct node identities and nothing selected, a press
    that selects a mesh without children followed by a press on the background
    gives back the scene as it was, with nothing selected and no saved
    material; in between, the selected mesh carries the highlight material. *)
Theorem select_then_deselect (h mc : nat) (st : State) (ptr : Pointer)
    (chain : list Object3D) (sel : Object3D) :
  modelContainer st = Some mc ->
  updateMatrixWorld None (scene st) = scene st ->
  List.NoDup (uuids (scene st)) ->
  intersectedObject st = None ->
  pathTo h (scene st) = Some chain ->
  newSelectedObject (draggableObjects st) mc chain = Some sel ->
  isMesh sel = true -> children sel = [] ->
  let selected := onPointerDown (Some h) st ptr in
  let released := onPointerDown None (fst selected) (snd selected) in
  intersectedObject (fst selected) = Some (uuid sel)
  /\ findObject (uuid sel) (scene (fst selected)) = Some (highlight sel)
  /\ material (highlight sel) = highlightMaterial
  /\ scene (fst released) = scene st
  /\ intersectedObject (fst released) = None
  /\ originalMaterials (fst released) = ∅
  /\ snd released = mkPointer false true.
Proof.
  intros Hmc Hfresh Hnd Hnone Hpath Hsel Hmesh Hleaf selected released.
  assert (Hin : In sel (traverse (scene st))).
  { assert (In sel chain).
    { unfold newSelectedObject in Hsel. destruct chain as [|c rest]; [discriminate|].
      destruct (bool_decide _); [injection Hsel as <-; now left|].
      destruct (firstDraggableAncestor _ _ _) as [o|] eqn:F.
      - injection Hsel as <-.
        destruct (firstDraggableAncestor_spec _ _ _ _ F) as (b & a & -> & _).
        apply in_app_iff. right. now left.
      - destruct (isMesh c); [injection Hsel as <-; now left | discriminate]. }
    eapply pathTo_nodes; eassumption. }
  assert (Hfind : findObject (uuid sel) (scene st) = Some sel)
    by (now apply findObject_of_node).
  assert (Esel : selected
                 = (mkState (updateObject (uuid sel) highlight (scene st))
                            (Some mc) (baseModelContainer st) (draggableObjects st)
                            (localPivotToBBoxCenterOffsets st)
                            {[ uuid sel := material sel ]} (Some (uuid sel))
                            (coordinateModalShown st) true
                            (bool_decide (uuid sel ∈ draggableObjects st)) (alerts st),
                    mkPointer (bool_decide (uuid sel ∈ draggableObjects st))
                              (negb (bool_decide (uuid sel ∈ draggableObjects st))))).
  { subst selected. unfold onPointerDown. rewrite Hmc, Hfresh, withScene_same.
    rewrite Hpath, Hsel, Hnone.
    rewrite bool_decide_eq_false_2 by discriminate.
    rewrite Hfind, savedMaterials_leaf by assumption.
    cbn [modelContainer baseModelContainer draggableObjects localPivotToBBoxCenterOffsets
         coordinateModalShown alerts].
    now rewrite Hmc. }
  assert (Hfresh1 : updateMatrixWorld None (updateObject (uuid sel) highlight (scene st))
                    = updateObject (uuid sel) highlight (scene st)).
  { rewrite updateMatrixWorld_updateObject.
    - now rewrite Hfresh.
    - apply uuid_highlight.
    - intros w x. apply updateMatrixWorld_highlight. }
  assert (Hfind1 : findObject (uuid sel) (updateObject (uuid sel) highlight (scene st))
                   = Some (highlight sel)).
  { rewrite findObject_updateObject by apply uuid_highlight. now rewrite Hfind. }
  assert (Hhl : material (highlight sel) = highlightMaterial).
  { destruct sel. cbn in *. now rewrite Hmesh. }
  subst released. rewrite Esel. cbn [fst snd intersectedObject scene].
  split; [reflexivity|]. split; [exact Hfind1|]. split; [exact Hhl|].
  unfold onPointerDown. cbn [modelContainer withScene scene].
  rewrite Hfresh1. unfold withScene.
  cbn [newSelectedObject intersectedObject scene modelContainer
       baseModelContainer draggableObjects localPivotToBBoxCenterOffsets originalMaterials
       coordinateModalShown coordPopupShown shadowCoveragePopupShown alerts fst snd].
  unfold isMeshAt. rewrite Hfind1.
  replace (isMesh (highlight sel)) with true by (destruct sel; cbn in *; congruence).
  unfold hidePopups, restoreOriginalMaterials.
  cbn [intersectedObject originalMaterials scene fst snd].
  rewrite lookup_singleton_eq.
  cbn [scene intersectedObject originalMaterials].
  split.
  - rewrite updateObject_twice by apply uuid_highlight.
    apply (updateObject_fixed _ _ _ sel Hnd Hfind). now apply highlight_leaf.
  - split; [reflexivity|]. split; [apply delete_singleton_eq | reflexivity].
Qed.

(** The theorem on the small scene: the panel is pressed, then the
    background. *)
Lemma select_then_deselect_witness :
  let selected := onPointerDown (Some 3%nat) idleState (mkPointer false true) in
  let released := onPointerDown None (fst selected) (snd selected) in
  intersectedObject (fst selected) = Some 3%nat
  /\ scene (fst released) = smallScene
  /\ originalMaterials (fst released) = ∅.
Proof.
  intros selected released.
  assert (Hsel : newSelectedObject (draggableObjects idleState) 2
                   [smallPanel; plainNode 2 false true None [smallPanel];
                    plainNode 1 false true None [plainNode 2 false true None [smallPanel]];
                    smallScene]
                 = Some smallPanel).
  { unfold newSelectedObject. cbn [uuid smallPanel plainNode draggableObjects idleState].
    now rewrite (bool_decide_eq_true_2 (3%nat ∈ ({[ 3%nat ]} : gset nat))) by set_solver. }
  assert (Hnd : List.NoDup (uuids (scene idleState))).
  { unfold uuids. cbn. repeat constructor; simpl; intuition discriminate. }
  destruct (select_then_deselect 3 2 idleState (mkPointer false true) _ smallPanel
              eq_refl smallScene_up_to_date Hnd eq_refl eq_refl Hsel eq_refl eq_refl)
    as (H1 & _ & _ & H4 & _ & H6 & _).
  repeat split; assumption.
Defined.

(** ** Adding, selecting and deleting a panel *)

Lemma uuid_updateObject (id : nat) (f : Object3D -> Object3D) (o : Object3D) :
  (forall x, uuid (f x) = uuid x) -> uuid (updateObject id f o) = uuid o.
Proof.
  intros Hf. destruct o as [i ? ? ? ? ? ? ? ? ? ? cs]. cbn [updateObject uuid].
  destruct (Nat.eqb i id); [apply Hf | reflexivity].
Qed.

Lemma removeObject_absent (id : nat) (o : Object3D) :
  ~ In id (uuids o) -> removeObject id o = o.
Proof.
  unfold uuids.
  induction o as [o IH] using Object3D_children_ind.
  destruct o as [id' me g p q s w geo mat cast pan cs]. cbn [children] in IH.
  cbn [removeObject uuid children traverse map]. intros Hn.
  unfold withChildren. cbn. f_equal.
  assert (Hcs : ~ In id (map uuid (flat_map traverse cs))) by (intros K; apply Hn; now right).
  clear Hn. induction cs as [|c cs IHcs]; [reflexivity|].
  inversion IH as [|? ? Hc Hrest]; subst.
  cbn [flat_map] in Hcs. rewrite map_app, in_app_iff in Hcs.
  destruct (Nat.eqb_spec (uuid c) id) as [E|E].
  - exfalso. apply Hcs. left. destruct c; cbn in *. now left.
  - rewrite Hc by tauto. f_equal. apply IHcs; [exact Hrest | tauto].
Qed.

Lemma removeObject_added (pid : nat) (c o : Object3D) :
  ~ In (uuid c) (uuids o) -> removeObject (uuid c) (addObject pid c o) = o.
Proof.
  unfold uuids.
  induction o as [o IH] using Object3D_children_ind.
  destruct o as [id' me g p q s w geo mat cast pan cs]. cbn [children] in IH.
  cbn [addObject uuid children traverse map]. intros Hn.
  assert (Hcs : ~ In (uuid c) (map uuid (flat_map traverse cs)))
    by (intros K; apply Hn; now right).
  clear Hn.
  destruct (Nat.eqb id' pid).
  - unfold withChildren. cbn [removeObject children]. unfold withChildren. cbn. f_equal.
    induction cs as [|c0 cs IHcs].
    + cbn [app]. now rewrite Nat.eqb_refl.
    + cbn [flat_map] in Hcs. rewrite map_app, in_app_iff in Hcs. cbn [app].
      destruct (Nat.eqb_spec (uuid c0) (uuid c)) as [E|E].
      * exfalso. apply Hcs. left. destruct c0; cbn in *. now left.
      * rewrite removeObject_absent by (unfold uuids; tauto).
        f_equal. apply IHcs; [now inversion IH | tauto].
  - unfold withChildren. cbn [removeObject children]. unfold withChildren. cbn. f_equal.
    induction cs as [|c0 cs IHcs]; [reflexivity|].
    inversion IH as [|? ? Hc Hrest]; subst.
    cbn [flat_map] in Hcs. rewrite map_app, in_app_iff in Hcs. cbn [map].
    assert (Eu : uuid (addObject pid c c0) = uuid c0).
    { destruct c0 as [i ? ? ? ? ? ? ? ? ? ? ?]. cbn [addObject uuid].
      destruct (Nat.eqb i pid); reflexivity. }
    rewrite Eu.
    destruct (Nat.eqb_spec (uuid c0) (uuid c)) as [E|E].
    + exfalso. apply Hcs. left. destruct c0; cbn in *. now left.
    + rewrite Hc by tauto. f_equal. apply IHcs; [exact Hrest | tauto].
Qed.

Lemma removeObject_updateObject (id : nat) (f : Object3D -> Object3D) (o : Object3D) :
  (forall x, uuid (f x) = uuid x) -> uuid o <> id ->
  removeObject id (updateObject id f o) = removeObject id o.
Proof.
  intros Hf.
  induction o as [o IH] using Object3D_children_ind.
  destruct o as [id' me g p q s w geo mat cast pan cs]. cbn [children] in IH.
  cbn [updateObject uuid children]. intros Hne.
  rewrite (proj2 (Nat.eqb_neq id' id) Hne).
  unfold withChildren. cbn [removeObject children]. unfold withChildren. cbn. f_equal.
  induction cs as [|c cs IHcs]; [reflexivity|].
  inversion IH as [|? ? Hc Hrest]; subst.
  cbn [map]. rewrite uuid_updateObject by exact Hf.
  destruct (Nat.eqb_spec (uuid c) id) as [E|E]; [now apply IHcs|].
  rewrite (Hc E). f_equal. now apply IHcs.
Qed.

Lemma removeObject_updateMatrixWorld (id : nat) (o : Object3D) :
  forall w, removeObject id (updateMatrixWorld w o) = updateMatrixWorld w (removeObject id o).
Proof.
  induction o as [o IH] using Object3D_children_ind.
  intros w0. destruct o as [id' me g p q s w geo mat cast pan cs]. cbn [children] in IH.
  cbn [updateMatrixWorld removeObject children].
  unfold withChildren.
  cbn [updateMatrixWorld uuid children isMesh isGroup position quaternion
       scale matrixWorld geometry material castShadow userData_is2DPanel].
  f_equal.
  match goal with
  | |- context [map (updateMatrixWorld (Some ?W)) cs] => generalize W
  end.
  intros W.
  induction cs as [|c cs IHcs]; [reflexivity|].
  inversion IH as [|? ? Hc Hrest]; subst.
  cbn [map]. rewrite uuid_updateMatrixWorld.
  destruct (Nat.eqb (uuid c) id); [now apply IHcs|].
  cbn [map]. rewrite Hc. f_equal. now apply IHcs.
Qed.

(** *** The parent of a node depends on the hierarchy only *)

Lemma uuid_skeleton (o : Object3D) : uuid (skeleton o) = uuid o.
Proof. now destruct o. Qed.

Lemma existsb_uuid_map (id : nat) (f : Object3D -> Object3D) (cs : list Object3D) :
  (forall x, uuid (f x) = uuid x) ->
  existsb (fun c => Nat.eqb (uuid c) id) (map f cs)
  = existsb (fun c => Nat.eqb (uuid c) id) cs.
Proof.
  intros Hf. induction cs as [|c cs IH]; [reflexivity|].
  cbn [map existsb]. now rewrite Hf, IH.
Qed.

Lemma parentOf_skeleton (id : nat) (o : Object3D) :
  option_map uuid (parentOf id (skeleton o)) = option_map uuid (parentOf id o).
Proof.
  induction o as [o IH] using Object3D_children_ind.
  destruct o as [id' me g p q s w geo mat cast pan cs]. cbn [children] in IH.
  cbn [skeleton parentOf children uuid].
  rewrite existsb_uuid_map by apply uuid_skeleton.
  destruct (existsb _ cs); [reflexivity|].
  induction cs as [|c cs IHcs]; [reflexivity|].
  inversion IH as [|? ? Hc Hrest]; subst.
  cbn [map].
  destruct (parentOf id (skeleton c)) as [r|], (parentOf id c) as [r'|];
    cbn [option_map] in Hc; try discriminate; [exact Hc | now apply IHcs].
Qed.

Lemma skeleton_updateMatrixWorld (o : Object3D) :
  forall w, skeleton (updateMatrixWorld w o) = skeleton o.
Proof.
  induction o as [o IH] using Object3D_children_ind.
  intros w0. destruct o as [id' me g p q s w geo mat cast pan cs]. cbn [children] in IH.
  cbn [updateMatrixWorld skeleton uuid children]. f_equal. rewrite map_map.
  match goal with
  | |- context [updateMatrixWorld (Some ?W)] => generalize W
  end.
  intros W. induction cs as [|c cs IHcs]; [reflexivity|].
  inversion IH as [|? ? Hc Hrest]; subst.
  cbn [map]. rewrite Hc. f_equal. now apply IHcs.
Qed.

Lemma skeleton_highlight (o : Object3D) : skeleton (highlight o) = skeleton o.
Proof.
  induction o as [o IH] using Object3D_children_ind.
  destruct o as [id' me g p q s w geo mat cast pan cs]. cbn [children] in IH.
  cbn [highlight skeleton uuid children]. f_equal. rewrite map_map.
  induction cs as [|c cs IHcs]; [reflexivity|].
  inversion IH as [|? ? Hc Hrest]; subst.
  cbn [map]. rewrite Hc. f_equal. now apply IHcs.
Qed.

Lemma skeleton_updateObject (id : nat) (f : Object3D -> Object3D) (o : Object3D) :
  (forall x, skeleton (f x) = skeleton x) -> skeleton (updateObject id f o) = skeleton o.
Proof.
  intros Hf.
  induction o as [o IH] using Object3D_children_ind.
  destruct o as [id' me g p q s w geo mat cast pan cs]. cbn [children] in IH.
  cbn [updateObject uuid children].
  destruct (Nat.eqb id' id); [apply Hf|].
  unfold withChildren. cbn [skeleton uuid children]. f_equal. rewrite map_map.
  induction cs as [|c cs IHcs]; [reflexivity|].
  inversion IH as [|? ? Hc Hrest]; subst.
  cbn [map]. rewrite Hc. f_equal. now apply IHcs.
Qed.

Lemma uuid_addObject (pid : nat) (c o : Object3D) : uuid (addObject pid c o) = uuid o.
Proof.
  destruct o as [i ? ? ? ? ? ? ? ? ? ? ?]. cbn [addObject uuid].
  destruct (Nat.eqb i pid); reflexivity.
Qed.

(** The parent of a node added under [pid] is called [pid]. *)
Lemma parentOf_added (pid : nat) (c o : Object3D) :
  ~ In (uuid c) (uuids o) ->
  option_map uuid (parentOf (uuid c) (addObject pid c o))
  = option_map (fun _ => pid) (findObject pid o).
Proof.
  unfold uuids.
  induction o as [o IH] using Object3D_children_ind.
  destruct o as [id' me g p q s w geo mat cast pan cs]. cbn [children] in IH.
  cbn [addObject findObject uuid children traverse map]. intros Hn.
  assert (Hcs : ~ In (uuid c) (map uuid (flat_map traverse cs)))
    by (intros K; apply Hn; now right).
  clear Hn.
  destruct (Nat.eqb_spec id' pid) as [->|Hp].
  - unfold withChildren. cbn [parentOf children].
    rewrite existsb_app. cbn [existsb]. rewrite Nat.eqb_refl, orb_true_r. reflexivity.
  - unfold withChildren. cbn [parentOf children].
    rewrite existsb_uuid_map by (intros x; apply uuid_addObject).
    assert (Hex : existsb (fun c0 => Nat.eqb (uuid c0) (uuid c)) cs = false).
    { apply not_true_is_false. intros K. apply existsb_exists in K as (x & Hx & Ex).
      apply Nat.eqb_eq in Ex. apply Hcs. rewrite <- Ex. apply in_map.
      apply in_flat_map. exists x. split; [exact Hx|]. destruct x; now left. }
    rewrite Hex.
    induction cs as [|c0 cs IHcs]; [reflexivity|].
    inversion IH as [|? ? Hc Hrest]; subst.
    cbn [flat_map] in Hcs. rewrite map_app, in_app_iff in Hcs.
    cbn [existsb] in Hex. apply orb_false_elim in Hex as [_ Hex].
    cbn [map].
    assert (Hc' := Hc (fun K => Hcs (or_introl K))).
    destruct (parentOf (uuid c) (addObject pid c c0)) as [r|], (findObject pid c0) as [r'|];
      cbn [option_map] in Hc'; try discriminate; [exact Hc'|].
    apply IHcs; [exact Hrest | tauto | exact Hex].
Qed.

Lemma pathTo_found (id : nat) (o : Object3D) :
  forall n, findObject id o = Some n -> exists rest, pathTo id o = Some (n :: rest).
Proof.
  induction o as [o IH] using Object3D_children_ind.
  destruct o as [id' me g p q s w geo mat cast pan cs]. cbn [children] in IH.
  intros n. cbn [findObject pathTo uuid children].
  destruct (Nat.eqb id' id).
  - intros [= <-]. now exists [].
  - intros H.
    enough (exists rest,
              (fix go (cs0 : list Object3D) : option (list Object3D) :=
                 match cs0 with
                 | [] => None
                 | c :: cs' => match pathTo id c with
                               | Some p0 => Some p0
                               | None => go cs'
                               end
                 end) cs = Some (n :: rest)) as (rest & ->)
      by (cbn [option_map app]; eauto).
    induction cs as [|c cs IHcs]; [discriminate|].
    inversion IH as [|? ? Hc Hrest]; subst.
    destruct (findObject id c) as [r|] eqn:E.
    + injection H as ->. destruct (Hc n eq_refl) as (rest & ->). eauto.
    + destruct (pathTo id c) as [pc|] eqn:Ep; [|now apply IHcs].
      exfalso.
      assert (K : forall o' p', pathTo id o' = Some p' -> findObject id o' <> None).
      { clear. intros o'.
        induction o' as [o' IH'] using Object3D_children_ind.
        destruct o' as [i ? ? ? ? ? ? ? ? ? ? cs']. cbn [children] in IH'.
        intros p'. cbn [findObject pathTo uuid children].
        destruct (Nat.eqb i id); [discriminate|].
        intros Hp.
        match type of Hp with
        | option_map _ ?G = _ => assert (Hg : G <> None) by (destruct G; discriminate)
        end.
        clear Hp. revert Hg.
        induction cs' as [|c' cs' IHcs'']; [intros Hg; now exfalso; apply Hg|].
        inversion IH' as [|? ? Hc' Hrest']; subst.
        destruct (pathTo id c') as [pc'|] eqn:Ec'.
        - intros _. specialize (Hc' pc' eq_refl).
          destruct (findObject id c'); [discriminate | contradiction].
        - intros Hg. destruct (findObject id c'); [discriminate|].
          now apply IHcs''. }
      now apply (K c pc Ep).
Qed.

Lemma hidePopups_scene_absent (b : bool) (st : State) (id : nat) :
  intersectedObject st = Some id -> ~ In id (uuids (scene st)) ->
  scene (hidePopups b st) = scene st.
Proof.
  intros Hi Hn. unfold hidePopups, restoreOriginalMaterials. rewrite Hi.
  destruct b; [|reflexivity].
  destruct (originalMaterials st !! id); [|reflexivity].
  cbn [scene]. now apply updateObject_absent.
Qed.

Lemma root_uuid_in (o : Object3D) : In (uuid o) (uuids o).
Proof. destruct o. now left. Qed.

(** X28: a panel that is added, selected and deleted leaves the viewer as
    it was: when a model container is set, nothing is selected and the
    identity of the new mesh is new, an accepted panel form followed by a
    press on the new panel and a confirmed deletion gives back the scene graph
    (with its world matrices refreshed), the set of draggable objects and the
    offset cache of the start, with nothing selected. *)
Theorem add_select_delete_round_trip (q1 q2 q3 q4 : Vector3.t) (newId mc : nat)
    (st : State) (ptr : Pointer) (container base : Object3D) :
  modelContainer st = Some mc ->
  ~ In newId (uuids (scene st)) ->
  newId ∉ draggableObjects st ->
  localPivotToBBoxCenterOffsets st !! newId = None ->
  intersectedObject st = None ->
  findObject mc (updateMatrixWorld None (scene st)) = Some container ->
  findObject (baseModelContainer st) (updateMatrixWorld None (scene st)) = Some base ->
  validatePanel (applyMatrix4 q1 (Matrix4.invert (matrixWorld base)))
                (applyMatrix4 q2 (Matrix4.invert (matrixWorld base)))
                (applyMatrix4 q3 (Matrix4.invert (matrixWorld base)))
                (applyMatrix4 q4 (Matrix4.invert (matrixWorld base))) = Accept ->
  let added := addObjectToScene (panelForm q1 q2 q3 q4) newId st in
  let selected := fst (onPointerDown (Some newId) added ptr) in
  let deleted := deleteSelectedObject true selected in
  newId ∈ draggableObjects added
  /\ intersectedObject selected = Some newId
  /\ scene deleted = updateMatrixWorld None (scene st)
  /\ draggableObjects deleted = draggableObjects st
  /\ localPivotToBBoxCenterOffsets deleted = localPivotToBBoxCenterOffsets st
  /\ intersectedObject deleted = None.
Proof.
  intros Hmc Hfresh Hdrag Hoff Hnone Hcont Hbase Hok added selected deleted.
  set (inv := Matrix4.invert (matrixWorld base)) in *.
  set (c := customPanel newId (applyMatrix4 q1 inv) (applyMatrix4 q2 inv)
                        (applyMatrix4 q3 inv) (applyMatrix4 q4 inv)).
  set (S1 := updateMatrixWorld None (scene st)) in *.
  set (sceneA := updateMatrixWorld None (addObject mc c S1)).
  assert (Hc : uuid c = newId) by reflexivity.
  assert (Hfresh1 : ~ In (uuid c) (uuids S1)).
  { rewrite Hc. subst S1. unfold uuids in *. now rewrite uuids_updateMatrixWorld. }
  (* the state after the panel is added *)
  assert (Eadd : exists off om,
             added = mkState sceneA (Some mc) (baseModelContainer st)
                             ({[ newId ]} ∪ draggableObjects st)
                             (<[ newId := off ]> (localPivotToBBoxCenterOffsets st))
                             om None false (coordPopupShown st)
                             (shadowCoveragePopupShown st)
                             (alerts st ++ [AlertPanelAdded])).
  { subst added. unfold addObjectToScene, panelForm.
    rewrite !pointOfFields_numberFields.
    cbn [withScene scene baseModelContainer modelContainer].
    fold S1. rewrite Hbase. fold inv. rewrite Hok, Hmc.
    unfold pushAlert, withScene.
    cbn [scene draggableObjects alerts localPivotToBBoxCenterOffsets
         originalMaterials intersectedObject coordinateModalShown coordPopupShown
         shadowCoveragePopupShown modelContainer baseModelContainer].
    rewrite Hnone. eexists _, _. reflexivity. }
  destruct Eadd as (off & om & Eadd).
  (* the new node in the scene *)
  assert (Hfound : findObject newId sceneA
                   = Some (updateMatrixWorld (Some (matrixWorld container)) c)).
  { subst sceneA. rewrite <- Hc. rewrite findObject_added by exact Hfresh1.
    unfold S1. rewrite updateMatrixWorld_idem. fold S1. now rewrite Hcont. }
  set (node := updateMatrixWorld (Some (matrixWorld container)) c) in *.
  assert (Hnode : uuid node = newId) by reflexivity.
  destruct (pathTo_found newId sceneA node Hfound) as (rest & Hpath).
  (* the state after the press *)
  assert (Esel : exists om' sh,
             selected = mkState (updateObject newId highlight sceneA) (Some mc)
                                (baseModelContainer st)
                                ({[ newId ]} ∪ draggableObjects st)
                                (<[ newId := off ]> (localPivotToBBoxCenterOffsets st))
                                om' (Some newId) false true sh
                                (alerts st ++ [AlertPanelAdded])).
  { subst selected. rewrite Eadd. unfold onPointerDown.
    cbn [modelContainer scene].
    assert (HfreshA : updateMatrixWorld None sceneA = sceneA)
      by (unfold sceneA; apply updateMatrixWorld_idem).
    rewrite !HfreshA. unfold withScene.
    cbn [scene modelContainer baseModelContainer draggableObjects
         localPivotToBBoxCenterOffsets originalMaterials intersectedObject
         coordinateModalShown coordPopupShown shadowCoveragePopupShown alerts].
    rewrite Hpath.
    unfold newSelectedObject. rewrite Hnode.
    rewrite (bool_decide_eq_true_2 (newId ∈ {[ newId ]} ∪ draggableObjects st))
      by set_solver.
    rewrite bool_decide_eq_false_2 by discriminate.
    cbn [fst scene modelContainer baseModelContainer draggableObjects
         localPivotToBBoxCenterOffsets coordinateModalShown alerts].
    eexists _, _. reflexivity. }
  destruct Esel as (om' & sh & Esel).
  set (sceneS := updateObject newId highlight sceneA) in *.
  (* the parent of the new node is the model container *)
  assert (Hparent : exists pg, parentOf newId sceneS = Some pg /\ uuid pg = mc).
  { assert (E : option_map uuid (parentOf newId sceneS) = Some mc).
    { rewrite <- parentOf_skeleton. subst sceneS sceneA.
      rewrite skeleton_updateObject by apply skeleton_highlight.
      rewrite skeleton_updateMatrixWorld, parentOf_skeleton.
      rewrite <- Hc, parentOf_added by exact Hfresh1.
      now rewrite Hcont. }
    destruct (parentOf newId sceneS) as [pg|]; [|discriminate].
    exists pg. split; [reflexivity | now injection E]. }
  destruct Hparent as (pg & Hpg & Hpgmc).
  assert (Hroot : uuid sceneS <> newId).
  { subst sceneS sceneA. rewrite uuid_updateObject by apply uuid_highlight.
    rewrite uuid_updateMatrixWorld, uuid_addObject. unfold S1.
    rewrite uuid_updateMatrixWorld. intros K. apply Hfresh. rewrite <- K.
    apply root_uuid_in. }
  assert (Hgone : ~ In newId (uuids (removeObject newId sceneS)))
    by (now apply removeObject_gone).
  assert (Hscene : updateMatrixWorld None (removeObject newId sceneS) = S1).
  { subst sceneS. rewrite removeObject_updateObject; [|apply uuid_highlight|].
    - subst sceneA. rewrite removeObject_updateMatrixWorld, updateMatrixWorld_idem.
      rewrite <- Hc, removeObject_added by exact Hfresh1.
      subst S1. apply updateMatrixWorld_idem.
    - subst sceneA. rewrite uuid_updateMatrixWorld, uuid_addObject. unfold S1.
      rewrite uuid_updateMatrixWorld. intros K. apply Hfresh. rewrite <- K.
      apply root_uuid_in. }
  split; [rewrite Eadd; cbn [draggableObjects]; set_solver|].
  split; [now rewrite Esel|].
  subst deleted. rewrite Esel. unfold deleteSelectedObject.
  cbn [intersectedObject scene modelContainer baseModelContainer draggableObjects
       localPivotToBBoxCenterOffsets originalMaterials coordinateModalShown
       coordPopupShown shadowCoveragePopupShown alerts].
  rewrite Hpg, Hpgmc.
  rewrite (bool_decide_eq_true_2 (Some mc = Some mc)) by reflexivity.
  cbn [negb andb].
  cbn [withScene scene draggableObjects localPivotToBBoxCenterOffsets intersectedObject].
  rewrite hidePopups_draggableObjects, hidePopups_offsets.
  cbn [draggableObjects localPivotToBBoxCenterOffsets].
  rewrite (hidePopups_scene_absent _ _ newId) by (cbn [intersectedObject scene]; auto).
  cbn [scene].
  split; [exact Hscene|].
  split; [set_solver|].
  split; [now apply delete_insert_id | reflexivity].
Qed.

(** The theorem on the small scene: the unit square is added as node 4,
    pressed and deleted. *)
Lemma add_select_delete_round_trip_witness :
  let added :=
    addObjectToScene (panelForm (vec3 0 0 0) (vec3 1 0 0) (vec3 1 1 0) (vec3 0 1 0))
                     4%nat idleState in
  let selected := fst (onPointerDown (Some 4%nat) added (mkPointer false true)) in
  let deleted := deleteSelectedObject true selected in
  4%nat ∈ draggableObjects added
  /\ scene deleted = updateMatrixWorld None (scene idleState)
  /\ draggableObjects deleted = draggableObjects idleState.
Proof.
  intros added selected deleted.
  assert (H1 : ~ In 4%nat (uuids (scene idleState))).
  { unfold uuids. simpl. intros K. repeat (destruct K as [K|K]; [discriminate|]).
    exact K. }
  assert (H2 : 4%nat ∉ draggableObjects idleState) by (cbn; set_solver).
  assert (H3 : findObject 2 (updateMatrixWorld None (scene idleState))
               = Some (plainNode 2 false true None [smallPanel])).
  { cbn [scene idleState]. rewrite smallScene_up_to_date. reflexivity. }
  assert (H4 : findObject (baseModelContainer idleState)
                 (updateMatrixWorld None (scene idleState))
               = Some (plainNode 1 false true None
                         [plainNode 2 false true None [smallPanel]])).
  { cbn [scene idleState]. rewrite smallScene_up_to_date. reflexivity. }
  assert (H5 : validatePanel
                 (applyMatrix4 (vec3 0 0 0) (Matrix4.invert Matrix4.identity))
                 (applyMatrix4 (vec3 1 0 0) (Matrix4.invert Matrix4.identity))
                 (applyMatrix4 (vec3 1 1 0) (Matrix4.invert Matrix4.identity))
                 (applyMatrix4 (vec3 0 1 0) (Matrix4.invert Matrix4.identity)) = Accept).
  { rewrite invert_identity, !applyMatrix4_identity. apply validatePanel_square. }
  destruct (add_select_delete_round_trip (vec3 0 0 0) (vec3 1 0 0) (vec3 1 1 0)
              (vec3 0 1 0) 4%nat 2%nat idleState (mkPointer false true) _ _
              eq_refl H1 H2 (lookup_empty _) eq_refl H3 H4 H5)
    as (K1 & _ & K3 & K4 & _).
  repeat split; assumption.
Defined.

(** ** Coordinate popup *)

Lemma coordText_small (w : R) : Rabs w < 0.005 -> coordText w = "0.00"%string.
Proof.
  intros H. unfold coordText. rewrite (proj2 (Rltb_true _ _) H).
  change 0 with (IZR 0). rewrite toFixed_IZR. vm_compute. reflexivity.
Qed.


(** ** Thresholds of the classifier *)

(** X30: widening the thresholds never loses a candidate: a node the first
    pass accepts between [minT] and [maxT] is accepted for every smaller
    minimum and larger maximum, so the candidate list for the narrower
    thresholds is a sublist of the one for the wider thresholds. *)
Theorem wider_thresholds_keep_candidates (maxT minT maxT' minT' : R)
    (rootObject : Object3D) :
  maxT <= maxT' -> minT' <= minT ->
  (forall o, firstPassCallback maxT minT o = true -> firstPassCallback maxT' minT' o = true)
  /\ sublist (objectsToProcessForDraggability rootObject maxT minT)
             (objectsToProcessForDraggability rootObject maxT' minT').
Proof.
  intros Hmax Hmin.
  assert (M : forall o, firstPassCallback maxT minT o = true ->
                        firstPassCallback maxT' minT' o = true).
  { intros o. unfold firstPassCallback.
    destruct (isMesh o && userData_is2DPanel o); [auto|].
    destruct (negb (isMesh o) && negb (isGroup o)); [auto|].
    destruct (negb (containsMesh o)); [auto|].
    destruct (emptyOrPoint _); [auto|].
    intros H. apply andb_prop in H as [H1 H2].
    apply Rleb_true in H1. apply Rgeb_true in H2.
    apply andb_true_intro. split; [apply Rleb_true | apply Rgeb_true]; lra. }
  split; [exact M|].
  unfold objectsToProcessForDraggability.
  induction (tail (traverse rootObject)) as [|o l IH]; [constructor|].
  rewrite !filter_cons.
  destruct (decide (firstPassCallback maxT minT o = true)) as [E|E].
  - rewrite decide_True by (now apply M). now constructor.
  - destruct (decide (firstPassCallback maxT' minT' o = true)); [|exact IH].
    now constructor.
Qed.

Lemma wider_thresholds_keep_candidates_witness :
  firstPassCallback 2 0.05 (rigidUnit 0.3 0.3 0.1) = true.
Proof.
  assert (H1 : 1.2 <= 2) by lra.
  assert (H2 : 0.05 <= 0.1) by lra.
  apply (proj1 (wider_thresholds_keep_candidates 1.2 0.1 2 0.05 smallScene H1 H2)).
  rewrite firstPassCallback_rigidUnit by lra.
  unfold Math_max3, Math_min3, Rmax, Rmin. Rdecide; reflexivity.
Defined.
